(* ===== verification/_CoqProject ===== *)
-Q . S2P
Prelude.v
Text.v
Float64.v
Layout.v
Io.v
Common.v
Tracepoint.v
Probe.v
Resolve.v
Utf8.v
Log.v
Seams.v
Source.v
Health.v
Prometheus.v
Metrics.v
Eviction.v
Sweep.v
Recording.v
Ledger.v
Arity.v
Concurrency.v
Regex.v
Cgroup.v
Kubernetes.v
PodCache.v
Reflector.v
Watch.v
Attribution.v
Pipeline.v
EndToEnd.v
Main.v
Process.v
BuildScript.v
MetricsTests.v
KubernetesTests.v
Tests.v
