(* ===== verification/Prelude.v ===== *)
(** * A verification of the eBPF OOM watcher

    The program is a DaemonSet that counts the processes the kernel's OOM killer kills on a
    node. An eBPF probe ([src/oom-watcher-ebpf]) on the tracepoint [oom:mark_victim] copies
    each victim's record into a ring buffer; a userspace process ([src/oom-watcher]) drains
    it, finds the container of the victim from its cgroup file and a cache of the node's
    pods, and exports counters and gauges to Prometheus. [src/oom-watcher-common] holds the
    data both sides share.

    ** The parts and the files that model them

    - Data. [Common]: the raw event with its [#[repr(C)]] memory, the container identity, the
      enriched event ([oom-watcher-common/src/lib.rs]).
    - Probe. [Probe]: [MarkVictimArgs] and the whole program [mark_victim], over the BPF
      helpers and the ring buffer, which are interfaces ([oom-watcher-ebpf/src/main.rs]).
    - Startup check. [Tracepoint]: the parser of the kernel's [format] file, the comparison
      with the layout the probe decodes, and the decision to start
      ([oom-watcher/src/tracepoint.rs]).
    - Source. [Source]: [RingBufSource], brought up, drained and polled, and [ParkSource]
      ([source.rs]); [Seams]: the traits [OomEventSource] and [MetricsRecorder] as classes,
      with the adapters of the tests.
    - Resolution. [Resolve]: outcomes, the trait [ContainerResolver], enrichment
      ([resolve.rs], [enrich.rs]). [Regex] and [Cgroup]: the three patterns that find a
      container id in a cgroup file; [Kubernetes]: matching an id against pod statuses;
      [PodCache]: the cache, its deletion reports and the in-cluster resolver; [Reflector]:
      the task that feeds the cache from the watch stream ([kubernetes.rs]); [Attribution]:
      resolution and recording composed, the series a kill lands on.
    - Metrics. [Prometheus]: the interface of the metrics library and a finite-map instance;
      [Metrics]: the collector's state and operations; [Eviction]: the tracking invariant and
      the lemmas on sweeps; [Sweep] and [Recording]: the contracts of eviction and of
      recording over whole histories; [Ledger]: a specification of which kills the series
      describe, which the collector refines; [Arity]: no call into the library panics;
      [Concurrency]: the watch loop, the sweeper and the pod watch interleaved on one
      collector ([metrics.rs]).
    - Liveness and HTTP. [Health]: the heartbeat, the verdict, the probe's answer, and the
      interleaving of stamps with probes ([health.rs], [http.rs]).
    - Loop and process. [Watch]: [run] and [process_event], [Log]: [log_event] and the other
      log lines of an event, over the UTF-8 decoder of [Utf8] ([watch.rs]); [Pipeline]: the
      loop recording into the collector beside the sweeper; [EndToEnd]: probe, ring buffer,
      source, loop and collector composed; [Main]: configuration, startup order and
      supervision; [Process]: the event processor task and what its end means ([main.rs]).
    - Build. [BuildScript]: how the probe is built and embedded ([oom-watcher/build.rs],
      [oom-watcher-ebpf/build.rs]).
    - Test suites. [MetricsTests], [KubernetesTests], [Tests]: the program's own tests, as
      booleans evaluated on the model.
    - Foundations. [Prelude], [Text] (the operations of Rust's [str]), [Float64] (the
      integral [f64] values metrics hold, with rounding), [Layout] (C struct layouts and
      little-endian bytes), [Io] (results, errors, files).

    ** How the code is represented

    A method is a function of the state it reads and returns the state it writes; an [async]
    call is a poll over the world it waits for; a trait is a class, and what the loop proves
    about a trait it proves for every instance. Unsigned integers are [N] with the wrap,
    saturation or failure of each operation written out; [u64] as [f64] rounds to nearest,
    ties to even, at 53 bits; strings are lists of Unicode scalar values; hash maps are
    finite maps, and where the code iterates one, the order is shown not to matter. Code that
    is not in the repository is a parameter with the documented behaviour the code relies on
    as laws, each with an instance that meets them: the BPF helpers and ring buffer
    ([BpfHelpers], [RingBuf], [RingConsumer]), the metrics library ([MetricVec]), the regex
    engine ([RegexEngine]), the writer of the pod reflector ([Reflector]); the loader, the
    reactor, cargo and the file system are inputs.

    ** What the theorems show

    - Data path: an accepted layout makes the probe read exactly the declared bytes; every
      firing is queued or counted as dropped; a queued record decodes to the event; the
      source hands out the event of every record once, in order, up to a failure of
      readiness, and may be cancelled at any wait; the
      loop records every event it takes once, in order, and every recorder undergoes the same
      calls. Composed ([EndToEnd]): under any interleaving of firings and reads, the events
      recorded, pending in the source and waiting in the ring buffer are those the probe
      queued, the exported node total is the number recorded, and with the drops counted they
      are the trace entries read.
    - Resolution: an id is found exactly when the file has a delimited one, with the stated
      precedence; the identity is verbatim that of a status naming the id; an unsynced cache
      or an unreadable file is an error, never a miss; the cache answers from the pods the
      watch stream describes, relists and deletions included, and a pod is gone from it when
      its deletion is reported. Composed ([Attribution]): a kill raises exactly the counter
      of the container the process ran in and touches no other series, and one nothing
      resolves is still counted, under its reason.
    - Metrics: over any history, sweeps included, each kill counter is the number of the
      label set's kills in a ledger from which a sweep strikes what is stale, and each memory
      gauge is the peak in bytes of its container's ([Ledger]); bookkeeping and exported
      series never diverge; a sweep removes exactly what is stale, bounds cardinality,
      respects a deleted pod's grace whatever runs in between, and is late by less than one
      interval; and whatever the history, every call passes a family
      one value per declared label.
    - Concurrency: under any interleaving no series leaks and no removal hits a label set
      tracked after the scan; looking a series up and updating it are separate steps, and the
      uninterrupted steps are the operations, up to what can be observed.
    - Process: which ends of which task make the process fail, a dead source included; the name a kill is logged
      under; a build that returns has embedded the probe it just built.
    - Limits: three theorems state behaviour the comments deny or do not mention: a
      recreated pod's series is removed with its predecessor's
      ([Sweep.recreated_pod_series_is_removed]), a sweep inside a recording loses its
      increment ([Concurrency.sweep_inside_a_recording_loses_the_kill]), and a dropped total
      that dips and recovers is counted twice
      ([Recording.dropped_counter_sums_the_rises], which is stated over any readings).

    ** Bounds

    There is no fuel in the modelled code except the list of inputs it consumes: readiness
    answers for [Source.next], turns of the reactor for [Watch.run], both arbitrary.
    [Text.show_digits] has fuel for one more digit than the binary length of its argument
    ([Text.parse_show_N] shows it is enough). Counters are exact up to [2^53], figures
    convert without overflow below [2^54] kilobytes, and the statements say so.

    ** What is not modelled

    Charts, manifests and shell scripts; the HTTP server's transport; task spawning and
    abortion; log lines other than those of one event, and the diagnostics the build scripts
    print; memory orderings weaker than interleaving; the reactor's readiness flag
    ([clear_ready] of the ring buffer's guard), of which only the answers to successive waits
    appear. The two mutexes are modelled by the critical sections they delimit, so poisoning,
    which the code recovers from, is not a state of the model. *)

(** ** This file: shared arithmetic, list and option lemmas, notation, automation *)
From stdpp Require Export base tactics option list numbers gmap strings.
From Stdlib Require Export NArith ZArith Lia.

#[global] Open Scope N_scope.

(** ** Hint databases and tactics of the development *)

Create HintDb oom discriminated.
Create Rewrite HintDb oom_rw.

(** Case analysis on every [decide], [match] and boolean comparison of the goal. *)
Ltac split_cases :=
  repeat (case_decide || case_match); simplify_eq/=; try done.

(** Turn boolean arithmetic comparisons into propositions, then call [lia]. *)
Ltac bool_lia :=
  repeat match goal with
  | H : (_ <=? _) = true |- _ => apply N.leb_le in H
  | H : (_ <=? _) = false |- _ => apply N.leb_gt in H
  | H : (_ <? _) = true |- _ => apply N.ltb_lt in H
  | H : (_ <? _) = false |- _ => apply N.ltb_ge in H
  | |- (_ <=? _) = true => apply N.leb_le
  | |- (_ <=? _) = false => apply N.leb_gt
  | |- (_ <? _) = true => apply N.ltb_lt
  | |- (_ <? _) = false => apply N.ltb_ge
  end; lia.

(** ** Machine integers

    Unsigned integers are [N]; each operation of the source that can leave the range of
    [u64] is written out. *)

Definition u32_bound : N := 2 ^ 32.
Definition u64_bound : N := 2 ^ 64.

(** The range of a [u64]. *)
Definition is_u64 (x : N) : Prop := x < u64_bound.

(** [u64::saturating_sub]; truncated subtraction of [N] is exactly that. *)
Definition saturating_sub (a b : N) : N := a - b.

(** [u64::saturating_add]. *)
Definition saturating_add (a b : N) : N := N.min (a + b) (u64_bound - 1).

(** [u64::checked_sub]. *)
Definition checked_sub (a b : N) : option N := if b <=? a then Some (a - b) else None.

(** [a + b] and [a * b] on [u64] in a release build, where overflow wraps. *)
Definition wrapping_add (a b : N) : N := (a + b) mod u64_bound.
Definition wrapping_mul (a b : N) : N := (a * b) mod u64_bound.

(** [iter().sum()] of [u64] values in a release build. *)
Definition wrapping_sum (l : list N) : N := foldl wrapping_add 0 l.

Lemma saturating_add_small a b : a + b < u64_bound -> saturating_add a b = a + b.
Proof. unfold saturating_add, u64_bound. lia. Qed.

Lemma saturating_add_u64 a b : is_u64 (saturating_add a b).
Proof. unfold is_u64, saturating_add, u64_bound. lia. Qed.

Lemma wrapping_mul_small a b : a * b < u64_bound -> wrapping_mul a b = a * b.
Proof. intros. by apply N.mod_small. Qed.

Lemma wrapping_add_small a b : a + b < u64_bound -> wrapping_add a b = a + b.
Proof. intros. by apply N.mod_small. Qed.

Lemma wrapping_mul_u64 a b : is_u64 (wrapping_mul a b).
Proof. by apply N.mod_lt. Qed.

Lemma checked_sub_Some a b d : checked_sub a b = Some d <-> b <= a /\ d = a - b.
Proof. unfold checked_sub. destruct (b <=? a) eqn:E; split; intros; simplify_eq; try (split; [bool_lia|done]); destruct_and?; subst; try done; bool_lia. Qed.

(** The sum of [u64] values is computed exactly as long as it stays below [2^64]. *)
Definition sum_N (l : list N) : N := foldr N.add 0 l.

Lemma foldl_wrapping_add l acc :
  acc + sum_N l < u64_bound -> foldl wrapping_add acc l = acc + sum_N l.
Proof.
  revert acc. induction l as [|x l IH]; intros acc H; simpl in *; [lia|].
  rewrite IH; rewrite wrapping_add_small by lia; lia.
Qed.

Lemma wrapping_sum_small l : sum_N l < u64_bound -> wrapping_sum l = sum_N l.
Proof. intros. unfold wrapping_sum. rewrite foldl_wrapping_add; lia. Qed.

(** ** Iterator adapters of the source *)

(** [Iterator::find_map]. *)
Fixpoint find_map {A B} (f : A -> option B) (l : list A) : option B :=
  match l with
  | [] => None
  | x :: l => match f x with Some y => Some y | None => find_map f l end
  end.

(** [Option::or_else]. *)
Definition or_else {A} (o : option A) (k : unit -> option A) : option A :=
  match o with Some x => Some x | None => k tt end.

(** [slice::iter().find]. *)
Fixpoint find_first {A} (p : A -> bool) (l : list A) : option A :=
  match l with
  | [] => None
  | x :: l => if p x then Some x else find_first p l
  end.

Section find_map.
Context {A B : Type}.
Implicit Types (f g : A -> option B) (l : list A).

(** The characterisation every client uses: the first element that maps to [Some]. *)
Lemma find_map_Some f l y :
  find_map f l = Some y <->
  exists pre x post, l = pre ++ x :: post /\ f x = Some y /\
                     Forall (fun z => f z = None) pre.
Proof.
  split.
  - induction l as [|x l IH]; simpl; [done|]. destruct (f x) as [y'|] eqn:E; intros H.
    + simplify_eq. exists [], x, l. eauto.
    + destruct (IH H) as (pre & x' & post & -> & Hx & Hpre).
      exists (x :: pre), x', post. eauto.
  - intros (pre & x & post & -> & Hx & Hpre).
    induction Hpre as [|z pre Hz Hpre IH]; simpl; [by rewrite Hx|by rewrite Hz].
Qed.

Lemma find_map_None f l : find_map f l = None <-> Forall (fun z => f z = None) l.
Proof.
  induction l as [|x l IH]; simpl; [by split|]. rewrite Forall_cons.
  destruct (f x); [by split; [|intros [? _]]|]. rewrite IH. tauto.
Qed.

Lemma find_map_elem f l y : find_map f l = Some y -> exists x, x ∈ l /\ f x = Some y.
Proof. intros (pre & x & post & -> & Hx & _)%find_map_Some. exists x. set_solver. Qed.

Lemma find_map_is_Some f l x y : x ∈ l -> f x = Some y -> is_Some (find_map f l).
Proof.
  intros Hx Hf. destruct (find_map f l) eqn:E; [eauto|].
  apply find_map_None in E. rewrite Forall_forall in E. by rewrite E in Hf.
Qed.

Lemma find_map_ext f g l : (forall x, f x = g x) -> find_map f l = find_map g l.
Proof. intros H. induction l as [|x l IH]; simpl; [done|]. by rewrite H, IH. Qed.

Lemma find_map_app f l1 l2 :
  find_map f (l1 ++ l2) = match find_map f l1 with Some y => Some y | None => find_map f l2 end.
Proof. induction l1 as [|x l1 IH]; simpl; [done|]. by destruct (f x). Qed.
End find_map.

Lemma find_map_fmap {A B C} (f : B -> option C) (g : A -> B) (l : list A) :
  find_map f (g <$> l) = find_map (f ∘ g) l.
Proof. induction l as [|x l IH]; [done|]. rewrite fmap_cons. simpl. by rewrite IH. Qed.

Lemma find_first_Some {A} (p : A -> bool) l x :
  find_first p l = Some x <->
  exists pre post, l = pre ++ x :: post /\ p x = true /\ Forall (fun z => p z = false) pre.
Proof.
  split.
  - induction l as [|y l IH]; simpl; [done|]. destruct (p y) eqn:E; intros H; simplify_eq.
    + exists [], l. eauto.
    + destruct (IH H) as (pre & post & -> & Hx & Hpre). exists (y :: pre), post. eauto.
  - intros (pre & post & -> & Hx & Hpre).
    induction Hpre as [|z pre Hz Hpre IH]; simpl; [by rewrite Hx|by rewrite Hz].
Qed.

Lemma find_first_None {A} (p : A -> bool) l :
  find_first p l = None <-> Forall (fun z => p z = false) l.
Proof.
  induction l as [|x l IH]; simpl; [by split|]. rewrite Forall_cons.
  destruct (p x); [by split; [|intros [? _]]|]. rewrite IH. tauto.
Qed.

Lemma bool_decide_iff (P Q : Prop) `{!Decision P, !Decision Q} :
  (P <-> Q) -> bool_decide P = bool_decide Q.
Proof. intros. by apply bool_decide_ext. Qed.

#[export] Hint Resolve saturating_add_u64 wrapping_mul_u64 : oom.
#[export] Hint Rewrite @find_map_app @find_map_fmap : oom_rw.
