(* ===== verification/Text.v ===== *)
(** * Text: the operations of Rust's [str] that the program uses

    A [str] is modelled by the list of its Unicode scalar values, so [char]-level
    operations ([trim], [split_whitespace], [lines], the character classes of the
    cgroup patterns) act on exactly the units the source's operations act on. *)
From Stdlib Require Import Ascii.
From S2P Require Import Prelude.

Create HintDb text discriminated.

Abbreviation str := (list N) (only parsing).

(** The (ASCII) string literals of the source. *)
Definition lit (s : string) : str := N_of_ascii <$> String.list_ascii_of_string s.

(** The same for a literal that holds double quotes, written here as apostrophes. *)
Definition lit_q (s : string) : str := (fun c => if c =? 39 then 34 else c) <$> lit s.

Module Chars.
Definition newline : N := 10.
Definition tab : N := 9.
Definition cr : N := 13.
Definition space : N := 32.
Definition star : N := 42.
Definition plus : N := 43.
Definition minus : N := 45.
Definition slash : N := 47.
Definition colon : N := 58.
Definition semicolon : N := 59.
Definition lbracket : N := 91.

(** [char::is_whitespace]: the Unicode [White_Space] property. *)
Definition is_whitespace (c : N) : bool :=
  ((9 <=? c) && (c <=? 13)) || (c =? 32) || (c =? 133) || (c =? 160) || (c =? 5760)
  || ((8192 <=? c) && (c <=? 8202)) || (c =? 8232) || (c =? 8233) || (c =? 8239)
  || (c =? 8287) || (c =? 12288).

Definition is_digit (c : N) : bool := (48 <=? c) && (c <=? 57).

(** [0-9a-f], the class of the cgroup patterns. *)
Definition is_hex (c : N) : bool := is_digit c || ((97 <=? c) && (c <=? 102)).
End Chars.

(** ** Prefixes and searching *)

Fixpoint strip_prefix (p s : str) : option str :=
  match p, s with
  | [], s => Some s
  | a :: p, b :: s => if a =? b then strip_prefix p s else None
  | _ :: _, [] => None
  end.

Definition starts_with (s p : str) : bool := bool_decide (is_Some (strip_prefix p s)).

Definition ends_with (s p : str) : bool := starts_with (reverse s) (reverse p).

Fixpoint contains (s p : str) : bool :=
  starts_with s p || match s with [] => false | _ :: s' => contains s' p end.

(** ** Trimming and splitting *)

Fixpoint trim_start_matches (f : N -> bool) (s : str) : str :=
  match s with
  | [] => []
  | c :: s' => if f c then trim_start_matches f s' else s
  end.

Definition trim_end_matches (f : N -> bool) (s : str) : str :=
  reverse (trim_start_matches f (reverse s)).

Definition trim (s : str) : str :=
  trim_end_matches Chars.is_whitespace (trim_start_matches Chars.is_whitespace s).

(** [str::split] on a character predicate: always at least one piece. *)
Fixpoint split (f : N -> bool) (s : str) : list str :=
  match s with
  | [] => [[]]
  | c :: s' =>
      if f c then [] :: split f s'
      else match split f s' with
           | [] => [[c]]
           | piece :: rest => (c :: piece) :: rest
           end
  end.

(** [str::split_once] on a character. *)
Fixpoint split_once (d : N) (s : str) : option (str * str) :=
  match s with
  | [] => None
  | c :: s' => if c =? d then Some ([], s') else prod_map (cons c) id <$> split_once d s'
  end.

(** [str::split_whitespace]. *)
Definition split_whitespace (s : str) : list str :=
  filter (fun piece => piece <> []) (split Chars.is_whitespace s).

(** [str::split_inclusive('\n')]: each piece keeps its line feed, no empty last piece. *)
Fixpoint split_inclusive_nl (s : str) : list str :=
  match s with
  | [] => []
  | c :: s' =>
      if c =? Chars.newline then [c] :: split_inclusive_nl s'
      else match split_inclusive_nl s' with
           | [] => [[c]]
           | piece :: rest => (c :: piece) :: rest
           end
  end.

Definition strip_suffix_char (d : N) (s : str) : option str :=
  match last s with
  | Some c => if c =? d then Some (take (length s - 1) s) else None
  | None => None
  end.

(** [str::lines]: a line feed ends a line, as does a carriage return before it. *)
Definition lines (s : str) : list str :=
  (fun line =>
     match strip_suffix_char Chars.newline line with
     | None => line
     | Some l => match strip_suffix_char Chars.cr l with None => l | Some l' => l' end
     end) <$> split_inclusive_nl s.

(** [slice::join] with a separator. *)
Fixpoint join (sep : str) (l : list str) : str :=
  match l with
  | [] => []
  | [s] => s
  | s :: l => s ++ sep ++ join sep l
  end.

(** ** Decimal numbers *)

(** [u64::to_string], [{}] formatting of unsigned integers: the decimal digits, most
    significant first. [fuel] bounds the number of digits; [show_N] gives one more than the
    binary length, which is always enough ([parse_show_N]). *)
Fixpoint show_digits (fuel : nat) (n : N) : str :=
  match fuel with
  | O => []
  | S fuel => if n <? 10 then [48 + n] else show_digits fuel (n / 10) ++ [48 + n mod 10]
  end.

Definition show_N (n : N) : str := show_digits (S (N.to_nat (N.log2 n))) n.

(** One digit of [from_str_radix(10)] with its overflow check against [bound]. *)
Definition parse_digit (bound : N) (acc : option N) (c : N) : option N :=
  a ← acc;
  if Chars.is_digit c
  then let v := a * 10 + (c - 48) in if v <? bound then Some v else None
  else None.

(** [str::parse::<uN>()] for an unsigned type of the given bound: an optional [+], then one
    or more ASCII digits, and the value must fit. *)
Definition parse_unsigned (bound : N) (s : str) : option N :=
  let digits :=
    match s with
    | c :: ((_ :: _) as s') => if c =? Chars.plus then s' else s
    | _ => s
    end in
  match digits with
  | [] => None
  | _ => foldl (parse_digit bound) (Some 0) digits
  end.

(** The [usize] of the 64-bit targets the program is built for. *)
Definition parse_usize : str -> option N := parse_unsigned u64_bound.
Definition parse_u64 : str -> option N := parse_unsigned u64_bound.
Definition parse_u16 : str -> option N := parse_unsigned (2 ^ 16).

(** ** Lemmas *)

Lemma strip_prefix_Some p s r : strip_prefix p s = Some r <-> s = p ++ r.
Proof.
  revert s. induction p as [|a p IH]; intros s; simpl; [by split; intros; simplify_eq|].
  destruct s as [|b s]; [done|]. destruct (N.eqb_spec a b) as [->|Hab].
  - rewrite IH. split; intros; simplify_eq; done.
  - by split; intros; simplify_eq.
Qed.

Lemma strip_prefix_app p r : strip_prefix p (p ++ r) = Some r.
Proof. by apply strip_prefix_Some. Qed.

Lemma starts_with_true s p : starts_with s p = true <-> exists r, s = p ++ r.
Proof.
  unfold starts_with. rewrite bool_decide_eq_true. unfold is_Some.
  by setoid_rewrite strip_prefix_Some.
Qed.

Lemma contains_true s p : contains s p = true <-> exists a b, s = a ++ p ++ b.
Proof.
  split.
  - induction s as [|c s IH]; simpl; rewrite orb_true_iff, starts_with_true.
    + intros [[r Hr]|?]; [|done]. by exists [], r.
    + intros [[r Hr]|H]; [by exists [], r|].
      destruct (IH H) as (a & b & ->). by exists (c :: a), b.
  - intros (a & b & ->). induction a as [|c a IH]; simpl.
    + destruct (p ++ b) eqn:E; simpl; apply orb_true_iff; left;
        apply starts_with_true; exists b; by rewrite E.
    + apply orb_true_iff. by right.
Qed.

Lemma ends_with_true s p : ends_with s p = true <-> exists a, s = a ++ p.
Proof.
  unfold ends_with. rewrite starts_with_true. split.
  - intros [r Hr]. exists (reverse r). apply (f_equal reverse) in Hr.
    by rewrite reverse_involutive, reverse_app, reverse_involutive in Hr.
  - intros [a ->]. exists (reverse a). by rewrite reverse_app.
Qed.

Lemma ends_with_contains s p : ends_with s p = true -> contains s p = true.
Proof.
  intros [a ->]%ends_with_true. apply contains_true. exists a, []. by rewrite app_nil_r.
Qed.

(** *** Trimming *)

Lemma trim_start_matches_id f s :
  (forall c, head s = Some c -> f c = false) -> trim_start_matches f s = s.
Proof. destruct s as [|c s]; simpl; [done|]. intros H. by rewrite H. Qed.

Lemma trim_start_matches_all f w s :
  Forall (fun c => f c = true) w -> trim_start_matches f (w ++ s) = trim_start_matches f s.
Proof. induction 1 as [|c w Hc Hw IH]; simpl; [done|]. by rewrite Hc. Qed.

Lemma trim_end_matches_id f s :
  (forall c, last s = Some c -> f c = false) -> trim_end_matches f s = s.
Proof.
  intros H. unfold trim_end_matches. rewrite trim_start_matches_id, reverse_involutive; [done|].
  intros c Hc. apply H. by rewrite <- head_reverse.
Qed.

(** A text between non-blank characters is what [trim] leaves of it, blanks around it. *)
Lemma trim_pad w s :
  Forall (fun c => Chars.is_whitespace c = true) w ->
  (forall c, head s = Some c -> Chars.is_whitespace c = false) ->
  (forall c, last s = Some c -> Chars.is_whitespace c = false) ->
  trim (w ++ s) = s.
Proof.
  intros Hw Hh Hl. unfold trim.
  rewrite trim_start_matches_all, trim_start_matches_id, trim_end_matches_id by done. done.
Qed.

Lemma trim_pad1 w s :
  Chars.is_whitespace w = true ->
  (forall c, head s = Some c -> Chars.is_whitespace c = false) ->
  (forall c, last s = Some c -> Chars.is_whitespace c = false) ->
  trim (w :: s) = s.
Proof. intros Hw. apply (trim_pad [w]). by apply Forall_singleton. Qed.

(** *** Splitting *)

Lemma split_nonempty f s : split f s <> [].
Proof. destruct s as [|c s]; simpl; [done|]. by destruct (f c), (split f s). Qed.

Lemma split_no_sep f s : Forall (fun c => f c = false) s -> split f s = [s].
Proof. induction 1 as [|c s Hc Hs IH]; simpl; [done|]. by rewrite Hc, IH. Qed.

Lemma split_sep f s d r :
  Forall (fun c => f c = false) s -> f d = true -> split f (s ++ d :: r) = s :: split f r.
Proof.
  intros Hs Hd. induction Hs as [|c s Hc Hs IH]; simpl; [by rewrite Hd|]. by rewrite Hc, IH.
Qed.

Lemma split_once_sep d s r :
  Forall (fun c => c <> d) s -> split_once d (s ++ d :: r) = Some (s, r).
Proof.
  induction 1 as [|c s Hc Hs IH]; simpl; [by rewrite N.eqb_refl|].
  destruct (N.eqb_spec c d); [done|]. by rewrite IH.
Qed.

(** Pieces of a split contain no separator. *)
Lemma split_pieces f s : Forall (Forall (fun c => f c = false)) (split f s).
Proof.
  induction s as [|c s IH]; simpl; [by repeat constructor|].
  destruct (f c) eqn:E; [by constructor|].
  destruct IH as [|piece rest Hp Hr]; repeat constructor; done.
Qed.

Lemma split_app_sep f a d r :
  f d = true -> split f (a ++ d :: r) = split f a ++ split f r.
Proof.
  intros Hd. induction a as [|c a IH]; simpl; [by rewrite Hd|]. rewrite IH.
  destruct (f c); [done|]. by destruct (split f a) eqn:E; [apply split_nonempty in E|].
Qed.

(** The last word of a declaration whose last token follows a blank. *)
Lemma last_split_whitespace a c tok :
  Chars.is_whitespace c = true -> tok <> [] ->
  Forall (fun c => Chars.is_whitespace c = false) tok ->
  last (split_whitespace (a ++ c :: tok)) = Some tok.
Proof.
  intros Hc Hne Htok. unfold split_whitespace.
  rewrite split_app_sep, (split_no_sep _ tok), filter_app by done.
  by rewrite filter_cons_True, filter_nil, last_snoc.
Qed.

(** *** Lines *)

Lemma split_inclusive_nl_line l r :
  Forall (fun c => c <> Chars.newline) l ->
  split_inclusive_nl (l ++ Chars.newline :: r)
  = (l ++ [Chars.newline]) :: split_inclusive_nl r.
Proof.
  induction 1 as [|c l Hc Hl IH]; [done|]. cbn [app split_inclusive_nl].
  apply N.eqb_neq in Hc as ->. by rewrite IH.
Qed.

Lemma strip_suffix_char_snoc d s : strip_suffix_char d (s ++ [d]) = Some s.
Proof.
  unfold strip_suffix_char. rewrite last_snoc, N.eqb_refl, length_app. simpl.
  by rewrite Nat.add_sub, take_app_length.
Qed.

Lemma strip_suffix_char_None d s : last s <> Some d -> strip_suffix_char d s = None.
Proof.
  unfold strip_suffix_char. destruct (last s) as [c|]; [|done].
  intros H. by destruct (N.eqb_spec c d) as [->|].
Qed.

(** A complete line is the first of the lines, without its line feed. *)
Lemma lines_line l r :
  Forall (fun c => c <> Chars.newline) l -> last l <> Some Chars.cr ->
  lines (l ++ Chars.newline :: r) = l :: lines r.
Proof.
  intros Hl Hcr. unfold lines. rewrite split_inclusive_nl_line by done.
  rewrite fmap_cons. by rewrite strip_suffix_char_snoc, strip_suffix_char_None.
Qed.

(** *** Decimal numbers *)

Lemma is_digit_show d : d < 10 -> Chars.is_digit (48 + d) = true.
Proof. intros. unfold Chars.is_digit. apply andb_true_iff; split; bool_lia. Qed.

Lemma show_digits_digits fuel n : Forall (fun c => Chars.is_digit c = true) (show_digits fuel n).
Proof.
  revert n. induction fuel as [|fuel IH]; intros n; [done|].
  cbn [show_digits]. assert (n mod 10 < 10) by (by apply N.mod_lt).
  destruct (N.ltb_spec n 10).
  - by apply Forall_singleton, is_digit_show.
  - apply Forall_app; split; [done|]. by apply Forall_singleton, is_digit_show.
Qed.

Lemma show_N_digits n : Forall (fun c => Chars.is_digit c = true) (show_N n).
Proof. apply show_digits_digits. Qed.

Lemma show_digits_nonempty fuel n : show_digits (S fuel) n <> [].
Proof. simpl. destruct (n <? 10); [done|]. intros H. by destruct (show_digits fuel (n / 10)). Qed.

Lemma show_N_nonempty n : show_N n <> [].
Proof. apply show_digits_nonempty. Qed.

Lemma parse_digit_ok bound a c :
  Chars.is_digit c = true -> a * 10 + (c - 48) < bound ->
  parse_digit bound (Some a) c = Some (a * 10 + (c - 48)).
Proof.
  intros Hc Hb. unfold parse_digit. simpl. rewrite Hc.
  by replace (a * 10 + (c - 48) <? bound) with true by (symmetry; bool_lia).
Qed.

Lemma parse_show_digits bound fuel n :
  n < 2 ^ N.of_nat fuel -> n < bound ->
  foldl (parse_digit bound) (Some 0) (show_digits fuel n) = Some n.
Proof.
  revert n. induction fuel as [|fuel IH]; intros n Hf Hb; [simpl in *; f_equal; lia|].
  cbn [show_digits]. assert (n mod 10 < 10) by (by apply N.mod_lt).
  destruct (N.ltb_spec n 10).
  - cbn [foldl]. rewrite parse_digit_ok; [f_equal; lia|by apply is_digit_show|lia].
  - rewrite Nat2N.inj_succ, N.pow_succ_r' in Hf.
    assert (n = 10 * (n / 10) + n mod 10) by (by apply N.div_mod).
    generalize dependent (n mod 10). intros r Hr Hn.
    generalize dependent (n / 10). intros q Hn.
    generalize dependent (2 ^ N.of_nat fuel). intros P IH HP.
    rewrite foldl_app, IH by lia. cbn [foldl].
    rewrite parse_digit_ok; [f_equal; lia|by apply is_digit_show|lia].
Qed.

(** Reading back a printed number gives the number, for every type it fits. *)
Lemma parse_show_N bound n : n < bound -> parse_unsigned bound (show_N n) = Some n.
Proof.
  intros Hb. assert (foldl (parse_digit bound) (Some 0) (show_N n) = Some n) as Hn.
  { apply parse_show_digits; [|done]. destruct (N.eq_dec n 0) as [->|]; [done|].
    rewrite Nat2N.inj_succ, N2Nat.id. apply N.log2_spec. lia. }
  pose proof (show_N_digits n) as Hd. pose proof (show_N_nonempty n).
  unfold parse_unsigned. destruct (show_N n) as [|c [|c' s]]; [done..|].
  apply Forall_cons in Hd as [Hc _].
  destruct (N.eqb_spec c Chars.plus) as [->|]; [by vm_compute in Hc|done].
Qed.

Lemma show_N_inj n m : show_N n = show_N m -> n = m.
Proof.
  intros H. pose proof (parse_show_N (N.succ (N.max n m)) n ltac:(lia)) as Hn.
  rewrite H, parse_show_N in Hn by lia. by simplify_eq.
Qed.

Lemma parse_digit_None bound s : foldl (parse_digit bound) None s = None.
Proof. by induction s. Qed.

(** What a successful parse returns fits the type. *)
Lemma foldl_parse_digit_bound bound s a n :
  a < bound -> foldl (parse_digit bound) (Some a) s = Some n -> n < bound.
Proof.
  revert a. induction s as [|c s IH]; intros a Ha H; [cbn in H; by simplify_eq|].
  cbn [foldl] in H. unfold parse_digit at 2 in H. simpl in H.
  destruct (Chars.is_digit c); [|by rewrite parse_digit_None in H].
  destruct (N.ltb_spec (a * 10 + (c - 48)) bound); [|by rewrite parse_digit_None in H].
  by eapply IH.
Qed.

Lemma parse_unsigned_bound bound s n : 0 < bound -> parse_unsigned bound s = Some n -> n < bound.
Proof.
  intros Hb. unfold parse_unsigned.
  destruct (match s with [] => _ | c :: l => _ end) as [|c l]; [done|].
  by apply foldl_parse_digit_bound.
Qed.

#[export] Hint Resolve show_N_digits show_N_nonempty ends_with_contains : text.

(** A larger type reads the same number. *)
Lemma foldl_parse_digit_mono b b' s acc n :
  b <= b' -> foldl (parse_digit b) acc s = Some n -> foldl (parse_digit b') acc s = Some n.
Proof.
  intros Hb. revert acc. induction s as [|c s IH]; intros acc; [done|]. cbn [foldl].
  destruct acc as [a|]; [|by rewrite parse_digit_None]. unfold parse_digit at 2 4. simpl.
  destruct (Chars.is_digit c); [|by rewrite parse_digit_None].
  destruct (N.ltb_spec (a * 10 + (c - 48)) b) as [Hv|]; [|by rewrite parse_digit_None].
  assert ((a * 10 + (c - 48) <? b') = true) as -> by (apply N.ltb_lt; lia). apply IH.
Qed.

Lemma parse_unsigned_mono b b' s n :
  b <= b' -> parse_unsigned b s = Some n -> parse_unsigned b' s = Some n.
Proof.
  intros Hb. unfold parse_unsigned.
  destruct (match s with [] => _ | c :: l => _ end) as [|c l]; [done|].
  by apply foldl_parse_digit_mono.
Qed.

(** A number too large for the type is refused. *)
Lemma parse_show_N_overflow bound n :
  0 < bound -> bound <= n -> parse_unsigned bound (show_N n) = None.
Proof.
  intros Hpos Hb. destruct (parse_unsigned bound (show_N n)) as [m|] eqn:E; [exfalso|done].
  pose proof (parse_unsigned_bound bound (show_N n) m Hpos E).
  apply (parse_unsigned_mono bound (N.succ n)) in E; [|lia].
  rewrite parse_show_N in E by lia. simplify_eq. lia.
Qed.
