(* ===== verification/Float64.v ===== *)
(** * Float64: the non-negative integral [f64] values that metrics hold

    Every value the program stores in a counter or a gauge is a [u64] converted with
    [as f64], or a sum of such values: a non-negative integer. An [f64] of that kind is
    modelled by the natural number it denotes, and each operation that rounds is written
    out as round-to-nearest, ties to even, at 53 bits of precision. *)
From S2P Require Import Prelude.

(** [x as f64] for an unsigned integer [x]. *)
Definition f64_of_N (x : N) : N :=
  if x <? 2 ^ 53 then x
  else
    let e := N.log2 x - 52 in
    let m := x / 2 ^ e in
    let r := x mod 2 ^ e in
    let half := 2 ^ (e - 1) in
    (if (half <? r) || ((half =? r) && N.odd m) then m + 1 else m) * 2 ^ e.

(** [a + b] on two such values. *)
Definition f64_add (a b : N) : N := f64_of_N (a + b).

(** The mantissa after rounding. *)
Definition f64_round (half m r : N) : N :=
  if (half <? r) || ((half =? r) && N.odd m) then m + 1 else m.

Lemma f64_round_bounds half m r : m <= f64_round half m r <= m + 1.
Proof. unfold f64_round. destruct (_ || _); lia. Qed.

Lemma f64_round_mono half m1 r1 m2 r2 :
  m1 < m2 \/ (m1 = m2 /\ r1 <= r2) -> f64_round half m1 r1 <= f64_round half m2 r2.
Proof.
  pose proof (f64_round_bounds half m1 r1). pose proof (f64_round_bounds half m2 r2).
  intros [?|[-> Hr]]; [lia|]. unfold f64_round.
  destruct (N.ltb_spec half r1), (N.ltb_spec half r2), (N.eqb_spec half r1),
    (N.eqb_spec half r2), (N.odd m2); simpl; lia.
Qed.

Lemma f64_of_N_small x : x < 2 ^ 53 -> f64_of_N x = x.
Proof. intros H. unfold f64_of_N. by apply N.ltb_lt in H as ->. Qed.

(** The shape of a rounded large value. *)
Lemma f64_of_N_large x :
  2 ^ 53 <= x ->
  exists e m r, e = N.log2 x - 52 /\ 0 < e /\ x = 2 ^ e * m + r /\ r < 2 ^ e /\
    2 ^ 52 <= m < 2 ^ 53 /\ f64_of_N x = f64_round (2 ^ (e - 1)) m r * 2 ^ e.
Proof.
  intros Hx. set (e := N.log2 x - 52).
  assert (53 <= N.log2 x) as Hl by (apply N.log2_le_pow2; lia).
  assert (2 ^ e <> 0) as He by (by apply N.pow_nonzero).
  exists e, (x / 2 ^ e), (x mod 2 ^ e). split; [done|]. split; [lia|].
  split; [by apply N.div_mod|]. split; [by apply N.mod_lt|]. split.
  - destruct (N.log2_spec x) as [Hlo Hhi]; [lia|].
    rewrite <- N.add_1_r in Hhi.
    replace (N.log2 x) with (52 + e) in Hlo by lia.
    replace (N.log2 x + 1) with (53 + e) in Hhi by lia.
    rewrite N.pow_add_r, N.mul_comm in Hlo, Hhi. split.
    + by apply N.div_le_lower_bound.
    + by apply N.Div0.div_lt_upper_bound.
  - unfold f64_of_N, f64_round. apply N.ltb_ge in Hx as ->. done.
Qed.

Lemma f64_of_N_large_bounds x :
  2 ^ 53 <= x -> 2 ^ N.log2 x <= f64_of_N x <= 2 ^ (N.log2 x + 1).
Proof.
  intros Hx. assert (53 <= N.log2 x) by (apply N.log2_le_pow2; lia).
  destruct (f64_of_N_large x Hx) as (e & m & r & He & Hpos & _ & _ & [Hm1 Hm2] & ->).
  replace (N.log2 x) with (52 + e) by lia. replace (52 + e + 1) with (53 + e) by lia.
  rewrite !N.pow_add_r. pose proof (f64_round_bounds (2 ^ (e - 1)) m r).
  split; apply N.mul_le_mono_r; lia.
Qed.

(** Conversion is monotone: comparing rounded figures never reverses an order. *)
Lemma f64_of_N_mono x y : x <= y -> f64_of_N x <= f64_of_N y.
Proof.
  intros Hxy. destruct (N.lt_ge_cases y (2 ^ 53)) as [Hy|Hy].
  { rewrite !f64_of_N_small by lia. done. }
  pose proof (f64_of_N_large_bounds y Hy) as [Hy1 _].
  assert (2 ^ 53 <= 2 ^ N.log2 y) by (apply N.pow_le_mono_r; [done|apply N.log2_le_pow2; lia]).
  destruct (N.lt_ge_cases x (2 ^ 53)) as [Hx|Hx]; [rewrite (f64_of_N_small x) by done; lia|].
  pose proof (f64_of_N_large_bounds x Hx) as [_ Hx2].
  pose proof (N.log2_le_mono _ _ Hxy) as Hlog.
  apply N.lt_eq_cases in Hlog as [Hlog|Hlog].
  { etrans; [done|]. etrans; [|done]. apply N.pow_le_mono_r; [done|lia]. }
  destruct (f64_of_N_large x Hx) as (e & m & r & He & _ & Ex & Hr & _ & ->).
  destruct (f64_of_N_large y Hy) as (e' & m' & r' & He' & _ & Ey & Hr' & _ & ->).
  rewrite <- Hlog in He'. rewrite <- He in He'. subst e'.
  apply N.mul_le_mono_r, f64_round_mono.
  destruct (N.lt_ge_cases m m') as [|Hm]; [by left|right].
  apply N.lt_eq_cases in Hm as [Hm|Hm]; [nia|]. subst m'. split; [done|nia].
Qed.

Lemma f64_of_N_max x y : f64_of_N (N.max x y) = N.max (f64_of_N x) (f64_of_N y).
Proof.
  destruct (N.le_ge_cases x y) as [H|H].
  - rewrite (N.max_r x y), N.max_r by (done || by apply f64_of_N_mono). done.
  - rewrite (N.max_l x y), N.max_l by (done || by apply f64_of_N_mono). done.
Qed.

(** A counter is exact until [2^53] and stays there: the next integer is not an [f64]. *)
Lemma f64_add_1 n : n < 2 ^ 53 -> f64_add n 1 = n + 1.
Proof.
  intros H. unfold f64_add. destruct (N.eq_dec n (2 ^ 53 - 1)) as [->|]; [by vm_compute|].
  apply f64_of_N_small. lia.
Qed.

Lemma f64_add_1_stuck : f64_add (2 ^ 53) 1 = 2 ^ 53.
Proof. by vm_compute. Qed.

(** The value of a counter after [n] increments from [v]. *)
Definition f64_count (v : N) (n : nat) : N := Nat.iter n (fun c => f64_add c 1) v.

Lemma f64_count_S v n : f64_count v (S n) = f64_add (f64_count v n) 1.
Proof. done. Qed.

Lemma f64_count_add v n m : f64_count (f64_count v n) m = f64_count v (m + n)%nat.
Proof. unfold f64_count. by rewrite Nat.iter_add. Qed.

Lemma f64_count_exact n : f64_count 0 n = N.min (N.of_nat n) (2 ^ 53).
Proof.
  induction n as [|n IH]; [done|]. rewrite f64_count_S, IH.
  destruct (N.lt_ge_cases (N.of_nat n) (2 ^ 53)).
  - rewrite N.min_l, f64_add_1 by lia. lia.
  - rewrite N.min_r, f64_add_1_stuck by lia. lia.
Qed.
