(* ===== verification/Layout.v ===== *)
(** * Layout: [#[repr(C)]] structs in memory

    The probe decodes a kernel trace entry and userspace decodes a ring-buffer record by
    reading fixed offsets of a [#[repr(C)]] struct. This file gives the layout algorithm of
    [repr(C)] (each field at the next multiple of its alignment, the size a multiple of the
    largest alignment), little-endian integers, and the writing and reading of a struct. *)
From S2P Require Import Prelude Text.

(** ** Little-endian integers, bytes being numbers below 256 *)

Fixpoint le_bytes (n : nat) (x : N) : list N :=
  match n with
  | O => []
  | S n => x mod 256 :: le_bytes n (x / 256)
  end.

Fixpoint le_value (bs : list N) : N :=
  match bs with
  | [] => 0
  | b :: bs => b + 256 * le_value bs
  end.

(** [as uN] of a signed value and [as iN] of an unsigned one, [w] bits. *)
Definition to_unsigned (w : N) (z : Z) : N := Z.to_N (z mod 2 ^ Z.of_N w)%Z.
Definition to_signed (w : N) (x : N) : Z :=
  if x <? 2 ^ (w - 1) then Z.of_N x else (Z.of_N x - 2 ^ Z.of_N w)%Z.

Definition is_byte (b : N) : Prop := b < 256.
Definition is_int (w : N) (z : Z) : Prop :=
  (- 2 ^ Z.of_N (w - 1) <= z < 2 ^ Z.of_N (w - 1))%Z.

Lemma length_le_bytes n x : length (le_bytes n x) = n.
Proof. revert x. induction n as [|n IH]; intros x; simpl; [done|]. by rewrite IH. Qed.

Lemma le_bytes_bytes n x : Forall is_byte (le_bytes n x).
Proof.
  revert x. induction n as [|n IH]; intros x; cbn [le_bytes]; constructor; [|done].
  by apply N.mod_lt.
Qed.

Lemma le_value_bytes n x : x < 256 ^ N.of_nat n -> le_value (le_bytes n x) = x.
Proof.
  revert x. induction n as [|n IH]; intros x Hx; [simpl in *; lia|].
  rewrite Nat2N.inj_succ, N.pow_succ_r' in Hx. cbn [le_bytes le_value].
  rewrite IH by (by apply N.Div0.div_lt_upper_bound).
  pose proof (N.div_mod' x 256). lia.
Qed.

Lemma le_value_bound bs : Forall is_byte bs -> le_value bs < 256 ^ N.of_nat (length bs).
Proof.
  induction 1 as [|b bs Hb Hbs IH]; cbn [le_value length]; [by vm_compute|].
  rewrite Nat2N.inj_succ, N.pow_succ_r'. unfold is_byte in Hb. nia.
Qed.

(** Casting a signed value to unsigned and back. *)
Lemma to_signed_unsigned w z : 0 < w -> is_int w z -> to_signed w (to_unsigned w z) = z.
Proof.
  intros Hw [Hlo Hhi]. unfold to_signed, to_unsigned.
  assert (2 ^ Z.of_N w = 2 * 2 ^ Z.of_N (w - 1))%Z as Hp.
  { rewrite <- Z.pow_succ_r by lia. f_equal. lia. }
  assert (0 < 2 ^ Z.of_N (w - 1))%Z by (apply Z.pow_pos_nonneg; lia).
  assert (Z.of_N (2 ^ (w - 1)) = 2 ^ Z.of_N (w - 1))%Z as Hn by (by rewrite N2Z.inj_pow).
  destruct (Z_lt_le_dec z 0).
  - replace (z mod 2 ^ Z.of_N w)%Z with (z + 2 ^ Z.of_N w)%Z
      by (apply Z.mod_unique with (-1)%Z; lia).
    destruct (N.ltb_spec (Z.to_N (z + 2 ^ Z.of_N w)) (2 ^ (w - 1))); lia.
  - rewrite Z.mod_small by lia.
    destruct (N.ltb_spec (Z.to_N z) (2 ^ (w - 1))); lia.
Qed.

Lemma to_unsigned_bound w z : to_unsigned w z < 2 ^ w.
Proof.
  unfold to_unsigned. pose proof (Z.mod_pos_bound z (2 ^ Z.of_N w)) as H.
  assert (0 < 2 ^ Z.of_N w)%Z by (apply Z.pow_pos_nonneg; lia).
  pose proof (N2Z.inj_pow 2 w). simpl in *. lia.
Qed.

(** ** Struct layout *)

Record CField := { cf_name : str; cf_size : nat; cf_align : nat }.

Definition align_up (off align : nat) : nat := (off + align - 1) / align * align.

(** [(name, offset, size)] of each field, laid out from [off]. *)
Fixpoint layout_from (off : nat) (fs : list CField) : list (str * nat * nat) :=
  match fs with
  | [] => []
  | f :: fs =>
      let o := align_up off (cf_align f) in
      (cf_name f, o, cf_size f) :: layout_from (o + cf_size f) fs
  end.

Definition layout : list CField -> list (str * nat * nat) := layout_from 0.

(** The offset just after the last field. *)
Fixpoint layout_end (off : nat) (fs : list CField) : nat :=
  match fs with
  | [] => off
  | f :: fs => layout_end (align_up off (cf_align f) + cf_size f) fs
  end.

Definition struct_align (fs : list CField) : nat := max_list (cf_align <$> fs).

(** [core::mem::size_of]. *)
Definition struct_size (fs : list CField) : nat := align_up (layout_end 0 fs) (struct_align fs).

Definition offset_of (l : list (str * nat * nat)) (name : str) : option (nat * nat) :=
  match find_first (fun '(n, _, _) => bool_decide (n = name)) l with
  | Some (_, o, s) => Some (o, s)
  | None => None
  end.

(** The bytes of a field read out of the memory of a struct. *)
Definition read_field (fs : list CField) (data : list N) (name : str) : list N :=
  match offset_of (layout fs) name with
  | Some (o, s) => take s (drop o data)
  | None => []
  end.

(** The memory of a struct whose field bytes are given; [pad] supplies the padding bytes,
    whose values [repr(C)] leaves unspecified. *)
Fixpoint write_from (pad : nat -> N) (off : nat) (fvs : list (CField * list N)) : list N :=
  match fvs with
  | [] => []
  | (f, bs) :: fvs =>
      let o := align_up off (cf_align f) in
      (pad <$> seq off (o - off)) ++ bs ++ write_from pad (o + cf_size f) fvs
  end.

Definition write_struct (pad : nat -> N) (fvs : list (CField * list N)) : list N :=
  let body := write_from pad 0 fvs in
  body ++ (pad <$> seq (length body) (struct_size fvs.*1 - length body)).

(** ** Reading back what was written *)

Lemma align_up_le off a : (a <> 0)%nat -> (off <= align_up off a)%nat.
Proof.
  intros Ha. unfold align_up. pose proof (Nat.div_mod_eq (off + a - 1) a).
  pose proof (Nat.mod_upper_bound (off + a - 1) a Ha). nia.
Qed.

Definition wf_fields (fvs : list (CField * list N)) : Prop :=
  Forall (fun '(f, bs) => (cf_align f <> 0)%nat /\ length bs = cf_size f) fvs.

Lemma length_write_from pad off fvs :
  wf_fields fvs -> (off + length (write_from pad off fvs))%nat = layout_end off fvs.*1.
Proof.
  intros H. revert off.
  induction H as [|[f bs] fvs [Ha Hl] H IH]; intros off; simpl; [lia|].
  pose proof (align_up_le off _ Ha).
  rewrite !length_app, length_fmap, length_seq, <- IH. lia.
Qed.

Lemma length_write_struct pad fvs :
  wf_fields fvs -> (struct_align fvs.*1 <> 0)%nat ->
  length (write_struct pad fvs) = struct_size fvs.*1.
Proof.
  intros H Ha. unfold write_struct. rewrite length_app, length_fmap, length_seq.
  pose proof (length_write_from pad 0 fvs H) as Hl.
  pose proof (align_up_le (layout_end 0 fvs.*1) _ Ha). unfold struct_size. lia.
Qed.

Lemma offset_of_cons n o s l name :
  offset_of ((n, o, s) :: l) name = if decide (n = name) then Some (o, s) else offset_of l name.
Proof. unfold offset_of. simpl. by case_bool_decide; case_decide. Qed.

Lemma read_write_from pad off pre fvs rest f bs :
  wf_fields fvs -> NoDup (cf_name ∘ fst <$> fvs) -> (f, bs) ∈ fvs -> length pre = off ->
  exists o, offset_of (layout_from off fvs.*1) (cf_name f) = Some (o, cf_size f) /\
            take (cf_size f) (drop o (pre ++ write_from pad off fvs ++ rest)) = bs.
Proof.
  intros H. revert off pre.
  induction H as [|[g cs] fvs [Ha Hl] H IH]; intros off pre Hnd Hin Hpre; [by apply not_elem_of_nil in Hin|].
  cbn [fmap list_fmap fst layout_from write_from]. rewrite offset_of_cons.
  pose proof (align_up_le off _ Ha) as Hal. set (o := align_up off (cf_align g)) in *.
  rewrite fmap_cons in Hnd. apply NoDup_cons in Hnd as [Hnin Hnd].
  set (padding := pad <$> seq off (o - off)).
  assert (length (pre ++ padding) = o) as Hlo
    by (unfold padding; rewrite length_app, length_fmap, length_seq; lia).
  rewrite <- !app_assoc, (app_assoc pre padding).
  apply elem_of_cons in Hin as [[= -> ->]|Hin].
  - exists o. rewrite decide_True by done. split; [done|].
    rewrite drop_app_length' by done. by rewrite take_app_length' by done.
  - rewrite decide_False.
    + rewrite (app_assoc _ cs). apply IH; [done..|]. rewrite length_app. lia.
    + intros Hn. apply Hnin. simpl. rewrite Hn. apply list_elem_of_fmap. by exists (f, bs).
Qed.

(** Every field of a struct reads back as it was written, whatever the padding holds. *)
Lemma read_write_struct pad fvs f bs :
  wf_fields fvs -> NoDup (cf_name ∘ fst <$> fvs) -> (f, bs) ∈ fvs ->
  read_field fvs.*1 (write_struct pad fvs) (cf_name f) = bs.
Proof.
  intros Hwf Hnd Hin. unfold read_field, layout, write_struct.
  destruct (read_write_from pad 0 [] fvs
              (pad <$> seq (length (write_from pad 0 fvs))
                 (struct_size fvs.*1 - length (write_from pad 0 fvs))) f bs)
    as (o & -> & Hr); done.
Qed.
