(* ===== verification/Io.v ===== *)
(** * Io: results, errors and the files the program reads

    [std::result::Result], [std::io::Error] reduced to what the program inspects, an
    [anyhow::Error] as its context chain, and the file system as the answer it gives to
    [fs::read_to_string] for each path. *)
From S2P Require Import Prelude Text.

Inductive result (A E : Type) :=
| Ok (a : A)
| Err (e : E).
Arguments Ok {A E} a.
Arguments Err {A E} e.

Definition is_ok {A E} (r : result A E) : bool := match r with Ok _ => true | Err _ => false end.

(** The [?] operator. *)
Definition result_bind {A B E} (r : result A E) (k : A -> result B E) : result B E :=
  match r with Ok a => k a | Err e => Err e end.

Notation "x <-? r ;; k" := (result_bind r (fun x => k))
  (at level 100, r at next level, right associativity).

Inductive ErrorKind := NotFound | PermissionDenied | OtherKind (code : N).

Record IoError := { kind : ErrorKind; io_message : str }.

(** An [anyhow::Error]: the outermost context first, [{}] prints the head. *)
Record Error := { chain : list str }.

Definition anyhow (msg : str) : Error := {| chain := [msg] |}.
Definition io_error (e : IoError) : Error := {| chain := [io_message e] |}.
Definition context (msg : str) (e : Error) : Error := {| chain := msg :: chain e |}.
Definition error_display (e : Error) : str := default [] (head (chain e)).

(** What [fs::read_to_string] returns for each path at one moment. *)
Abbreviation FileSystem := (str -> result str IoError) (only parsing).

#[export] Instance ErrorKind_eq_dec : EqDecision ErrorKind.
Proof. solve_decision. Defined.

Lemma result_bind_Ok {A B E} (r : result A E) (k : A -> result B E) b :
  result_bind r k = Ok b <-> exists a, r = Ok a /\ k a = Ok b.
Proof. destruct r as [a|e]; simpl; [|by split; [|intros (? & ? & _)]]. split; [eauto|]. by intros (? & [= ->] & ?). Qed.

Lemma result_bind_Err {A B E} (r : result A E) (k : A -> result B E) e :
  result_bind r k = Err e <-> r = Err e \/ exists a, r = Ok a /\ k a = Err e.
Proof.
  destruct r as [a|e']; simpl; split; [eauto| |by intros [= ->]; left|].
  - by intros [?|(? & [= ->] & ?)].
  - by intros [[= ->]|(? & ? & _)].
Qed.

(** [assert_eq!], as the tests of the program use it. *)
Definition assert_eq {A} `{EqDecision A} (x y : A) : bool := bool_decide (x = y).
