(* ===== verification/Common.v ===== *)
(** * Common: the data shared by the probe and userspace

    [oom-watcher-common/src/lib.rs]: the raw OOM kill event with its [#[repr(C)]] layout,
    the container identity, and the enriched event. *)
From S2P Require Import Prelude Text Layout.

(** The raw record the kernel emits at [oom:mark_victim]. [comm] is the array of 16 bytes. *)
Record OomKillEvent := {
  pid : N;              (* u32 *)
  comm : list N;        (* [u8; 16] *)
  total_vm : N;         (* u64, KB *)
  anon_rss : N;         (* u64, KB *)
  file_rss : N;         (* u64, KB *)
  shmem_rss : N;        (* u64, KB *)
  uid : N;              (* u32 *)
  pgtables : N;         (* u64, KB *)
  oom_score_adj : Z;    (* i16 *)
}.

(** Kubernetes coordinates of the container a killed process belonged to. *)
Record ContainerIdentity := {
  namespace : str;
  pod_name : str;
  container_name : str;
  container_id : str;
  image_id : str;
}.

Record EnrichedOomEvent := {
  raw_event : OomKillEvent;
  ev_node_name : option str;
  ev_namespace : option str;
  ev_pod_name : option str;
  ev_container_name : option str;
  ev_container_id : option str;
  ev_image_id : option str;
  ev_timestamp : N;     (* u64 *)
}.

#[export] Instance ContainerIdentity_eq_dec : EqDecision ContainerIdentity.
Proof. solve_decision. Defined.

(** The values a Rust [OomKillEvent] can hold. *)
Record wf_event (e : OomKillEvent) : Prop := {
  wf_pid : pid e < 2 ^ 32;
  wf_comm : length (comm e) = 16%nat;
  wf_comm_bytes : Forall is_byte (comm e);
  wf_total_vm : is_u64 (total_vm e);
  wf_anon_rss : is_u64 (anon_rss e);
  wf_file_rss : is_u64 (file_rss e);
  wf_shmem_rss : is_u64 (shmem_rss e);
  wf_uid : uid e < 2 ^ 32;
  wf_pgtables : is_u64 (pgtables e);
  wf_oom_score_adj : is_int 16 (oom_score_adj e);
}.

(** ** The [#[repr(C)]] layout *)

Definition field (name : string) (size align : nat) : CField :=
  {| cf_name := lit name; cf_size := size; cf_align := align |}.

(** The declared fields, in order, with the size and alignment of their types. *)
Definition OomKillEvent_fields : list CField :=
  [field "pid" 4 4; field "comm" 16 1; field "total_vm" 8 8; field "anon_rss" 8 8;
   field "file_rss" 8 8; field "shmem_rss" 8 8; field "uid" 4 4; field "pgtables" 8 8;
   field "oom_score_adj" 2 2]%nat.

Definition size_of_OomKillEvent : nat := struct_size OomKillEvent_fields.

(** The bytes of each field of an event on a little-endian target. *)
Definition event_field_bytes (e : OomKillEvent) : list (CField * list N) :=
  zip OomKillEvent_fields
    [le_bytes 4 (pid e); comm e; le_bytes 8 (total_vm e); le_bytes 8 (anon_rss e);
     le_bytes 8 (file_rss e); le_bytes 8 (shmem_rss e); le_bytes 4 (uid e);
     le_bytes 8 (pgtables e); le_bytes 2 (to_unsigned 16 (oom_score_adj e))].

(** The memory of an event: what [RingBuf::output] copies. *)
Definition event_memory (pad : nat -> N) (e : OomKillEvent) : list N :=
  write_struct pad (event_field_bytes e).

(** [(ptr as *const OomKillEvent).read_unaligned()]. *)
Definition read_event (data : list N) : OomKillEvent :=
  let get name := read_field OomKillEvent_fields data (lit name) in
  {| pid := le_value (get "pid"%string);
     comm := get "comm"%string;
     total_vm := le_value (get "total_vm"%string);
     anon_rss := le_value (get "anon_rss"%string);
     file_rss := le_value (get "file_rss"%string);
     shmem_rss := le_value (get "shmem_rss"%string);
     uid := le_value (get "uid"%string);
     pgtables := le_value (get "pgtables"%string);
     oom_score_adj := to_signed 16 (le_value (get "oom_score_adj"%string)) |}.

(** ** Lemmas *)

Lemma event_field_bytes_fst e : (event_field_bytes e).*1 = OomKillEvent_fields.
Proof. done. Qed.

Lemma wf_event_fields e : length (comm e) = 16%nat -> wf_fields (event_field_bytes e).
Proof.
  intros Hc. unfold wf_fields, event_field_bytes, OomKillEvent_fields. simpl.
  repeat apply Forall_cons_2; simpl; try (split; [lia|]); rewrite ?length_le_bytes; done.
Qed.

Lemma event_fields_NoDup e : NoDup (cf_name ∘ fst <$> event_field_bytes e).
Proof. apply (bool_decide_unpack _). by vm_compute. Qed.

Lemma length_event_memory pad e :
  length (comm e) = 16%nat -> length (event_memory pad e) = size_of_OomKillEvent.
Proof.
  intros Hc. unfold event_memory. rewrite length_write_struct; [done|by apply wf_event_fields|].
  by vm_compute.
Qed.

(** The bytes of every field can be read back at its offset. *)
Lemma read_event_field pad e i name size align bs :
  length (comm e) = 16%nat ->
  event_field_bytes e !! i = Some (field name size align, bs) ->
  read_field OomKillEvent_fields (event_memory pad e) (lit name) = bs.
Proof.
  intros Hc Hi. rewrite <- (event_field_bytes_fst e).
  apply (read_write_struct pad _ (field name size align)).
  - by apply wf_event_fields.
  - apply event_fields_NoDup.
  - by eapply list_elem_of_lookup_2.
Qed.

Lemma le_value_u64 x : is_u64 x -> le_value (le_bytes 8 x) = x.
Proof.
  intros H. apply le_value_bytes. replace (256 ^ N.of_nat 8) with u64_bound; [done|].
  by vm_compute.
Qed.

Lemma le_value_u32 x : x < 2 ^ 32 -> le_value (le_bytes 4 x) = x.
Proof.
  intros H. apply le_value_bytes. replace (256 ^ N.of_nat 4) with (2 ^ 32); [done|].
  by vm_compute.
Qed.

Lemma le_value_u16 x : x < 2 ^ 16 -> le_value (le_bytes 2 x) = x.
Proof.
  intros H. apply le_value_bytes. replace (256 ^ N.of_nat 2) with (2 ^ 16); [done|].
  by vm_compute.
Qed.

(** Decoding the memory of an event gives the event back. *)
Lemma read_event_memory pad e : wf_event e -> read_event (event_memory pad e) = e.
Proof.
  intros Hwf. pose proof (read_event_field pad e) as Hrd.
  unfold read_event.
  rewrite (Hrd 0%nat "pid"%string 4%nat 4%nat _ (wf_comm _ Hwf) eq_refl).
  rewrite (Hrd 1%nat "comm"%string 16%nat 1%nat _ (wf_comm _ Hwf) eq_refl).
  rewrite (Hrd 2%nat "total_vm"%string 8%nat 8%nat _ (wf_comm _ Hwf) eq_refl).
  rewrite (Hrd 3%nat "anon_rss"%string 8%nat 8%nat _ (wf_comm _ Hwf) eq_refl).
  rewrite (Hrd 4%nat "file_rss"%string 8%nat 8%nat _ (wf_comm _ Hwf) eq_refl).
  rewrite (Hrd 5%nat "shmem_rss"%string 8%nat 8%nat _ (wf_comm _ Hwf) eq_refl).
  rewrite (Hrd 6%nat "uid"%string 4%nat 4%nat _ (wf_comm _ Hwf) eq_refl).
  rewrite (Hrd 7%nat "pgtables"%string 8%nat 8%nat _ (wf_comm _ Hwf) eq_refl).
  rewrite (Hrd 8%nat "oom_score_adj"%string 2%nat 2%nat _ (wf_comm _ Hwf) eq_refl).
  destruct Hwf. rewrite !le_value_u64, !le_value_u32, le_value_u16 by
    (assumption || apply to_unsigned_bound).
  rewrite to_signed_unsigned by (assumption || lia). by destruct e.
Qed.

(** Decoding reads no byte past the struct. *)
Lemma read_event_app data extra :
  length data = size_of_OomKillEvent -> read_event (data ++ extra) = read_event data.
Proof.
  intros Hl. assert (forall name, read_field OomKillEvent_fields (data ++ extra) name
    = read_field OomKillEvent_fields data name) as Hf.
  { intros name. unfold read_field, offset_of.
    destruct (find_first _ (layout OomKillEvent_fields)) as [[[n o] s]|] eqn:E; [|done].
    apply find_first_Some in E as (pre & post & Hlay & _ & _).
    assert (Forall (fun '(_, o, s) => (o + s <= size_of_OomKillEvent)%nat)
      (layout OomKillEvent_fields)) as Hin by (by repeat constructor; vm_compute; lia).
    rewrite Hlay, Forall_app, Forall_cons, <- Hl in Hin. destruct Hin as (_ & Hos & _).
    rewrite drop_app_le by lia. apply take_app_le. rewrite length_drop. lia. }
  unfold read_event. by rewrite !Hf.
Qed.
