(* ===== verification/Tracepoint.v ===== *)
(** * Tracepoint: startup validation of the [oom:mark_victim] trace-entry layout

    [oom-watcher/src/tracepoint.rs]: the parser of a tracepoint [format] file, the
    comparison with the layout the probe decodes, and the startup check. *)
From S2P Require Import Prelude Text Io.

Definition FORMAT_PATHS : list str :=
  [lit "/sys/kernel/tracing/events/oom/mark_victim/format";
   lit "/sys/kernel/debug/tracing/events/oom/mark_victim/format"].

(** One [field:] line reduced to what the decode depends on. *)
Record Field := { name : str; offset : N; size : N }.

Definition Field_new (n : string) (o s : N) : Field :=
  {| name := lit n; offset := o; size := s |}.

Definition REQUIRED_FIELDS : list Field :=
  [Field_new "pid" 8 4; Field_new "comm" 12 4; Field_new "total_vm" 16 8;
   Field_new "anon_rss" 24 8; Field_new "file_rss" 32 8; Field_new "shmem_rss" 40 8;
   Field_new "uid" 48 4; Field_new "pgtables" 56 8; Field_new "oom_score_adj" 64 2].

Inductive Mismatch :=
| Missing (mname : str)
| Moved (mname : str) (expected found : N * N).

(** [impl Display for Mismatch]. *)
Definition Mismatch_display (m : Mismatch) : str :=
  match m with
  | Missing n => lit "  " ++ n ++ lit ": missing"
  | Moved n (eo, es) (fo, fs) =>
      lit "  " ++ n ++ lit ": expected offset " ++ show_N eo ++ lit " size " ++ show_N es
      ++ lit ", found offset " ++ show_N fo ++ lit " size " ++ show_N fs
  end.

(** Pull [<key>:<usize>] out of the trailing [offset:16;\tsize:8;\tsigned:0;] run. *)
Definition attr_part (key part : str) : option N :=
  rest ← strip_prefix key (trim part);
  value ← strip_prefix [Chars.colon] rest;
  parse_usize (trim value).

Definition attr (attrs key : str) : option N :=
  find_map (attr_part key) (split (N.eqb Chars.semicolon) attrs).

(** The closure of [parse_format] on one line. *)
Definition parse_line (line : str) : option (str * N * N) :=
  rest ← strip_prefix (lit "field:") (trim line);
  '(decl, attrs) ← split_once Chars.semicolon rest;
  token ← last (split_whitespace decl);
  piece ← head (split (N.eqb Chars.lbracket) token);
  let n := trim_start_matches (N.eqb Chars.star) piece in
  if decide (n = []) then None
  else
    o ← attr attrs (lit "offset");
    s ← attr attrs (lit "size");
    Some (n, o, s).

(** Parse the [field:] lines of a tracepoint [format] file. *)
Definition parse_format (text : str) : list (str * N * N) := omap parse_line (lines text).

(** [found.iter().find(|(name, _, _)| name == want.name)]. *)
Definition find_field (found : list (str * N * N)) (n : str) : option (str * N * N) :=
  find_first (fun '(n', _, _) => bool_decide (n' = n)) found.

Definition check_field (found : list (str * N * N)) (want : Field) : option Mismatch :=
  match find_field found (name want) with
  | None => Some (Missing (name want))
  | Some (_, o, s) =>
      if bool_decide ((o, s) <> (offset want, size want))
      then Some (Moved (name want) (offset want, size want) (o, s))
      else None
  end.

(** Compare a [format] file against the layout the probe decodes. *)
Definition check_layout (text : str) : list Mismatch :=
  let found := parse_format text in omap (check_field found) REQUIRED_FIELDS.

(** The loop of [read_format]: the first readable path, remembering the last error. *)
Fixpoint read_first (fs : FileSystem) (paths : list str) (last_err : option (str * IoError))
    : result str (option (str * IoError)) :=
  match paths with
  | [] => Err last_err
  | path :: paths =>
      match fs path with
      | Ok text => Ok text
      | Err e => read_first fs paths (Some (path, e))
      end
  end.

(** [read_format]. The [expect] is the [None] case, which [FORMAT_PATHS] rules out. *)
Definition read_format (fs : FileSystem) : result str Error :=
  match read_first fs FORMAT_PATHS None with
  | Ok text => Ok text
  | Err (Some (path, err)) =>
      Err (anyhow (lit "could not read the oom:mark_victim tracepoint format (" ++ path
        ++ lit ": " ++ io_message err ++ lit ")." ++ [Chars.newline]
        ++ lit "Mount tracefs and make it visible to this container " ++ [8212]
        ++ lit " the DaemonSet mounts /sys and /sys/kernel/debug for exactly this."))
  | Err None => Err (anyhow (lit "FORMAT_PATHS is non-empty"))
  end.

Definition is_missing (m : Mismatch) : bool :=
  match m with Missing _ => true | Moved _ _ _ => false end.

Definition pre_6_9_hint : str :=
  lit "This is the pre-6.9 tracepoint, which carries only `pid`. The extended fields landed in Linux 6.9; this node needs a 6.9+ kernel.".

Definition changed_hint : str :=
  lit "The tracepoint layout has changed. MarkVictimArgs in oom-watcher-ebpf and REQUIRED_FIELDS here both need updating for this kernel.".

Definition mismatch_error (mismatches : list Mismatch) : Error :=
  let detail := join [Chars.newline] (Mismatch_display <$> mismatches) in
  let all_missing := forallb is_missing mismatches in
  anyhow
    (lit "the oom:mark_victim tracepoint on this kernel does not match the layout this probe decodes:"
     ++ [Chars.newline] ++ detail ++ [Chars.newline; Chars.newline]
     ++ (if all_missing then pre_6_9_hint else changed_hint) ++ [Chars.newline]
     ++ lit "Refusing to start: attaching anyway would report correct PIDs alongside meaningless memory figures.").

(** Assert the running kernel's layout, before the probe is loaded. *)
Definition verify_kernel_layout (fs : FileSystem) : result unit Error :=
  text <-? read_format fs;;
  let mismatches := check_layout text in
  match mismatches with
  | [] => Ok tt
  | _ :: _ => Err (mismatch_error mismatches)
  end.

(** ** The lines a kernel prints

    A [format] file has one such line per field, after a header and a blank line; see the
    comment of [parse_format] and the captured files of its tests. *)
Module KernelFormat.

Record FieldDecl := {
fd_type : str;       (* [unsigned long], [__data_loc char[]], ... *)
fd_name : str;
fd_array : str;      (* [[16]] or nothing *)
fd_offset : N;
fd_size : N;
fd_signed : bool;
}.

Definition attr_text (key : string) (value : str) : str :=
Chars.tab :: lit key ++ Chars.colon :: value.

Definition render_attrs (d : FieldDecl) : str :=
attr_text "offset" (show_N (fd_offset d)) ++ Chars.semicolon ::
attr_text "size" (show_N (fd_size d)) ++ Chars.semicolon ::
attr_text "signed" (if fd_signed d then lit "1" else lit "0") ++ [Chars.semicolon].

Definition render_decl (d : FieldDecl) : str :=
fd_type d ++ Chars.space :: fd_name d ++ fd_array d.

(** [\tfield:unsigned long total_vm;\toffset:16;\tsize:8;\tsigned:0;] *)
Definition render_field (d : FieldDecl) : str :=
[Chars.tab] ++ lit "field:" ++ render_decl d ++ Chars.semicolon :: render_attrs d.

Fixpoint render_fields (ds : list FieldDecl) : str :=
match ds with
| [] => []
| d :: ds => render_field d ++ Chars.newline :: render_fields ds
end.

(** Lines other than field lines: the name, the id, [format:], the blank line. *)
Fixpoint unlines (ls : list str) : str :=
match ls with
| [] => []
| l :: ls => l ++ Chars.newline :: unlines ls
end.

Definition plain_line (l : str) : Prop :=
Forall (fun c => c <> Chars.newline) l /\ last l <> Some Chars.cr
/\ starts_with (trim l) (lit "field:") = false.

(** A C declaration: a type, an identifier, an optional array suffix. *)
Record wf_decl (d : FieldDecl) : Prop := {
wf_type : Forall (fun c => c <> Chars.semicolon /\ c <> Chars.newline) (fd_type d);
wf_name_ne : fd_name d <> [];
wf_name : Forall (fun c => Chars.is_whitespace c = false /\ c <> Chars.semicolon
                           /\ c <> Chars.lbracket) (fd_name d);
wf_name_star : head (fd_name d) <> Some Chars.star;
wf_array : fd_array d = [] \/ head (fd_array d) = Some Chars.lbracket;
wf_array_chars : Forall (fun c => Chars.is_whitespace c = false /\ c <> Chars.semicolon)
                   (fd_array d);
wf_offset : fd_offset d < u64_bound;
wf_size : fd_size d < u64_bound;
}.

End KernelFormat.
Import KernelFormat.

(** ** Lemmas on the parser *)

Lemma digit_not_whitespace c : Chars.is_digit c = true -> Chars.is_whitespace c = false.
Proof.
  unfold Chars.is_digit. intros [H1%N.leb_le H2%N.leb_le]%andb_true_iff.
  assert (c = 48 \/ c = 49 \/ c = 50 \/ c = 51 \/ c = 52 \/ c = 53 \/ c = 54 \/ c = 55
          \/ c = 56 \/ c = 57) as Hc by lia.
  by destruct_or! Hc; subst c.
Qed.

Lemma show_N_not_whitespace n : Forall (fun c => Chars.is_whitespace c = false) (show_N n).
Proof. eapply Forall_impl; [apply show_N_digits|]. intros c. apply digit_not_whitespace. Qed.

Lemma Forall_head {A} (P : A -> Prop) l x : Forall P l -> head l = Some x -> P x.
Proof. intros H Hx. destruct H; simpl in Hx; by simplify_eq. Qed.

Lemma Forall_last {A} (P : A -> Prop) l x : Forall P l -> last l = Some x -> P x.
Proof. intros H Hx. apply last_Some_elem_of in Hx. rewrite Forall_forall in H. by apply H. Qed.

Lemma trim_show_N n : trim (show_N n) = show_N n.
Proof.
  apply (trim_pad [] (show_N n)); [done| |]; intros c Hc.
  - exact (Forall_head _ _ _ (show_N_not_whitespace n) Hc).
  - exact (Forall_last _ _ _ (show_N_not_whitespace n) Hc).
Qed.

Lemma last_app_ne {A} (l1 l2 : list A) : l2 <> [] -> last (l1 ++ l2) = last l2.
Proof. intros H. rewrite last_app. by destruct l2 as [|x l2]; [|destruct (last (x :: l2)) eqn:E; [|apply last_None in E]]. Qed.

(** An attribute printed by the kernel reads back as its value. *)
Lemma attr_part_text (key : string) n :
  n < u64_bound ->
  (forall c, head (lit key ++ [Chars.colon]) = Some c -> Chars.is_whitespace c = false) ->
  attr_part (lit key) (attr_text key (show_N n)) = Some n.
Proof.
  intros Hn Hk. unfold attr_part, attr_text.
  rewrite trim_pad1.
  - rewrite strip_prefix_app. simpl. rewrite trim_show_N. by apply parse_show_N.
  - done.
  - intros c Hc. apply Hk. by destruct (lit key).
  - intros c. change (Chars.colon :: show_N n) with ([Chars.colon] ++ show_N n).
    rewrite app_assoc, last_app_ne by apply show_N_nonempty. intros Hc.
    exact (Forall_last _ _ _ (show_N_not_whitespace n) Hc).
Qed.

Lemma show_N_no_sep n : Forall (fun c => N.eqb Chars.semicolon c = false) (show_N n).
Proof.
  eapply Forall_impl; [apply show_N_digits|]. intros c Hc. simpl in Hc.
  apply N.eqb_neq. intros <-. by vm_compute in Hc.
Qed.

Lemma attr_text_no_sep (key : string) v :
  Forall (fun c => N.eqb Chars.semicolon c = false) (lit key) ->
  Forall (fun c => N.eqb Chars.semicolon c = false) v ->
  Forall (fun c => N.eqb Chars.semicolon c = false) (attr_text key v).
Proof. intros. unfold attr_text. rewrite Forall_cons, Forall_app, Forall_cons. done. Qed.

Ltac no_sep := apply attr_text_no_sep; [by repeat constructor|apply show_N_no_sep].

Lemma attr_offset d : wf_decl d -> attr (render_attrs d) (lit "offset") = Some (fd_offset d).
Proof.
  intros Hwf. unfold attr, render_attrs. rewrite split_sep by (done || no_sep). cbn [find_map].
  rewrite attr_part_text; [done|by apply wf_offset|by intros c [= <-]].
Qed.

Lemma attr_size d : wf_decl d -> attr (render_attrs d) (lit "size") = Some (fd_size d).
Proof.
  intros Hwf. unfold attr, render_attrs. rewrite !split_sep by (done || no_sep). cbn [find_map].
  replace (attr_part (lit "size") (attr_text "offset" (show_N (fd_offset d)))) with (@None N).
  - rewrite attr_part_text; [done|by apply wf_size|by intros c [= <-]].
  - unfold attr_part, attr_text. symmetry.
    rewrite trim_pad1; [done|done|by intros c [= <-]|].
    intros c. change (Chars.colon :: show_N (fd_offset d))
      with ([Chars.colon] ++ show_N (fd_offset d)).
    rewrite app_assoc, last_app_ne by apply show_N_nonempty. intros Hc.
    exact (Forall_last _ _ _ (show_N_not_whitespace _) Hc).
Qed.

Lemma last_render_attrs d : last (render_attrs d) = Some Chars.semicolon.
Proof.
  unfold render_attrs.
  replace (attr_text "offset" (show_N (fd_offset d)) ++ _) with
    ((attr_text "offset" (show_N (fd_offset d)) ++ [Chars.semicolon]
      ++ attr_text "size" (show_N (fd_size d)) ++ [Chars.semicolon]
      ++ attr_text "signed" (if fd_signed d then lit "1" else lit "0")) ++ [Chars.semicolon]);
    [by rewrite last_snoc|by rewrite <- !app_assoc].
Qed.

Lemma name_of_token d :
  wf_decl d ->
  trim_start_matches (N.eqb Chars.star)
    (default [] (head (split (N.eqb Chars.lbracket) (fd_name d ++ fd_array d)))) = fd_name d.
Proof.
  intros Hwf.
  assert (Forall (fun c => N.eqb Chars.lbracket c = false) (fd_name d)) as Hn.
  { eapply Forall_impl; [by apply wf_name|]. intros c (_ & _ & H).
    apply N.eqb_neq. congruence. }
  assert (head (split (N.eqb Chars.lbracket) (fd_name d ++ fd_array d)) = Some (fd_name d)) as ->.
  { destruct (wf_array d Hwf) as [->|Ha]; [by rewrite app_nil_r, split_no_sep|].
    destruct (fd_array d) as [|c r]; simplify_eq/=. by rewrite split_sep. }
  simpl. apply trim_start_matches_id. intros c Hc. apply N.eqb_neq. intros <-.
  by apply (wf_name_star d Hwf).
Qed.

(** A line the kernel prints parses to the field it declares. *)
Lemma parse_line_render d :
  wf_decl d -> parse_line (render_field d) = Some (fd_name d, fd_offset d, fd_size d).
Proof.
  intros Hwf. unfold parse_line, render_field. cbn [app].
  rewrite trim_pad1; [|done|by intros c [= <-]|].
  2:{ change (Chars.semicolon :: render_attrs d) with ([Chars.semicolon] ++ render_attrs d).
      rewrite !app_assoc, last_app_ne by (intros H; pose proof (last_render_attrs d) as Hl;
        by rewrite H in Hl). rewrite last_render_attrs. by intros c [= <-]. }
  rewrite strip_prefix_app. cbn [mbind option_bind].
  rewrite split_once_sep.
  2:{ unfold render_decl. rewrite Forall_app, Forall_cons, Forall_app. repeat split; [|done|..].
      - eapply Forall_impl; [by apply wf_type|]. by intros c [? _].
      - eapply Forall_impl; [by apply wf_name|]. by intros c (_ & ? & _).
      - eapply Forall_impl; [by apply wf_array_chars|]. by intros c [_ ?]. }
  cbn [mbind option_bind]. unfold render_decl.
  rewrite last_split_whitespace; [|done| |].
  2:{ intros [? _]%app_eq_nil. by apply (wf_name_ne d Hwf). }
  2:{ apply Forall_app. split; [eapply Forall_impl; [by apply wf_name|]|eapply Forall_impl;
        [by apply wf_array_chars|]]; by intros c [? _]. }
  cbn [mbind option_bind]. pose proof (name_of_token d Hwf) as Hname.
  destruct (split (N.eqb Chars.lbracket) (fd_name d ++ fd_array d)) as [|piece rest] eqn:E;
    [by apply split_nonempty in E|].
  cbn [head mbind option_bind from_option id] in *. rewrite Hname.
  rewrite decide_False by (by apply wf_name_ne).
  by rewrite attr_offset, attr_size.
Qed.

Lemma attr_text_no_newline (key : string) v :
  Forall (fun c => c <> Chars.newline) (lit key) -> Forall (fun c => c <> Chars.newline) v ->
  Forall (fun c => c <> Chars.newline) (attr_text key v).
Proof. intros. unfold attr_text. rewrite Forall_cons, Forall_app, Forall_cons. done. Qed.

Lemma show_N_no_newline n : Forall (fun c => c <> Chars.newline) (show_N n).
Proof. eapply Forall_impl; [apply show_N_digits|]. intros c Hc ->. by vm_compute in Hc. Qed.

Lemma not_whitespace_newline c : Chars.is_whitespace c = false -> c <> Chars.newline.
Proof. by intros H ->. Qed.

Lemma render_field_no_newline d :
  wf_decl d -> Forall (fun c => c <> Chars.newline) (render_field d).
Proof.
  intros Hwf. unfold render_field, render_decl, render_attrs.
  rewrite !Forall_app, !Forall_cons, !Forall_app, !Forall_cons, !Forall_app, !Forall_cons, !Forall_app.
  repeat split; try done; try by repeat constructor.
  - eapply Forall_impl; [by apply wf_type|]. by intros c [_ ?].
  - eapply Forall_impl; [by apply wf_name|]. intros c (? & _). by apply not_whitespace_newline.
  - eapply Forall_impl; [by apply wf_array_chars|]. intros c (? & _).
    by apply not_whitespace_newline.
  - apply attr_text_no_newline; [by repeat constructor|apply show_N_no_newline].
  - apply attr_text_no_newline; [by repeat constructor|apply show_N_no_newline].
  - apply attr_text_no_newline; [by repeat constructor|by destruct (fd_signed d); repeat constructor].
Qed.

Lemma last_render_field d : last (render_field d) = Some Chars.semicolon.
Proof.
  unfold render_field. change (Chars.semicolon :: render_attrs d)
    with ([Chars.semicolon] ++ render_attrs d).
  rewrite !app_assoc, last_app_ne; [apply last_render_attrs|].
  intros H. pose proof (last_render_attrs d) as Hl. by rewrite H in Hl.
Qed.

Lemma parse_format_line l r :
  Forall (fun c => c <> Chars.newline) l -> last l <> Some Chars.cr ->
  parse_format (l ++ Chars.newline :: r) = option_list (parse_line l) ++ parse_format r.
Proof.
  intros Hl Hcr. unfold parse_format. rewrite lines_line by done. simpl.
  by destruct (parse_line l).
Qed.

Lemma parse_format_render_app ds r :
  Forall wf_decl ds ->
  parse_format (render_fields ds ++ r)
  = ((fun d => (fd_name d, fd_offset d, fd_size d)) <$> ds) ++ parse_format r.
Proof.
  induction 1 as [|d ds Hd Hds IH]; [done|]. cbn [render_fields].
  rewrite <- app_assoc. cbn [app]. rewrite parse_format_line.
  - by rewrite parse_line_render, IH.
  - by apply render_field_no_newline.
  - by rewrite last_render_field.
Qed.

Lemma parse_format_unlines ls r :
  Forall plain_line ls -> parse_format (unlines ls ++ r) = parse_format r.
Proof.
  induction 1 as [|l ls (Hl & Hcr & Hf) Hls IH]; [done|]. cbn [unlines].
  rewrite <- app_assoc. cbn [app]. rewrite parse_format_line, IH by done.
  unfold parse_line. unfold starts_with in Hf. apply bool_decide_eq_false in Hf.
  destruct (strip_prefix _ _); [|done]. by destruct Hf.
Qed.

(** ** The captured [format] files of the tests *)

Definition fd (ty nm arr : string) (o s : N) (sg : bool) : FieldDecl :=
  {| fd_type := lit ty; fd_name := lit nm; fd_array := lit arr; fd_offset := o;
     fd_size := s; fd_signed := sg |}.

Definition common_header : list FieldDecl :=
  [fd "unsigned short" "common_type" "" 0 2 false;
   fd "unsigned char" "common_flags" "" 2 1 false;
   fd "unsigned char" "common_preempt_count" "" 3 1 false;
   fd "int" "common_pid" "" 4 4 true].

Definition modern_fields : list FieldDecl :=
  [fd "int" "pid" "" 8 4 true; fd "__data_loc char[]" "comm" "" 12 4 true;
   fd "unsigned long" "total_vm" "" 16 8 false; fd "unsigned long" "anon_rss" "" 24 8 false;
   fd "unsigned long" "file_rss" "" 32 8 false; fd "unsigned long" "shmem_rss" "" 40 8 false;
   fd "unsigned int" "uid" "" 48 4 false; fd "unsigned long" "pgtables" "" 56 8 false;
   fd "short" "oom_score_adj" "" 64 2 true].

Definition format_header (id : string) : list str :=
  [lit "name: mark_victim"; lit "ID: " ++ lit id; lit "format:"].

Definition trailer (fmt : string) : str :=
  Chars.newline :: lit "print fmt: " ++ lit_q fmt ++ [Chars.newline].

Definition modern_trailer : str :=
  trailer "'pid=%d comm=%s total-vm=%lukB', REC->pid, __get_str(comm), REC->total_vm".

(** The 6.9+ tracepoint and the one before it. *)
Definition MODERN : str :=
  unlines (format_header "1442") ++ render_fields common_header
  ++ Chars.newline :: render_fields modern_fields ++ modern_trailer.

Definition PRE_6_9 : str :=
  unlines (format_header "1189") ++ render_fields common_header
  ++ Chars.newline :: render_fields (take 1 modern_fields)
  ++ trailer "'pid=%d', REC->pid".

(** ** Properties *)

(** What the check demands: each required field is present and its first occurrence has
    the offset and size the probe reads at. *)
Definition layout_ok (found : list (str * N * N)) : Prop :=
  Forall (fun want => find_field found (name want) = Some (name want, offset want, size want))
    REQUIRED_FIELDS.

Lemma find_field_name found n x : find_field found n = Some x -> x.1.1 = n.
Proof.
  intros (pre & post & _ & Hx & _)%find_first_Some.
  destruct x as [[n' o] s]. by apply bool_decide_eq_true in Hx.
Qed.

Lemma check_field_None found want :
  check_field found want = None <->
  find_field found (name want) = Some (name want, offset want, size want).
Proof.
  unfold check_field. destruct (find_field found (name want)) as [[[n o] s]|] eqn:E; [|done].
  apply find_field_name in E. simpl in E. subst n.
  case_bool_decide as Hos.
  - by split; [|intros [= -> ->]].
  - by injection Hos as -> ->.
Qed.

Lemma omap_nil {A B} (f : A -> option B) l : omap f l = [] <-> Forall (fun x => f x = None) l.
Proof.
  induction l as [|x l IH]; simpl; [by split|]. rewrite Forall_cons.
  destruct (f x); simpl; [by split; [|intros [? _]]|]. rewrite IH. tauto.
Qed.

Lemma check_layout_nil text : check_layout text = [] <-> layout_ok (parse_format text).
Proof.
  unfold check_layout, layout_ok. rewrite omap_nil. apply Forall_iff.
  intros want. apply check_field_None.
Qed.

Lemma find_field_None found n : find_field found n = None <-> forall o s, (n, o, s) ∉ found.
Proof.
  unfold find_field. rewrite find_first_None, Forall_forall. split.
  - intros H o s Hin. specialize (H _ Hin). simpl in H. by rewrite bool_decide_eq_true_2 in H.
  - intros H [[n' o] s] Hin. apply bool_decide_eq_false_2. intros ->. by eapply H.
Qed.

Lemma check_field_Missing found w n :
  check_field found w = Some (Missing n) <-> name w = n /\ forall o s, (n, o, s) ∉ found.
Proof.
  rewrite <- find_field_None. unfold check_field. split.
  - destruct (find_field found (name w)) as [[[n' o] s]|] eqn:E; [by case_bool_decide|].
    by intros [= <-].
  - by intros [<- ->].
Qed.

Lemma check_field_Moved found w n e f :
  check_field found w = Some (Moved n e f) <->
  (name w = n /\ e = (offset w, size w)) /\ find_field found n = Some (n, f.1, f.2) /\ f <> e.
Proof.
  unfold check_field. split.
  - destruct (find_field found (name w)) as [[[n' o] s]|] eqn:E; [|done].
    pose proof (find_field_name _ _ _ E) as Hn. simpl in Hn. subst n'.
    case_bool_decide; [|done]. intros [= <- <- <-]. done.
  - intros [[<- ->] [-> Hne]]. destruct f as [o s]. by rewrite bool_decide_eq_true_2.
Qed.

Lemma read_first_Ok (fs : FileSystem) paths last_err text :
  read_first fs paths last_err = Ok text <->
  exists pre p post, paths = pre ++ p :: post /\ fs p = Ok text /\
    Forall (fun q => is_ok (fs q) = false) pre.
Proof.
  revert last_err. induction paths as [|p paths IH]; intros last_err; simpl.
  { split; [done|]. by intros ([|] & ? & ? & ? & _). }
  destruct (fs p) as [t|e] eqn:E; [split|rewrite IH; split].
  - intros [= ->]. exists [], p, paths. repeat split; [done|constructor].
  - intros ([|q pre] & p' & post & Heq & Hp & Hpre); simplify_eq/=; [congruence|].
    apply Forall_cons in Hpre as [Hq _]. by rewrite E in Hq.
  - intros (pre & p' & post & -> & Hp & Hpre). exists (p :: pre), p', post.
    split; [done|]. split; [done|]. constructor; [by rewrite E|done].
  - intros ([|q pre] & p' & post & Heq & Hp & Hpre); simplify_eq/=; [congruence|].
    apply Forall_cons in Hpre as [_ Hpre]. by exists pre, p', post.
Qed.

(** the startup check accepts a [format] file exactly when every field the probe
    decodes is present with the offset and size the probe hard-codes; in particular no
    accepted kernel makes the probe read a figure from the wrong place. *)
Theorem check_layout_accepts text :
  check_layout text = [] <-> layout_ok (parse_format text).
Proof.
  apply check_layout_nil.
Qed.

(** C21: round trip of the [format] parser: a file made of header lines, the field lines the
    kernel prints for a list of declarations, and a trailer, parses to those fields with
    their offsets and sizes (array suffixes, [__data_loc] types and tabs notwithstanding). *)
Theorem parse_format_render hs ds r :
  Forall plain_line hs -> Forall wf_decl ds ->
  parse_format (unlines hs ++ render_fields ds ++ r)
  = ((fun d => (fd_name d, fd_offset d, fd_size d)) <$> ds) ++ parse_format r.
Proof. intros. by rewrite parse_format_unlines, parse_format_render_app. Qed.

(** What the first readable of two paths gives, and the last error when neither is. *)
Lemma read_format_cases (fs : FileSystem) :
  read_format fs =
    match fs (lit "/sys/kernel/tracing/events/oom/mark_victim/format"),
          fs (lit "/sys/kernel/debug/tracing/events/oom/mark_victim/format") with
    | Ok text, _ | Err _, Ok text => Ok text
    | Err _, Err e => Err (anyhow
        (lit "could not read the oom:mark_victim tracepoint format (/sys/kernel/debug/tracing/events/oom/mark_victim/format: "
         ++ io_message e ++ lit ")." ++ [Chars.newline]
         ++ lit "Mount tracefs and make it visible to this container " ++ [8212]
         ++ lit " the DaemonSet mounts /sys and /sys/kernel/debug for exactly this."))
    end.
Proof.
  unfold read_format, FORMAT_PATHS. cbn [read_first].
  destruct (fs _) as [t|e1]; [done|]. by destruct (fs _) as [t|e2].
Qed.

(** [ms] names every required field that is not where the probe reads it, and no other. *)
Definition discrepancies (found : list (str * N * N)) (ms : list Mismatch) : Prop :=
  (forall n, Missing n ∈ ms <->
     (exists w, w ∈ REQUIRED_FIELDS /\ name w = n) /\ forall o s, (n, o, s) ∉ found) /\
  (forall n e f, Moved n e f ∈ ms <->
     (exists w, w ∈ REQUIRED_FIELDS /\ name w = n /\ e = (offset w, size w)) /\
     find_field found n = Some (n, f.1, f.2) /\ f <> e).

Lemma check_layout_discrepancies text : discrepancies (parse_format text) (check_layout text).
Proof.
  unfold check_layout. split; intros; rewrite list_elem_of_omap.
  - setoid_rewrite check_field_Missing. naive_solver.
  - setoid_rewrite check_field_Moved. naive_solver.
Qed.

Lemma hint_cases ms :
  (forall m, m ∈ ms -> exists n, m = Missing n) /\ forallb is_missing ms = true \/
  (exists n e f, Moved n e f ∈ ms) /\ forallb is_missing ms = false.
Proof.
  induction ms as [|[n|n e f] ms IH]; simpl.
  - left. split; [|done]. by intros m ?%elem_of_nil.
  - destruct IH as [[H Hf]|[(n' & e & f & H) Hf]]; [left|right]; (split; [|done]).
    + intros m [->|Hm]%elem_of_cons; [by exists n|by apply H].
    + exists n', e, f. by right.
  - right. split; [|done]. exists n, e, f. by left.
Qed.

(** C20: the startup check, on every branch. It reads the first of the two mount points that is
    readable. If neither is, the error names the second path with its error and says what to
    mount. If the layout read is the one the probe decodes, the check succeeds. Otherwise the
    error has a line for every required field that is missing or elsewhere, and for no other
    field, and the hint: a kernel before 6.9 when fields are only missing, a changed
    tracepoint when one has moved. *)
Theorem verify_kernel_layout_ok (fs : FileSystem) :
  match fs (lit "/sys/kernel/tracing/events/oom/mark_victim/format"),
        fs (lit "/sys/kernel/debug/tracing/events/oom/mark_victim/format") with
  | Ok text, _ | Err _, Ok text =>
      (layout_ok (parse_format text) /\ verify_kernel_layout fs = Ok tt) \/
      (~ layout_ok (parse_format text) /\ exists ms hint,
         discrepancies (parse_format text) ms /\
         ((forall m, m ∈ ms -> exists n, m = Missing n) /\
          hint = lit "This is the pre-6.9 tracepoint, which carries only `pid`. The extended fields landed in Linux 6.9; this node needs a 6.9+ kernel." \/
          (exists n e f, Moved n e f ∈ ms) /\
          hint = lit "The tracepoint layout has changed. MarkVictimArgs in oom-watcher-ebpf and REQUIRED_FIELDS here both need updating for this kernel.") /\
         verify_kernel_layout fs = Err (anyhow
           (lit "the oom:mark_victim tracepoint on this kernel does not match the layout this probe decodes:"
            ++ [Chars.newline] ++ join [Chars.newline] (Mismatch_display <$> ms)
            ++ [Chars.newline; Chars.newline] ++ hint ++ [Chars.newline]
            ++ lit "Refusing to start: attaching anyway would report correct PIDs alongside meaningless memory figures.")))
  | Err _, Err e =>
      verify_kernel_layout fs = Err (anyhow
        (lit "could not read the oom:mark_victim tracepoint format (/sys/kernel/debug/tracing/events/oom/mark_victim/format: "
         ++ io_message e ++ lit ")." ++ [Chars.newline]
         ++ lit "Mount tracefs and make it visible to this container " ++ [8212]
         ++ lit " the DaemonSet mounts /sys and /sys/kernel/debug for exactly this."))
  end.
Proof.
  unfold verify_kernel_layout. rewrite read_format_cases.
  pose proof check_layout_nil as Hnil. pose proof check_layout_discrepancies as Hms.
  destruct (fs _) as [text|e1]; [|destruct (fs _) as [text|e2]; [|done]]; cbn [result_bind];
    specialize (Hnil text); specialize (Hms text);
    (destruct (check_layout text) as [|m ms]; [left; split; [by apply Hnil|done]|right]);
    (split; [by intros ?%Hnil|]); unfold mismatch_error;
    (destruct (hint_cases (m :: ms)) as [[? ->]|[? ->]]; eexists _, _;
     (split; [exact Hms|]); split; [by left|done|by right|done]).
Qed.

(** ** Concrete inputs *)

Lemma common_header_wf : Forall wf_decl common_header.
Proof. repeat constructor; try done; try by left. Qed.

Lemma format_header_plain id :
  Forall (fun c => c <> Chars.newline) (lit id) -> last (lit "ID: " ++ lit id) <> Some Chars.cr ->
  starts_with (trim (lit "ID: " ++ lit id)) (lit "field:") = false ->
  Forall plain_line (format_header id).
Proof.
  intros Hid Hcr Hf. by repeat constructor.
Qed.

Lemma parse_format_render_witness :
  Forall plain_line (format_header "1442") /\ Forall wf_decl common_header /\
  parse_format MODERN
  = ((fun d => (fd_name d, fd_offset d, fd_size d)) <$> common_header)
    ++ parse_format (Chars.newline :: render_fields modern_fields ++ modern_trailer).
Proof.
  assert (Forall plain_line (format_header "1442")) as Hh
    by (apply format_header_plain; [by repeat constructor|done|by vm_compute]).
  split; [exact Hh|]. split; [apply common_header_wf|].
  apply (parse_format_render (format_header "1442") common_header);
    [exact Hh|apply common_header_wf].
Defined.
