(* ===== verification/Probe.v ===== *)
(** * Probe: the eBPF program attached to [oom:mark_victim]

    [oom-watcher-ebpf/src/main.rs]: the trace entry it decodes, the two maps it owns and
    the program itself. The BPF helpers and the kernel's ring buffer are interfaces. *)
From S2P Require Import Prelude Text Layout Common Tracepoint.

(** ** Kernel interfaces *)

(** The two helpers the program calls, over the memory of one invocation.
    [probe_read_kernel addr len] copies [len] bytes or fails; [probe_read_kernel_str addr dst]
    is the content of the destination buffer after the call, success or not. *)
Record BpfHelpers := {
  probe_read_kernel : N -> nat -> option (list N);
  probe_read_kernel_str : N -> list N -> list N;
}.

(** Documented behaviour: a successful read returns exactly the bytes asked for, and a
    string read fills the buffer it was given. *)
Record helpers_ok (h : BpfHelpers) : Prop := {
  probe_read_length : forall a n bs, probe_read_kernel h a n = Some bs ->
    length bs = n /\ Forall is_byte bs;
  probe_read_str_length : forall a dst, length (probe_read_kernel_str h a dst) = length dst;
  probe_read_str_bytes : forall a dst, Forall is_byte dst ->
    Forall is_byte (probe_read_kernel_str h a dst);
}.

(** A BPF ring buffer: [ring_output] reserves, copies and commits a record, or fails
    because the buffer is full; [ring_records] is what the consumer has yet to read. *)
Class RingBuf (R : Type) := {
  ring_output : list N -> R -> option R;
  ring_records : R -> list (list N);
}.

Class RingBufLaws (R : Type) `{RingBuf R} : Prop := {
  ring_output_records : forall d r r',
    ring_output d r = Some r' -> ring_records r' = ring_records r ++ [d];
}.

(** ** The trace entry *)

(** [MarkVictimArgs], laid out by the kernel from Linux 6.9 onward. *)
Record MarkVictimArgs := {
  common_type : N;            (* u16 *)
  common_flags : N;           (* u8 *)
  common_preempt_count : N;   (* u8 *)
  common_pid : Z;             (* i32 *)
  a_pid : Z;                  (* i32 *)
  comm_data_loc : N;          (* u32 *)
  a_total_vm : N;
  a_anon_rss : N;
  a_file_rss : N;
  a_shmem_rss : N;
  a_uid : N;                  (* u32 *)
  a_pgtables : N;
  a_oom_score_adj : Z;        (* i16 *)
}.

Definition MarkVictimArgs_fields : list CField :=
  [field "common_type" 2 2; field "common_flags" 1 1; field "common_preempt_count" 1 1;
   field "common_pid" 4 4; field "pid" 4 4; field "comm_data_loc" 4 4;
   field "total_vm" 8 8; field "anon_rss" 8 8; field "file_rss" 8 8; field "shmem_rss" 8 8;
   field "uid" 4 4; field "pgtables" 8 8; field "oom_score_adj" 2 2]%nat.

Definition size_of_MarkVictimArgs : nat := struct_size MarkVictimArgs_fields.

(** The value [bpf_probe_read_kernel] produces from the bytes it copied. *)
Definition read_args (data : list N) : MarkVictimArgs :=
  let get n := le_value (read_field MarkVictimArgs_fields data (lit n)) in
  {| common_type := get "common_type"%string;
     common_flags := get "common_flags"%string;
     common_preempt_count := get "common_preempt_count"%string;
     common_pid := to_signed 32 (get "common_pid"%string);
     a_pid := to_signed 32 (get "pid"%string);
     comm_data_loc := get "comm_data_loc"%string;
     a_total_vm := get "total_vm"%string;
     a_anon_rss := get "anon_rss"%string;
     a_file_rss := get "file_rss"%string;
     a_shmem_rss := get "shmem_rss"%string;
     a_uid := get "uid"%string;
     a_pgtables := get "pgtables"%string;
     a_oom_score_adj := to_signed 16 (get "oom_score_adj"%string) |}.

(** ** The program *)

(** The byte size of [EVENTS]. *)
Definition EVENTS_BYTES : N := 256 * 1024.

Section program.
Context {R : Type} `{RingBuf R}.

(** [EVENTS] and the per-CPU values of [DROPPED[0]]. *)
Record Maps := { EVENTS : R; DROPPED : list N }.

(** [if let Some(dropped) = DROPPED.get_ptr_mut(0) { *dropped += 1 }] on one CPU. *)
Definition count_drop (cpu : nat) (m : Maps) : Maps :=
  match DROPPED m !! cpu with
  | Some dropped =>
      {| EVENTS := EVENTS m; DROPPED := <[cpu := wrapping_add dropped 1]> (DROPPED m) |}
  | None => m
  end.

Definition event_of_args (args : MarkVictimArgs) (comm : list N) : OomKillEvent :=
  {| pid := to_unsigned 32 (a_pid args);
     comm := comm;
     total_vm := a_total_vm args;
     anon_rss := a_anon_rss args;
     file_rss := a_file_rss args;
     shmem_rss := a_shmem_rss args;
     uid := a_uid args;
     pgtables := a_pgtables args;
     oom_score_adj := a_oom_score_adj args |}.

(** [mark_victim]: one firing of the tracepoint on [cpu] with the entry at [ctx]. [pad]
    is the padding of the event on the program's stack. *)
Definition mark_victim (h : BpfHelpers) (ctx : N) (pad : nat -> N) (cpu : nat) (m : Maps)
    : N * Maps :=
  match probe_read_kernel h ctx size_of_MarkVictimArgs with
  | None => (0, m)
  | Some data =>
      let args := read_args data in
      let comm_offset := N.land (comm_data_loc args) 65535 in
      let comm := probe_read_kernel_str h (ctx + comm_offset) (replicate 16 0) in
      let event := event_of_args args comm in
      match ring_output (event_memory pad event) (EVENTS m) with
      | Some events => (0, {| EVENTS := events; DROPPED := DROPPED m |})
      | None => (0, count_drop cpu m)
      end
  end.
End program.
Arguments Maps : clear implicits.

(** ** Lemmas *)

Lemma read_field_bytes fs data n :
  Forall is_byte data -> Forall is_byte (read_field fs data n).
Proof.
  intros H. unfold read_field. destruct (offset_of (layout fs) n) as [[o s]|]; [|done].
  by apply Forall_take, Forall_drop.
Qed.

Lemma read_field_le_length fs data n o s :
  offset_of (layout fs) n = Some (o, s) -> (length (read_field fs data n) <= s)%nat.
Proof. intros H. unfold read_field. rewrite H, length_take. lia. Qed.

(** A field read off an entry fits the type it is declared with. *)
Lemma read_field_bound data n o s :
  Forall is_byte data -> offset_of (layout MarkVictimArgs_fields) (lit n) = Some (o, s) ->
  le_value (read_field MarkVictimArgs_fields data (lit n)) < 256 ^ N.of_nat s.
Proof.
  intros Hb Ho. pose proof (read_field_le_length _ data _ _ _ Ho).
  eapply N.lt_le_trans; [apply le_value_bound; by apply read_field_bytes|].
  apply N.pow_le_mono_r; [done|lia].
Qed.

Lemma to_signed_int w x : 0 < w -> x < 2 ^ w -> is_int w (to_signed w x).
Proof.
  intros Hw Hx. unfold to_signed, is_int.
  assert (2 ^ Z.of_N w = 2 * 2 ^ Z.of_N (w - 1))%Z as Hp.
  { rewrite <- Z.pow_succ_r by lia. f_equal. lia. }
  pose proof (N2Z.inj_pow 2 (w - 1)). pose proof (N2Z.inj_pow 2 w).
  destruct (N.ltb_spec x (2 ^ (w - 1))); simpl in *; lia.
Qed.

(** What the probe emits is a well-formed event, whatever bytes the entry holds. *)
Lemma event_of_args_wf data comm :
  Forall is_byte data -> length comm = 16%nat -> Forall is_byte comm ->
  wf_event (event_of_args (read_args data) comm).
Proof.
  intros Hd Hl Hc.
  pose proof (fun n o s => read_field_bound data n o s Hd) as Hb.
  constructor; simpl; try assumption; unfold is_u64, u64_bound.
  - apply to_unsigned_bound.
  - by apply (Hb "total_vm"%string _ _ eq_refl).
  - by apply (Hb "anon_rss"%string _ _ eq_refl).
  - by apply (Hb "file_rss"%string _ _ eq_refl).
  - by apply (Hb "shmem_rss"%string _ _ eq_refl).
  - by apply (Hb "uid"%string _ _ eq_refl).
  - by apply (Hb "pgtables"%string _ _ eq_refl).
  - apply to_signed_int; [done|]. by apply (Hb "oom_score_adj"%string _ _ eq_refl).
Qed.

Lemma event_of_read_args_pid data comm :
  pid (event_of_args (read_args data) comm)
  = to_unsigned 32 (to_signed 32 (le_value (read_field MarkVictimArgs_fields data (lit "pid")))).
Proof. done. Qed.

(** The cast [args.pid as u32] keeps the bits of the entry. *)
Lemma to_unsigned_signed w x : 0 < w -> x < 2 ^ w -> to_unsigned w (to_signed w x) = x.
Proof.
  intros Hw Hx. unfold to_unsigned, to_signed.
  pose proof (N2Z.inj_pow 2 w) as Hp. simpl in Hp.
  assert (0 < 2 ^ Z.of_N w)%Z by (apply Z.pow_pos_nonneg; lia).
  destruct (N.ltb_spec x (2 ^ (w - 1))).
  - rewrite Z.mod_small; lia.
  - replace ((Z.of_N x - 2 ^ Z.of_N w) mod 2 ^ Z.of_N w)%Z with (Z.of_N x); [lia|].
    apply Z.mod_unique with (-1)%Z; lia.
Qed.

(** ** Properties *)

(** The probe's own name for a kernel field: the [__data_loc] word of [comm]. *)
Definition probe_field_name (n : str) : str :=
  if decide (n = lit "comm") then lit "comm_data_loc" else n.

(** the layout the startup check demands is the layout of the probe's struct: every
    required field, in order, has the offset and width [repr(C)] gives it in
    [MarkVictimArgs], which is 72 bytes long. *)
Theorem required_fields_are_the_probe_struct :
  ((fun f => (probe_field_name (name f), N.to_nat (offset f), N.to_nat (size f)))
     <$> REQUIRED_FIELDS) = drop 4 (layout MarkVictimArgs_fields)
  /\ size_of_MarkVictimArgs = 72%nat.
Proof. by vm_compute. Qed.

Lemma required_field_offset w :
  w ∈ REQUIRED_FIELDS ->
  offset_of (layout MarkVictimArgs_fields) (probe_field_name (name w))
  = Some (N.to_nat (offset w), N.to_nat (size w)).
Proof. revert w. apply Forall_forall. repeat constructor. Qed.

(** C5: on a kernel the startup check accepted, each field the probe reads off a trace
    entry is exactly the bytes the kernel's [format] file declares for it, for every entry:
    no figure is trace-buffer noise. *)
Theorem accepted_layout_reads_declared_bytes text w :
  check_layout text = [] -> w ∈ REQUIRED_FIELDS ->
  exists o s, find_field (parse_format text) (name w) = Some (name w, o, s) /\
    forall entry, read_field MarkVictimArgs_fields entry (probe_field_name (name w))
                  = take (N.to_nat s) (drop (N.to_nat o) entry).
Proof.
  intros Hok Hw. apply check_layout_nil in Hok. unfold layout_ok in Hok.
  rewrite Forall_forall in Hok. exists (offset w), (size w).
  split; [by apply Hok|]. intros entry. unfold read_field. by rewrite required_field_offset.
Qed.

Section program_properties.
Context {R : Type} `{RingBufLaws R}.

(** One firing of the tracepoint. *)
Record Firing := { f_helpers : BpfHelpers; f_ctx : N; f_pad : nat -> N; f_cpu : nat }.

Definition fire (m : Maps R) (f : Firing) : Maps R :=
  (mark_victim (f_helpers f) (f_ctx f) (f_pad f) (f_cpu f) m).2.

Definition fire_all : Maps R -> list Firing -> Maps R := foldl fire.

(** Firings whose trace entry could be read. *)
Definition readable (f : Firing) : bool :=
  bool_decide (is_Some (probe_read_kernel (f_helpers f) (f_ctx f) size_of_MarkVictimArgs)).

Definition enqueued (m : Maps R) : N := N.of_nat (length (ring_records (EVENTS m))).

Lemma sum_N_insert (l : list N) i x y :
  l !! i = Some x -> sum_N (<[i := y]> l) + x = sum_N l + y.
Proof.
  revert i. induction l as [|z l IH]; intros [|i] Hi; simplify_eq/=; [lia|].
  specialize (IH _ Hi). lia.
Qed.

Lemma sum_N_lookup (l : list N) i x : l !! i = Some x -> x <= sum_N l.
Proof.
  revert i. induction l as [|z l IH]; intros [|i] Hi; simplify_eq/=; [lia|].
  specialize (IH _ Hi). lia.
Qed.

Lemma count_drop_sum cpu (m : Maps R) :
  (cpu < length (DROPPED m))%nat -> sum_N (DROPPED m) + 1 < u64_bound ->
  EVENTS (count_drop cpu m) = EVENTS m /\
  length (DROPPED (count_drop cpu m)) = length (DROPPED m) /\
  sum_N (DROPPED (count_drop cpu m)) = sum_N (DROPPED m) + 1.
Proof.
  intros [d Hd]%lookup_lt_is_Some Hsum. unfold count_drop. rewrite Hd. simpl.
  pose proof (sum_N_lookup _ _ _ Hd). pose proof (sum_N_insert _ _ _ (wrapping_add d 1) Hd) as Hi.
  rewrite length_insert. rewrite wrapping_add_small in * by lia. repeat split. lia.
Qed.

(** One firing either enqueues its event or counts a drop, never both, never neither. *)
Lemma fire_accounts f (m : Maps R) :
  (f_cpu f < length (DROPPED m))%nat -> sum_N (DROPPED m) + 1 < u64_bound ->
  length (DROPPED (fire m f)) = length (DROPPED m) /\
  enqueued (fire m f) + sum_N (DROPPED (fire m f))
  = enqueued m + sum_N (DROPPED m) + (if readable f then 1 else 0).
Proof.
  intros Hcpu Hsum. unfold fire, mark_victim, readable, enqueued.
  destruct (probe_read_kernel _ _ _) as [data|]; simpl; [|split; [done|lia]].
  destruct (ring_output _ _) as [r|] eqn:Hr; simpl.
  - apply ring_output_records in Hr. rewrite Hr, length_app. simpl. split; [done|lia].
  - destruct (count_drop_sum (f_cpu f) m Hcpu Hsum) as (-> & -> & ->). split; [done|lia].
Qed.

(** conservation at the probe: over any sequence of firings on any CPUs, the records
    enqueued plus the drops counted grow by exactly the number of trace entries read, so
    an OOM kill is either delivered or shows up in [oom_events_dropped_total]. *)
Theorem probe_conserves_events (fs : list Firing) (m : Maps R) :
  Forall (fun f => (f_cpu f < length (DROPPED m))%nat) fs ->
  sum_N (DROPPED m) + N.of_nat (length fs) < u64_bound ->
  enqueued (fire_all m fs) + sum_N (DROPPED (fire_all m fs))
  = enqueued m + sum_N (DROPPED m) + N.of_nat (length (filter readable fs)).
Proof.
  revert m. induction fs as [|f fs IH]; intros m Hcpu Hsum; simpl in *; [lia|].
  apply Forall_cons in Hcpu as [Hf Hcpu].
  destruct (fire_accounts f m) as [Hl Heq]; [done|lia|].
  assert (sum_N (DROPPED (fire m f)) <= sum_N (DROPPED m) + 1) as Hle.
  { assert (enqueued m <= enqueued (fire m f)); [|destruct (readable f); lia].
    unfold fire, mark_victim, enqueued.
    destruct (probe_read_kernel _ _ _); simpl; [|lia].
    destruct (ring_output _ _) as [r|] eqn:Hr; simpl.
    - apply ring_output_records in Hr. rewrite Hr, length_app. lia.
    - unfold count_drop. destruct (_ !! _); simpl; lia. }
  rewrite (IH (fire m f)); [|by rewrite Hl|lia]. rewrite Heq, filter_cons.
  destruct (readable f) eqn:Ef; case_decide; simpl in *; try (by rewrite Ef in *); lia.
Qed.

(** what the probe enqueues is the victim's record: with room in the ring buffer, one
    record is appended, as long as the struct, and decoding it yields the figures of the
    trace entry with the bits of [pid] and the [comm] the helper copied. *)
Theorem mark_victim_delivers (h : BpfHelpers) ctx pad cpu (m : Maps R) data :
  helpers_ok h -> probe_read_kernel h ctx size_of_MarkVictimArgs = Some data ->
  let args := read_args data in
  let comm := probe_read_kernel_str h (ctx + N.land (comm_data_loc args) 65535)
                (replicate 16 0) in
  let event := event_of_args args comm in
  let '(code, m') := mark_victim h ctx pad cpu m in
  code = 0 /\
  ((exists d, ring_records (EVENTS m') = ring_records (EVENTS m) ++ [d] /\
      length d = size_of_OomKillEvent /\ read_event d = event /\ DROPPED m' = DROPPED m)
   \/ (ring_output (event_memory pad event) (EVENTS m) = None /\ m' = count_drop cpu m))
  /\ pid event = le_value (read_field MarkVictimArgs_fields data (lit "pid")).
Proof.
  intros Hh Hd args comm event. unfold mark_victim. rewrite Hd. fold args. fold comm.
  fold event. destruct (probe_read_length h Hh _ _ _ Hd) as [_ Hbytes].
  assert (length comm = 16%nat) as Hl by (unfold comm; by rewrite probe_read_str_length).
  assert (Forall is_byte comm) as Hc by (apply (probe_read_str_bytes h Hh); by repeat constructor).
  assert (pid event = le_value (read_field MarkVictimArgs_fields data (lit "pid"))) as Hp.
  { apply to_unsigned_signed; [done|]. exact (read_field_bound data "pid" _ _ Hbytes eq_refl). }
  destruct (ring_output _ _) as [r|] eqn:Hr; (split; [done|split; [|done]]); [left|by right].
  exists (event_memory pad event). split; [by apply ring_output_records|].
  split; [by apply length_event_memory|]. split; [|done].
  by apply read_event_memory, event_of_args_wf.
Qed.
End program_properties.

(** ** Instances of the kernel interfaces, and concrete firings *)

(** A ring buffer of [bcap] bytes: a record costs its header of 8 bytes and its length
    rounded up to 8. *)
Record BoundedRing := { bcap : nat; bstored : list (list N) }.

Definition record_cost (d : list N) : nat := 8 + align_up (length d) 8.

#[export] Instance BoundedRing_RingBuf : RingBuf BoundedRing := {|
  ring_output d r :=
    if (sum_list (record_cost <$> bstored r) + record_cost d <=? bcap r)%nat
    then Some {| bcap := bcap r; bstored := bstored r ++ [d] |}
    else None;
  ring_records := bstored;
|}.

#[export] Instance BoundedRing_laws : RingBufLaws BoundedRing.
Proof. split. intros d r r' H. simpl in H. destruct (_ <=? _)%nat; by simplify_eq. Qed.

(** Memory that starts at address 0 and holds [mem]. *)
Fixpoint until_nul (src : list N) : list N :=
  match src with
  | [] => []
  | b :: src => if b =? 0 then [] else b :: until_nul src
  end.

Definition copy_str (src dst : list N) : list N :=
  let s := take (length dst - 1) (until_nul src) in
  take (length dst) (s ++ 0 :: drop (S (length s)) dst).

Definition flat_helpers (mem : list N) : BpfHelpers := {|
  probe_read_kernel a n :=
    if (N.to_nat a + n <=? length mem)%nat then Some (take n (drop (N.to_nat a) mem)) else None;
  probe_read_kernel_str a dst := copy_str (drop (N.to_nat a) mem) dst;
|}.

Lemma copy_str_length src dst : length (copy_str src dst) = length dst.
Proof.
  unfold copy_str. set (s := take (length dst - 1) (until_nul src)).
  assert (length s <= length dst - 1)%nat by (unfold s; rewrite length_take; lia).
  rewrite length_take, length_app, length_cons, length_drop. lia.
Qed.

Lemma copy_str_bytes src dst :
  Forall is_byte src -> Forall is_byte dst -> Forall is_byte (copy_str src dst).
Proof.
  intros Hs Hd. unfold copy_str. apply Forall_take, Forall_app. split.
  - apply Forall_take. induction Hs as [|b l Hb Hl IH]; simpl; [done|].
    by destruct (b =? 0); [|constructor].
  - constructor; [by vm_compute|by apply Forall_drop].
Qed.

Lemma flat_helpers_ok mem : Forall is_byte mem -> helpers_ok (flat_helpers mem).
Proof.
  intros Hm. split; simpl.
  - intros a n bs H. destruct (Nat.leb_spec (N.to_nat a + n) (length mem)); simplify_eq.
    split; [rewrite length_take, length_drop; lia|by apply Forall_take, Forall_drop].
  - intros. apply copy_str_length.
  - intros. by apply copy_str_bytes; [apply Forall_drop|].
Qed.

(** The entry of a victim with PID 1234 whose [comm] follows it at offset 72. *)
Definition sample_entry : list N :=
  write_struct (fun _ => 0)
    (zip MarkVictimArgs_fields
       [le_bytes 2 1442; [0]; [0]; le_bytes 4 77; le_bytes 4 1234;
        le_bytes 4 (72 + 2 ^ 16 * 7); le_bytes 8 100; le_bytes 8 50; le_bytes 8 10;
        le_bytes 8 5; le_bytes 4 1000; le_bytes 8 2; le_bytes 2 0])
  ++ lit "target" ++ [0].

Definition sample_firing : Firing :=
  {| f_helpers := flat_helpers sample_entry; f_ctx := 0; f_pad := fun _ => 0; f_cpu := 1 |}.

(** Room for one event of 80 bytes (a record costs 88), on a machine with two CPUs. *)
Definition small_maps : Maps BoundedRing :=
  {| EVENTS := {| bcap := 100; bstored := [] |}; DROPPED := [0; 0] |}.

Lemma sample_entry_bytes : Forall is_byte sample_entry.
Proof. apply (bool_decide_unpack _). by vm_compute. Qed.

Lemma accepted_layout_reads_declared_bytes_witness :
  check_layout MODERN = [] /\ Field_new "anon_rss" 24 8 ∈ REQUIRED_FIELDS /\
  exists o s, find_field (parse_format MODERN) (lit "anon_rss") = Some (lit "anon_rss", o, s) /\
    forall entry, read_field MarkVictimArgs_fields entry (lit "anon_rss")
                  = take (N.to_nat s) (drop (N.to_nat o) entry).
Proof.
  assert (check_layout MODERN = []) as H1 by (by vm_compute).
  assert (Field_new "anon_rss" 24 8 ∈ REQUIRED_FIELDS) as H2
    by (apply (list_elem_of_lookup_2 _ 3); reflexivity).
  split; [exact H1|split; [exact H2|]].
  exact (accepted_layout_reads_declared_bytes MODERN (Field_new "anon_rss" 24 8) H1 H2).
Defined.

(** Three kills with room for one: one record, two drops. *)
Lemma probe_conserves_events_witness :
  let fs := [sample_firing; sample_firing; sample_firing] in
  let m' := fire_all small_maps fs in
  enqueued m' = 1 /\ DROPPED m' = [0; 2] /\
  enqueued m' + sum_N (DROPPED m')
  = enqueued small_maps + sum_N (DROPPED small_maps) + N.of_nat (length (filter readable fs)).
Proof.
  split; [by vm_compute|split; [by vm_compute|]].
  apply (probe_conserves_events [sample_firing; sample_firing; sample_firing] small_maps).
  - repeat constructor.
  - by vm_compute.
Defined.

Lemma mark_victim_delivers_witness :
  let h := flat_helpers sample_entry in
  let data := take 72 sample_entry in
  let args := read_args data in
  let comm := probe_read_kernel_str h (0 + N.land (comm_data_loc args) 65535)
                (replicate 16 0) in
  let event := event_of_args args comm in
  helpers_ok h /\ comm = lit "target" ++ replicate 10 0 /\ pid event = 1234 /\
  let '(code, m') := mark_victim h 0 (fun _ => 0) 1 small_maps in
  code = 0 /\
  ((exists d, ring_records (EVENTS m') = ring_records (EVENTS small_maps) ++ [d] /\
      length d = size_of_OomKillEvent /\ read_event d = event /\
      DROPPED m' = DROPPED small_maps)
   \/ (ring_output (event_memory (fun _ => 0) event) (EVENTS small_maps) = None /\
       m' = count_drop 1 small_maps))
  /\ pid event = le_value (read_field MarkVictimArgs_fields data (lit "pid")).
Proof.
  intros h data args comm event.
  assert (helpers_ok h) as Hh by (apply flat_helpers_ok, sample_entry_bytes).
  split; [exact Hh|]. split; [by vm_compute|]. split; [by vm_compute|].
  apply (mark_victim_delivers h 0 (fun _ => 0) 1 small_maps data Hh). by vm_compute.
Defined.
