(* ===== verification/Resolve.v ===== *)
(** * Resolve: the resolution and enrichment seams

    [oom-watcher/src/resolve.rs]: the three outcomes of turning a PID into a container
    identity and the trait they cross; [oom-watcher/src/enrich.rs]: the sole construction
    site of an enriched event. *)
From S2P Require Import Prelude Text Io Common.

Inductive ResolutionOutcome :=
| Found (identity : ContainerIdentity)
| NotFoundOutcome
| Failed (e : Error).

(** [ResolutionOutcome::identity]: both failure modes become "no identity". *)
Definition identity (o : ResolutionOutcome) : option ContainerIdentity :=
  match o with
  | Found i => Some i
  | NotFoundOutcome | Failed _ => None
  end.

(** The trait [ContainerResolver]. [W] is what a resolver reads of the world at the moment
    it is asked ([/proc], the pod cache); it changes between two calls. *)
Class ContainerResolver (C W : Type) := {
  node_name : C -> str;
  resolve : C -> W -> N -> ResolutionOutcome;
}.

(** [enrich]: the node is whatever the caller passes, the identity fills the rest. *)
Definition enrich (raw : OomKillEvent) (node : option str) (id : option ContainerIdentity)
    (timestamp : N) : EnrichedOomEvent :=
  let '(ns, p, c, cid, iid) :=
    match id with
    | Some id =>
        (Some (namespace id), Some (pod_name id), Some (container_name id),
         Some (container_id id), Some (image_id id))
    | None => (None, None, None, None, None)
    end in
  {| raw_event := raw;
     ev_node_name := node;
     ev_namespace := ns;
     ev_pod_name := p;
     ev_container_name := c;
     ev_container_id := cid;
     ev_image_id := iid;
     ev_timestamp := timestamp |}.

(** ** The second adapter of the seam, the tests' [FakeResolver] *)

Inductive Behavior :=
| BFound (i : ContainerIdentity)
| BNotFound
| BFail.

Record FakeResolver := { fake_node : str; behavior : Behavior }.

#[export] Instance FakeResolver_ContainerResolver : ContainerResolver FakeResolver unit := {|
  node_name := fake_node;
  resolve c _ _ :=
    match behavior c with
    | BFound i => Found i
    | BNotFound => NotFoundOutcome
    | BFail => Failed (anyhow (lit "api down"))
    end;
|}.

(** What enrichment never touches. *)
Lemma enrich_raw raw node id ts : raw_event (enrich raw node id ts) = raw.
Proof. by destruct id. Qed.
Lemma enrich_timestamp raw node id ts : ev_timestamp (enrich raw node id ts) = ts.
Proof. by destruct id. Qed.
Lemma enrich_node raw node id ts : ev_node_name (enrich raw node id ts) = node.
Proof. by destruct id. Qed.

#[global] Arguments enrich : simpl never.
#[export] Hint Rewrite enrich_raw enrich_timestamp enrich_node : oom_rw.

(** ** Properties *)

(** the enrichment rule: an enriched event keeps the raw event, the timestamp and the
    node unchanged whatever became of resolution, and carries either all five container
    fields of the identity or none of them. *)
Theorem enrich_rule raw node id ts :
  let e := enrich raw node id ts in
  raw_event e = raw /\ ev_timestamp e = ts /\ ev_node_name e = node /\
  match id with
  | Some i => ev_namespace e = Some (namespace i) /\ ev_pod_name e = Some (pod_name i) /\
              ev_container_name e = Some (container_name i) /\
              ev_container_id e = Some (container_id i) /\ ev_image_id e = Some (image_id i)
  | None => ev_namespace e = None /\ ev_pod_name e = None /\ ev_container_name e = None /\
            ev_container_id e = None /\ ev_image_id e = None
  end.
Proof. by destruct id. Qed.

(** An event determines the identity it was enriched with. *)
Lemma enrich_inj raw node ts i1 i2 : enrich raw node i1 ts = enrich raw node i2 ts -> i1 = i2.
Proof. destruct i1 as [[]|], i2 as [[]|]; intros H; by simplify_eq/=. Qed.
