(* ===== verification/Utf8.v ===== *)
(** * Utf8: decoding the bytes of a process name

    [std::str::from_utf8], which [log_event] ([oom-watcher/src/watch.rs]) applies to the
    16 bytes of [comm]: the decoder as a function from bytes to scalar values, the encoder
    as its specification, and that the two are inverse to each other. *)
From Stdlib Require Import ZifyBool.
From S2P Require Import Prelude Text.

(** The Unicode scalar values. *)
Definition is_scalar (c : N) : bool :=
  (c <? 55296) || ((57344 <=? c) && (c <? 1114112)).

(** A continuation byte, and the six bits it carries. *)
Definition is_cont (b : N) : bool := (128 <=? b) && (b <? 192).
Definition bits6 (b : N) : N := b - 128.

Definition code2 (b0 b1 : N) : N := (b0 - 192) * 64 + bits6 b1.
Definition code3 (b0 b1 b2 : N) : N := (b0 - 224) * 4096 + bits6 b1 * 64 + bits6 b2.
Definition code4 (b0 b1 b2 b3 : N) : N :=
  (b0 - 240) * 262144 + bits6 b1 * 4096 + bits6 b2 * 64 + bits6 b3.

(** [std::str::from_utf8]: overlong forms, surrogates, values past the last scalar, stray
    continuation bytes and truncated sequences are all errors. *)
Fixpoint from_utf8 (bytes : list N) : option str :=
  match bytes with
  | [] => Some []
  | b0 :: r0 =>
      if b0 <? 128 then cons b0 <$> from_utf8 r0
      else match r0 with
      | [] => None
      | b1 :: r1 =>
          if negb (is_cont b1) then None
          else if (192 <=? b0) && (b0 <? 224) then
            if 128 <=? code2 b0 b1 then cons (code2 b0 b1) <$> from_utf8 r1 else None
          else match r1 with
          | [] => None
          | b2 :: r2 =>
              if negb (is_cont b2) then None
              else if (224 <=? b0) && (b0 <? 240) then
                if (2048 <=? code3 b0 b1 b2) && is_scalar (code3 b0 b1 b2)
                then cons (code3 b0 b1 b2) <$> from_utf8 r2 else None
              else match r2 with
              | [] => None
              | b3 :: r3 =>
                  if negb (is_cont b3) then None
                  else if (240 <=? b0) && (b0 <? 248) then
                    if (65536 <=? code4 b0 b1 b2 b3) && is_scalar (code4 b0 b1 b2 b3)
                    then cons (code4 b0 b1 b2 b3) <$> from_utf8 r3 else None
                  else None
              end
          end
      end
  end.

(** The bytes of one scalar value, in the shortest form. *)
Definition utf8_bytes (c : N) : list N :=
  if c <? 128 then [c]
  else if c <? 2048 then [192 + c / 64; 128 + c mod 64]
  else if c <? 65536 then [224 + c / 4096; 128 + c / 64 mod 64; 128 + c mod 64]
  else [240 + c / 262144; 128 + c / 4096 mod 64; 128 + c / 64 mod 64; 128 + c mod 64].

Definition to_utf8 (s : str) : list N := s ≫= utf8_bytes.

(** ** The two are inverse *)

(** Arithmetic with quotients and remainders by constants. *)
Ltac div_lia := zify; Z.to_euclidean_division_equations; lia.

(** Boolean comparisons as propositions. *)
Ltac bools :=
  unfold is_scalar, is_cont in *;
  repeat match goal with
  | H : context [_ && _ = true] |- _ => rewrite andb_true_iff in H
  | H : _ && _ = true |- _ => apply andb_true_iff in H; destruct H
  | H : _ || _ = true |- _ => apply orb_true_iff in H
  | H : negb _ = false |- _ => apply negb_false_iff in H
  | H : (_ <? _) = true |- _ => apply N.ltb_lt in H
  | H : (_ <? _) = false |- _ => apply N.ltb_ge in H
  | H : (_ <=? _) = true |- _ => apply N.leb_le in H
  end.

Lemma is_cont_low x : x < 64 -> is_cont (128 + x) = true.
Proof. intros. unfold is_cont. apply andb_true_iff. split; bool_lia. Qed.

Lemma from_utf8_bytes c rest :
  is_scalar c = true -> from_utf8 (utf8_bytes c ++ rest) = cons c <$> from_utf8 rest.
Proof.
  intros Hc. unfold utf8_bytes.
  destruct (c <? 128) eqn:H1; [cbn [app from_utf8]; by rewrite H1|].
  assert (forall x, (x mod 64) < 64) as Hmod by (intros; by apply N.mod_lt).
  destruct (c <? 2048) eqn:H2; [|destruct (c <? 65536) eqn:H3]; cbn [app from_utf8].
  - assert (code2 (192 + c / 64) (128 + c mod 64) = c) as E by (unfold code2, bits6; div_lia).
    rewrite is_cont_low, E by done. bools.
    replace (192 + c / 64 <? 128) with false by (symmetry; apply N.ltb_ge; div_lia).
    replace (192 <=? 192 + c / 64) with true by (symmetry; apply N.leb_le; div_lia).
    replace (192 + c / 64 <? 224) with true by (symmetry; apply N.ltb_lt; div_lia).
    by replace (128 <=? c) with true by (symmetry; apply N.leb_le; div_lia).
  - assert (code3 (224 + c / 4096) (128 + c / 64 mod 64) (128 + c mod 64) = c) as E
      by (unfold code3, bits6; div_lia).
    rewrite !is_cont_low, E, Hc by done. bools.
    replace (224 + c / 4096 <? 128) with false by (symmetry; apply N.ltb_ge; div_lia).
    replace (224 + c / 4096 <? 224) with false by (symmetry; apply N.ltb_ge; div_lia).
    replace (224 <=? 224 + c / 4096) with true by (symmetry; apply N.leb_le; div_lia).
    replace (224 + c / 4096 <? 240) with true by (symmetry; apply N.ltb_lt; div_lia).
    replace (2048 <=? c) with true by (symmetry; apply N.leb_le; div_lia).
    by rewrite andb_false_r.
  - assert (c < 1114112) as Hmax by (unfold is_scalar in Hc; lia).
    assert (code4 (240 + c / 262144) (128 + c / 4096 mod 64) (128 + c / 64 mod 64) (128 + c mod 64) = c)
      as E by (unfold code4, bits6; div_lia).
    rewrite !is_cont_low, E, Hc by done. apply N.ltb_ge in H3.
    replace (240 + c / 262144 <? 128) with false by (symmetry; apply N.ltb_ge; div_lia).
    replace (240 + c / 262144 <? 224) with false by (symmetry; apply N.ltb_ge; div_lia).
    replace (240 + c / 262144 <? 240) with false by (symmetry; apply N.ltb_ge; div_lia).
    replace (240 <=? 240 + c / 262144) with true by (symmetry; apply N.leb_le; div_lia).
    replace (240 + c / 262144 <? 248) with true by (symmetry; apply N.ltb_lt; div_lia).
    replace (65536 <=? c) with true by (symmetry; apply N.leb_le; div_lia).
    by rewrite !andb_false_r.
Qed.

Lemma from_to_utf8 s : Forall (fun c => is_scalar c = true) s -> from_utf8 (to_utf8 s) = Some s.
Proof.
  induction 1 as [|c s Hc _ IH]; [done|]. unfold to_utf8. cbn [mbind list_bind].
  rewrite from_utf8_bytes by done. fold (to_utf8 s). by rewrite IH.
Qed.

(** One step of the decoder, backwards: what it consumed is the shortest form. *)
Lemma from_utf8_cons b0 r0 s :
  from_utf8 (b0 :: r0) = Some s ->
  exists c s' rest, s = c :: s' /\ b0 :: r0 = utf8_bytes c ++ rest /\ is_scalar c = true /\
    from_utf8 rest = Some s' /\ (length rest <= length r0)%nat.
Proof.
  cbn [from_utf8]. destruct (b0 <? 128) eqn:H0.
  { destruct (from_utf8 r0) as [s'|] eqn:E; [|done]. intros [= <-]. exists b0, s', r0.
    unfold utf8_bytes. rewrite H0. split_and!; try done. bools.
    apply orb_true_iff. left. bool_lia. }
  destruct r0 as [|b1 r1]; [done|]. destruct (negb (is_cont b1)) eqn:C1; [done|].
  destruct ((192 <=? b0) && (b0 <? 224)) eqn:L2.
  { destruct (128 <=? code2 b0 b1) eqn:V; [|done].
    destruct (from_utf8 r1) as [s'|] eqn:E; [|done]. intros [= <-]. exists (code2 b0 b1), s', r1.
    bools. unfold code2, bits6 in *.
    assert (is_scalar ((b0 - 192) * 64 + (b1 - 128)) = true) as Hs
      by (unfold is_scalar; apply orb_true_iff; left; bool_lia).
    split_and!; [done| |done|done|simpl; lia]. unfold utf8_bytes.
    replace (_ <? 128) with false by (symmetry; apply N.ltb_ge; lia).
    replace (_ <? 2048) with true by (symmetry; apply N.ltb_lt; lia).
    cbn [app]. f_equal; [div_lia|f_equal; div_lia]. }
  destruct r1 as [|b2 r2]; [done|]. destruct (negb (is_cont b2)) eqn:C2; [done|].
  destruct ((224 <=? b0) && (b0 <? 240)) eqn:L3.
  { destruct ((2048 <=? code3 b0 b1 b2) && is_scalar (code3 b0 b1 b2)) eqn:V; [|done].
    destruct (from_utf8 r2) as [s'|] eqn:E; [|done]. intros [= <-].
    apply andb_true_iff in V as [V Hs]. exists (code3 b0 b1 b2), s', r2.
    split_and!; [done| |done|done|simpl; lia]. clear Hs. bools. unfold code3, bits6, utf8_bytes in *.
    replace (_ <? 128) with false by (symmetry; apply N.ltb_ge; lia).
    replace (_ <? 2048) with false by (symmetry; apply N.ltb_ge; lia).
    replace (_ <? 65536) with true by (symmetry; apply N.ltb_lt; lia).
    cbn [app]. f_equal; [div_lia|f_equal; [div_lia|f_equal; div_lia]]. }
  destruct r2 as [|b3 r3]; [done|]. destruct (negb (is_cont b3)) eqn:C3; [done|].
  destruct ((240 <=? b0) && (b0 <? 248)) eqn:L4; [|done].
  destruct ((65536 <=? code4 b0 b1 b2 b3) && is_scalar (code4 b0 b1 b2 b3)) eqn:V; [|done].
  destruct (from_utf8 r3) as [s'|] eqn:E; [|done]. intros [= <-].
  apply andb_true_iff in V as [V Hs]. exists (code4 b0 b1 b2 b3), s', r3.
  split_and!; [done| |done|done|simpl; lia]. clear Hs. bools. unfold code4, bits6, utf8_bytes in *.
  replace (_ <? 128) with false by (symmetry; apply N.ltb_ge; lia).
  replace (_ <? 2048) with false by (symmetry; apply N.ltb_ge; lia).
  replace (_ <? 65536) with false by (symmetry; apply N.ltb_ge; lia).
  cbn [app]. f_equal; [div_lia|f_equal; [div_lia|f_equal; [div_lia|f_equal; div_lia]]].
Qed.

Lemma to_from_utf8 bytes s :
  from_utf8 bytes = Some s -> bytes = to_utf8 s /\ Forall (fun c => is_scalar c = true) s.
Proof.
  remember (length bytes) as n eqn:Hn. revert bytes s Hn.
  induction n as [n IH] using lt_wf_ind. intros [|b0 r0] s Hn Hs.
  { cbn in Hs. simplify_eq. by split. }
  apply from_utf8_cons in Hs as (c & s' & rest & -> & Hb & Hc & Hs & Hlen).
  destruct (IH (length rest)) with (bytes := rest) (s := s') as [-> Hall]; [simpl in *; lia|done..|].
  split; [|by constructor]. by rewrite Hb.
Qed.

(** Valid UTF-8 is exactly what the encoder produces. *)
Lemma from_utf8_iff bytes s :
  from_utf8 bytes = Some s <-> bytes = to_utf8 s /\ Forall (fun c => is_scalar c = true) s.
Proof. split; [apply to_from_utf8|]. intros [-> Hs]. by apply from_to_utf8. Qed.
