(* ===== verification/Log.v ===== *)
(** * Log: what an event leaves in the log

    [log_event] and the warnings of [process_event] ([oom-watcher/src/watch.rs]): the lines
    themselves, and which name a kill is logged under. *)
From S2P Require Import Prelude Text Io Common Resolve Utf8.

(** [Display] of a signed integer. *)
Definition show_Z (z : Z) : str :=
  if (z <? 0)%Z then Chars.minus :: show_N (Z.to_N (- z)) else show_N (Z.to_N z).

Definition is_nul (c : N) : bool := c =? 0.

(** [comm_str]. *)
Definition comm_str (comm : list N) : str :=
  trim_end_matches is_nul (default (lit "?") (from_utf8 comm)).

(** [log_event]: the lines it writes, in order. *)
Definition log_event (raw : OomKillEvent) (enriched : EnrichedOomEvent) : list str :=
  [[128680] ++ lit " OOM EVENT DETECTED:";
   lit "   Process: " ++ comm_str (comm raw) ++ lit " (PID: " ++ show_N (pid raw) ++ lit ")"]
  ++ match ev_namespace enriched with
     | Some ns =>
         [lit "   Kubernetes: " ++ ns ++ lit "/" ++ default (lit "unknown") (ev_pod_name enriched)
          ++ lit "/" ++ default (lit "unknown") (ev_container_name enriched)]
     | None => []
     end
  ++ [lit "   Memory: total-vm=" ++ show_N (total_vm raw) ++ lit "kB anon-rss="
      ++ show_N (anon_rss raw) ++ lit "kB file-rss=" ++ show_N (file_rss raw)
      ++ lit "kB shmem-rss=" ++ show_N (shmem_rss raw) ++ lit "kB";
      lit "   User: UID=" ++ show_N (uid raw) ++ lit " pgtables=" ++ show_N (pgtables raw)
      ++ lit "kB oom_score_adj=" ++ show_Z (oom_score_adj raw)].

(** The warning of [process_event] about an outcome, if any. *)
Definition resolution_warning (p : N) (o : ResolutionOutcome) : option str :=
  match o with
  | Found _ => None
  | NotFoundOutcome => Some (lit "Could not find Kubernetes info for PID " ++ show_N p)
  | Failed e =>
      Some (lit "Error getting Kubernetes info for PID " ++ show_N p ++ lit ": " ++ error_display e)
  end.

(** Everything [process_event] logs at these levels. *)
Definition process_event_log {C W} `{ContainerResolver C W} (raw : OomKillEvent)
    (resolver : option C) (world : W) (timestamp : N) : list str :=
  match resolver with
  | Some client =>
      let outcome := resolve client world (pid raw) in
      option_list (resolution_warning (pid raw) outcome)
      ++ log_event raw (enrich raw (Some (node_name client)) (identity outcome) timestamp)
  | None => log_event raw (enrich raw None None timestamp)
  end.

(** ** The name in the log *)

Lemma trim_nuls s n : last s <> Some 0 -> trim_end_matches is_nul (s ++ replicate n 0) = s.
Proof.
  intros Hs. unfold trim_end_matches. rewrite reverse_app, reverse_replicate.
  rewrite trim_start_matches_all by (by apply Forall_replicate).
  rewrite trim_start_matches_id; [apply reverse_involutive|].
  destruct s as [|c s _] using rev_ind; [done|]. rewrite last_snoc in Hs. rewrite reverse_snoc.
  intros c' [= <-]. apply N.eqb_neq. congruence.
Qed.

Lemma to_utf8_nuls n : to_utf8 (replicate n 0) = replicate n 0.
Proof. induction n as [|n IH]; [done|]. exact (f_equal (cons 0) IH). Qed.

(** Bytes that are UTF-8 are a name followed by padding. *)
Lemma name_and_padding (text : str) :
  exists s n, text = s ++ replicate n 0 /\ last s <> Some 0.
Proof.
  induction text as [|c text IH] using rev_ind; [by exists [], 0%nat|].
  destruct (decide (c = 0)) as [->|Hc].
  - destruct IH as (s & n & -> & Hlast). exists s, (S n). split; [|done].
    by rewrite replicate_S_end, app_assoc.
  - exists (text ++ [c]), 0%nat. rewrite app_nil_r, last_snoc. split; [done|congruence].
Qed.

Lemma to_utf8_padded s n : to_utf8 (s ++ replicate n 0) = to_utf8 s ++ replicate n 0.
Proof. unfold to_utf8. rewrite bind_app. f_equal. apply to_utf8_nuls. Qed.

Definition scalars (s : str) : Prop := Forall (fun c => is_scalar c = true) s.

Lemma comm_str_name s n :
  scalars s -> last s <> Some 0 -> comm_str (to_utf8 s ++ replicate n 0) = s.
Proof.
  intros Hs Hl. unfold comm_str. rewrite <- to_utf8_padded, from_to_utf8; [by apply trim_nuls|].
  apply Forall_app. split; [done|]. by apply Forall_replicate.
Qed.

Lemma comm_str_cut bytes : (forall s, scalars s -> bytes <> to_utf8 s) -> comm_str bytes = lit "?".
Proof.
  intros Hb. unfold comm_str. destruct (from_utf8 bytes) as [s|] eqn:E; [|by vm_compute].
  apply from_utf8_iff in E as [-> Hs]. by destruct (Hb s Hs).
Qed.

(** No other line of an event starts the way its process line does. *)
Lemma process_event_log_shape {C W} `{ContainerResolver C W} raw (resolver : option C)
    (world : W) timestamp :
  exists before after,
    process_event_log raw resolver world timestamp
    = before ++ ([128680] ++ lit " OOM EVENT DETECTED:")
      :: (lit "   Process: " ++ comm_str (comm raw) ++ lit " (PID: " ++ show_N (pid raw) ++ lit ")")
      :: after /\
    Forall (fun line => starts_with line (lit "   Process: ") = false) (before ++ after).
Proof.
  assert (forall e, exists after, log_event raw e
    = ([128680] ++ lit " OOM EVENT DETECTED:")
      :: (lit "   Process: " ++ comm_str (comm raw) ++ lit " (PID: " ++ show_N (pid raw) ++ lit ")")
      :: after /\
    Forall (fun line => starts_with line (lit "   Process: ") = false) after) as Hev.
  { intros e. eexists. split; [done|]. apply Forall_app. split; [by destruct (ev_namespace e); repeat constructor|].
    by repeat constructor. }
  unfold process_event_log. destruct resolver as [client|].
  - destruct (Hev (enrich raw (Some (node_name client)) (identity (resolve client world (pid raw)))
      timestamp)) as (after & -> & Ha).
    exists (option_list (resolution_warning (pid raw) (resolve client world (pid raw)))), after.
    split; [done|]. apply Forall_app. split; [|done].
    by destruct (resolve client world (pid raw)); repeat constructor.
  - destruct (Hev (enrich raw None None timestamp)) as (after & -> & Ha). by exists [], after.
Qed.

(** C38: A kill is logged under the name of its process. Whatever the resolution answers, the
    lines [process_event] logs hold the announcement of the kill followed by one process
    line, with the process id and this name: when the bytes of [comm] are the UTF-8 encoding
    of a name followed by padding, that name; when they are not UTF-8, as when the kernel
    cut a name inside a character, [?] instead of any part of them; and there is no other
    case. *)
Theorem logged_name_round_trip {C W} `{ContainerResolver C W} (raw : OomKillEvent)
    (resolver : option C) (world : W) (timestamp : N) :
  let logged_under name := exists before after,
    process_event_log raw resolver world timestamp
    = before ++ ([128680] ++ lit " OOM EVENT DETECTED:")
      :: (lit "   Process: " ++ name ++ lit " (PID: " ++ show_N (pid raw) ++ lit ")") :: after /\
    Forall (fun line => starts_with line (lit "   Process: ") = false) (before ++ after) in
  (forall s n, scalars s -> last s <> Some 0 -> comm raw = to_utf8 s ++ replicate n 0 ->
     logged_under s) /\
  ((forall s, scalars s -> comm raw <> to_utf8 s) -> logged_under (lit "?")) /\
  ((exists s n, scalars s /\ last s <> Some 0 /\ comm raw = to_utf8 s ++ replicate n 0) \/
   (forall s, scalars s -> comm raw <> to_utf8 s)).
Proof.
  intros logged_under. pose proof (process_event_log_shape raw resolver world timestamp) as Hlog.
  split_and!.
  - intros s n Hs Hl Hc. by rewrite Hc, comm_str_name in Hlog.
  - intros Hc. by rewrite comm_str_cut in Hlog.
  - destruct (from_utf8 (comm raw)) as [text|] eqn:E; [left|right; intros s Hs Hc].
    + apply from_utf8_iff in E as [-> Hs]. destruct (name_and_padding text) as (s & n & -> & Hl).
      exists s, n. apply Forall_app in Hs as [Hs _]. by rewrite to_utf8_padded.
    + by rewrite Hc, from_to_utf8 in E.
Qed.

(** ** Concrete names *)

(** A name of sixteen bytes in UTF-8, of which the kernel keeps fifteen. *)
Example name_cut_inside_a_character :
  comm_str (take 15 (to_utf8 (replicate 14 120 ++ [233])) ++ [0]) = lit "?".
Proof. by vm_compute. Qed.

Example ascii_name : comm_str (lit "target" ++ replicate 10 0) = lit "target".
Proof. by vm_compute. Qed.

Definition named_kill (name : list N) : OomKillEvent :=
  {| pid := 7; comm := name; total_vm := 100; anon_rss := 50; file_rss := 10; shmem_rss := 5;
     uid := 1000; pgtables := 2; oom_score_adj := 0 |}.

(** A kill of [target] whose resolution failed, and so logged after a warning. *)
Lemma logged_name_round_trip_witness :
  let raw := named_kill (lit "target" ++ replicate 10 0) in
  let client := {| fake_node := lit "node-1"; behavior := BNotFound |} in
  length (process_event_log raw (Some client) tt 5) = 5%nat /\
  exists before after,
    process_event_log raw (Some client) tt 5
    = before ++ ([128680] ++ lit " OOM EVENT DETECTED:")
      :: (lit "   Process: " ++ lit "target" ++ lit " (PID: " ++ show_N 7 ++ lit ")") :: after /\
    Forall (fun line => starts_with line (lit "   Process: ") = false) (before ++ after).
Proof.
  intros raw client. split; [by vm_compute|].
  apply (proj1 (logged_name_round_trip raw (Some client) tt 5) (lit "target") 10%nat);
    [by repeat constructor|by vm_compute|by vm_compute].
Defined.
