(* ===== verification/Seams.v ===== *)
(** * Seams: the interfaces the watch loop is generic over

    [OomEventSource] ([oom-watcher/src/watch.rs]) and [MetricsRecorder]
    ([oom-watcher/src/metrics.rs]); the third seam, [ContainerResolver], is in Resolve. *)
From S2P Require Import Prelude Text Common Resolve.

(** The answer of an [async] call that may not have one yet. *)
Inductive Poll (A : Type) :=
| Pending
| Ready (a : A).
Arguments Pending {A}.
Arguments Ready {A} a.

(** The trait [OomEventSource]. [poll_next w s] advances the future of [next] as far as the
    world [w] lets it: [Ready None] is the end of the stream, [Pending] a future still
    parked. A source is cancel-safe when all the progress of a parked future is in the
    source itself, so dropping that future loses nothing: the state returned beside
    [Pending] is the whole of it. [dropped_total] is the monotonic count of lost events. *)
Class OomEventSource (S W : Type) := {
  poll_next : W -> S -> Poll (option OomKillEvent) * S;
  dropped_total : W -> S -> option N;
}.

(** The trait [MetricsRecorder], over the state of the recorder. *)
Class MetricsRecorder (R : Type) := {
  record_resolution_outcome : str -> ResolutionOutcome -> R -> R;
  record_oom_event : EnrichedOomEvent -> R -> R;
  record_dropped_total : str -> N -> R -> R;
}.

(** ** The tests' adapters *)

(** [VecSource]: a finite queue of events. *)
Record VecSource := { vec_events : list OomKillEvent; vec_drops : option N }.

#[export] Instance VecSource_OomEventSource : OomEventSource VecSource unit := {|
  poll_next _ s :=
    match vec_events s with
    | [] => (Ready None, s)
    | e :: es => (Ready (Some e), {| vec_events := es; vec_drops := vec_drops s |})
    end;
  dropped_total _ s := vec_drops s;
|}.

(** [NeverSource]: never yields. *)
Definition NeverSource := unit.

#[export] Instance NeverSource_OomEventSource : OomEventSource NeverSource unit := {|
  poll_next _ s := (Pending, s);
  dropped_total _ _ := None;
|}.

(** [SpyRecorder]: every call, in order. *)
Record SpyRecorder := {
  spy_outcomes : list (str * str);
  spy_events : list EnrichedOomEvent;
  spy_drops : list (str * N);
}.

Definition spy_default : SpyRecorder :=
  {| spy_outcomes := []; spy_events := []; spy_drops := [] |}.

Definition spy_reason (o : ResolutionOutcome) : str :=
  match o with
  | Found _ => lit "found"
  | NotFoundOutcome => lit "not_found"
  | Failed _ => lit "error"
  end.

#[export] Instance SpyRecorder_MetricsRecorder : MetricsRecorder SpyRecorder := {|
  record_resolution_outcome node o r :=
    {| spy_outcomes := spy_outcomes r ++ [(node, spy_reason o)]; spy_events := spy_events r;
       spy_drops := spy_drops r |};
  record_oom_event e r :=
    {| spy_outcomes := spy_outcomes r; spy_events := spy_events r ++ [e];
       spy_drops := spy_drops r |};
  record_dropped_total node total r :=
    {| spy_outcomes := spy_outcomes r; spy_events := spy_events r;
       spy_drops := spy_drops r ++ [(node, total)] |};
|}.
