(* ===== verification/Source.v ===== *)
(** * Source: the adapters of the OOM event source seam

    [oom-watcher/src/source.rs]: [RingBufSource], which drains the ring buffer into a
    pending queue and hands out one decoded event at a time, and [ParkSource]. *)
From S2P Require Import Prelude Text Layout Io Common Tracepoint Resolve Seams.

(** The answers of the reactor to successive waits on the ring buffer: the records the
    drain loop finds before the buffer is empty, or a readiness error. *)
Inductive Readiness :=
| Readable (items : list (list N))
| ReadinessFailed.

(** [RingBufSource]: the decoded events not yet handed out. The ring buffer and the drop
    counter live in the kernel and are read through the world. *)
Record RingBufSource := { pending : list OomKillEvent }.

(** What the source reads of the world during one wait: the readiness answers, and the
    per-CPU values of [DROPPED] or the failure of the map lookup. *)
Record SourceWorld := {
  readiness : list Readiness;
  dropped_per_cpu : option (list N);
}.

(** The length guard and the decode of one ring-buffer item. *)
Definition decode_item (data : list N) : option OomKillEvent :=
  if (size_of_OomKillEvent <=? length data)%nat then Some (read_event data) else None.

(** [while let Some(item) = ring_buf.next() { ... }]. *)
Fixpoint drain (items : list (list N)) (pending : list OomKillEvent) : list OomKillEvent :=
  match items with
  | [] => pending
  | data :: items =>
      match decode_item data with
      | Some event => drain items (pending ++ [event])
      | None => drain items pending
      end
  end.

(** [RingBufSource::next]: pop a pending event, else wait for readiness, drain, retry. Also
    returns the readiness answers it did not get to wait for. [clear_ready] after the drain
    changes the reactor, not the source: it makes the next wait one for a new edge, which is
    why every wait takes an answer of its own off the list. *)
Fixpoint next (ws : list Readiness) (s : RingBufSource)
    : Poll (option OomKillEvent) * RingBufSource * list Readiness :=
  match pending s with
  | event :: rest => (Ready (Some event), {| pending := rest |}, ws)
  | [] =>
      match ws with
      | [] => (Pending, s, [])
      | ReadinessFailed :: ws => (Ready None, s, ws)
      | Readable items :: ws => next ws {| pending := drain items (pending s) |}
      end
  end.

(** [RingBufSource::dropped_total]: the per-CPU counters, summed. *)
Definition ring_dropped_total (per_cpu : option (list N)) : option N := wrapping_sum <$> per_cpu.

#[export] Instance RingBufSource_OomEventSource : OomEventSource RingBufSource SourceWorld := {|
  poll_next w s := (next (readiness w) s).1;
  dropped_total w _ := ring_dropped_total (dropped_per_cpu w);
|}.

(** ** Bringing the probe up *)

(** What [aya] and the reactor answer to each call of [RingBufSource::new], in order. *)
Record Bringup := {
  load_object : result unit Error;
  find_program : option unit;
  as_tracepoint : result unit Error;
  load_program : result unit Error;
  attach : result unit Error;
  take_events_map : option unit;
  events_ring_buffer : result unit Error;
  register_ring_buffer : result unit Error;
  take_dropped_map : option unit;
  dropped_array : result unit Error;
}.

(** [ok_or_else(|| anyhow!(msg))]. *)
Definition ok_or (msg : string) (o : option unit) : result unit Error :=
  match o with Some x => Ok x | None => Err (anyhow (lit msg)) end.

(** [.context(msg)]. *)
Definition with_context (msg : string) (r : result unit Error) : result unit Error :=
  match r with Ok x => Ok x | Err e => Err (context (lit msg) e) end.

(** [bump_memlock_rlimit]: a failure is only logged. *)
Definition bump_memlock_rlimit (ret : Z) : option str :=
  if (ret =? 0)%Z then None else Some (lit "remove limit on locked memory failed, ret is: ").

(** [RingBufSource::new]. *)
Definition ring_source_new (fs : FileSystem) (a : Bringup) : result RingBufSource Error :=
  _ <-? verify_kernel_layout fs ;;
  _ <-? load_object a ;;
  _ <-? ok_or "Could not find eBPF program 'mark_victim'" (find_program a) ;;
  _ <-? as_tracepoint a ;;
  _ <-? load_program a ;;
  _ <-? attach a ;;
  _ <-? ok_or "Could not find eBPF map 'EVENTS'" (take_events_map a) ;;
  _ <-? events_ring_buffer a ;;
  _ <-? with_context "failed to register the EVENTS ring buffer with the tokio reactor"
          (register_ring_buffer a) ;;
  _ <-? ok_or "Could not find eBPF map 'DROPPED'" (take_dropped_map a) ;;
  _ <-? dropped_array a ;;
  Ok {| pending := [] |}.

(** [ParkSource]: sleeps forever. *)
Definition ParkSource := NeverSource.

(** ** Lemmas *)

Lemma drain_omap items p : drain items p = p ++ omap decode_item items.
Proof.
  revert p. induction items as [|d items IH]; intros p; simpl; [by rewrite app_nil_r|].
  destruct (decode_item d); simpl; rewrite IH; [by rewrite <- app_assoc|done].
Qed.

Definition items_of (w : Readiness) : list (list N) :=
  match w with Readable items => items | ReadinessFailed => [] end.

(** The events in the hands of the source: pending, then those still to be drained. *)
Definition undelivered (ws : list Readiness) (s : RingBufSource) : list OomKillEvent :=
  pending s ++ omap decode_item (ws ≫= items_of).

Lemma next_step ws s :
  match next ws s with
  | (Ready (Some e), s', ws') => undelivered ws s = e :: undelivered ws' s'
  | (Ready None, s', ws') =>
      pending s' = [] /\ exists pre, ws = pre ++ ReadinessFailed :: ws' /\
      undelivered pre s = [] /\ Forall (fun w => w <> ReadinessFailed) pre
  | (Pending, s', ws') => pending s' = [] /\ ws' = [] /\ undelivered ws s = [] /\
                          Forall (fun w => w <> ReadinessFailed) ws
  end.
Proof.
  revert s. induction ws as [|w ws IH]; intros [[|e p]]; try done.
  destruct w as [items|]; cbn [next Source.pending].
  - specialize (IH {| pending := drain items [] |}). rewrite drain_omap in *. simpl app in *.
    assert (undelivered (Readable items :: ws) {| pending := [] |}
            = undelivered ws {| pending := omap decode_item items |}) as Hu.
    { unfold undelivered. simpl. by rewrite omap_app. }
    destruct (next _ _) as [[[|[e|]] s'] ws'].
    + destruct IH as (? & ? & ? & ?). split; [done|]. split; [done|].
      split; [by rewrite Hu|]. by apply Forall_cons.
    + by rewrite Hu.
    + destruct IH as (? & pre & -> & Hpre & ?). split; [done|].
      exists (Readable items :: pre). split; [done|]. split; [|by apply Forall_cons].
      etrans; [|exact Hpre]. unfold undelivered. simpl. by rewrite omap_app.
  - split; [done|]. by exists [].
Qed.

(** A call leaves the readiness answers it did not wait for. *)
Lemma next_suffix ws s r s' ws' : next ws s = (r, s', ws') -> exists pre, ws = pre ++ ws'.
Proof.
  revert s. induction ws as [|w ws IH]; intros [[|e p]] H; simpl in H; simplify_eq.
  - by exists [].
  - by exists [].
  - destruct w as [items|]; [|simplify_eq; by exists [ReadinessFailed]].
    destruct (IH _ H) as [pre ->]. by exists (Readable items :: pre).
  - by exists [].
Qed.

(** A call that parks, and one that hands out an event, when more answers follow. *)
Lemma next_parked ws1 ws2 s s1 :
  next ws1 s = (Pending, s1, []) -> next (ws1 ++ ws2) s = next ws2 s1.
Proof.
  revert s. induction ws1 as [|w ws1 IH]; intros [[|e p]] H; simpl in *; simplify_eq; [done|].
  destruct w as [items|]; simplify_eq. by apply IH.
Qed.

Lemma next_handed ws1 ws2 s e s1 ws :
  next ws1 s = (Ready (Some e), s1, ws) ->
  next (ws1 ++ ws2) s = (Ready (Some e), s1, ws ++ ws2).
Proof.
  revert s. induction ws1 as [|w ws1 IH]; intros [[|e' p]] H; simpl in H; simplify_eq.
  - by destruct ws2.
  - destruct w as [items|]; simplify_eq. by apply IH.
  - done.
Qed.

(** Full-length records are decoded, whatever follows the event in the record; shorter ones
    are skipped. *)
Lemma decode_full pad e extra : wf_event e -> decode_item (event_memory pad e ++ extra) = Some e.
Proof.
  intros Hwf. pose proof (length_event_memory pad e (wf_comm _ Hwf)) as Hl.
  unfold decode_item. rewrite length_app, (proj2 (Nat.leb_le _ _)) by lia.
  by rewrite read_event_app, read_event_memory.
Qed.

Lemma decode_short data : (length data < 80)%nat -> decode_item data = None.
Proof. intros Hl. unfold decode_item. by rewrite (proj2 (Nat.leb_gt _ _)). Qed.

(** ** Properties *)

(** C19: cancel safety: a future of [next] that parked after some readiness answers and was
    dropped loses nothing: calling [next] again with the answers that follow gives exactly
    what the uninterrupted call would have given. *)
Theorem next_cancel_safe ws1 ws2 s s1 :
  next ws1 s = (Pending, s1, []) -> next (ws1 ++ ws2) s = next ws2 s1.
Proof. apply next_parked. Qed.

(** Drive the source until it parks, ends, or has handed out [fuel] events. *)
Fixpoint take_events (fuel : nat) (ws : list Readiness) (s : RingBufSource)
    : list OomKillEvent :=
  match fuel with
  | O => []
  | S fuel =>
      match next ws s with
      | (Ready (Some e), s', ws') => e :: take_events fuel ws' s'
      | _ => []
      end
  end.

(** Until readiness fails, driving the source hands out everything in its hands. *)
Lemma take_events_all ws rest s fuel :
  Forall (fun w => w <> ReadinessFailed) ws -> rest = [] \/ head rest = Some ReadinessFailed ->
  (length (undelivered ws s) <= fuel)%nat ->
  take_events fuel (ws ++ rest) s = undelivered ws s.
Proof.
  intros Hws Hrest. revert ws s Hws. induction fuel as [|fuel IH]; intros ws s Hws Hf; simpl.
  { by destruct (undelivered ws s); simpl in *; [|lia]. }
  pose proof (next_step ws s) as Hn.
  destruct (next ws s) as [[[|[e|]] s'] ws'] eqn:En.
  - destruct Hn as (Hp & -> & -> & _). rewrite (next_parked _ _ _ _ En).
    destruct s' as [p]. simpl in Hp. subst p.
    by destruct Hrest as [->|[post ->]%head_Some].
  - rewrite (next_handed _ _ _ _ _ _ En), Hn. f_equal.
    apply IH; [|rewrite Hn in Hf; simpl in Hf; lia].
    destruct (next_suffix _ _ _ _ _ En) as [pre ->]. by apply Forall_app in Hws as [_ ?].
  - destruct Hn as (_ & pre & -> & _). apply Forall_app in Hws as [_ Hws].
    by apply Forall_cons in Hws as [? _].
Qed.

Lemma omap_shorter {A B} (f : A -> option B) l : (length (omap f l) <= length l)%nat.
Proof. induction l as [|x l IH]; [done|]. simpl. destruct (f x); simpl; unfold omap in IH; lia. Qed.

Lemma items_of_drains (drains : list (list (list N))) :
  drains ≫= items_of ∘ Readable = mjoin drains.
Proof. induction drains as [|d drains IH]; [done|]. exact (f_equal (app d) IH). Qed.

(** What a ring-buffer record carries: the memory of an event, with any padding bytes and
    whatever follows it, or too few bytes for one. *)
Definition carries (data : list N) (o : option OomKillEvent) : Prop :=
  match o with
  | Some e => wf_event e /\ exists pad extra, data = event_memory pad e ++ extra
  | None => (length data < 80)%nat
  end.

Lemma carries_decode data o : carries data o -> decode_item data = o.
Proof.
  destruct o as [e|]; simpl.
  - intros (Hwf & pad & extra & ->). by apply decode_full.
  - apply decode_short.
Qed.

(** C13: no record is lost, duplicated or reordered between the ring buffer and the loop. Drive
    a source through any drains, to the end of the answers or to the first failure of
    readiness: what it hands out is what was pending and then, in order, the event each
    record of each drain carries, as the probe wrote it to memory; only records of fewer
    than 80 bytes, too short to carry one, are skipped, and the events drained before a
    failure are all handed out. *)
Theorem source_yields_every_record (drains : list (list (list N)))
    (carried : list (option OomKillEvent)) (rest : list Readiness) (s : RingBufSource) (fuel : nat) :
  Forall2 carries (mjoin drains) carried ->
  rest = [] \/ head rest = Some ReadinessFailed ->
  (length (pending s) + length carried <= fuel)%nat ->
  take_events fuel ((Readable <$> drains) ++ rest) s = pending s ++ omap id carried.
Proof.
  intros Hc Hrest Hf.
  assert (undelivered (Readable <$> drains) s = pending s ++ omap id carried) as Hu.
  { unfold undelivered. f_equal. rewrite list_fmap_bind.
    rewrite items_of_drains. clear Hf.
    induction Hc as [|data o l lo Ho _ IH]; [done|]. simpl. rewrite (carries_decode _ _ Ho).
    by destruct o; [exact (f_equal (cons _) IH)|exact IH]. }
  rewrite <- Hu. apply take_events_all; [|done|].
  - apply Forall_fmap. by apply Forall_true.
  - rewrite Hu, length_app. pose proof (omap_shorter id carried). lia.
Qed.

(** only readiness failure ends the stream: [next] answers "ended" exactly after a
    readiness error met with nothing pending, which is what lets the supervisor treat an
    ended loop as a failure. *)
Theorem next_ends_only_on_failure ws s ws' :
  (exists s', next ws s = (Ready None, s', ws')) <->
  exists pre, ws = pre ++ ReadinessFailed :: ws' /\ undelivered pre s = [] /\
              Forall (fun w => w <> ReadinessFailed) pre.
Proof.
  split.
  - intros [s' H]. pose proof (next_step ws s) as Hn. rewrite H in Hn. by destruct Hn.
  - intros (pre & -> & Hu & Hpre). revert s Hu.
    induction Hpre as [|w pre Hw Hpre IH]; intros [[|e p]] Hu; try done.
    { by eexists. }
    destruct w as [items|]; [|done]. cbn [app next Source.pending]. apply IH.
    rewrite drain_omap. unfold undelivered in *. simpl in *. by rewrite omap_app in Hu.
Qed.

(** the probe never starts on a layout it does not know: bringing the source up
    succeeds only if the startup check accepted the kernel's layout and every later call
    succeeded, and then starts with nothing pending; and when the check fails, the answer is
    the check's error whatever the loader and the maps would have said, because none of
    them is reached. *)
Theorem probe_starts_only_on_a_known_layout (fs : FileSystem) (a : Bringup) :
  (forall s, ring_source_new fs a = Ok s ->
     verify_kernel_layout fs = Ok tt /\ attach a = Ok tt /\ events_ring_buffer a = Ok tt /\
     register_ring_buffer a = Ok tt /\ dropped_array a = Ok tt /\ pending s = []) /\
  (forall e, verify_kernel_layout fs = Err e -> ring_source_new fs a = Err e).
Proof.
  unfold ring_source_new. split; [|by intros e ->].
  intros s. destruct (verify_kernel_layout fs) as [[]|e]; [|done].
  destruct a as [[[]|] [[]|] [[]|] [[]|] [[]|] [[]|] [[]|] [[]|] [[]|] [[]|]]; simpl; try done.
  by intros [= <-].
Qed.

(** ** Concrete inputs *)

Definition sample_event (p : N) : OomKillEvent :=
  {| pid := p; comm := lit "target" ++ replicate 10 0; total_vm := 100; anon_rss := 50;
     file_rss := 10; shmem_rss := 5; uid := 1000; pgtables := 2; oom_score_adj := 0 |}.

Definition sample_record (p : N) : list N := event_memory (fun _ => 0) (sample_event p).

Lemma next_cancel_safe_witness :
  let ws1 := [Readable [[1; 2; 3]]; Readable []] in
  let ws2 := [Readable [sample_record 1; sample_record 2]] in
  let s := {| pending := [] |} in
  next ws1 s = (Pending, s, []) /\ next (ws1 ++ ws2) s = next ws2 s /\
  (next ws2 s).1.1 = Ready (Some (sample_event 1)).
Proof.
  intros ws1 ws2 s. assert (next ws1 s = (Pending, s, [])) as H by reflexivity.
  split; [exact H|]. split; [exact (next_cancel_safe ws1 ws2 s s H)|by vm_compute].
Defined.

Lemma sample_event_wf p : p < 2 ^ 32 -> wf_event (sample_event p).
Proof. by split; try done; repeat constructor. Qed.

Lemma sample_record_carries p : p < 2 ^ 32 -> carries (sample_record p) (Some (sample_event p)).
Proof.
  split; [by apply sample_event_wf|]. exists (fun _ => 0), []. by rewrite app_nil_r.
Qed.

(** A short record between two events, an empty drain, and then a failure. *)
Lemma source_yields_every_record_witness :
  let drains := [[sample_record 1; [7]; sample_record 2]; []; [sample_record 3]] in
  take_events 5 ((Readable <$> drains) ++ [ReadinessFailed; Readable [sample_record 4]])
    {| pending := [sample_event 9] |}
  = sample_event <$> [9; 1; 2; 3].
Proof.
  intros drains.
  refine (source_yields_every_record drains
    [Some (sample_event 1); None; Some (sample_event 2); Some (sample_event 3)]
    [ReadinessFailed; Readable [sample_record 4]] {| pending := [sample_event 9] |} 5 _ _ _).
  - repeat constructor; try by apply sample_record_carries.
  - by right.
  - by apply (Nat.leb_le _ _).
Defined.

Definition good_bringup : Bringup := {|
  load_object := Ok tt; find_program := Some tt; as_tracepoint := Ok tt; load_program := Ok tt;
  attach := Ok tt; take_events_map := Some tt; events_ring_buffer := Ok tt;
  register_ring_buffer := Ok tt; take_dropped_map := Some tt; dropped_array := Ok tt;
|}.

Lemma probe_starts_only_on_a_known_layout_witness :
  is_ok (ring_source_new (fun _ => Ok MODERN) good_bringup) = true /\
  is_ok (ring_source_new (fun _ => Ok PRE_6_9) good_bringup) = false /\
  verify_kernel_layout (fun _ => Ok MODERN) = Ok tt.
Proof.
  split; [by vm_compute|]. split; [by vm_compute|].
  apply (proj1 (probe_starts_only_on_a_known_layout (fun _ => Ok MODERN) good_bringup)
    {| pending := [] |}). by vm_compute.
Defined.
