(* ===== verification/Health.v ===== *)
(** * Health: process liveness

    [oom-watcher/src/health.rs]: the heartbeat the watch loop stamps and the liveness probe
    reads; [oom-watcher/src/http.rs]: its rendering as a probe answer and the routes. *)
From S2P Require Import Prelude Text.

Definition HEARTBEAT_INTERVAL_SECONDS : N := 30.
Definition HEARTBEAT_STALE_AFTER_SECONDS : N := 3 * HEARTBEAT_INTERVAL_SECONDS.

Inductive Liveness :=
| Starting
| Live (age_seconds : N)
| Stale (age_seconds : N).

(** [Health]: the two atomics. *)
Record Health := { started : bool; last_beat_seconds : N }.

Definition health_new : Health := {| started := false; last_beat_seconds := 0 |}.

(** The stores and loads of [mark_started], [beat] and [liveness], each one atomic step. *)
Definition store_last_beat (now : N) (h : Health) : Health :=
  {| started := started h; last_beat_seconds := now |}.
Definition store_started (b : bool) (h : Health) : Health :=
  {| started := b; last_beat_seconds := last_beat_seconds h |}.

Definition mark_started (now : N) (h : Health) : Health :=
  store_started true (store_last_beat now h).

Definition beat (now : N) (h : Health) : Health := store_last_beat now h.

(** The age and the verdict once both loads have been made. *)
Definition judge (now last : N) : Liveness :=
  let age := saturating_sub now last in
  if HEARTBEAT_STALE_AFTER_SECONDS <? age then Stale age else Live age.

Definition liveness (now : N) (h : Health) : Liveness :=
  if negb (started h) then Starting else judge now (last_beat_seconds h).

(** ** The HTTP answer *)

Inductive StatusCode := OK | SERVICE_UNAVAILABLE | INTERNAL_SERVER_ERROR | NOT_FOUND.

Definition report (l : Liveness) : StatusCode * str :=
  match l with
  | Starting =>
      (SERVICE_UNAVAILABLE,
       lit "starting: the watch loop has not begun draining events yet" ++ [Chars.newline])
  | Live age =>
      (OK, lit "live: watch loop last woke " ++ show_N age ++ lit "s ago" ++ [Chars.newline])
  | Stale age =>
      (SERVICE_UNAVAILABLE,
       lit "stale: the watch loop has not woken for " ++ show_N age ++ lit "s (limit "
       ++ show_N HEARTBEAT_STALE_AFTER_SECONDS ++ lit "s)" ++ [Chars.newline])
  end.

Definition health_handler (now : N) (h : Health) : StatusCode * str := report (liveness now h).

(** The two routes; [metrics] is the body [get_metrics] renders, [None] when the response
    builder refuses it. Any other path is axum's fallback. *)
Definition metrics_handler (metrics : option str) : StatusCode * str :=
  match metrics with
  | Some body => (OK, body)
  | None => (INTERNAL_SERVER_ERROR, [])
  end.

Definition router (metrics : option str) (now : N) (h : Health) (path : str)
    : StatusCode * str :=
  if decide (path = lit "/metrics") then metrics_handler metrics
  else if decide (path = lit "/healthz") then health_handler now h
  else (NOT_FOUND, []).

(** ** Interleaving of the stamping loop with a probe

    The loop performs the two stores of [mark_started] and then any number of beats; a probe
    reads the clock, as [health_handler] does to call [liveness], loads [started] and then,
    if it was set, [last_beat_seconds]. The steps interleave freely; each is atomic and takes
    effect in program order, which the release store and the acquire load guarantee for the
    pair of fields. *)
Module Interleaving.

Inductive LoopPc := BeforeSeed | BeforeStarted | Running.

(** A probe keeps the reading of the clock it was asked at. *)
Inductive ProbePc :=
| Idle
| Asked (now : N)
| SawStarted (now : N)
| Answered (now : N) (l : Liveness).

(** Besides the cell and the two program counters: every value ever stored in
    [last_beat_seconds] by the loop, oldest first, and, from the moment the probe was last
    asked, how many there were and whether the loop was running. *)
Record State := {
  cell : Health;
  loop_pc : LoopPc;
  probe_pc : ProbePc;
  stamps : list N;
  stamps_when_asked : nat;
  running_when_asked : bool;
}.

Definition init : State :=
  {| cell := health_new; loop_pc := BeforeSeed; probe_pc := Idle; stamps := [];
     stamps_when_asked := 0; running_when_asked := false |}.

Definition is_running (l : LoopPc) : bool := match l with Running => true | _ => false end.

Inductive step : State -> State -> Prop :=
| step_seed now h p st n r :
    step (Build_State h BeforeSeed p st n r)
         (Build_State (store_last_beat now h) BeforeStarted p (st ++ [now]) n r)
| step_started h p st n r :
    step (Build_State h BeforeStarted p st n r)
         (Build_State (store_started true h) Running p st n r)
| step_beat now h p st n r :
    step (Build_State h Running p st n r) (Build_State (beat now h) Running p (st ++ [now]) n r)
| step_ask now h l st n r :
    step (Build_State h l Idle st n r)
         (Build_State h l (Asked now) st (length st) (is_running l))
| step_load_unset now h l st n r :
    started h = false ->
    step (Build_State h l (Asked now) st n r) (Build_State h l (Answered now Starting) st n r)
| step_load_set now h l st n r :
    started h = true ->
    step (Build_State h l (Asked now) st n r) (Build_State h l (SawStarted now) st n r)
| step_load_beat now h l st n r :
    step (Build_State h l (SawStarted now) st n r)
         (Build_State h l (Answered now (judge now (last_beat_seconds h))) st n r)
| step_again now a h l st n r :
    step (Build_State h l (Answered now a) st n r) (Build_State h l Idle st n r).

(** The stamps no older than the last one stored when the probe was asked. *)
Definition recent (s : State) : list N := drop (pred (stamps_when_asked s)) (stamps s).

(** What an answer given at [now] rests on. *)
Definition rests_on (s : State) (now : N) (l : Liveness) : Prop :=
  (l = Starting /\ running_when_asked s = false) \/ exists t, t ∈ recent s /\ l = judge now t.

Record inv (s : State) : Prop := {
  iv_seed : loop_pc s <> BeforeSeed ->
    exists st, stamps s = st ++ [last_beat_seconds (cell s)];
  iv_started : started (cell s) = is_running (loop_pc s);
  iv_unseeded : loop_pc s = BeforeSeed -> stamps s = [];
  iv_count : (stamps_when_asked s <= length (stamps s))%nat;
  iv_asked : running_when_asked s = true -> loop_pc s = Running;
  iv_saw : forall now, probe_pc s = SawStarted now -> loop_pc s = Running;
  iv_answer : forall now l, probe_pc s = Answered now l -> rests_on s now l;
}.

Lemma inv_init : inv init.
Proof. by split. Qed.

(** The last stamp is recent. *)
Lemma last_is_recent st (n : nat) (t : N) :
  (n <= length (st ++ [t]))%nat -> t ∈ drop (pred n) (st ++ [t]).
Proof.
  rewrite length_app. simpl. intros Hn. rewrite drop_app_le by lia. set_solver.
Qed.

(** A stamp stored later takes none away. *)
Lemma recent_snoc st (n : nat) (t x : N) :
  x ∈ drop (pred n) st -> x ∈ drop (pred n) (st ++ [t]).
Proof. rewrite drop_app. set_solver. Qed.

Lemma rests_on_stamp h1 l1 p1 h2 l2 p2 st t n r now a :
  rests_on (Build_State h1 l1 p1 st n r) now a ->
  rests_on (Build_State h2 l2 p2 (st ++ [t]) n r) now a.
Proof.
  intros [?|(x & Hx & ->)]; [by left|]. right. exists x. split; [|done]. by apply recent_snoc.
Qed.

Lemma inv_step s s' : step s s' -> inv s -> inv s'.
Proof.
  intros Hs [H1 H2 H3 H4 H5 H6 H7]. destruct Hs; simpl in *;
    (split; simpl; intros; simplify_eq/=; eauto using rests_on_stamp; try done).
  - rewrite length_app. lia.
  - discriminate H5. done.
  - discriminate (H6 _ ltac:(done)).
  - rewrite length_app. lia.
  - by destruct l.
  - left. split; [done|]. apply not_true_is_false. intros Hr. rewrite (H5 Hr) in H2. simpl in H2. congruence.
  - by destruct l; simpl in H2; congruence.
  - right. destruct (H1 ltac:(by rewrite (H6 _ eq_refl))) as [st' Hst]. eexists.
    split; [|done]. unfold recent. simpl. rewrite Hst in *. by apply last_is_recent.
Qed.

Lemma inv_reachable s : rtc step init s -> inv s.
Proof.
  intros Hr. assert (forall s0, rtc step s0 s -> inv s0 -> inv s) as H.
  { induction 1; eauto using inv_step. }
  eauto using inv_init.
Qed.

(** A probe nothing interrupts answers [liveness], and a startup nothing interrupts is
    [mark_started]. *)
Lemma uninterrupted_probe now h l st n r :
  rtc step (Build_State h l Idle st n r)
    (Build_State h l (Answered now (liveness now h)) st (length st) (is_running l)).
Proof.
  eapply rtc_l; [apply (step_ask now)|]. unfold liveness.
  destruct (started h) eqn:E; simpl.
  - eapply rtc_l; [by apply step_load_set|]. apply rtc_once, step_load_beat.
  - by apply rtc_once, step_load_unset.
Qed.

Lemma uninterrupted_start now h p st n r :
  rtc step (Build_State h BeforeSeed p st n r)
    (Build_State (mark_started now h) Running p (st ++ [now]) n r).
Proof. eapply rtc_l; [apply (step_seed now)|]. apply rtc_once, step_started. Qed.

End Interleaving.

(** The verdict at every age. *)
Lemma liveness_cases now h :
  liveness now h =
    (if started h then
       (if now - last_beat_seconds h <=? 90 then Live (now - last_beat_seconds h)
        else Stale (now - last_beat_seconds h))
     else Starting)
  /\ (started h = true -> now <= last_beat_seconds h -> liveness now h = Live 0).
Proof.
  unfold liveness, judge, saturating_sub. change HEARTBEAT_STALE_AFTER_SECONDS with 90.
  destruct (started h); simpl; [|done].
  destruct (N.ltb_spec 90 (now - last_beat_seconds h)),
    (N.leb_spec (now - last_beat_seconds h) 90); try lia;
    (split; [done|]); intros _ Hn; rewrite (proj2 (N.sub_0_le _ _) Hn) in *; [lia|done].
Qed.

(** ** Properties *)

(** the probe's verdict at every age: before the loop starts it is [Starting]; after a
    stamp it is [Live] up to and including the limit of three intervals and [Stale] beyond,
    and a clock that stepped backwards reads as age zero. *)
Theorem liveness_verdict now h :
  liveness now h =
    (if started h then
       (if now - last_beat_seconds h <=? 90 then Live (now - last_beat_seconds h)
        else Stale (now - last_beat_seconds h))
     else Starting)
  /\ (started h = true -> now <= last_beat_seconds h -> liveness now h = Live 0).
Proof. apply liveness_cases. Qed.

(** C31: [/healthz] answers 200 exactly while the loop has started and stamped within the
    last ninety seconds; every other state is 503, whatever [/metrics] would answer. *)
Theorem healthz_ok_iff metrics now h :
  (router metrics now h (lit "/healthz")).1 = OK <->
  started h = true /\ now <= last_beat_seconds h + 90.
Proof.
  unfold router. rewrite decide_False by done. rewrite decide_True by done.
  unfold health_handler. destruct (liveness_cases now h) as [-> _].
  destruct (started h); simpl; [|by split; [|intros [? _]]].
  destruct (N.leb_spec (now - last_beat_seconds h) 90); simpl;
    (split; [intros; split; [done|lia]|intros [_ ?]; try done; lia]) || (split; [done|lia]).
Qed.

(** C32: no interleaving of startup, beats and probes reports on the zero the heartbeat was
    built with. When a probe asked at clock reading [now] has answered, the answer is
    [Starting], and the loop was not yet running when it was asked, or it is the verdict at
    that same reading on a stamp the loop really stored, and one at least as recent as the
    last it had stored when the probe was asked. Uninterrupted, the steps are [mark_started]
    and [liveness]. *)
Theorem probe_never_reads_unseeded s now l :
  rtc Interleaving.step Interleaving.init s ->
  Interleaving.probe_pc s = Interleaving.Answered now l ->
  ((l = Starting /\ Interleaving.running_when_asked s = false) \/
   exists older t newer, Interleaving.stamps s = older ++ t :: newer /\
     (Interleaving.stamps_when_asked s <= S (length older))%nat /\ l = judge now t) /\
  (forall h st n r p,
     rtc Interleaving.step (Interleaving.Build_State h Interleaving.BeforeSeed p st n r)
       (Interleaving.Build_State (mark_started now h) Interleaving.Running p (st ++ [now]) n r)) /\
  (forall h pc st n r, exists n' r',
     rtc Interleaving.step (Interleaving.Build_State h pc Interleaving.Idle st n r)
       (Interleaving.Build_State h pc (Interleaving.Answered now (liveness now h)) st n' r')).
Proof.
  intros Hr Hp. split_and!.
  - pose proof (Interleaving.iv_answer _ (Interleaving.inv_reachable s Hr)) as Ha.
    destruct (Ha _ _ Hp) as [?|(t & Ht & ->)]; [by left|right].
    unfold Interleaving.recent in Ht.
    apply list_elem_of_split in Ht as (mid & newer & Hd).
    exists (take (pred (Interleaving.stamps_when_asked s)) (Interleaving.stamps s) ++ mid), t, newer.
    rewrite <- app_assoc, <- Hd, take_drop. split_and!; [done| |done].
    assert (length (drop (pred (Interleaving.stamps_when_asked s)) (Interleaving.stamps s)) <> 0%nat)
      as Hlen by (by rewrite Hd, length_app; simpl; lia).
    rewrite length_drop in Hlen. rewrite length_app, length_take. lia.
  - intros. apply Interleaving.uninterrupted_start.
  - intros. eexists _, _. apply Interleaving.uninterrupted_probe.
Qed.

(** A beat clears staleness. *)
Lemma beat_is_live now h : started h = true -> liveness now (beat now h) = Live 0.
Proof.
  intros Hs. unfold liveness, beat. simpl. rewrite Hs. simpl. unfold judge, saturating_sub.
  by rewrite N.sub_diag.
Qed.

(** ** Concrete inputs *)

Definition sample_health : Health := mark_started 1000 health_new.

Lemma liveness_verdict_witness :
  started sample_health = true /\ liveness 1090 sample_health = Live 90 /\
  liveness 1091 sample_health = Stale 91 /\ liveness 900 sample_health = Live 0.
Proof.
  split; [reflexivity|]. split; [reflexivity|]. split; [reflexivity|].
  apply (proj2 (liveness_verdict 900 sample_health)); [reflexivity|by vm_compute].
Defined.

(** A probe asked at 1005 and overtaken by a beat at 1003, after one at 1000. *)
Lemma probe_never_reads_unseeded_witness :
  exists s, rtc Interleaving.step Interleaving.init s /\
    Interleaving.probe_pc s = Interleaving.Answered 1005 (Live 2) /\
    exists older t newer, Interleaving.stamps s = older ++ t :: newer /\
      (Interleaving.stamps_when_asked s <= S (length older))%nat /\ Live 2 = judge 1005 t.
Proof.
  set (s := Interleaving.Build_State {| started := true; last_beat_seconds := 1003 |}
    Interleaving.Running (Interleaving.Answered 1005 (judge 1005 1003)) [1000; 1003] 1 true).
  assert (rtc Interleaving.step Interleaving.init s) as Hr.
  { eapply rtc_l; [exact (Interleaving.step_seed 1000 _ _ _ _ _)|].
    eapply rtc_l; [exact (Interleaving.step_started _ _ _ _ _)|].
    eapply rtc_l; [exact (Interleaving.step_ask 1005 _ _ _ _ _)|].
    eapply rtc_l; [apply Interleaving.step_load_set; reflexivity|].
    eapply rtc_l; [exact (Interleaving.step_beat 1003 _ _ _ _ _)|].
    eapply rtc_l; [exact (Interleaving.step_load_beat 1005 _ _ _ _ _)|]. apply rtc_refl. }
  exists s. split; [exact Hr|]. split; [reflexivity|].
  destruct (probe_never_reads_unseeded s 1005 (Live 2) Hr eq_refl) as [[[Hl _]|H] _];
    [discriminate Hl|exact H].
Defined.
