(* ===== verification/Prometheus.v ===== *)
(** * Prometheus: the interface to the metrics library

    The collector uses [CounterVec] and [GaugeVec] of the [prometheus] crate: families of
    values indexed by label values. The interface states the documented behaviour the code
    relies on, for label lists of the declared length only ([with_label_values] panics on
    any other), and an instance over finite maps shows it can be met. *)
From S2P Require Import Prelude Text Float64.

Class MetricVec (V : Type) := {
  (** [CounterVec::new] / [GaugeVec::new] with the declared label names. *)
  mv_new : list str -> V;
  (** The number of labels the family was declared with. *)
  mv_arity : V -> nat;
  (** What a scrape shows for a label list: [None] when the series does not exist. *)
  mv_value : V -> list str -> option N;
  (** [with_label_values(ls)]: creates the series at zero when it is absent. *)
  mv_with : list str -> V -> V;
  (** [with_label_values(ls).set(x)]. *)
  mv_set : list str -> N -> V -> V;
  (** [with_label_values(ls).inc_by(x)]. *)
  mv_inc_by : list str -> N -> V -> V;
  (** [remove_label_values(ls)]: an error when the series is absent. *)
  mv_remove : list str -> V -> option V;
}.

Class MetricVecLaws (V : Type) `{MetricVec V} : Prop := {
  mv_new_arity : forall names, mv_arity (mv_new names) = length names;
  mv_with_arity : forall ls v, mv_arity (mv_with ls v) = mv_arity v;
  mv_set_arity : forall ls x v, mv_arity (mv_set ls x v) = mv_arity v;
  mv_inc_by_arity : forall ls x v, mv_arity (mv_inc_by ls x v) = mv_arity v;
  mv_remove_arity : forall ls v v', mv_remove ls v = Some v' -> mv_arity v' = mv_arity v;
  mv_new_value : forall names ls, mv_value (mv_new names) ls = None;
  mv_with_value : forall ls ls' v, length ls = mv_arity v ->
    mv_value (mv_with ls v) ls'
    = if decide (ls = ls') then Some (default 0 (mv_value v ls)) else mv_value v ls';
  mv_set_value : forall ls ls' x v, length ls = mv_arity v ->
    mv_value (mv_set ls x v) ls' = if decide (ls = ls') then Some x else mv_value v ls';
  mv_inc_by_value : forall ls ls' x v, length ls = mv_arity v ->
    mv_value (mv_inc_by ls x v) ls'
    = if decide (ls = ls') then Some (f64_add (default 0 (mv_value v ls)) x)
      else mv_value v ls';
  mv_remove_value : forall ls ls' v v', length ls = mv_arity v -> mv_remove ls v = Some v' ->
    mv_value v' ls' = if decide (ls = ls') then None else mv_value v ls';
  mv_remove_absent : forall ls v, length ls = mv_arity v ->
    (mv_remove ls v = None <-> mv_value v ls = None);
}.

Section derived.
Context {V : Type} `{MetricVecLaws V}.

(** [with_label_values(ls).inc()]. *)
Definition mv_inc (ls : list str) (v : V) : V := mv_inc_by ls 1 v.

(** [let _ = remove_label_values(ls)]: an absent series is not a failure. *)
Definition mv_delete (ls : list str) (v : V) : V := default v (mv_remove ls v).

Lemma mv_delete_arity ls v : mv_arity (mv_delete ls v) = mv_arity v.
Proof.
  unfold mv_delete. destruct (mv_remove ls v) as [v'|] eqn:E; [|done].
  by eapply mv_remove_arity.
Qed.

Lemma mv_inc_arity ls v : mv_arity (mv_inc ls v) = mv_arity v.
Proof. apply mv_inc_by_arity. Qed.

Lemma mv_delete_value ls ls' v :
  length ls = mv_arity v ->
  mv_value (mv_delete ls v) ls' = if decide (ls = ls') then None else mv_value v ls'.
Proof.
  intros Hl. unfold mv_delete. destruct (mv_remove ls v) as [v'|] eqn:E; simpl.
  - by apply mv_remove_value.
  - apply mv_remove_absent in E; [|done]. by case_decide; subst.
Qed.

Lemma mv_inc_value ls ls' v :
  length ls = mv_arity v ->
  mv_value (mv_inc ls v) ls'
  = if decide (ls = ls') then Some (f64_add (default 0 (mv_value v ls)) 1)
    else mv_value v ls'.
Proof. apply mv_inc_by_value. Qed.

(** Two families a scrape cannot tell apart. *)
Definition mv_equiv (v w : V) : Prop :=
  mv_arity v = mv_arity w /\ forall ls, mv_value v ls = mv_value w ls.

#[global] Instance mv_equiv_equivalence : Equivalence mv_equiv.
Proof.
  split; [by split|intros ?? [? ?]; by split|].
  intros ??? [? Huv] [? Hvw]. split; [congruence|]. intros. by rewrite Huv, Hvw.
Qed.

Lemma mv_delete_proper ls v w :
  length ls = mv_arity v -> mv_equiv v w -> mv_equiv (mv_delete ls v) (mv_delete ls w).
Proof.
  intros Hl [Ha Hv]. split; [by rewrite !mv_delete_arity|]. intros ls'.
  rewrite !mv_delete_value by congruence. by rewrite Hv.
Qed.

Lemma mv_inc_proper ls v w :
  length ls = mv_arity v -> mv_equiv v w -> mv_equiv (mv_inc ls v) (mv_inc ls w).
Proof.
  intros Hl [Ha Hv]. split; [by rewrite !mv_inc_arity|]. intros ls'.
  rewrite !mv_inc_value by congruence. by rewrite !Hv.
Qed.

Lemma mv_delete_comm ls1 ls2 v :
  length ls1 = mv_arity v -> length ls2 = mv_arity v ->
  mv_equiv (mv_delete ls1 (mv_delete ls2 v)) (mv_delete ls2 (mv_delete ls1 v)).
Proof.
  intros Hl1 Hl2. split; [by rewrite !mv_delete_arity|]. intros ls.
  rewrite !mv_delete_value by (by rewrite ?mv_delete_arity). by repeat case_decide.
Qed.

Lemma mv_inc_comm ls1 ls2 v :
  length ls1 = mv_arity v -> length ls2 = mv_arity v ->
  mv_equiv (mv_inc ls1 (mv_inc ls2 v)) (mv_inc ls2 (mv_inc ls1 v)).
Proof.
  intros Hl1 Hl2. split; [by rewrite !mv_inc_arity|]. intros ls.
  rewrite !mv_inc_value by (by rewrite ?mv_inc_arity).
  by repeat (case_decide; subst; simpl).
Qed.
End derived.

#[export] Hint Resolve mv_delete_arity mv_inc_arity : oom.

(** ** An instance over finite maps *)

Record MapVec := { vec_names : list str; vec_map : gmap (list str) N }.

Definition map_update (ls : list str) (f : option N -> N) (v : MapVec) : MapVec :=
  if decide (length ls = length (vec_names v))
  then {| vec_names := vec_names v; vec_map := <[ls := f (vec_map v !! ls)]> (vec_map v) |}
  else v.

#[export] Instance MapVec_MetricVec : MetricVec MapVec := {|
  mv_new names := {| vec_names := names; vec_map := ∅ |};
  mv_arity v := length (vec_names v);
  mv_value v ls := vec_map v !! ls;
  mv_with ls := map_update ls (default 0);
  mv_set ls x := map_update ls (fun _ => x);
  mv_inc_by ls x := map_update ls (fun o => f64_add (default 0 o) x);
  mv_remove ls v :=
    match vec_map v !! ls with
    | Some _ => Some {| vec_names := vec_names v; vec_map := delete ls (vec_map v) |}
    | None => None
    end;
|}.

Lemma map_update_arity ls f v : length (vec_names (map_update ls f v)) = length (vec_names v).
Proof. unfold map_update. by case_decide. Qed.

Lemma map_update_value ls ls' f v :
  length ls = length (vec_names v) ->
  vec_map (map_update ls f v) !! ls'
  = if decide (ls = ls') then Some (f (vec_map v !! ls)) else vec_map v !! ls'.
Proof. intros H. unfold map_update. rewrite decide_True by done. apply lookup_insert. Qed.

#[export] Instance MapVec_laws : MetricVecLaws MapVec.
Proof.
  split; simpl; intros; try done; try apply map_update_arity; try by apply map_update_value.
  - destruct (vec_map v !! ls); by simplify_eq.
  - destruct (vec_map v !! ls) eqn:E; simplify_eq. simpl. apply lookup_delete.
  - by destruct (vec_map v !! ls).
Qed.
