(* ===== verification/Metrics.v ===== *)
(** * Metrics: the Prometheus adapter

    [oom-watcher/src/metrics.rs]: the metric families, the bookkeeping of series ages and
    of deleted pods, recording, and series eviction. This file holds the definitions and the
    lemmas on what each operation does to each family; the contracts are in Sweep and
    Recording. *)
From S2P Require Import Prelude Text Float64 Io Common Resolve Seams Prometheus.

(** ** Labels *)

Definition MEMORY_TYPES : list str :=
  [lit "total_vm"; lit "anon_rss"; lit "file_rss"; lit "shmem_rss"].

Definition DELETED_POD_GRACE_SECONDS : N := 120.

Definition PER_CONTAINER_LABELS : list str :=
  [lit "node"; lit "namespace"; lit "pod"; lit "container"; lit "container_id";
   lit "image_id"].

Definition MEMORY_LABELS : list str :=
  [lit "node"; lit "namespace"; lit "pod"; lit "container"; lit "memory_type"].

(** The memory figures of [raw] in kilobytes, ordered to match [MEMORY_TYPES]. *)
Definition memory_values (raw : OomKillEvent) : list N :=
  [total_vm raw; anon_rss raw; file_rss raw; shmem_rss raw].

(** The label set identifying one killed container, [unknown] fallbacks included. *)
Record SeriesKey := {
  k_node : str;
  k_namespace : str;
  k_pod : str;
  k_container : str;
  k_container_id : str;
  k_image_id : str;
}.

#[export] Instance SeriesKey_eq_dec : EqDecision SeriesKey.
Proof. solve_decision. Defined.

#[export] Instance SeriesKey_countable : Countable SeriesKey.
Proof.
  refine (inj_countable'
    (fun k => (k_node k, k_namespace k, k_pod k, k_container k, k_container_id k, k_image_id k))
    (fun '(a, b, c, d, e, f) => Build_SeriesKey a b c d e f) _).
  by intros [].
Defined.

(** [SeriesKey::labels]. *)
Definition labels (k : SeriesKey) : list str :=
  [k_node k; k_namespace k; k_pod k; k_container k; k_container_id k; k_image_id k].

(** [SeriesKey::memory_labels]. *)
Definition memory_labels (k : SeriesKey) (memory_type : str) : list str :=
  [k_node k; k_namespace k; k_pod k; k_container k; memory_type].

(** [SeriesKey::shares_memory_series_with]. *)
Definition shares_memory_series_with (k other : SeriesKey) : bool :=
  bool_decide (k_node k = k_node other) && bool_decide (k_namespace k = k_namespace other)
  && bool_decide (k_pod k = k_pod other) && bool_decide (k_container k = k_container other).

(** [.as_deref().unwrap_or("unknown")]. *)
Definition or_unknown (o : option str) : str := default (lit "unknown") o.

(** The label values [record_oom_event] computes from an event. *)
Definition key_of_event (e : EnrichedOomEvent) : SeriesKey := {|
  k_node := or_unknown (ev_node_name e);
  k_namespace := or_unknown (ev_namespace e);
  k_pod := or_unknown (ev_pod_name e);
  k_container := or_unknown (ev_container_name e);
  k_container_id := or_unknown (ev_container_id e);
  k_image_id := or_unknown (ev_image_id e);
|}.

(** ** The collector *)

Record MetricsCollector {V : Type} := {
  oom_kills_total : V;
  oom_kills_per_node_total : V;
  oom_memory_usage_bytes : V;
  oom_last_timestamp : V;
  oom_resolution_failures_total : V;
  oom_events_dropped_total : V;
  oom_series_evicted_total : V;
  last_dropped_total : N;
  last_seen : gmap SeriesKey N;
  deleted_after : gmap (str * str) N;
}.
Arguments MetricsCollector : clear implicits.

(** [HashMap::retain]: what the predicate keeps, and the keys of what it drops (in the
    order the map happens to be iterated in, which no property depends on). *)
Definition retain {K} `{Countable K} (keep : K -> N -> bool) (m : gmap K N)
    : gmap K N * list K :=
  (filter (fun kv => keep kv.1 kv.2 = true) m,
   (map_to_list (filter (fun kv => keep kv.1 kv.2 = false) m)).*1).

Section collector.
Context {V : Type} `{MetricVec V}.
Abbreviation Collector := (MetricsCollector V).
Implicit Types (c : Collector) (k : SeriesKey).

(** Replacing one field. *)
Definition upd_kills (f : V -> V) c : Collector :=
  Build_MetricsCollector V (f (oom_kills_total c)) (oom_kills_per_node_total c) (oom_memory_usage_bytes c)
    (oom_last_timestamp c) (oom_resolution_failures_total c)
    (oom_events_dropped_total c) (oom_series_evicted_total c)
    (last_dropped_total c) (last_seen c) (deleted_after c).
Definition upd_per_node (f : V -> V) c : Collector :=
  Build_MetricsCollector V (oom_kills_total c) (f (oom_kills_per_node_total c)) (oom_memory_usage_bytes c)
    (oom_last_timestamp c) (oom_resolution_failures_total c)
    (oom_events_dropped_total c) (oom_series_evicted_total c)
    (last_dropped_total c) (last_seen c) (deleted_after c).
Definition upd_memory (f : V -> V) c : Collector :=
  Build_MetricsCollector V (oom_kills_total c) (oom_kills_per_node_total c) (f (oom_memory_usage_bytes c))
    (oom_last_timestamp c) (oom_resolution_failures_total c)
    (oom_events_dropped_total c) (oom_series_evicted_total c)
    (last_dropped_total c) (last_seen c) (deleted_after c).
Definition upd_timestamp (f : V -> V) c : Collector :=
  Build_MetricsCollector V (oom_kills_total c) (oom_kills_per_node_total c) (oom_memory_usage_bytes c)
    (f (oom_last_timestamp c)) (oom_resolution_failures_total c)
    (oom_events_dropped_total c) (oom_series_evicted_total c)
    (last_dropped_total c) (last_seen c) (deleted_after c).
Definition upd_failures (f : V -> V) c : Collector :=
  Build_MetricsCollector V (oom_kills_total c) (oom_kills_per_node_total c) (oom_memory_usage_bytes c)
    (oom_last_timestamp c) (f (oom_resolution_failures_total c))
    (oom_events_dropped_total c) (oom_series_evicted_total c)
    (last_dropped_total c) (last_seen c) (deleted_after c).
Definition upd_dropped (f : V -> V) c : Collector :=
  Build_MetricsCollector V (oom_kills_total c) (oom_kills_per_node_total c) (oom_memory_usage_bytes c)
    (oom_last_timestamp c) (oom_resolution_failures_total c)
    (f (oom_events_dropped_total c)) (oom_series_evicted_total c)
    (last_dropped_total c) (last_seen c) (deleted_after c).
Definition upd_evicted (f : V -> V) c : Collector :=
  Build_MetricsCollector V (oom_kills_total c) (oom_kills_per_node_total c) (oom_memory_usage_bytes c)
    (oom_last_timestamp c) (oom_resolution_failures_total c)
    (oom_events_dropped_total c) (f (oom_series_evicted_total c))
    (last_dropped_total c) (last_seen c) (deleted_after c).
Definition set_last_dropped (x : N) c : Collector :=
  Build_MetricsCollector V (oom_kills_total c) (oom_kills_per_node_total c) (oom_memory_usage_bytes c)
    (oom_last_timestamp c) (oom_resolution_failures_total c)
    (oom_events_dropped_total c) (oom_series_evicted_total c)
    x (last_seen c) (deleted_after c).
Definition upd_last_seen (f : gmap SeriesKey N -> gmap SeriesKey N) c : Collector :=
  Build_MetricsCollector V (oom_kills_total c) (oom_kills_per_node_total c) (oom_memory_usage_bytes c)
    (oom_last_timestamp c) (oom_resolution_failures_total c)
    (oom_events_dropped_total c) (oom_series_evicted_total c)
    (last_dropped_total c) (f (last_seen c)) (deleted_after c).
Definition upd_deleted (f : gmap (str * str) N -> gmap (str * str) N) c : Collector :=
  Build_MetricsCollector V (oom_kills_total c) (oom_kills_per_node_total c) (oom_memory_usage_bytes c)
    (oom_last_timestamp c) (oom_resolution_failures_total c)
    (oom_events_dropped_total c) (oom_series_evicted_total c)
    (last_dropped_total c) (last_seen c) (f (deleted_after c)).

(** [MetricsCollector::new]. *)
Definition collector_new : Collector := {|
  oom_kills_total := mv_new PER_CONTAINER_LABELS;
  oom_kills_per_node_total := mv_new [lit "node"];
  oom_memory_usage_bytes := mv_new MEMORY_LABELS;
  oom_last_timestamp := mv_new PER_CONTAINER_LABELS;
  oom_resolution_failures_total := mv_new [lit "node"; lit "reason"];
  oom_events_dropped_total := mv_new [lit "node"];
  oom_series_evicted_total := mv_new [lit "node"];
  last_dropped_total := 0;
  last_seen := ∅;
  deleted_after := ∅;
|}.

(** The registered families, by name; [gather] hands them to the encoder. *)
Definition gather c : list (str * V) :=
  [(lit "oom_kills_total", oom_kills_total c);
   (lit "oom_kills_per_node_total", oom_kills_per_node_total c);
   (lit "oom_memory_usage_bytes", oom_memory_usage_bytes c);
   (lit "oom_last_timestamp", oom_last_timestamp c);
   (lit "oom_resolution_failures_total", oom_resolution_failures_total c);
   (lit "oom_events_dropped_total", oom_events_dropped_total c);
   (lit "oom_series_evicted_total", oom_series_evicted_total c)].

(** [get_metrics], over the text encoder of the library. *)
Definition get_metrics (encode_to_string : list (str * V) -> option str) c : str :=
  default [] (encode_to_string (gather c)).

(** *** Eviction *)

(** [note_pod_deleted]. *)
Definition note_pod_deleted (ns pod : str) (now : N) c : Collector :=
  upd_deleted <[(ns, pod) := saturating_add now DELETED_POD_GRACE_SECONDS]> c.

(** [remove_series]. *)
Definition remove_series k (memory_series_orphaned : bool) c : Collector :=
  let c := upd_kills (mv_delete (labels k)) c in
  let c := upd_timestamp (mv_delete (labels k)) c in
  let c :=
    if memory_series_orphaned
    then foldl (fun c mt => upd_memory (mv_delete (memory_labels k mt)) c) c MEMORY_TYPES
    else c in
  upd_evicted (mv_inc [k_node k]) c.

(** [!last_seen.keys().any(|live| live.shares_memory_series_with(key))]. *)
Definition orphaned (live : gmap SeriesKey N) k : bool :=
  negb (existsb (fun l => shares_memory_series_with l k) (map_to_list live).*1).

(** The loop over the stale keys. *)
Definition remove_all (live : gmap SeriesKey N) (stale : list SeriesKey) c : Collector :=
  foldl (fun c k => remove_series k (orphaned live k) c) c stale.

(** The predicate of the [retain] on [last_seen]: keep what is neither aged out nor gone. *)
Definition keep_series (due : list (str * str)) (now ttl_secs : N) k (seen : N) : bool :=
  let aged_out := ttl_secs <=? saturating_sub now seen in
  let pod_gone :=
    existsb (fun '(ns, pod) => bool_decide (k_namespace k = ns) && bool_decide (k_pod k = pod))
      due in
  negb (aged_out || pod_gone).

(** [evict_stale]. *)
Definition evict_stale (now ttl_secs : N) c : nat * Collector :=
  let '(still_deleted, due) := retain (fun _ removable_at => now <? removable_at)
                                 (deleted_after c) in
  let c := upd_deleted (fun _ => still_deleted) c in
  let '(live, stale) := retain (keep_series due now ttl_secs) (last_seen c) in
  let c := upd_last_seen (fun _ => live) c in
  (length stale, remove_all live stale c).

(** *** Recording *)

(** One turn of the memory loop: raise the gauge to the figure if it is larger. *)
Definition record_memory k (memory_type : str) (kilobytes : N) c : Collector :=
  let ls := memory_labels k memory_type in
  upd_memory
    (fun v =>
       let v := mv_with ls v in
       let bytes := f64_of_N (wrapping_mul kilobytes 1024) in
       if default 0 (mv_value v ls) <? bytes then mv_set ls bytes v else v) c.

(** [record_resolution_outcome]. *)
Definition collector_record_resolution_outcome (node : str) (o : ResolutionOutcome) c
    : Collector :=
  match o with
  | Found _ => c
  | NotFoundOutcome => upd_failures (mv_inc [node; lit "not_found"]) c
  | Failed _ => upd_failures (mv_inc [node; lit "error"]) c
  end.

(** [record_oom_event]. *)
Definition collector_record_oom_event (e : EnrichedOomEvent) c : Collector :=
  let k := key_of_event e in
  let c := upd_kills (mv_inc (labels k)) c in
  let c := upd_per_node (mv_inc [k_node k]) c in
  let c := foldl (fun c '(mt, kb) => record_memory k mt kb c) c
             (zip MEMORY_TYPES (memory_values (raw_event e))) in
  let c := upd_timestamp (mv_set (labels k) (f64_of_N (ev_timestamp e))) c in
  upd_last_seen <[k := ev_timestamp e]> c.

(** [record_dropped_total]: swap in the total, advance by the delta if it is positive. *)
Definition collector_record_dropped_total (node : str) (total : N) c : Collector :=
  let previous := last_dropped_total c in
  let c := set_last_dropped total c in
  match checked_sub total previous with
  | None => c
  | Some delta =>
      if 0 <? delta then upd_dropped (mv_inc_by [node] (f64_of_N delta)) c else c
  end.

#[global] Instance MetricsCollector_MetricsRecorder : MetricsRecorder Collector := {|
  record_resolution_outcome := collector_record_resolution_outcome;
  record_oom_event := collector_record_oom_event;
  record_dropped_total := collector_record_dropped_total;
|}.
End collector.

#[global] Arguments upd_kills : simpl never.
Arguments upd_per_node : simpl never.
Arguments upd_memory : simpl never.
Arguments upd_timestamp : simpl never.
Arguments upd_failures : simpl never.
Arguments upd_dropped : simpl never.
Arguments upd_evicted : simpl never.
Arguments set_last_dropped : simpl never.
Arguments upd_last_seen : simpl never.
Arguments upd_deleted : simpl never.

(** ** Label lists *)

Lemma labels_inj k k' : labels k = labels k' <-> k = k'.
Proof. split; [|by intros ->]. destruct k, k'. intros [=]. by subst. Qed.

Lemma shares_spec k k' :
  shares_memory_series_with k k' = true <->
  k_node k = k_node k' /\ k_namespace k = k_namespace k' /\ k_pod k = k_pod k' /\
  k_container k = k_container k'.
Proof.
  unfold shares_memory_series_with. rewrite !andb_true_iff, !bool_decide_eq_true. tauto.
Qed.

Lemma memory_labels_eq k k' mt mt' :
  memory_labels k mt = memory_labels k' mt' <->
  shares_memory_series_with k k' = true /\ mt = mt'.
Proof.
  rewrite shares_spec. unfold memory_labels. split.
  - intros [=]. done.
  - intros [(-> & -> & -> & ->) ->]. done.
Qed.

Lemma shares_refl k : shares_memory_series_with k k = true.
Proof. by apply shares_spec. Qed.

Lemma shares_sym k k' : shares_memory_series_with k k' = shares_memory_series_with k' k.
Proof.
  apply eq_true_iff_eq. rewrite !shares_spec. split; intros (-> & -> & -> & ->); done.
Qed.

Lemma shares_trans k1 k2 k3 :
  shares_memory_series_with k1 k2 = true -> shares_memory_series_with k2 k3 = true ->
  shares_memory_series_with k1 k3 = true.
Proof. rewrite !shares_spec. intros (-> & -> & -> & ->). done. Qed.

(** ** What each operation does to each family *)

Section views.
Context {V : Type} `{MetricVecLaws V}.
Abbreviation Collector := (MetricsCollector V).
Implicit Types (c : Collector) (k : SeriesKey).

(** The families as a scrape sees them. *)
Definition kills c k : option N := mv_value (oom_kills_total c) (labels k).
Definition stamp c k : option N := mv_value (oom_last_timestamp c) (labels k).
Definition memory c k (mt : str) : option N :=
  mv_value (oom_memory_usage_bytes c) (memory_labels k mt).
Definition per_node c (node : str) : option N :=
  mv_value (oom_kills_per_node_total c) [node].
Definition failures c (node reason : str) : option N :=
  mv_value (oom_resolution_failures_total c) [node; reason].
Definition dropped c (node : str) : option N :=
  mv_value (oom_events_dropped_total c) [node].
Definition evicted c (node : str) : option N :=
  mv_value (oom_series_evicted_total c) [node].

(** Every family has the number of labels its operations pass. *)
Record wf_collector c : Prop := {
  wf_kills : mv_arity (oom_kills_total c) = 6%nat;
  wf_per_node : mv_arity (oom_kills_per_node_total c) = 1%nat;
  wf_memory : mv_arity (oom_memory_usage_bytes c) = 5%nat;
  wf_timestamp : mv_arity (oom_last_timestamp c) = 6%nat;
  wf_failures : mv_arity (oom_resolution_failures_total c) = 2%nat;
  wf_dropped : mv_arity (oom_events_dropped_total c) = 1%nat;
  wf_evicted : mv_arity (oom_series_evicted_total c) = 1%nat;
}.

Lemma wf_collector_new : wf_collector collector_new.
Proof. split; simpl; by rewrite mv_new_arity. Qed.

(** *** [remove_series] *)

Definition delete_memory k (v : V) : V :=
  foldl (fun v mt => mv_delete (memory_labels k mt) v) v MEMORY_TYPES.

Lemma delete_memory_arity k v : mv_arity (delete_memory k v) = mv_arity v.
Proof. unfold delete_memory. simpl. by rewrite !mv_delete_arity. Qed.

Lemma delete_memory_value k v ls :
  mv_arity v = 5%nat ->
  mv_value (delete_memory k v) ls
  = if decide (ls ∈ memory_labels k <$> MEMORY_TYPES) then None else mv_value v ls.
Proof.
  intros Ha. unfold delete_memory. cbn [foldl MEMORY_TYPES].
  rewrite !mv_delete_value by (by rewrite ?mv_delete_arity).
  assert (ls ∈ memory_labels k <$> MEMORY_TYPES <->
    memory_labels k (lit "total_vm") = ls \/ memory_labels k (lit "anon_rss") = ls \/
    memory_labels k (lit "file_rss") = ls \/ memory_labels k (lit "shmem_rss") = ls) as Hin.
  { unfold MEMORY_TYPES. rewrite !fmap_cons, fmap_nil, !elem_of_cons, elem_of_nil.
    split; intros; destruct_or?; subst; tauto. }
  repeat case_decide; tauto.
Qed.

Lemma remove_series_memory k b c :
  oom_memory_usage_bytes (remove_series k b c)
  = if b then delete_memory k (oom_memory_usage_bytes c) else oom_memory_usage_bytes c.
Proof. by destruct b. Qed.

Lemma remove_series_kills k b c :
  oom_kills_total (remove_series k b c) = mv_delete (labels k) (oom_kills_total c).
Proof. by destruct b. Qed.

Lemma remove_series_timestamp k b c :
  oom_last_timestamp (remove_series k b c) = mv_delete (labels k) (oom_last_timestamp c).
Proof. by destruct b. Qed.

Lemma remove_series_evicted k b c :
  oom_series_evicted_total (remove_series k b c)
  = mv_inc [k_node k] (oom_series_evicted_total c).
Proof. by destruct b. Qed.

(** The fields an eviction leaves alone. *)
Definition same_rest c c' : Prop :=
  oom_kills_per_node_total c' = oom_kills_per_node_total c /\
  oom_resolution_failures_total c' = oom_resolution_failures_total c /\
  oom_events_dropped_total c' = oom_events_dropped_total c /\
  last_dropped_total c' = last_dropped_total c /\
  last_seen c' = last_seen c /\ deleted_after c' = deleted_after c.

Lemma remove_series_rest k b c : same_rest c (remove_series k b c).
Proof. by destruct b. Qed.

Lemma wf_remove_series k b c : wf_collector c -> wf_collector (remove_series k b c).
Proof.
  intros []. destruct (remove_series_rest k b c) as (Hp & Hf & Hd & _).
  split; rewrite ?remove_series_kills, ?remove_series_timestamp, ?remove_series_memory,
    ?remove_series_evicted, ?Hp, ?Hf, ?Hd, ?mv_delete_arity, ?mv_inc_arity; try done.
  destruct b; by rewrite ?delete_memory_arity.
Qed.

Lemma kills_remove_series k b c k' :
  wf_collector c ->
  kills (remove_series k b c) k' = if decide (k = k') then None else kills c k'.
Proof.
  intros Hwf. unfold kills. rewrite remove_series_kills, mv_delete_value
    by (by rewrite wf_kills).
  by repeat case_decide; rewrite ?labels_inj in *.
Qed.

Lemma stamp_remove_series k b c k' :
  wf_collector c ->
  stamp (remove_series k b c) k' = if decide (k = k') then None else stamp c k'.
Proof.
  intros Hwf. unfold stamp. rewrite remove_series_timestamp, mv_delete_value
    by (by rewrite wf_timestamp).
  by repeat case_decide; rewrite ?labels_inj in *.
Qed.

Lemma memory_remove_series k b c k' mt :
  wf_collector c -> mt ∈ MEMORY_TYPES ->
  memory (remove_series k b c) k' mt
  = if b && shares_memory_series_with k k' then None else memory c k' mt.
Proof.
  intros Hwf Hmt. unfold memory. rewrite remove_series_memory.
  destruct b; [|done]. simpl. rewrite delete_memory_value by (by apply wf_memory).
  assert (memory_labels k' mt ∈ memory_labels k <$> MEMORY_TYPES <->
          shares_memory_series_with k k' = true) as Hin.
  { rewrite list_elem_of_fmap. rewrite shares_sym. split.
    - by intros (mt' & [Hs _]%memory_labels_eq & _).
    - intros Hs. exists mt. by rewrite memory_labels_eq. }
  destruct (shares_memory_series_with k k'); case_decide; naive_solver.
Qed.

Lemma evicted_remove_series k b c n :
  wf_collector c ->
  evicted (remove_series k b c) n
  = if decide (k_node k = n) then Some (f64_add (default 0 (evicted c n)) 1)
    else evicted c n.
Proof.
  intros Hwf. unfold evicted. rewrite remove_series_evicted, mv_inc_value
    by (by rewrite wf_evicted).
  repeat case_decide; simplify_eq; done.
Qed.

(** *** [record_oom_event] *)

(** One turn of the memory loop on the family. *)
Definition raise_gauge (ls : list str) (kilobytes : N) (v : V) : V :=
  let v := mv_with ls v in
  let bytes := f64_of_N (wrapping_mul kilobytes 1024) in
  if default 0 (mv_value v ls) <? bytes then mv_set ls bytes v else v.

Lemma raise_gauge_arity ls kb v : mv_arity (raise_gauge ls kb v) = mv_arity v.
Proof.
  unfold raise_gauge. destruct (_ <? _); by rewrite ?mv_set_arity, mv_with_arity.
Qed.

(** The gauge after one figure: the larger of what it held, zero if new, and the figure. *)
Lemma raise_gauge_value ls kb v ls' :
  length ls = mv_arity v ->
  mv_value (raise_gauge ls kb v) ls'
  = if decide (ls = ls')
    then Some (N.max (default 0 (mv_value v ls)) (f64_of_N (wrapping_mul kb 1024)))
    else mv_value v ls'.
Proof.
  intros Hl. unfold raise_gauge.
  assert (mv_value (mv_with ls v) ls = Some (default 0 (mv_value v ls))) as ->
    by (rewrite mv_with_value by done; by rewrite decide_True).
  simpl. destruct (N.ltb_spec (default 0 (mv_value v ls)) (f64_of_N (wrapping_mul kb 1024))).
  - rewrite mv_set_value, mv_with_value by (by rewrite ?mv_with_arity).
    case_decide; [f_equal; lia|done].
  - rewrite mv_with_value by done. case_decide; [f_equal; lia|done].
Qed.

Definition raise_gauges k (figures : list (str * N)) (v : V) : V :=
  foldl (fun v '(mt, kb) => raise_gauge (memory_labels k mt) kb v) v figures.

Lemma raise_gauges_arity k figures v : mv_arity (raise_gauges k figures v) = mv_arity v.
Proof.
  revert v. induction figures as [|[mt kb] figures IH]; intros v; simpl; [done|].
  unfold raise_gauges in *. simpl. by rewrite IH, raise_gauge_arity.
Qed.

Lemma record_event_kills e c :
  oom_kills_total (collector_record_oom_event e c)
  = mv_inc (labels (key_of_event e)) (oom_kills_total c).
Proof. done. Qed.

Lemma record_event_timestamp e c :
  oom_last_timestamp (collector_record_oom_event e c)
  = mv_set (labels (key_of_event e)) (f64_of_N (ev_timestamp e)) (oom_last_timestamp c).
Proof. done. Qed.

Lemma record_event_per_node e c :
  oom_kills_per_node_total (collector_record_oom_event e c)
  = mv_inc [k_node (key_of_event e)] (oom_kills_per_node_total c).
Proof. done. Qed.

Lemma record_event_memory e c :
  oom_memory_usage_bytes (collector_record_oom_event e c)
  = raise_gauges (key_of_event e) (zip MEMORY_TYPES (memory_values (raw_event e)))
      (oom_memory_usage_bytes c).
Proof. done. Qed.

Lemma record_event_last_seen e c :
  last_seen (collector_record_oom_event e c)
  = <[key_of_event e := ev_timestamp e]> (last_seen c).
Proof. done. Qed.

Lemma record_event_rest e c :
  oom_resolution_failures_total (collector_record_oom_event e c)
  = oom_resolution_failures_total c /\
  oom_events_dropped_total (collector_record_oom_event e c) = oom_events_dropped_total c /\
  oom_series_evicted_total (collector_record_oom_event e c) = oom_series_evicted_total c /\
  last_dropped_total (collector_record_oom_event e c) = last_dropped_total c /\
  deleted_after (collector_record_oom_event e c) = deleted_after c.
Proof. done. Qed.

Lemma wf_record_event e c : wf_collector c -> wf_collector (collector_record_oom_event e c).
Proof.
  intros []. destruct (record_event_rest e c) as (Hf & Hd & He & _).
  split; rewrite ?record_event_kills, ?record_event_timestamp, ?record_event_memory,
    ?record_event_per_node, ?Hf, ?Hd, ?He, ?mv_inc_arity, ?mv_set_arity,
    ?raise_gauges_arity; done.
Qed.

Lemma kills_record e c k :
  wf_collector c ->
  kills (collector_record_oom_event e c) k
  = if decide (key_of_event e = k) then Some (f64_add (default 0 (kills c k)) 1)
    else kills c k.
Proof.
  intros Hwf. unfold kills. rewrite record_event_kills, mv_inc_value by (by rewrite wf_kills).
  repeat case_decide; rewrite ?labels_inj in *; by subst.
Qed.

Lemma stamp_record e c k :
  wf_collector c ->
  stamp (collector_record_oom_event e c) k
  = if decide (key_of_event e = k) then Some (f64_of_N (ev_timestamp e)) else stamp c k.
Proof.
  intros Hwf. unfold stamp. rewrite record_event_timestamp, mv_set_value
    by (by rewrite wf_timestamp).
  by repeat case_decide; rewrite ?labels_inj in *.
Qed.

Lemma per_node_record e c n :
  wf_collector c ->
  per_node (collector_record_oom_event e c) n
  = if decide (k_node (key_of_event e) = n) then Some (f64_add (default 0 (per_node c n)) 1)
    else per_node c n.
Proof.
  intros Hwf. unfold per_node. rewrite record_event_per_node, mv_inc_value
    by (by rewrite wf_per_node).
  repeat case_decide; simplify_eq; done.
Qed.

(** The figure of an event for a memory type, in bytes, as the gauge would hold it. *)
Definition memory_figure (e : EnrichedOomEvent) (mt : str) : N :=
  match find_first (fun '(t, _) => bool_decide (t = mt))
          (zip MEMORY_TYPES (memory_values (raw_event e))) with
  | Some (_, kb) => f64_of_N (wrapping_mul kb 1024)
  | None => 0
  end.

Lemma memory_record e c k mt :
  wf_collector c -> mt ∈ MEMORY_TYPES ->
  memory (collector_record_oom_event e c) k mt
  = if shares_memory_series_with (key_of_event e) k
    then Some (N.max (default 0 (memory c k mt)) (memory_figure e mt))
    else memory c k mt.
Proof.
  intros Hwf Hmt. unfold memory. rewrite record_event_memory. unfold raise_gauges, memory_values.
  cbn [zip zip_with MEMORY_TYPES foldl].
  rewrite !raise_gauge_value by (by rewrite ?raise_gauge_arity, wf_memory).
  set (v := oom_memory_usage_bytes c). set (ke := key_of_event e).
  destruct (shares_memory_series_with ke k) eqn:Hs.
  - assert (forall t, memory_labels ke t = memory_labels k t) as Hl
      by (intros t; by apply memory_labels_eq).
    unfold MEMORY_TYPES in Hmt. rewrite !elem_of_cons, elem_of_nil in Hmt.
    destruct Hmt as [->|[->|[->|[->|[]]]]]; rewrite !Hl;
      repeat first
        [ rewrite decide_True by done
        | rewrite decide_False
            by (intros [_ Hne]%memory_labels_eq; vm_compute in Hne; discriminate) ]; done.
  - assert (forall t, memory_labels ke t <> memory_labels k mt) as Hl.
    { intros t [Ht _]%memory_labels_eq. congruence. }
    by rewrite !decide_False by apply Hl.
Qed.
End views.
