(* ===== verification/Eviction.v ===== *)
(** * Eviction: series eviction and the tracking invariant

    Lemmas on [MetricsCollector::evict_stale], [note_pod_deleted] and [remove_series]
    ([oom-watcher/src/metrics.rs]): which series a sweep removes, that the bookkeeping and
    the exported series never diverge, and that the order in which the hash maps are
    iterated cannot be observed. *)
From S2P Require Import Prelude Text Float64 Io Common Resolve Seams Prometheus Metrics.

(** ** [HashMap::retain] *)

Section retain.
Context {K : Type} `{Countable K}.
Implicit Types (m : gmap K N) (keep : K -> N -> bool).

Lemma retain_kept keep m k :
  (retain keep m).1 !! k
  = match m !! k with Some x => if keep k x then Some x else None | None => None end.
Proof.
  simpl. destruct (m !! k) as [x|] eqn:E.
  - destruct (keep k x) eqn:Hk.
    + by apply map_lookup_filter_Some.
    + apply map_lookup_filter_None. right. intros y Hy. simplify_eq. simpl. congruence.
  - apply map_lookup_filter_None. by left.
Qed.

Lemma retain_dropped keep m k :
  k ∈ (retain keep m).2 <-> exists x, m !! k = Some x /\ keep k x = false.
Proof.
  simpl. rewrite list_elem_of_fmap. split.
  - intros ([k' x] & -> & Hin). apply elem_of_map_to_list, map_lookup_filter_Some in Hin.
    simpl in *. naive_solver.
  - intros (x & Hx & Hk). exists (k, x). split; [done|].
    apply elem_of_map_to_list, map_lookup_filter_Some. done.
Qed.

Lemma retain_NoDup keep m : NoDup (retain keep m).2.
Proof. apply NoDup_fst_map_to_list. Qed.

Lemma retain_size keep m : size m = (size (retain keep m).1 + length (retain keep m).2)%nat.
Proof.
  simpl. rewrite length_fmap, length_map_to_list.
  rewrite <- (map_filter_union_complement (fun kv => keep kv.1 kv.2 = true) m) at 1.
  rewrite map_size_disj_union by apply map_disjoint_filter_complement. f_equal. f_equal.
  apply map_filter_ext. intros k x _. simpl. destruct (keep k x); naive_solver.
Qed.
End retain.

(** ** Which keys a sweep drops *)

Section sweep.
Context {V : Type} `{MetricVecLaws V}.
Abbreviation Collector := (MetricsCollector V).
Implicit Types (c : Collector) (k : SeriesKey).

Lemma orphaned_spec live k :
  orphaned live k = true <->
  forall l, is_Some (live !! l) -> shares_memory_series_with l k = false.
Proof.
  unfold orphaned. rewrite negb_true_iff. split.
  - intros He l [x Hl]. destruct (shares_memory_series_with l k) eqn:Hs; [|done].
    rewrite <- He. symmetry. apply existsb_exists. exists l. split; [|done].
    apply list_elem_of_In, list_elem_of_fmap. exists (l, x).
    by rewrite elem_of_map_to_list.
  - intros Hall. destruct (existsb _ _) eqn:He; [|done].
    apply existsb_exists in He as (l & Hl & Hs). apply list_elem_of_In in Hl.
    apply list_elem_of_fmap in Hl as ([l' x] & -> & Hl%elem_of_map_to_list).
    simpl in *. by rewrite Hall in Hs.
Qed.

(** The pod of [k] was reported deleted and its grace has passed. *)
Definition pod_due (now : N) c k : Prop :=
  exists t, deleted_after c !! (k_namespace k, k_pod k) = Some t /\ t <= now.

(** What makes [evict_stale] drop the entry of [k] last seen at [seen]. *)
Definition stale (now ttl : N) c k (seen : N) : Prop :=
  ttl <= now - seen \/ pod_due now c k.

Definition due_pods (now : N) c : list (str * str) :=
  (retain (fun _ removable_at => now <? removable_at) (deleted_after c)).2.

Lemma keep_series_false now ttl c k seen :
  keep_series (due_pods now c) now ttl k seen = false <-> stale now ttl c k seen.
Proof.
  unfold keep_series, stale, pod_due. rewrite negb_false_iff, orb_true_iff.
  unfold saturating_sub. rewrite N.leb_le. apply or_iff_compat_l.
  rewrite existsb_exists. split.
  - intros ([ns pod] & Hin & Hp). apply andb_true_iff in Hp as [<-%bool_decide_eq_true <-%bool_decide_eq_true].
    apply list_elem_of_In in Hin. apply retain_dropped in Hin as (t & Ht & Hle).
    exists t. split; [done|bool_lia].
  - intros (t & Ht & Hle). exists (k_namespace k, k_pod k). split.
    + apply list_elem_of_In, retain_dropped. exists t. split; [done|bool_lia].
    + by rewrite !bool_decide_eq_true_2.
Qed.

Definition live_keys (now ttl : N) c : gmap SeriesKey N :=
  (retain (keep_series (due_pods now c) now ttl) (last_seen c)).1.
Definition stale_keys (now ttl : N) c : list SeriesKey :=
  (retain (keep_series (due_pods now c) now ttl) (last_seen c)).2.

Lemma evict_stale_unfold now ttl c :
  evict_stale now ttl c
  = (length (stale_keys now ttl c),
     remove_all (live_keys now ttl c) (stale_keys now ttl c)
       (upd_last_seen (fun _ => live_keys now ttl c)
          (upd_deleted (fun _ => (retain (fun _ r => now <? r) (deleted_after c)).1) c))).
Proof. done. Qed.

Lemma elem_of_stale_keys now ttl c k :
  k ∈ stale_keys now ttl c <->
  exists seen, last_seen c !! k = Some seen /\ stale now ttl c k seen.
Proof. unfold stale_keys. rewrite retain_dropped. by setoid_rewrite keep_series_false. Qed.

Lemma lookup_live_keys now ttl c k seen :
  live_keys now ttl c !! k = Some seen <->
  last_seen c !! k = Some seen /\ ~ stale now ttl c k seen.
Proof.
  unfold live_keys. rewrite retain_kept. destruct (last_seen c !! k) as [x|]; [|by split; [|intros [? _]]].
  split.
  - destruct (keep_series _ _ _ _ x) eqn:E; [|done]. intros [= <-]. split; [done|].
    rewrite <- keep_series_false. congruence.
  - intros [[= <-] Hn]. rewrite <- keep_series_false in Hn.
    by destruct (keep_series _ _ _ _ x).
Qed.

(** ** Removing a list of keys *)

Lemma wf_remove_all live l c : wf_collector c -> wf_collector (remove_all live l c).
Proof.
  revert c. unfold remove_all. induction l as [|k l IH]; intros c Hc; simpl; [done|].
  by apply IH, wf_remove_series.
Qed.

Lemma same_rest_trans c1 c2 c3 : same_rest c1 c2 -> same_rest c2 c3 -> same_rest c1 c3.
Proof.
  intros (? & ? & ? & ? & ? & ?) (? & ? & ? & ? & ? & ?). repeat split; by etrans.
Qed.

Lemma remove_all_rest live l c : same_rest c (remove_all live l c).
Proof.
  revert c. unfold remove_all. induction l as [|k l IH]; intros c; simpl; [done|].
  eapply same_rest_trans; [apply remove_series_rest|apply IH].
Qed.

Lemma kills_remove_all live l c k :
  wf_collector c ->
  kills (remove_all live l c) k = if decide (k ∈ l) then None else kills c k.
Proof.
  revert c. unfold remove_all. induction l as [|j l IH]; intros c Hc; cbn [foldl].
  { by rewrite decide_False by apply not_elem_of_nil. }
  rewrite IH, kills_remove_series by (by try apply wf_remove_series).
  repeat case_decide; rewrite ?elem_of_cons in *; naive_solver.
Qed.

Lemma stamp_remove_all live l c k :
  wf_collector c ->
  stamp (remove_all live l c) k = if decide (k ∈ l) then None else stamp c k.
Proof.
  revert c. unfold remove_all. induction l as [|j l IH]; intros c Hc; cbn [foldl].
  { by rewrite decide_False by apply not_elem_of_nil. }
  rewrite IH, stamp_remove_series by (by try apply wf_remove_series).
  repeat case_decide; rewrite ?elem_of_cons in *; naive_solver.
Qed.

(** A removed key takes the shared memory series only when nothing live names it. *)
Definition takes_memory live k j : bool := orphaned live j && shares_memory_series_with j k.

Lemma memory_remove_all live l c k mt :
  wf_collector c -> mt ∈ MEMORY_TYPES ->
  memory (remove_all live l c) k mt
  = if existsb (takes_memory live k) l then None else memory c k mt.
Proof.
  intros Hc Hmt. revert c Hc. unfold remove_all.
  induction l as [|j l IH]; intros c Hc; simpl; [done|].
  rewrite IH, memory_remove_series by (by try apply wf_remove_series).
  unfold takes_memory at 2. by destruct (orphaned live j && _), (existsb _ l).
Qed.

Lemma evicted_remove_all live l c n :
  wf_collector c ->
  evicted (remove_all live l c) n
  = match filter (fun k => k_node k = n) l with
    | [] => evicted c n
    | _ :: _ =>
        Some (f64_count (default 0 (evicted c n)) (length (filter (fun k => k_node k = n) l)))
    end.
Proof.
  revert c. unfold remove_all. induction l as [|j l IH]; intros c Hc; simpl; [done|].
  rewrite IH, evicted_remove_series by (by try apply wf_remove_series).
  rewrite filter_cons. destruct (decide (k_node j = n)); [|done]. simpl.
  destruct (filter _ l) as [|x l']; [done|]. simpl default.
  change (f64_add (default 0 (evicted c n)) 1) with (f64_count (default 0 (evicted c n)) 1).
  by rewrite f64_count_add, Nat.add_1_r.
Qed.

(** ** The state after a sweep *)

Abbreviation swept now ttl c := (evict_stale now ttl c).2.

Lemma wf_upd_last_seen f c : wf_collector c -> wf_collector (upd_last_seen f c).
Proof. intros []. by split. Qed.
Lemma wf_upd_deleted f c : wf_collector c -> wf_collector (upd_deleted f c).
Proof. intros []. by split. Qed.

Lemma wf_evict_stale now ttl c : wf_collector c -> wf_collector (swept now ttl c).
Proof.
  intros. rewrite evict_stale_unfold. by apply wf_remove_all, wf_upd_last_seen, wf_upd_deleted.
Qed.

Lemma swept_last_seen now ttl c : last_seen (swept now ttl c) = live_keys now ttl c.
Proof.
  rewrite evict_stale_unfold.
  by destruct (remove_all_rest (live_keys now ttl c) (stale_keys now ttl c)
    (upd_last_seen (fun _ => live_keys now ttl c) (upd_deleted
       (fun _ => (retain (fun _ r => now <? r) (deleted_after c)).1) c)))
    as (_ & _ & _ & _ & Hls & _).
Qed.

Lemma swept_deleted now ttl c :
  deleted_after (swept now ttl c) = (retain (fun _ r => now <? r) (deleted_after c)).1.
Proof.
  rewrite evict_stale_unfold.
  by destruct (remove_all_rest (live_keys now ttl c) (stale_keys now ttl c)
    (upd_last_seen (fun _ => live_keys now ttl c) (upd_deleted
       (fun _ => (retain (fun _ r => now <? r) (deleted_after c)).1) c)))
    as (_ & _ & _ & _ & _ & Hd).
Qed.

Lemma swept_kills now ttl c k :
  wf_collector c ->
  kills (swept now ttl c) k = if decide (k ∈ stale_keys now ttl c) then None else kills c k.
Proof.
  intros. rewrite evict_stale_unfold. simpl.
  by rewrite kills_remove_all by (by apply wf_upd_last_seen, wf_upd_deleted).
Qed.

Lemma swept_stamp now ttl c k :
  wf_collector c ->
  stamp (swept now ttl c) k = if decide (k ∈ stale_keys now ttl c) then None else stamp c k.
Proof.
  intros. rewrite evict_stale_unfold. simpl.
  by rewrite stamp_remove_all by (by apply wf_upd_last_seen, wf_upd_deleted).
Qed.

Lemma swept_memory now ttl c k mt :
  wf_collector c -> mt ∈ MEMORY_TYPES ->
  memory (swept now ttl c) k mt
  = if existsb (takes_memory (live_keys now ttl c) k) (stale_keys now ttl c) then None
    else memory c k mt.
Proof.
  intros. rewrite evict_stale_unfold. simpl.
  by rewrite memory_remove_all by (done || by apply wf_upd_last_seen, wf_upd_deleted).
Qed.

(** ** The tracking invariant *)

(** The exported per-container series are exactly those the bookkeeping knows: each key of
    [last_seen] has its counter and timestamp, and a memory gauge exists exactly while
    some tracked restart names its container. *)
Record tracked c : Prop := {
  tr_wf : wf_collector c;
  tr_kills : forall k, is_Some (kills c k) <-> is_Some (last_seen c !! k);
  tr_stamp : forall k, is_Some (stamp c k) <-> is_Some (last_seen c !! k);
  tr_memory : forall k mt, mt ∈ MEMORY_TYPES ->
    (is_Some (memory c k mt) <->
     exists k', is_Some (last_seen c !! k') /\ shares_memory_series_with k' k = true);
}.

Lemma tracked_new : tracked collector_new.
Proof.
  split; [apply wf_collector_new|..]; unfold kills, stamp, memory; intros; simpl;
    rewrite mv_new_value, ?lookup_empty; [done..|].
  split; [by intros []|]. intros (k' & [x Hx] & _). by rewrite lookup_empty in Hx.
Qed.

Lemma tracked_record e c : tracked c -> tracked (collector_record_oom_event e c).
Proof.
  intros [Hwf Hk Hs Hm]. split; [by apply wf_record_event|..]; intros.
  - rewrite kills_record, record_event_last_seen, lookup_insert by done.
    case_decide; [by split; eauto|apply Hk].
  - rewrite stamp_record, record_event_last_seen, lookup_insert by done.
    case_decide; [by split; eauto|apply Hs].
  - rewrite memory_record by done. setoid_rewrite record_event_last_seen.
    setoid_rewrite lookup_insert.
    destruct (shares_memory_series_with (key_of_event e) k) eqn:E.
    + split; [intros _|by eauto]. exists (key_of_event e).
      by rewrite decide_True by done.
    + rewrite Hm by done. split; intros (k' & Hk' & Hs'); exists k'.
      * by rewrite decide_False by congruence.
      * by rewrite decide_False in Hk' by congruence.
Qed.

(** A stale key takes the shared gauge only when no live key names the container. *)
Lemma takes_memory_iff now ttl c k :
  (exists k', is_Some (last_seen c !! k') /\ shares_memory_series_with k' k = true) ->
  (existsb (takes_memory (live_keys now ttl c) k) (stale_keys now ttl c) = false <->
   exists k', is_Some (live_keys now ttl c !! k') /\ shares_memory_series_with k' k = true).
Proof.
  intros (k' & [seen Hk'] & Hs). split.
  - intros He. destruct (live_keys now ttl c !! k') eqn:El; [by eauto|].
    assert (k' ∈ stale_keys now ttl c) as Hst.
    { unfold live_keys in El. rewrite retain_kept, Hk' in El. apply retain_dropped.
      exists seen. split; [done|]. by destruct (keep_series _ _ _ _ seen). }
    destruct (orphaned (live_keys now ttl c) k') eqn:Eo.
    + assert (existsb (takes_memory (live_keys now ttl c) k) (stale_keys now ttl c) = true);
        [|congruence].
      apply existsb_exists. exists k'. split; [by apply list_elem_of_In|].
      unfold takes_memory. by rewrite Eo, Hs.
    + unfold orphaned in Eo. apply negb_false_iff, existsb_exists in Eo as (l & Hl & Hlk).
      apply list_elem_of_In, list_elem_of_fmap in Hl as ([l' x] & -> & Hl%elem_of_map_to_list).
      exists l'. split; [by eauto|]. by eapply shares_trans.
  - intros (l & Hl & Hlk). apply not_true_is_false. intros He.
    apply existsb_exists in He as (j & _ & Ht). unfold takes_memory in Ht.
    apply andb_true_iff in Ht as [Ho Hjk]. rewrite orphaned_spec in Ho.
    specialize (Ho l Hl). rewrite shares_sym in Hjk.
    by rewrite (shares_trans _ _ _ Hlk Hjk) in Ho.
Qed.

Lemma live_or_stale now ttl c k :
  is_Some (last_seen c !! k) ->
  (k ∈ stale_keys now ttl c /\ live_keys now ttl c !! k = None) \/
  (k ∉ stale_keys now ttl c /\ live_keys now ttl c !! k = last_seen c !! k).
Proof.
  intros [seen Hs]. unfold stale_keys, live_keys. rewrite retain_dropped, retain_kept, Hs.
  destruct (keep_series _ _ _ _ seen) eqn:E; [right|left]; (split; [|done]); [|by eauto].
  intros (x & [= <-] & Hx). congruence.
Qed.

Lemma swept_present {A} now ttl c k (o : option A) :
  (is_Some o <-> is_Some (last_seen c !! k)) ->
  (is_Some (if decide (k ∈ stale_keys now ttl c) then None else o) <->
   is_Some (live_keys now ttl c !! k)).
Proof.
  intros Ho. case_decide as Hk.
  - apply elem_of_stale_keys in Hk as (seen & Hs & Hst).
    destruct (live_or_stale now ttl c k) as [[_ ->]|[Hn _]]; [by eauto|by split; intros []|].
    destruct Hn. apply elem_of_stale_keys. eauto.
  - rewrite Ho. split.
    + intros Hs. by destruct (live_or_stale now ttl c k Hs) as [[? _]|[_ ->]].
    + intros [x Hx]. apply lookup_live_keys in Hx as [Hx _]. eauto.
Qed.

Lemma tracked_evict now ttl c : tracked c -> tracked (swept now ttl c).
Proof.
  intros [Hwf Hk Hs Hm]. split; [by apply wf_evict_stale|..]; intros.
  - rewrite swept_kills, swept_last_seen by done. by apply swept_present.
  - rewrite swept_stamp, swept_last_seen by done. by apply swept_present.
  - rewrite swept_memory, swept_last_seen by done.
    destruct (existsb _ _) eqn:E.
    + split; [by intros []|]. intros Hl. assert (existsb (takes_memory (live_keys now ttl c) k)
        (stale_keys now ttl c) = false); [|congruence].
      apply takes_memory_iff; [|done]. destruct Hl as (l & [x Hl] & Hlk).
      apply lookup_live_keys in Hl as [Hl _]. eauto.
    + rewrite Hm by done. split.
      * intros Hex. by apply takes_memory_iff in E.
      * intros (l & [x Hl] & Hlk). apply lookup_live_keys in Hl as [Hl _]. eauto.
Qed.

Lemma tracked_ext c c' :
  oom_kills_total c' = oom_kills_total c ->
  oom_last_timestamp c' = oom_last_timestamp c ->
  oom_memory_usage_bytes c' = oom_memory_usage_bytes c -> last_seen c' = last_seen c ->
  wf_collector c' -> tracked c -> tracked c'.
Proof.
  intros Hk Ht Hm Hl Hwf []. split; [done|..]; unfold kills, stamp, memory in *;
    rewrite ?Hk, ?Ht, ?Hm, ?Hl; done.
Qed.

Lemma wf_record_outcome node o c :
  wf_collector c -> wf_collector (collector_record_resolution_outcome node o c).
Proof. intros []. destruct o; split; simpl; rewrite ?mv_inc_arity; done. Qed.

Lemma wf_record_dropped node t c :
  wf_collector c -> wf_collector (collector_record_dropped_total node t c).
Proof.
  intros []. unfold collector_record_dropped_total.
  destruct (checked_sub t _) as [d|]; [destruct (0 <? d)|]; split; simpl;
    rewrite ?mv_inc_by_arity; done.
Qed.

(** Every operation the program performs on a collector. *)
Inductive Op :=
| OpOutcome (node : str) (o : ResolutionOutcome)
| OpEvent (e : EnrichedOomEvent)
| OpDropped (node : str) (total : N)
| OpPodDeleted (ns pod : str) (now : N)
| OpSweep (now ttl : N).

Definition run_op c (op : Op) : Collector :=
  match op with
  | OpOutcome node o => record_resolution_outcome node o c
  | OpEvent e => record_oom_event e c
  | OpDropped node total => record_dropped_total node total c
  | OpPodDeleted ns pod now => note_pod_deleted ns pod now c
  | OpSweep now ttl => swept now ttl c
  end.

Definition run_ops : list Op -> Collector -> Collector := flip (foldl run_op).

Lemma tracked_op op c : tracked c -> tracked (run_op c op).
Proof.
  intros Ht. pose proof (tr_wf _ Ht) as Hwf. destruct op; simpl.
  - apply (tracked_ext c); try done; [by destruct o..|by apply wf_record_outcome].
  - by apply tracked_record.
  - apply (tracked_ext c); try done; [..|by apply wf_record_dropped];
      unfold collector_record_dropped_total;
      destruct (checked_sub total _) as [d|]; try done; by destruct (0 <? d).
  - apply (tracked_ext c); try done. by apply wf_upd_deleted.
  - by apply tracked_evict.
Qed.

Lemma tracked_ops ops c : tracked c -> tracked (run_ops ops c).
Proof.
  unfold run_ops. simpl. revert c. induction ops as [|op ops IH]; intros c Hc; [done|].
  simpl. by apply IH, tracked_op.
Qed.
End sweep.

(** ** Observational equality of collectors *)

Section order.
Context {V : Type} `{MetricVecLaws V}.
Abbreviation Collector := (MetricsCollector V).
Implicit Types (c : Collector) (k : SeriesKey).

(** Collectors no scrape and no later operation can tell apart. *)
Record collector_equiv c c' : Prop := {
  eq_kills : mv_equiv (oom_kills_total c) (oom_kills_total c');
  eq_per_node : mv_equiv (oom_kills_per_node_total c) (oom_kills_per_node_total c');
  eq_memory : mv_equiv (oom_memory_usage_bytes c) (oom_memory_usage_bytes c');
  eq_timestamp : mv_equiv (oom_last_timestamp c) (oom_last_timestamp c');
  eq_failures :
    mv_equiv (oom_resolution_failures_total c) (oom_resolution_failures_total c');
  eq_dropped : mv_equiv (oom_events_dropped_total c) (oom_events_dropped_total c');
  eq_evicted : mv_equiv (oom_series_evicted_total c) (oom_series_evicted_total c');
  eq_last_dropped : last_dropped_total c = last_dropped_total c';
  eq_last_seen : last_seen c = last_seen c';
  eq_deleted : deleted_after c = deleted_after c';
}.

#[global] Instance collector_equiv_equivalence : Equivalence collector_equiv.
Proof.
  split.
  - intros c. by split.
  - intros c c' []. by split; symmetry.
  - intros c1 c2 c3 [] []. by split; etrans.
Qed.

Lemma delete_memory_proper k (v w : V) :
  mv_arity v = 5%nat -> mv_equiv v w -> mv_equiv (delete_memory k v) (delete_memory k w).
Proof.
  intros Hl [Ha Hv]. split; [by rewrite !delete_memory_arity|]. intros ls.
  rewrite !delete_memory_value by congruence. by rewrite Hv.
Qed.

Lemma delete_memory_comm k1 k2 (v : V) :
  mv_arity v = 5%nat ->
  mv_equiv (delete_memory k1 (delete_memory k2 v)) (delete_memory k2 (delete_memory k1 v)).
Proof.
  intros Hl. split; [by rewrite !delete_memory_arity|]. intros ls.
  rewrite !delete_memory_value by (by rewrite ?delete_memory_arity). by repeat case_decide.
Qed.

Lemma remove_series_fields k b c :
  oom_kills_per_node_total (remove_series k b c) = oom_kills_per_node_total c /\
  oom_resolution_failures_total (remove_series k b c) = oom_resolution_failures_total c /\
  oom_events_dropped_total (remove_series k b c) = oom_events_dropped_total c /\
  last_dropped_total (remove_series k b c) = last_dropped_total c /\
  last_seen (remove_series k b c) = last_seen c /\
  deleted_after (remove_series k b c) = deleted_after c.
Proof. apply remove_series_rest. Qed.

Ltac series_fields :=
  split; rewrite ?remove_series_kills, ?remove_series_memory, ?remove_series_timestamp,
    ?remove_series_evicted;
  repeat match goal with
  | |- context [oom_kills_per_node_total (remove_series ?k ?b ?c)] =>
      rewrite (proj1 (remove_series_fields k b c))
  | |- context [oom_resolution_failures_total (remove_series ?k ?b ?c)] =>
      rewrite (proj1 (proj2 (remove_series_fields k b c)))
  | |- context [oom_events_dropped_total (remove_series ?k ?b ?c)] =>
      rewrite (proj1 (proj2 (proj2 (remove_series_fields k b c))))
  | |- context [last_dropped_total (remove_series ?k ?b ?c)] =>
      rewrite (proj1 (proj2 (proj2 (proj2 (remove_series_fields k b c)))))
  | |- context [last_seen (remove_series ?k ?b ?c)] =>
      rewrite (proj1 (proj2 (proj2 (proj2 (proj2 (remove_series_fields k b c))))))
  | |- context [deleted_after (remove_series ?k ?b ?c)] =>
      rewrite (proj2 (proj2 (proj2 (proj2 (proj2 (remove_series_fields k b c))))))
  end; try done.

Lemma remove_series_proper k b c c' :
  wf_collector c -> collector_equiv c c' ->
  collector_equiv (remove_series k b c) (remove_series k b c').
Proof.
  intros [] []. series_fields.
  - by apply mv_delete_proper.
  - destruct b; [by apply delete_memory_proper|done].
  - by apply mv_delete_proper.
  - by apply mv_inc_proper.
Qed.

Lemma remove_series_comm k1 b1 k2 b2 c :
  wf_collector c ->
  collector_equiv (remove_series k1 b1 (remove_series k2 b2 c))
                  (remove_series k2 b2 (remove_series k1 b1 c)).
Proof.
  intros []. series_fields.
  - by apply mv_delete_comm.
  - destruct b1, b2; try done. by apply delete_memory_comm.
  - by apply mv_delete_comm.
  - by apply mv_inc_comm.
Qed.

Lemma remove_all_proper live l c c' :
  wf_collector c -> wf_collector c' -> collector_equiv c c' ->
  collector_equiv (remove_all live l c) (remove_all live l c').
Proof.
  unfold remove_all. revert c c'. induction l as [|k l IH]; intros c c' Hc Hc' He; [done|].
  simpl. apply IH; [by apply wf_remove_series..|by apply remove_series_proper].
Qed.

Lemma remove_all_perm live l1 l2 c :
  l1 ≡ₚ l2 -> wf_collector c -> collector_equiv (remove_all live l1 c) (remove_all live l2 c).
Proof.
  intros Hp. revert c. induction Hp as [|k l1 l2 Hp IH|k1 k2 l|l1 l2 l3 _ IH1 _ IH2]; intros c Hc.
  - done.
  - unfold remove_all in *. simpl. by apply IH, wf_remove_series.
  - change (collector_equiv
      (remove_all live l (remove_series k1 (orphaned live k1) (remove_series k2 (orphaned live k2) c)))
      (remove_all live l (remove_series k2 (orphaned live k2) (remove_series k1 (orphaned live k1) c)))).
    apply remove_all_proper; [by repeat apply wf_remove_series..|by apply remove_series_comm].
  - etrans; [by apply IH1|by apply IH2].
Qed.
End order.
