(* ===== verification/Sweep.v ===== *)
(** * Sweep: what a sweep guarantees

    The contract of [evict_stale] and [note_pod_deleted] ([oom-watcher/src/metrics.rs]),
    proved against the interface of the metrics library and instantiated at the finite-map
    implementation of it. *)
From S2P Require Import Prelude Text Float64 Io Common Resolve Seams Prometheus Metrics Eviction.

Section sweep_lemmas.
Context {V : Type} `{MetricVecLaws V}.
Abbreviation Collector := (MetricsCollector V).
Implicit Types (c : Collector) (k : SeriesKey).

Lemma stale_keys_iff now ttl c k seen :
  last_seen c !! k = Some seen -> k ∈ stale_keys now ttl c <-> stale now ttl c k seen.
Proof.
  intros Hs. rewrite elem_of_stale_keys. rewrite Hs. split; [|by eauto].
  by intros (x & [= <-] & ?).
Qed.

(** A series no sweep condition holds of keeps everything. *)
Lemma swept_fresh now ttl c k seen :
  tracked c -> last_seen c !! k = Some seen -> ~ stale now ttl c k seen ->
  let c' := (evict_stale now ttl c).2 in
  last_seen c' !! k = Some seen /\ kills c' k = kills c k /\ stamp c' k = stamp c k.
Proof.
  intros Ht Hs Hf. pose proof (tr_wf _ Ht). cbv zeta. split_and!.
  - rewrite swept_last_seen. by apply lookup_live_keys.
  - rewrite swept_kills, decide_False by (by rewrite ?stale_keys_iff). done.
  - rewrite swept_stamp, decide_False by (by rewrite ?stale_keys_iff). done.
Qed.

(** A series a sweep condition holds of loses everything that carries its ids. *)
Lemma swept_stale now ttl c k seen :
  tracked c -> last_seen c !! k = Some seen -> stale now ttl c k seen ->
  let c' := (evict_stale now ttl c).2 in
  last_seen c' !! k = None /\ kills c' k = None /\ stamp c' k = None.
Proof.
  intros Ht Hs Hf. pose proof (tr_wf _ Ht). cbv zeta. split_and!.
  - rewrite swept_last_seen. destruct (live_keys now ttl c !! k) as [x|] eqn:E; [|done].
    apply lookup_live_keys in E as [Hx Hn]. naive_solver.
  - rewrite swept_kills, decide_True by (by rewrite ?stale_keys_iff). done.
  - rewrite swept_stamp, decide_True by (by rewrite ?stale_keys_iff). done.
Qed.

Lemma note_deleted ns pod t0 c :
  deleted_after (note_pod_deleted ns pod t0 c)
  = <[(ns, pod) := saturating_add t0 DELETED_POD_GRACE_SECONDS]> (deleted_after c).
Proof. done. Qed.


(** The pending deletions through one operation. *)
Lemma deleted_after_op op c :
  deleted_after (run_op c op)
  = match op with
    | OpPodDeleted ns pod now =>
        <[(ns, pod) := saturating_add now DELETED_POD_GRACE_SECONDS]> (deleted_after c)
    | OpSweep now _ => (retain (fun _ removable_at => now <? removable_at) (deleted_after c)).1
    | _ => deleted_after c
    end.
Proof.
  destruct op as [node o|e|node t|ns pod now|now ttl]; cbn [run_op]; try done.
  - by destruct o.
  - cbn [record_dropped_total MetricsCollector_MetricsRecorder].
    unfold collector_record_dropped_total.
    by destruct (checked_sub t _) as [d|]; [destruct (0 <? d)|].
  - apply swept_deleted.
Qed.

(** No sweep of [mid] comes at [deadline] or later, and [mid] does not report [pod] again. *)
Definition before_deadline (deadline : N) (pod : str * str) (mid : list Op) : Prop :=
  Forall (fun op => match op with
                    | OpSweep now _ => now < deadline
                    | OpPodDeleted ns name _ => (ns, name) <> pod
                    | _ => True
                    end) mid.

(** A pending deletion survives everything but a sweep that is due and a new report. *)
Lemma deadline_stays deadline pod mid c :
  before_deadline deadline pod mid -> deleted_after c !! pod = Some deadline ->
  deleted_after (run_ops mid c) !! pod = Some deadline.
Proof.
  unfold run_ops, flip. intros Hm. revert c. induction Hm as [|op mid Hop _ IH]; intros c Hc; [done|].
  apply IH. rewrite deleted_after_op. destruct op as [node o|e|node t|ns name now|now ttl]; try done.
  - by rewrite lookup_insert_ne.
  - rewrite retain_kept, Hc. by rewrite (proj2 (N.ltb_lt _ _)).
Qed.
End sweep_lemmas.

(** A kill of container [n] of one pod, for the concrete runs below. *)
Definition sample_kill (n : N) (at_secs : N) : EnrichedOomEvent :=
  enrich {| pid := 4242; comm := []; total_vm := 2048; anon_rss := 1024; file_rss := 8;
            shmem_rss := 0; uid := 0; pgtables := 4; oom_score_adj := 900 |}
    (Some (lit "node-1"))
    (Some {| namespace := lit "default"; pod_name := lit "app-0"; container_name := lit "app";
             container_id := show_N n; image_id := lit "sha256:aa" |}) at_secs.

Abbreviation mapped_new := (collector_new : MetricsCollector MapVec).

Section properties.
Context {V : Type} `{MetricVecLaws V}.
Abbreviation Collector := (MetricsCollector V).

(** C2: series and bookkeeping never diverge: from startup, after any sequence of
    recordings, deletion reports and sweeps, the kill counter and the timestamp of a label
    set exist exactly when [last_seen] tracks that label set, and a memory gauge exists
    exactly while some tracked restart names its container. So nothing is left exported
    for ever, and nothing is tracked with no series behind it. *)
Theorem series_and_bookkeeping_agree (ops : list Op) (k : SeriesKey) :
  let c : Collector := run_ops ops collector_new in
  (is_Some (kills c k) <-> is_Some (last_seen c !! k)) /\
  (is_Some (stamp c k) <-> is_Some (last_seen c !! k)) /\
  (forall mt, mt ∈ MEMORY_TYPES ->
    (is_Some (memory c k mt) <->
     exists k', is_Some (last_seen c !! k') /\ shares_memory_series_with k' k = true)).
Proof.
  intros c. assert (tracked c) as [] by apply tracked_ops, tracked_new. split_and!; auto.
Qed.

(** C3: what one sweep does to each label set of a reachable collector. It drops exactly
    the label sets last seen at least [ttl] seconds ago or whose pod was reported deleted
    and is past its grace, with their counter and timestamp; every other label set keeps
    its count, its timestamp and its age; and the number returned is how many went. *)
Theorem evict_stale_drops_exactly_the_stale (ops : list Op) (now ttl : N) :
  let c : Collector := run_ops ops collector_new in
  let '(n, c') := evict_stale now ttl c in
  size (last_seen c) = (n + size (last_seen c'))%nat /\
  forall k seen, last_seen c !! k = Some seen ->
    (ttl <= now - seen \/
     (exists t, deleted_after c !! (k_namespace k, k_pod k) = Some t /\ t <= now) ->
     last_seen c' !! k = None /\ kills c' k = None /\ stamp c' k = None) /\
    (now - seen < ttl ->
     (forall t, deleted_after c !! (k_namespace k, k_pod k) = Some t -> now < t) ->
     last_seen c' !! k = Some seen /\ kills c' k = kills c k /\ stamp c' k = stamp c k).
Proof.
  intros c. assert (tracked c) as Ht by apply tracked_ops, tracked_new.
  rewrite (surjective_pairing (evict_stale now ttl c)). split.
  - rewrite swept_last_seen, evict_stale_unfold. cbn [fst].
    rewrite Nat.add_comm. apply (retain_size (keep_series (due_pods now c) now ttl)).
  - intros k seen Hs. split; [intros Hst|intros Hage Hdel].
    + by apply (swept_stale now ttl c k seen).
    + apply (swept_fresh now ttl c k seen); [done..|]. intros [?|(t & Ht' & ?)]; [lia|].
      apply Hdel in Ht'. lia.
Qed.

(** C24: the orphan gate on the shared memory gauges: a sweep keeps the peak of a
    container as long as one of its restarts is still tracked afterwards, and drops it as
    soon as none is. *)
Theorem memory_gauge_follows_the_last_restart (ops : list Op) (now ttl : N)
    (k : SeriesKey) (mt : str) :
  mt ∈ MEMORY_TYPES ->
  let c : Collector := run_ops ops collector_new in
  let c' := (evict_stale now ttl c).2 in
  ((exists k', is_Some (last_seen c' !! k') /\ shares_memory_series_with k' k = true) ->
   memory c' k mt = memory c k mt) /\
  ((forall k', is_Some (last_seen c' !! k') -> shares_memory_series_with k' k = false) ->
   memory c' k mt = None).
Proof.
  intros Hmt c c'. assert (tracked c) as Ht by apply tracked_ops, tracked_new.
  assert (tracked c') as Ht' by (by apply tracked_evict). split.
  - intros Hl. unfold c'. rewrite swept_memory by (done || apply tr_wf, Ht).
    unfold c' in Hl. rewrite swept_last_seen in Hl.
    assert (exists k', is_Some (last_seen c !! k') /\ shares_memory_series_with k' k = true)
      as Hex.
    { destruct Hl as (l & [x Hl] & ?). apply lookup_live_keys in Hl as [Hl _]. eauto. }
    by rewrite (proj2 (takes_memory_iff now ttl c k Hex) Hl).
  - intros Hn. apply eq_None_not_Some. rewrite (tr_memory _ Ht') by done.
    intros (k' & Hk' & Hs). by rewrite Hn in Hs.
Qed.

(** C25: a sweep bounds both maps and the exposition: every label set still exported was
    killed less than [ttl] seconds ago and its pod is not past its grace, and every
    deletion report still held is for the future, whether or not its pod ever had a
    series. *)
Theorem sweep_bounds_cardinality (ops : list Op) (now ttl : N) :
  let c' : Collector := (evict_stale now ttl (run_ops ops collector_new)).2 in
  (forall k, is_Some (kills c' k) ->
     exists seen, last_seen c' !! k = Some seen /\ now - seen < ttl) /\
  (forall pod t, deleted_after c' !! pod = Some t -> now < t) /\
  (forall k t, is_Some (kills c' k) ->
     deleted_after (run_ops ops (collector_new : Collector)) !! (k_namespace k, k_pod k)
       = Some t -> now < t).
Proof.
  set (c := run_ops ops collector_new).
  assert (tracked c) as Ht by apply tracked_ops, tracked_new.
  assert (tracked (evict_stale now ttl c).2) as Ht' by (by apply tracked_evict).
  assert (forall k, is_Some (kills (evict_stale now ttl c).2 k) ->
    exists seen, live_keys now ttl c !! k = Some seen) as Hlive.
  { intros k. rewrite (tr_kills _ Ht'), swept_last_seen. by intros [x Hx]; eauto. }
  split_and!.
  - intros k [seen Hs]%Hlive. exists seen. rewrite swept_last_seen. split; [done|].
    apply lookup_live_keys in Hs as [_ Hn]. unfold stale in Hn.
    apply N.lt_nge. intros ?. apply Hn. by left.
  - intros pod t. rewrite swept_deleted, retain_kept.
    destruct (deleted_after c !! pod) as [t'|]; [|done].
    destruct (now <? t') eqn:E; [|done]. intros [= <-]. bool_lia.
  - intros k t [seen Hs]%Hlive Hd. apply lookup_live_keys in Hs as [_ Hn].
    apply N.lt_nge. intros ?. apply Hn. right. by exists t.
Qed.

(** C26: the schedule of a deleted pod, over whatever follows the report. A pod reported
    deleted at [t0] and not reported again keeps a series as long as its last kill is younger
    than the time-to-live through every sweep before [t0 + 120] seconds, however many there
    are, so that a last scrape can collect it; the first sweep at or after that instant
    removes every label set of the pod, however long the time-to-live, and whatever was
    recorded and swept in between. *)
Theorem deleted_pod_goes_after_its_grace (ops mid : list Op) (ns pod : str) (t0 now ttl : N) :
  t0 + 120 < u64_bound -> before_deadline (t0 + 120) (ns, pod) mid ->
  let c : Collector := run_ops (ops ++ OpPodDeleted ns pod t0 :: mid) collector_new in
  let c' := (evict_stale now ttl c).2 in
  forall k, k_namespace k = ns -> k_pod k = pod ->
    (t0 + 120 <= now -> kills c' k = None /\ stamp c' k = None /\ last_seen c' !! k = None) /\
    (now < t0 + 120 -> forall seen, last_seen c !! k = Some seen -> now - seen < ttl ->
       last_seen c' !! k = Some seen /\ kills c' k = kills c k /\ stamp c' k = stamp c k).
Proof.
  intros Hb Hmid c c' k Hns Hpod. assert (tracked c) as Ht by apply tracked_ops, tracked_new.
  assert (tracked c') as Ht' by (by apply tracked_evict).
  assert (deleted_after c !! (k_namespace k, k_pod k) = Some (t0 + 120)) as Hdue.
  { rewrite Hns, Hpod. unfold c, run_ops, flip. rewrite foldl_app. cbn [foldl].
    apply (deadline_stays (t0 + 120)); [done|]. cbn [run_op].
    rewrite note_deleted, lookup_insert, decide_True by done. f_equal.
    by apply saturating_add_small. }
  split.
  - intros Hn. assert (last_seen c' !! k = None) as Hnone.
    { unfold c'. rewrite swept_last_seen. destruct (live_keys now ttl c !! k) eqn:E; [|done].
      apply lookup_live_keys in E as [_ []]. right. by eexists. }
    rewrite !eq_None_not_Some, (tr_kills _ Ht'), (tr_stamp _ Ht'), <- !eq_None_not_Some. done.
  - intros Hn seen Hs Hage. apply swept_fresh; [done..|].
    intros [?|(t & Hd & Hle)]; [lia|]. rewrite Hdue in Hd. simplify_eq. lia.
Qed.

(** C27: the order in which the hash maps are iterated cannot be observed: whatever order
    [retain] reports the due pods and the stale label sets in, the collector after the
    sweep is the same to every scrape and to every later operation. *)
Theorem sweep_order_is_unobservable (ops : list Op) (now ttl : N)
    (due : list (str * str)) (keys : list SeriesKey) :
  let c : Collector := run_ops ops collector_new in
  let '(pending, due_pods) := retain (fun _ removable_at => now <? removable_at)
                                (deleted_after c) in
  due ≡ₚ due_pods ->
  let '(live, stale) := retain (keep_series due now ttl) (last_seen c) in
  keys ≡ₚ stale ->
  collector_equiv
    (remove_all live keys (upd_last_seen (fun _ => live) (upd_deleted (fun _ => pending) c)))
    (evict_stale now ttl c).2.
Proof.
  intros c. rewrite evict_stale_unfold. cbv beta iota zeta delta [retain].
  intros Hdue Hkeys. cbn [snd].
  assert (forall k seen, keep_series due now ttl k seen
                         = keep_series (due_pods now c) now ttl k seen) as Hk.
  { intros k seen. unfold keep_series. f_equal. f_equal.
    apply eq_true_iff_eq. rewrite !existsb_exists. setoid_rewrite <- list_elem_of_In.
    by setoid_rewrite Hdue. }
  assert (filter (fun kv => keep_series due now ttl kv.1 kv.2 = true) (last_seen c)
          = live_keys now ttl c) as ->.
  { apply map_filter_ext. intros k seen _. simpl. by rewrite Hk. }
  apply remove_all_perm.
  - rewrite Hkeys. unfold stale_keys, retain. cbn [snd]. apply fmap_Permutation.
    assert (filter (fun kv => keep_series due now ttl kv.1 kv.2 = false) (last_seen c)
      = filter (fun kv => keep_series (due_pods now c) now ttl kv.1 kv.2 = false) (last_seen c))
      as ->; [|done].
    apply map_filter_ext. intros k seen _. simpl. by rewrite Hk.
  - apply wf_upd_last_seen, wf_upd_deleted, tr_wf, tracked_ops, tracked_new.
Qed.
End properties.

Section counting.
Context {V : Type} `{MetricVecLaws V}.
Abbreviation Collector := (MetricsCollector V).

(** [oom_series_evicted_total] counts exactly the label sets a sweep dropped, per
    node, and no node's counter appears or moves otherwise. *)
Theorem evictions_are_counted_per_node (ops : list Op) (now ttl : N) (n : str) :
  let c : Collector := run_ops ops collector_new in
  let c' := (evict_stale now ttl c).2 in
  let gone := filter (fun k => k_node k = n) (stale_keys now ttl c) in
  (forall k, k ∈ gone <-> is_Some (kills c k) /\ kills c' k = None /\ k_node k = n) /\
  NoDup gone /\
  evicted c' n = match gone with
                 | [] => evicted c n
                 | _ :: _ => Some (f64_count (default 0 (evicted c n)) (length gone))
                 end.
Proof.
  intros c c' gone. assert (tracked c) as Ht by apply tracked_ops, tracked_new.
  split_and!.
  - intros k. unfold gone. rewrite list_elem_of_filter, (tr_kills _ Ht). unfold c'.
    rewrite swept_kills by apply (tr_wf _ Ht). split.
    + intros [Hn Hk]. rewrite decide_True by done. split_and!; [|done..].
      apply elem_of_stale_keys in Hk as (seen & -> & _). by eexists.
    + intros (Hs & Hk & Hn). split; [done|]. case_decide; [done|].
      apply (tr_kills _ Ht) in Hs. rewrite Hk in Hs. by destruct Hs.
  - apply NoDup_filter, retain_NoDup.
  - unfold c', gone. rewrite evict_stale_unfold. cbn [snd].
    by rewrite evicted_remove_all by apply wf_upd_last_seen, wf_upd_deleted, (tr_wf _ Ht).
Qed.

End counting.

(** ** Concrete runs *)

(** Two restarts of one container, killed an hour apart. *)
Definition sample_ops : list Op := [OpEvent (sample_kill 1 1000); OpEvent (sample_kill 2 4600)].
Definition sample_key (n : N) : SeriesKey := key_of_event (sample_kill n 0).

Lemma series_and_bookkeeping_agree_witness :
  let c := run_ops sample_ops mapped_new in
  is_Some (last_seen c !! sample_key 1) /\ is_Some (kills c (sample_key 1)).
Proof.
  intros c. assert (is_Some (last_seen c !! sample_key 1)) as Hs by (vm_compute; by eexists).
  split; [done|].
  exact (proj2 (proj1 (series_and_bookkeeping_agree sample_ops (sample_key 1))) Hs).
Defined.

Lemma evict_stale_drops_exactly_the_stale_witness :
  let c := run_ops sample_ops mapped_new in
  kills (evict_stale 4700 3600 c).2 (sample_key 1) = None /\
  kills (evict_stale 4700 3600 c).2 (sample_key 2) = Some 1.
Proof.
  pose proof (evict_stale_drops_exactly_the_stale (V:=MapVec) sample_ops 4700 3600) as Hspec.
  cbv zeta in *. rewrite (surjective_pairing (evict_stale 4700 3600 _)) in Hspec.
  destruct Hspec as [_ Hspec]. split.
  - refine (proj1 (proj2 (proj1 (Hspec (sample_key 1) 1000 _) _))); [by vm_compute|].
    left. by vm_compute.
  - etrans; [refine (proj1 (proj2 (proj2 (Hspec (sample_key 2) 4600 _) _ _)))|]; try by vm_compute.
Defined.

Lemma memory_gauge_follows_the_last_restart_witness :
  let c := run_ops sample_ops mapped_new in
  memory (evict_stale 4700 3600 c).2 (sample_key 1) (lit "anon_rss") = Some 1048576.
Proof.
  intros c. etrans.
  - refine (proj1 (memory_gauge_follows_the_last_restart (V:=MapVec) sample_ops 4700 3600
      (sample_key 1) (lit "anon_rss") _) _).
    + right. left.
    + exists (sample_key 2). split; [vm_compute; by eexists|by vm_compute].
  - by vm_compute.
Defined.

Lemma sweep_bounds_cardinality_witness :
  let c' := (evict_stale 4700 3600 (run_ops sample_ops mapped_new)).2 in
  exists seen, last_seen c' !! sample_key 2 = Some seen /\ 4700 - seen < 3600.
Proof.
  intros c'. refine (proj1 (sweep_bounds_cardinality sample_ops 4700 3600) (sample_key 2) _).
  vm_compute. by eexists.
Defined.

(** Between the report and the deadline: a sweep that keeps the series, and a report of another
    pod. *)
Lemma deleted_pod_goes_after_its_grace_witness :
  let mid := [OpSweep 4700 3600; OpPodDeleted (lit "default") (lit "app-1") 4600] in
  let c := run_ops (sample_ops ++ OpPodDeleted (lit "default") (lit "app-0") 4650 :: mid) mapped_new in
  kills (evict_stale 4769 3600 c).2 (sample_key 2) = Some 1 /\
  kills (evict_stale 4770 3600 c).2 (sample_key 2) = None.
Proof.
  intros mid c. assert (before_deadline (4650 + 120) (lit "default", lit "app-0") mid) as Hmid
    by (by repeat constructor).
  split.
  - etrans; [refine (proj1 (proj2 (proj2 (deleted_pod_goes_after_its_grace (V:=MapVec) sample_ops mid
      (lit "default") (lit "app-0") 4650 4769 3600 _ Hmid (sample_key 2) _ _) _ 4600 _ _)))|];
      by vm_compute.
  - refine (proj1 (proj1 (deleted_pod_goes_after_its_grace (V:=MapVec) sample_ops mid
      (lit "default") (lit "app-0") 4650 4770 3600 _ Hmid (sample_key 2) _ _) _)); by vm_compute.
Defined.

Lemma sweep_order_is_unobservable_witness :
  let c := run_ops sample_ops mapped_new in
  let live := (retain (keep_series [] 9000 3600) (last_seen c)).1 in
  let stale := (retain (keep_series [] 9000 3600) (last_seen c)).2 in
  let pending := (retain (fun _ removable_at => 9000 <? removable_at) (deleted_after c)).1 in
  length stale = 2%nat /\
  collector_equiv
    (remove_all live (rev stale) (upd_last_seen (fun _ => live) (upd_deleted (fun _ => pending) c)))
    (evict_stale 9000 3600 c).2.
Proof.
  intros c live stale pending. split; [by vm_compute|].
  refine (sweep_order_is_unobservable (V:=MapVec) sample_ops 9000 3600 [] (rev stale) _ _).
  - by vm_compute.
  - symmetry. apply Permutation_rev.
Defined.

Lemma evictions_are_counted_per_node_witness :
  evicted (evict_stale 9000 3600 (run_ops sample_ops mapped_new)).2 (lit "node-1") = Some 2.
Proof.
  etrans; [apply (evictions_are_counted_per_node (V:=MapVec) sample_ops 9000 3600
    (lit "node-1"))|by vm_compute].
Defined.

