(* ===== verification/Recording.v ===== *)
(** * Recording: what the counters and gauges mean

    Properties of the [MetricsRecorder] implementation of [MetricsCollector]
    ([oom-watcher/src/metrics.rs]) over whole histories: every counter is tied to the number
    of calls that should have advanced it, and the memory gauges to the peak they promise. *)
From Stdlib Require Import Sorting.Sorted.
From S2P Require Import Prelude Text Float64 Io Common Resolve Seams Prometheus Metrics Eviction Sweep.

(** ** Projections of a history *)

Definition op_event (op : Op) : option EnrichedOomEvent :=
  match op with OpEvent e => Some e | _ => None end.
Definition op_outcome (op : Op) : option (str * ResolutionOutcome) :=
  match op with OpOutcome node o => Some (node, o) | _ => None end.
Definition is_sweep (op : Op) : bool := match op with OpSweep _ _ => true | _ => false end.

(** The events recorded by a history, in order. *)
Definition events_of : list Op -> list EnrichedOomEvent := omap op_event.

(** The value of a counter that was incremented once per element of [l]: absent until the
    first, and exact up to [2^53]. *)
Definition counted {A} (l : list A) : option N :=
  match l with [] => None | _ => Some (N.min (N.of_nat (length l)) (2 ^ 53)) end.

Lemma counted_snoc {A} (l : list A) x :
  counted (l ++ [x]) = Some (f64_add (default 0 (counted l)) 1).
Proof.
  assert (default 0 (counted l) = f64_count 0 (length l)) as ->.
  { destruct l; [done|]. unfold counted, default. by rewrite f64_count_exact. }
  rewrite <- f64_count_S, f64_count_exact. unfold counted. rewrite length_app, Nat.add_1_r.
  by destruct l.
Qed.

(** The kilobytes of an event for a memory type. *)
Definition kilobytes_of (mt : str) (e : EnrichedOomEvent) : N :=
  if decide (mt = lit "total_vm") then total_vm (raw_event e)
  else if decide (mt = lit "anon_rss") then anon_rss (raw_event e)
  else if decide (mt = lit "file_rss") then file_rss (raw_event e)
  else if decide (mt = lit "shmem_rss") then shmem_rss (raw_event e)
  else 0.

Lemma memory_figure_kb mt e :
  mt ∈ MEMORY_TYPES -> memory_figure e mt = f64_of_N (wrapping_mul (kilobytes_of mt e) 1024).
Proof.
  unfold MEMORY_TYPES. rewrite !elem_of_cons, elem_of_nil.
  by intros [->|[->|[->|[->|[]]]]].
Qed.

Definition max_N (l : list N) : N := foldr N.max 0 l.

Lemma max_N_snoc l x : max_N (l ++ [x]) = N.max (max_N l) x.
Proof. induction l as [|y l IH]; simpl; [lia|]. rewrite IH. lia. Qed.

(** The gauge of a peak: absent without events, else the largest figure in bytes. *)
Definition peak (mt : str) (es : list EnrichedOomEvent) : option N :=
  match es with
  | [] => None
  | _ => Some (f64_of_N (1024 * max_N (kilobytes_of mt <$> es)))
  end.

Lemma peak_snoc mt es e :
  mt ∈ MEMORY_TYPES -> kilobytes_of mt e < 2 ^ 54 ->
  peak mt (es ++ [e]) = Some (N.max (default 0 (peak mt es)) (memory_figure e mt)).
Proof.
  intros Hmt He. rewrite memory_figure_kb by done.
  rewrite wrapping_mul_small by (unfold u64_bound; lia).
  assert (default 0 (peak mt es) = f64_of_N (1024 * max_N (kilobytes_of mt <$> es))) as ->
    by (by destruct es).
  rewrite <- f64_of_N_max. unfold peak. destruct (es ++ [e]) eqn:E; [by destruct es|].
  rewrite <- E, fmap_app, fmap_cons, fmap_nil, max_N_snoc. do 2 f_equal. lia.
Qed.

Lemma run_ops_snoc {V} `{MetricVecLaws V} ops op (c : MetricsCollector V) :
  run_ops (ops ++ [op]) c = run_op (run_ops ops c) op.
Proof. unfold run_ops, flip. by rewrite foldl_app. Qed.

Lemma run_ops_app {V} `{MetricVecLaws V} ops1 ops2 (c : MetricsCollector V) :
  run_ops (ops1 ++ ops2) c = run_ops ops2 (run_ops ops1 c).
Proof. unfold run_ops, flip. by rewrite foldl_app. Qed.

(** ** How each operation moves each family *)

Section moves.
Context {V : Type} `{MetricVecLaws V}.
Abbreviation Collector := (MetricsCollector V).
Implicit Types (c : Collector) (k : SeriesKey).

Lemma swept_rest now ttl c :
  let c' := (evict_stale now ttl c).2 in
  oom_kills_per_node_total c' = oom_kills_per_node_total c /\
  oom_resolution_failures_total c' = oom_resolution_failures_total c /\
  oom_events_dropped_total c' = oom_events_dropped_total c /\
  last_dropped_total c' = last_dropped_total c.
Proof.
  cbv zeta. rewrite evict_stale_unfold. cbn [snd].
  edestruct remove_all_rest as (-> & -> & -> & -> & _). done.
Qed.

Lemma record_dropped_rest node t c :
  let c' := collector_record_dropped_total node t c in
  oom_kills_total c' = oom_kills_total c /\
  oom_kills_per_node_total c' = oom_kills_per_node_total c /\
  oom_memory_usage_bytes c' = oom_memory_usage_bytes c /\
  oom_resolution_failures_total c' = oom_resolution_failures_total c /\
  last_dropped_total c' = t.
Proof.
  unfold collector_record_dropped_total.
  destruct (checked_sub t _) as [d|]; [by destruct (0 <? d)|done].
Qed.

Lemma record_outcome_rest node o c :
  let c' := collector_record_resolution_outcome node o c in
  oom_kills_total c' = oom_kills_total c /\
  oom_kills_per_node_total c' = oom_kills_per_node_total c /\
  oom_memory_usage_bytes c' = oom_memory_usage_bytes c /\
  oom_events_dropped_total c' = oom_events_dropped_total c /\
  last_dropped_total c' = last_dropped_total c.
Proof. by destruct o. Qed.

(** The reason label of an outcome; none for a success. *)
Definition reason_of (o : ResolutionOutcome) : option str :=
  match o with
  | Found _ => None
  | NotFoundOutcome => Some (lit "not_found")
  | Failed _ => Some (lit "error")
  end.

Lemma failures_outcome node o c node' reason :
  wf_collector c ->
  failures (collector_record_resolution_outcome node o c) node' reason
  = if decide (node = node' /\ reason_of o = Some reason)
    then Some (f64_add (default 0 (failures c node' reason)) 1)
    else failures c node' reason.
Proof.
  intros Hwf. unfold failures. destruct o; cbn [reason_of collector_record_resolution_outcome].
  - rewrite decide_False by (by intros [_ ?]). done.
  - unfold upd_failures. cbn [oom_resolution_failures_total]. rewrite mv_inc_value by (by rewrite wf_failures).
    repeat case_decide; destruct_and?; simplify_eq; done || (exfalso; naive_solver).
  - unfold upd_failures. cbn [oom_resolution_failures_total]. rewrite mv_inc_value by (by rewrite wf_failures).
    repeat case_decide; destruct_and?; simplify_eq; done || (exfalso; naive_solver).
Qed.

(** Operations other than a sweep leave a kill counter to the events of its key. *)
Lemma kills_op op c k :
  wf_collector c -> is_sweep op = false ->
  kills (run_op c op) k
  = match op_event op with
    | Some e => if decide (key_of_event e = k) then Some (f64_add (default 0 (kills c k)) 1)
                else kills c k
    | None => kills c k
    end.
Proof.
  intros Hwf. destruct op; cbn [run_op is_sweep op_event]; intros; try done.
  - unfold kills. simpl. by rewrite (proj1 (record_outcome_rest _ _ _)).
  - by apply kills_record.
  - unfold kills. simpl. by rewrite (proj1 (record_dropped_rest _ _ _)).
Qed.

Lemma memory_op op c k mt :
  wf_collector c -> mt ∈ MEMORY_TYPES -> is_sweep op = false ->
  memory (run_op c op) k mt
  = match op_event op with
    | Some e => if shares_memory_series_with (key_of_event e) k
                then Some (N.max (default 0 (memory c k mt)) (memory_figure e mt))
                else memory c k mt
    | None => memory c k mt
    end.
Proof.
  intros Hwf Hmt. destruct op; cbn [run_op is_sweep op_event]; intros; try done.
  - unfold memory. simpl. by rewrite (proj1 (proj2 (proj2 (record_outcome_rest _ _ _)))).
  - by apply memory_record.
  - unfold memory. simpl. by rewrite (proj1 (proj2 (proj2 (record_dropped_rest _ _ _)))).
Qed.

(** Every operation leaves a node counter to the events of the node. *)
Lemma per_node_op op c n :
  wf_collector c ->
  per_node (run_op c op) n
  = match op_event op with
    | Some e => if decide (k_node (key_of_event e) = n)
                then Some (f64_add (default 0 (per_node c n)) 1) else per_node c n
    | None => per_node c n
    end.
Proof.
  intros Hwf. destruct op; cbn [run_op op_event].
  - unfold per_node. simpl. by rewrite (proj1 (proj2 (record_outcome_rest _ _ _))).
  - by apply per_node_record.
  - unfold per_node. simpl. by rewrite (proj1 (proj2 (record_dropped_rest _ _ _))).
  - done.
  - unfold per_node. by rewrite (proj1 (swept_rest _ _ _)).
Qed.

Lemma failures_op op c node reason :
  wf_collector c ->
  failures (run_op c op) node reason
  = match op_outcome op with
    | Some (node', o) =>
        if decide (node' = node /\ reason_of o = Some reason)
        then Some (f64_add (default 0 (failures c node reason)) 1) else failures c node reason
    | None => failures c node reason
    end.
Proof.
  intros Hwf. destruct op; cbn [run_op op_outcome].
  - by apply failures_outcome.
  - done.
  - unfold failures. simpl.
    by rewrite (proj1 (proj2 (proj2 (proj2 (record_dropped_rest _ _ _))))).
  - done.
  - unfold failures. by rewrite (proj1 (proj2 (swept_rest _ _ _))).
Qed.
End moves.

(** ** The dropped-events total *)

(** The sum of the rises of a list of readings after [previous]. *)
Fixpoint rises (previous : N) (totals : list N) : N :=
  match totals with
  | [] => 0
  | t :: totals => (t - previous) + rises t totals
  end.

Definition op_dropped (op : Op) : option (str * N) :=
  match op with OpDropped node t => Some (node, t) | _ => None end.

Definition totals_of (ops : list Op) : list N := snd <$> omap op_dropped ops.

(** The last reading, or the one before them all. *)
Definition latest (p : N) (l : list N) : N := default p (last l).

Lemma latest_cons p t l : latest p (t :: l) = latest t l.
Proof. unfold latest. rewrite last_cons. by destruct (last l). Qed.

Lemma rises_snoc p l t : rises p (l ++ [t]) = rises p l + (t - latest p l).
Proof.
  revert p. induction l as [|x l IH]; intros p; [unfold latest; simpl; lia|].
  simpl rises. rewrite IH, latest_cons. lia.
Qed.

Lemma latest_ge p l : Sorted N.le (p :: l) -> p <= latest p l.
Proof.
  revert p. induction l as [|t l IH]; intros p Hs; [done|].
  apply Sorted_inv in Hs as [Hs Hpt%HdRel_inv]. rewrite latest_cons.
  etrans; [done|by apply IH].
Qed.

(** Readings that never fall rise from the first to the last in total. *)
Lemma rises_sorted p l : Sorted N.le (p :: l) -> rises p l = latest p l - p.
Proof.
  revert p. induction l as [|t l IH]; intros p Hs; [unfold latest; simpl; lia|].
  apply Sorted_inv in Hs as [Hs Hpt%HdRel_inv]. simpl rises.
  rewrite IH, latest_cons by done. apply latest_ge in Hs. lia.
Qed.

(** A rise is never less than the overall difference. *)
Lemma rises_at_least p l : latest p l - p <= rises p l.
Proof.
  revert p. induction l as [|t l IH]; intros p; [unfold latest; simpl; lia|].
  specialize (IH t). simpl rises. rewrite latest_cons. lia.
Qed.

Section dropped.
Context {V : Type} `{MetricVecLaws V}.
Abbreviation Collector := (MetricsCollector V).
Implicit Types (c : Collector).

Lemma last_dropped_op op c :
  last_dropped_total (run_op c op)
  = match op_dropped op with Some (_, t) => t | None => last_dropped_total c end.
Proof.
  destruct op; cbn [run_op op_dropped].
  - simpl. by edestruct record_outcome_rest as (_ & _ & _ & _ & ?).
  - done.
  - simpl. by edestruct record_dropped_rest as (_ & _ & _ & _ & ?).
  - done.
  - by edestruct swept_rest as (_ & _ & _ & ?).
Qed.

Lemma dropped_op_other op c n : op_dropped op = None -> dropped (run_op c op) n = dropped c n.
Proof.
  unfold dropped. destruct op; cbn [run_op op_dropped]; intros; try done.
  - simpl. by edestruct record_outcome_rest as (_ & _ & _ & -> & _).
  - by edestruct swept_rest as (_ & _ & -> & _).
Qed.

Lemma dropped_record node t c n :
  wf_collector c ->
  dropped (collector_record_dropped_total node t c) n
  = if decide (node = n /\ last_dropped_total c < t)
    then Some (f64_add (default 0 (dropped c n)) (f64_of_N (t - last_dropped_total c)))
    else dropped c n.
Proof.
  intros Hwf. unfold collector_record_dropped_total, checked_sub, dropped.
  set (p := last_dropped_total c).
  destruct (N.leb_spec p t); [destruct (N.ltb_spec 0 (t - p))|].
  - unfold upd_dropped, set_last_dropped. cbn [oom_events_dropped_total]. rewrite mv_inc_by_value by (by rewrite wf_dropped).
    destruct (decide (node = n)) as [->|Hne].
    + rewrite decide_True by done. rewrite decide_True by (split; [done|lia]). done.
    + rewrite decide_False by congruence. rewrite decide_False by tauto. done.
  - rewrite decide_False by lia. done.
  - rewrite decide_False by lia. done.
Qed.
End dropped.

(** ** Properties *)

Section properties.
Context {V : Type} `{MetricVecLaws V}.
Abbreviation Collector := (MetricsCollector V).

Lemma wf_run_ops ops : wf_collector (run_ops ops (collector_new : Collector)).
Proof. apply tr_wf, tracked_ops, tracked_new. Qed.

(** The node counter over a history. *)
Lemma per_node_history (ops : list Op) (n : str) :
  per_node (run_ops ops (collector_new : Collector)) n
  = counted (filter (fun e => k_node (key_of_event e) = n) (events_of ops)).
Proof.
  induction ops as [|op ops IH] using rev_ind.
  - unfold per_node. simpl. by rewrite mv_new_value.
  - rewrite run_ops_snoc, per_node_op by apply wf_run_ops. unfold events_of.
    rewrite omap_app, filter_app, IH. cbn [omap list_omap].
    destruct (op_event op) as [e|]; [|by rewrite app_nil_r].
    rewrite filter_cons, filter_nil. case_decide; [by rewrite counted_snoc|by rewrite app_nil_r].
Qed.

(** no kill is ever lost from the node total: over any history, sweeps and pod
    deletions included, [oom_kills_per_node_total] of a node is the number of events
    recorded for it (exact up to [2^53], where an [f64] counter stops), and is absent
    exactly while there is none. *)
Theorem node_total_counts_every_kill (ops : list Op) (n : str) :
  per_node (run_ops ops (collector_new : Collector)) n
  = counted (filter (fun e => k_node (key_of_event e) = n) (events_of ops)).
Proof. apply per_node_history. Qed.

(** the resolution outcomes are classified and counted exactly: each failure counter
    holds the number of outcomes of that node with that reason over the whole history,
    [not_found] and [error] are the only reasons, and a success counts nowhere. *)
Theorem failures_count_each_reason (ops : list Op) (node reason : str) :
  failures (run_ops ops (collector_new : Collector)) node reason
  = counted (filter (fun no => no.1 = node /\ reason_of no.2 = Some reason)
               (omap op_outcome ops)).
Proof.
  induction ops as [|op ops IH] using rev_ind.
  - unfold failures. simpl. by rewrite mv_new_value.
  - rewrite run_ops_snoc, failures_op by apply wf_run_ops.
    rewrite omap_app, filter_app, IH. cbn [omap list_omap].
    destruct (op_outcome op) as [[n o]|]; [|by rewrite app_nil_r].
    rewrite filter_cons, filter_nil. cbn [fst snd].
    case_decide; [by rewrite counted_snoc|by rewrite app_nil_r].
Qed.

(** C23: the dropped-events counter advances by every rise of the kernel's total and never
    by a fall: over a history whose readings all name one node, its value is the sum of
    the rises from zero, exact below [2^53]; when the readings never fall that is the last
    reading. *)
Theorem dropped_counter_sums_the_rises (ops : list Op) (n : str) :
  Forall (fun nt => nt.1 = n) (omap op_dropped ops) ->
  rises 0 (totals_of ops) < 2 ^ 53 ->
  let value := default 0 (dropped (run_ops ops (collector_new : Collector)) n) in
  value = rises 0 (totals_of ops) /\
  (Sorted N.le (totals_of ops) -> value = latest 0 (totals_of ops)).
Proof.
  intros Hn Hb. cbv zeta.
  assert (default 0 (dropped (run_ops ops (collector_new : Collector)) n)
            = rises 0 (totals_of ops) /\
          last_dropped_total (run_ops ops (collector_new : Collector))
            = latest 0 (totals_of ops)) as [Hv _].
  { induction ops as [|op ops IH] using rev_ind.
    - unfold dropped. simpl. by rewrite mv_new_value.
    - unfold totals_of in *. rewrite omap_app, ?fmap_app in *. cbn [omap list_omap] in *.
      apply Forall_app in Hn as [Hn Hop]. rewrite run_ops_snoc.
      destruct (op_dropped op) as [[n' t]|] eqn:Eop; cycle 1.
      { rewrite app_nil_r in *. rewrite dropped_op_other by done.
        rewrite last_dropped_op, Eop. auto. }
      apply Forall_cons in Hop as [Hn' _]. cbn [fst fmap list_fmap snd] in *. subst n'.
      rewrite rises_snoc in Hb |- *. destruct IH as [IHv IHl]; [done|lia|].
      rewrite last_dropped_op, Eop. unfold latest at 2. rewrite last_snoc. split; [|done].
      destruct op; simplify_eq/=. rewrite dropped_record by apply wf_run_ops.
      rewrite IHl. case_decide as Hd.
      + cbn [default from_option id]. rewrite IHv. unfold f64_add.
        rewrite (f64_of_N_small (t - _)), f64_of_N_small by lia. done.
      + rewrite IHv. apply Decidable.not_and in Hd; [|by left]. destruct Hd; [done|lia]. }
  split; [done|]. intros Hs. rewrite Hv.
  rewrite rises_sorted; [by rewrite N.sub_0_r|].
  constructor; [done|]. destruct (totals_of ops); constructor. lia.
Qed.
End properties.

(** ** Concrete runs *)

Lemma node_total_counts_every_kill_witness :
  per_node (run_ops (sample_ops ++ [OpSweep 9000 3600]) mapped_new) (lit "node-1") = Some 2.
Proof. etrans; [apply (node_total_counts_every_kill (V:=MapVec))|by vm_compute]. Defined.

Lemma failures_count_each_reason_witness :
  let ops := [OpOutcome (lit "n") NotFoundOutcome; OpOutcome (lit "n") NotFoundOutcome;
              OpOutcome (lit "n") (Failed (anyhow (lit "api down")))] in
  failures (run_ops ops mapped_new) (lit "n") (lit "not_found") = Some 2.
Proof. etrans; [apply (failures_count_each_reason (V:=MapVec))|by vm_compute]. Defined.

(** Readings 7, 2, 7: the fall is skipped, and the climb back is counted again. *)
Lemma dropped_counter_sums_the_rises_witness :
  let ops := OpDropped (lit "n") <$> [7; 2; 7] in
  default 0 (dropped (run_ops ops mapped_new) (lit "n")) = 12.
Proof.
  intros ops.
  refine (eq_trans (proj1 (dropped_counter_sums_the_rises (V:=MapVec) ops (lit "n") _ _)) _).
  - subst ops. cbn. by repeat constructor.
  - by vm_compute.
  - by vm_compute.
Defined.
