(* ===== verification/Ledger.v ===== *)
(** * Ledger: which kills the series of a scrape describe

    The collector ([oom-watcher/src/metrics.rs]) keeps numbers; this file says which events
    they are numbers of. The specification is a ledger of events: recording appends, and a
    sweep strikes out the kills of every label set that has outlived its welcome. Over any
    history the kill counters, ages, timestamps and memory gauges of the collector are those
    of the ledger, so a sweep changes no series it keeps. *)
From S2P Require Import Prelude Text Float64 Io Common Resolve Seams Prometheus Metrics Eviction.
From S2P Require Import Sweep Recording.

(** ** The specification *)

(** The kills the counters still count, those the memory gauges still cover, and when the
    series of each pod reported deleted are due. *)
Record Ledger := {
  l_kills : list EnrichedOomEvent;
  l_peaks : list EnrichedOomEvent;
  l_due : gmap (str * str) N;
}.

Definition ledger_new : Ledger := {| l_kills := []; l_peaks := []; l_due := ∅ |}.

Definition kills_of (k : SeriesKey) (es : list EnrichedOomEvent) : list EnrichedOomEvent :=
  filter (fun e => key_of_event e = k) es.

(** The kills of a container, whichever of its restarts they hit. *)
Definition kills_of_container (k : SeriesKey) (es : list EnrichedOomEvent)
    : list EnrichedOomEvent :=
  filter (fun e => shares_memory_series_with (key_of_event e) k = true) es.

Definition last_kill (k : SeriesKey) (l : Ledger) : option N :=
  last (ev_timestamp <$> kills_of k (l_kills l)).

(** A label set has outlived its welcome when its last kill is [ttl] seconds old or its pod,
    reported deleted, is due. *)
Definition outlived (now ttl : N) (l : Ledger) (k : SeriesKey) : bool :=
  match last_kill k l with Some seen => ttl <=? now - seen | None => false end
  || match l_due l !! (k_namespace k, k_pod k) with Some t => t <=? now | None => false end.

Definition kept_kills (now ttl : N) (l : Ledger) : list EnrichedOomEvent :=
  filter (fun e => outlived now ttl l (key_of_event e) = false) (l_kills l).

Definition covers_container (es : list EnrichedOomEvent) (k : SeriesKey) : bool :=
  existsb (fun e => shares_memory_series_with (key_of_event e) k) es.

(** A memory gauge covers a container's kills as long as one of its restarts is kept. *)
Definition ledger_step (l : Ledger) (op : Op) : Ledger :=
  match op with
  | OpEvent e =>
      {| l_kills := l_kills l ++ [e]; l_peaks := l_peaks l ++ [e]; l_due := l_due l |}
  | OpPodDeleted ns pod now =>
      {| l_kills := l_kills l; l_peaks := l_peaks l;
         l_due := <[(ns, pod) := saturating_add now 120]> (l_due l) |}
  | OpSweep now ttl =>
      {| l_kills := kept_kills now ttl l;
         l_peaks := filter (fun e => covers_container (kept_kills now ttl l) (key_of_event e) = true)
                      (l_peaks l);
         l_due := filter (fun kv => now < kv.2) (l_due l) |}
  | OpOutcome _ _ | OpDropped _ _ => l
  end.

Definition ledger_of (ops : list Op) : Ledger := foldl ledger_step ledger_new ops.

(** ** Lemmas on ledgers *)

Lemma ledger_of_snoc ops op : ledger_of (ops ++ [op]) = ledger_step (ledger_of ops) op.
Proof. unfold ledger_of. by rewrite foldl_app. Qed.

Lemma last_kill_None k l : last_kill k l = None <-> kills_of k (l_kills l) = [].
Proof. unfold last_kill. rewrite last_None. split; [apply fmap_nil_inv|by intros ->]. Qed.

Lemma filter_key_kept (drop : SeriesKey -> bool) k es :
  kills_of k (filter (fun e => drop (key_of_event e) = false) es)
  = if drop k then [] else kills_of k es.
Proof.
  unfold kills_of. induction es as [|e es IH]; [by destruct (drop k)|].
  rewrite !filter_cons. destruct (decide (drop (key_of_event e) = false)) as [Hd|Hd].
  - rewrite filter_cons, IH. destruct (decide (key_of_event e = k)) as [<-|]; [|done].
    by rewrite Hd.
  - rewrite IH. destruct (decide (key_of_event e = k)) as [<-|]; [|done].
    by destruct (drop (key_of_event e)).
Qed.

Lemma kills_of_kept now ttl l k :
  kills_of k (kept_kills now ttl l) = if outlived now ttl l k then [] else kills_of k (l_kills l).
Proof. apply filter_key_kept. Qed.

Lemma last_kill_swept now ttl l k :
  last_kill k (ledger_step l (OpSweep now ttl))
  = if outlived now ttl l k then None else last_kill k l.
Proof. unfold last_kill. cbn [ledger_step l_kills]. rewrite kills_of_kept. by destruct (outlived _ _ _ _). Qed.

Lemma filter_container_kept (keep : SeriesKey -> bool) k es :
  (forall k', shares_memory_series_with k' k = true -> keep k' = keep k) ->
  kills_of_container k (filter (fun e => keep (key_of_event e) = true) es)
  = if keep k then kills_of_container k es else [].
Proof.
  intros Hk. unfold kills_of_container. induction es as [|e es IH]; [by destruct (keep k)|].
  rewrite !filter_cons.
  destruct (decide (shares_memory_series_with (key_of_event e) k = true)) as [Hs|Hs].
  - rewrite (Hk _ Hs). destruct (keep k) eqn:E.
    + rewrite decide_True, filter_cons, decide_True by done. by rewrite IH.
    + by rewrite decide_False.
  - case_decide; [|done]. by rewrite filter_cons, decide_False.
Qed.

Lemma covers_container_shares es k k' :
  shares_memory_series_with k' k = true -> covers_container es k' = covers_container es k.
Proof.
  intros Hs. unfold covers_container. apply eq_true_iff_eq. rewrite !existsb_exists.
  split; intros (e & He & Hk); exists e; (split; [done|]); eapply shares_trans; [done| |done|];
    by rewrite ?(shares_sym k).
Qed.

Lemma covers_container_iff es k :
  covers_container es k = true <->
  exists k', kills_of k' es <> [] /\ shares_memory_series_with k' k = true.
Proof.
  unfold covers_container. rewrite existsb_exists. setoid_rewrite <- list_elem_of_In. split.
  - intros (e & He & Hs). exists (key_of_event e). split; [|done]. intros Hn.
    assert (e ∈ kills_of (key_of_event e) es) as Hin by (by apply list_elem_of_filter).
    rewrite Hn in Hin. by apply elem_of_nil in Hin.
  - intros (k' & Hn & Hs). destruct (kills_of k' es) as [|e l] eqn:E; [done|].
    assert (e ∈ kills_of k' es) as [<- He]%list_elem_of_filter by (rewrite E; left). by exists e.
Qed.

(** ** The collector refines the ledger *)

Section refinement.
Context {V : Type} `{MetricVecLaws V}.
Abbreviation Collector := (MetricsCollector V).
Implicit Types (c : Collector) (k : SeriesKey) (l : Ledger) (op : Op).

(** The series of the counters, ages and timestamps are those of the ledger. *)
Record agrees c l : Prop := {
  ag_tracked : tracked c;
  ag_kills : forall k, kills c k = counted (kills_of k (l_kills l));
  ag_seen : forall k, last_seen c !! k = last_kill k l;
  ag_stamp : forall k, stamp c k = f64_of_N <$> last_kill k l;
  ag_due : deleted_after c = l_due l;
}.

Definition memory_agrees c l (mt : str) : Prop :=
  forall k, memory c k mt = peak mt (kills_of_container k (l_peaks l)).

Lemma agrees_new : agrees collector_new ledger_new.
Proof.
  split; [apply tracked_new|..]; intros; unfold kills, stamp; cbn;
    rewrite ?mv_new_value, ?lookup_empty; done.
Qed.

Lemma stale_outlived now ttl c l k :
  agrees c l ->
  k ∈ stale_keys now ttl c <-> is_Some (last_kill k l) /\ outlived now ttl l k = true.
Proof.
  intros Ha. rewrite elem_of_stale_keys. unfold outlived, stale, pod_due.
  rewrite (ag_seen _ _ Ha), (ag_due _ _ Ha), orb_true_iff. split.
  - intros (seen & -> & Hs). split; [by eexists|].
    destruct Hs as [?|(t & -> & ?)]; [left|right]; by apply N.leb_le.
  - intros [[seen ->] Hs]. exists seen. split; [done|].
    destruct Hs as [?%N.leb_le|Hs]; [by left|right].
    destruct (l_due l !! _) as [t|]; [|done]. exists t. split; [done|by apply N.leb_le].
Qed.

(** An answer that goes with the stale keys goes with the outlived ones. *)
Lemma stale_answer {A} now ttl c l k (o : option A) :
  agrees c l -> (last_kill k l = None -> o = None) ->
  (if decide (k ∈ stale_keys now ttl c) then None else o)
  = (if outlived now ttl l k then None else o).
Proof.
  intros Ha Hn. pose proof (stale_outlived now ttl c l k Ha) as Hs.
  destruct (outlived now ttl l k); case_decide as Hk; try done.
  - destruct (last_kill k l); [|by apply Hn]. destruct Hk. apply Hs. split; [by eexists|done].
  - apply Hs in Hk as [_ ?]. done.
Qed.

Lemma agrees_sweep now ttl c l :
  agrees c l -> agrees (evict_stale now ttl c).2 (ledger_step l (OpSweep now ttl)).
Proof.
  intros Ha. pose proof (ag_tracked _ _ Ha) as Ht. pose proof (tr_wf _ Ht) as Hwf. split.
  - by apply tracked_evict.
  - intros k. rewrite swept_kills, (stale_answer now ttl c l) by
      (done || (rewrite (ag_kills _ _ Ha); by intros ->%last_kill_None)).
    cbn [ledger_step l_kills]. rewrite kills_of_kept, (ag_kills _ _ Ha).
    by destruct (outlived _ _ _ _).
  - intros k. rewrite last_kill_swept.
    rewrite <- (stale_answer now ttl c l k (last_kill k l)) by done.
    rewrite swept_last_seen, <- (ag_seen _ _ Ha).
    destruct (last_seen c !! k) as [seen|] eqn:E.
    + destruct (live_or_stale now ttl c k) as [[? ->]|[? ->]]; [by eexists|..];
        by case_decide.
    + destruct (live_keys now ttl c !! k) as [x|] eqn:El; [|by case_decide].
      apply lookup_live_keys in El as [? _]. congruence.
  - intros k. rewrite swept_stamp, (stale_answer now ttl c l) by
      (done || (rewrite (ag_stamp _ _ Ha); by intros ->)).
    rewrite last_kill_swept, (ag_stamp _ _ Ha). by destruct (outlived _ _ _ _).
  - cbn [ledger_step l_due]. rewrite swept_deleted, (ag_due _ _ Ha). cbn [retain fst].
    apply map_filter_ext. intros p t _. cbn [snd]. by rewrite N.ltb_lt.
Qed.

Lemma agrees_event e c l :
  agrees c l -> agrees (collector_record_oom_event e c) (ledger_step l (OpEvent e)).
Proof.
  intros Ha. pose proof (tr_wf _ (ag_tracked _ _ Ha)) as Hwf.
  assert (forall k, kills_of k (l_kills l ++ [e])
    = if decide (key_of_event e = k) then kills_of k (l_kills l) ++ [e]
      else kills_of k (l_kills l)) as Hk.
  { intros k. unfold kills_of. rewrite filter_app, filter_cons, filter_nil.
    case_decide; [done|by rewrite app_nil_r]. }
  assert (forall k, last_kill k (ledger_step l (OpEvent e))
    = if decide (key_of_event e = k) then Some (ev_timestamp e) else last_kill k l) as Hl.
  { intros k. unfold last_kill. cbn [ledger_step l_kills]. rewrite Hk.
    case_decide; [|done]. rewrite fmap_app. cbn [fmap list_fmap]. by rewrite last_snoc. }
  split.
  - apply tracked_record, Ha.
  - intros k. cbn [ledger_step l_kills]. rewrite kills_record, Hk, (ag_kills _ _ Ha) by done.
    case_decide; [by rewrite counted_snoc|done].
  - intros k. rewrite Hl, record_event_last_seen, lookup_insert, (ag_seen _ _ Ha). done.
  - intros k. rewrite Hl, stamp_record, (ag_stamp _ _ Ha) by done. by case_decide.
  - apply (ag_due _ _ Ha).
Qed.

Lemma agrees_op op c l : agrees c l -> agrees (run_op c op) (ledger_step l op).
Proof.
  intros Ha. pose proof (tracked_op op _ (ag_tracked _ _ Ha)) as Ht.
  destruct op as [node o|e|node t|ns pod now|now ttl].
  - destruct Ha. split; [done|..]; unfold kills, stamp in *; by destruct o.
  - by apply agrees_event.
  - destruct Ha. split; [done|..]; unfold kills, stamp in *; cbn [ledger_step];
      cbn [run_op record_dropped_total MetricsCollector_MetricsRecorder];
      unfold collector_record_dropped_total;
      (destruct (checked_sub t _) as [d|]; [destruct (0 <? d)|]); done.
  - destruct Ha. split; try done. cbn [ledger_step l_due]. by rewrite <- ag_due0.
  - by apply agrees_sweep.
Qed.

(** The label sets still tracked after a sweep are those with a kill kept. *)
Lemma live_iff_kept now ttl c l k :
  agrees c l -> is_Some (live_keys now ttl c !! k) <-> kills_of k (kept_kills now ttl l) <> [].
Proof.
  intros Ha. pose proof (agrees_sweep now ttl c l Ha) as Ha'.
  rewrite <- (swept_last_seen now ttl c), (ag_seen _ _ Ha'), <- not_eq_None_Some.
  by rewrite (last_kill_None k (ledger_step l (OpSweep now ttl))).
Qed.

Lemma memory_agrees_sweep now ttl c l mt :
  mt ∈ MEMORY_TYPES -> agrees c l -> memory_agrees c l mt ->
  memory_agrees (evict_stale now ttl c).2 (ledger_step l (OpSweep now ttl)) mt.
Proof.
  intros Hmt Ha Hm k. pose proof (ag_tracked _ _ Ha) as Ht.
  cbn [ledger_step l_peaks]. rewrite filter_container_kept by apply covers_container_shares.
  rewrite swept_memory by (done || apply (tr_wf _ Ht)).
  assert (covers_container (kept_kills now ttl l) k = true <->
    exists k', is_Some (live_keys now ttl c !! k') /\ shares_memory_series_with k' k = true) as Hn.
  { rewrite covers_container_iff. by setoid_rewrite (fun k' => live_iff_kept now ttl c l k' Ha). }
  destruct (covers_container (kept_kills now ttl l) k).
  - apply proj1 in Hn. specialize (Hn eq_refl).
    assert (exists k', is_Some (last_seen c !! k') /\ shares_memory_series_with k' k = true) as Hex.
    { destruct Hn as (k' & [x Hx] & Hs). apply lookup_live_keys in Hx as [Hx _]. by exists k'; eauto. }
    by rewrite (proj2 (takes_memory_iff now ttl c k Hex) Hn).
  - destruct (existsb _ _) eqn:E; [done|]. apply eq_None_not_Some. intros Hs.
    apply (tr_memory _ Ht) in Hs; [|done].
    apply takes_memory_iff in E; [|done]. by apply Hn in E.
Qed.

Lemma memory_agrees_op op c l mt :
  mt ∈ MEMORY_TYPES -> agrees c l ->
  Forall (fun e => kilobytes_of mt e < 2 ^ 54) (events_of [op]) ->
  memory_agrees c l mt -> memory_agrees (run_op c op) (ledger_step l op) mt.
Proof.
  intros Hmt Ha Hkb Hm. pose proof (tr_wf _ (ag_tracked _ _ Ha)) as Hwf.
  destruct (is_sweep op) eqn:Es.
  { destruct op; try done. by apply memory_agrees_sweep. }
  intros k. rewrite memory_op by done. destruct op as [node o|e|node t|ns pod now|now ttl]; try done;
    cbn [op_event ledger_step l_peaks]; try apply Hm.
  change (events_of [OpEvent e]) with [e] in Hkb. rewrite Forall_singleton in Hkb.
  unfold kills_of_container. rewrite filter_app, filter_cons, filter_nil, Hm.
  destruct (shares_memory_series_with (key_of_event e) k);
    [rewrite decide_True by done|rewrite decide_False by done; by rewrite app_nil_r].
  by rewrite peak_snoc.
Qed.

Lemma agrees_ops ops : agrees (run_ops ops collector_new) (ledger_of ops).
Proof.
  induction ops as [|op ops IH] using rev_ind; [apply agrees_new|].
  rewrite run_ops_snoc, ledger_of_snoc. by apply agrees_op.
Qed.

(** ** Sweeps that keep a label set *)

(** No sweep of [ops], run after [ops0], finds that the label set has outlived its welcome. *)
Definition kept_through (k : SeriesKey) (ops0 ops : list Op) : Prop :=
  forall pre now ttl post, ops = pre ++ OpSweep now ttl :: post ->
    outlived now ttl (ledger_of (ops0 ++ pre)) k = false.

Lemma kept_kills_grow k ops0 ops :
  kept_through k ops0 ops ->
  kills_of k (l_kills (ledger_of (ops0 ++ ops)))
  = kills_of k (l_kills (ledger_of ops0)) ++ kills_of k (events_of ops).
Proof.
  induction ops as [|op ops IH] using rev_ind; intros Hk; [by rewrite !app_nil_r|].
  assert (kept_through k ops0 ops) as Hk'.
  { intros pre now ttl post ->. eapply (Hk pre now ttl). by rewrite <- app_assoc. }
  rewrite app_assoc, ledger_of_snoc. unfold events_of. rewrite omap_app.
  unfold kills_of at 3. rewrite filter_app. fold (events_of ops). fold (kills_of k (events_of ops)).
  rewrite app_assoc, <- IH by done.
  destruct op as [node o|e|node t|ns pod now|now ttl]; cbn [ledger_step l_kills];
    try by rewrite app_nil_r.
  - unfold kills_of. by rewrite filter_app.
  - rewrite kills_of_kept, (Hk ops now ttl []), app_nil_r by done. done.
Qed.
End refinement.

Section properties.
Context {V : Type} `{MetricVecLaws V}.
Abbreviation Collector := (MetricsCollector V).

(** C22: the kill counter of a label set is exact since the series was created. Over any
    history, recordings, deletion reports and sweeps in any order, the counter holds the
    number of the label set's kills that are still in the ledger, from which a sweep strikes
    exactly the kills of label sets too old or of pods past their grace; its timestamp and
    its age are those of the last of them. In particular, from any point where the label set
    has no series (startup, or its eviction) it counts every event recorded for exactly that
    label set, across any number of sweeps that keep it. *)
Theorem kill_counter_is_exact (ops : list Op) (k : SeriesKey) :
  let c : Collector := run_ops ops collector_new in
  kills c k = counted (kills_of k (l_kills (ledger_of ops))) /\
  last_seen c !! k = last_kill k (ledger_of ops) /\
  stamp c k = f64_of_N <$> last_kill k (ledger_of ops) /\
  (forall ops0 ops1, ops = ops0 ++ ops1 ->
     kills (run_ops ops0 (collector_new : Collector)) k = None -> kept_through k ops0 ops1 ->
     kills c k = counted (filter (fun e => key_of_event e = k) (events_of ops1))).
Proof.
  intros c. pose proof (agrees_ops ops) as Ha. split_and!; [apply Ha..|].
  intros ops0 ops1 -> Hnone Hkept. unfold c. rewrite (ag_kills _ _ Ha), kept_kills_grow by done.
  rewrite (ag_kills _ _ (agrees_ops ops0)) in Hnone.
  by destruct (kills_of k (l_kills (ledger_of ops0))).
Qed.

(** C14: the memory gauge is the peak in bytes. Over any history, sweeps included, the gauge
    of a memory type is 1024 times the largest kilobyte figure of the kills of its container
    that the ledger covers: all of them, whichever restart they hit and in whatever order,
    since the last time a sweep left no restart of the container tracked. It is rounded once
    to [f64], and no figure below [2^54] kilobytes overflows. *)
Theorem memory_gauge_is_the_peak (ops : list Op) (k : SeriesKey) (mt : str) :
  mt ∈ MEMORY_TYPES ->
  Forall (fun e => kilobytes_of mt e < 2 ^ 54) (events_of ops) ->
  memory (run_ops ops (collector_new : Collector)) k mt
  = peak mt (kills_of_container k (l_peaks (ledger_of ops))).
Proof.
  intros Hmt. revert k. induction ops as [|op ops IH] using rev_ind; intros k Hkb.
  - unfold memory. cbn. by rewrite mv_new_value.
  - unfold events_of in Hkb. rewrite omap_app in Hkb. apply Forall_app in Hkb as [Hkb Hop].
    rewrite run_ops_snoc, ledger_of_snoc.
    apply memory_agrees_op; [done|apply agrees_ops|done|]. intros k'. by apply IH.
Qed.
End properties.

(** ** Concrete histories *)

(** Restart 1 killed at 1000 and 1005, a sweep that keeps it, another kill, a sweep that drops
    it, and two kills with a sweep between them. *)
Definition swept_history : list Op :=
  [OpEvent (sample_kill 1 1000); OpEvent (sample_kill 1 1005); OpSweep 2000 3600;
   OpEvent (sample_kill 1 2100); OpSweep 9000 3600].

Definition kept_history : list Op :=
  [OpEvent (sample_kill 1 9100); OpSweep 9200 3600; OpEvent (sample_kill 1 9300)].

Lemma kill_counter_is_exact_witness :
  kills (run_ops (take 4 swept_history) mapped_new) (sample_key 1) = Some 3 /\
  kills (run_ops (swept_history ++ kept_history) mapped_new) (sample_key 1) = Some 2 /\
  last_seen (run_ops (swept_history ++ kept_history) mapped_new) !! sample_key 1 = Some 9300.
Proof.
  split_and!.
  - etrans; [apply (proj1 (kill_counter_is_exact (V:=MapVec) (take 4 swept_history) (sample_key 1)))
      |by vm_compute].
  - etrans; [apply (proj2 (proj2 (proj2 (kill_counter_is_exact (V:=MapVec)
      (swept_history ++ kept_history) (sample_key 1)))) swept_history kept_history)|].
    + done.
    + by vm_compute.
    + intros pre now ttl post Hpre. unfold kept_history in Hpre.
      destruct pre as [|o1 [|o2 [|o3 [|o4 pre]]]]; simplify_eq/=. by vm_compute.
    + by vm_compute.
  - etrans; [apply (proj1 (proj2 (kill_counter_is_exact (V:=MapVec)
      (swept_history ++ kept_history) (sample_key 1))))|by vm_compute].
Defined.

(** Restart 1 is swept away, restart 2 keeps the container's gauge at its peak. *)
Lemma memory_gauge_is_the_peak_witness :
  memory (run_ops (sample_ops ++ [OpSweep 4700 3600]) mapped_new) (sample_key 2) (lit "total_vm")
  = Some 2097152.
Proof.
  etrans; [apply (memory_gauge_is_the_peak (V:=MapVec) (sample_ops ++ [OpSweep 4700 3600]))|].
  - left.
  - by repeat constructor.
  - by vm_compute.
Defined.
