(* ===== verification/Concurrency.v ===== *)
(** * Concurrency: the watch loop and the sweeper on one collector

    [MetricsCollector] ([oom-watcher/src/metrics.rs]) is shared by three tasks of
    [oom-watcher/src/main.rs]: the watch loop records, the sweeper evicts, and the pod
    cache's watch reports deletions. Each call into the metrics library and each critical
    section of a mutex is one step here: looking a series up, which creates it, and then
    updating it through the handle are two, and an update of a series removed in between is
    lost with it. The tasks' steps interleave freely, except that the sweeper holds the
    [last_seen] guard from its scan to its last removal. Calls on a family that no task
    removes from ([oom_kills_per_node_total] and [oom_series_evicted_total]) are one step. *)
From stdpp Require Import relations.
From S2P Require Import Prelude Text Float64 Io Common Resolve Seams Prometheus Metrics Eviction Sweep Recording.

(** The calls of [record_oom_event], in order. *)
Inductive RecordStep :=
| RKills
| RKillsInc
| RPerNode
| RMemory (memory_type : str)
| RMemoryRaise (memory_type : str) (kilobytes : N)
| RTimestamp
| RTimestampSet
| RTrack.

#[export] Instance RecordStep_eq_dec : EqDecision RecordStep.
Proof. solve_decision. Defined.

Definition record_program (e : EnrichedOomEvent) : list RecordStep :=
  [RKills; RKillsInc; RPerNode]
  ++ (zip MEMORY_TYPES (memory_values (raw_event e)) ≫= fun '(mt, kb) =>
        [RMemory mt; RMemoryRaise mt kb])
  ++ [RTimestamp; RTimestampSet; RTrack].

(** The calls of [remove_series], in order. *)
Inductive RemoveStep :=
| DKills (k : SeriesKey)
| DTimestamp (k : SeriesKey)
| DMemory (k : SeriesKey) (memory_type : str)
| DEvicted (k : SeriesKey).

Definition remove_program (k : SeriesKey) (memory_series_orphaned : bool) : list RemoveStep :=
  [DKills k; DTimestamp k]
  ++ (if memory_series_orphaned then DMemory k <$> MEMORY_TYPES else [])
  ++ [DEvicted k].

(** Where each task stands. *)
Inductive Recorder := RIdle | Recording (e : EnrichedOomEvent) (rest : list RecordStep).
Inductive Sweeper :=
| SIdle
| SDrained (now ttl : N) (due : list (str * str))
| SRemoving (rest : list RemoveStep).

Section concurrency.
Context {V : Type} `{MetricVecLaws V}.
Abbreviation Collector := (MetricsCollector V).
Implicit Types (c : Collector) (k : SeriesKey).

(** An update through a handle [with_label_values] returned: the exported family changes only
    while the series is still in it. The watch loop alone creates these series, so a removed
    one does not come back before the handle is dropped. *)
Definition on_handle (ls : list str) (f : V -> V) (v : V) : V :=
  match mv_value v ls with Some _ => f v | None => v end.

(** [if bytes > gauge.get() { gauge.set(bytes) }]. *)
Definition raise ls (bytes : N) (v : V) : V :=
  if default 0 (mv_value v ls) <? bytes then mv_set ls bytes v else v.

Definition do_record (e : EnrichedOomEvent) (s : RecordStep) c : Collector :=
  let k := key_of_event e in
  match s with
  | RKills => upd_kills (mv_with (labels k)) c
  | RKillsInc => upd_kills (on_handle (labels k) (mv_inc (labels k))) c
  | RPerNode => upd_per_node (mv_inc [k_node k]) c
  | RMemory mt => upd_memory (mv_with (memory_labels k mt)) c
  | RMemoryRaise mt kb =>
      let ls := memory_labels k mt in
      upd_memory (on_handle ls (raise ls (f64_of_N (wrapping_mul kb 1024)))) c
  | RTimestamp => upd_timestamp (mv_with (labels k)) c
  | RTimestampSet =>
      upd_timestamp (on_handle (labels k) (mv_set (labels k) (f64_of_N (ev_timestamp e)))) c
  | RTrack => upd_last_seen <[k := ev_timestamp e]> c
  end.

Definition do_remove (d : RemoveStep) c : Collector :=
  match d with
  | DKills k => upd_kills (mv_delete (labels k)) c
  | DTimestamp k => upd_timestamp (mv_delete (labels k)) c
  | DMemory k mt => upd_memory (mv_delete (memory_labels k mt)) c
  | DEvicted k => upd_evicted (mv_inc [k_node k]) c
  end.

Record World := { col : Collector; recorder : Recorder; sweeper : Sweeper }.

Definition start : World := {| col := collector_new; recorder := RIdle; sweeper := SIdle |}.

(** The guard on [last_seen] is held by the sweeper. *)
Definition guard_held (s : Sweeper) : bool :=
  match s with SRemoving _ => true | _ => false end.

(** The removals the sweeper computes under the guard. *)
Definition removals (live : gmap SeriesKey N) (stale : list SeriesKey) : list RemoveStep :=
  stale ≫= (fun k => remove_program k (orphaned live k)).

Inductive step : World -> World -> Prop :=
| record_start e c s :
    step {| col := c; recorder := RIdle; sweeper := s |}
         {| col := c; recorder := Recording e (record_program e); sweeper := s |}
| record_call e r rest c s :
    (r = RTrack -> guard_held s = false) ->
    step {| col := c; recorder := Recording e (r :: rest); sweeper := s |}
         {| col := do_record e r c; recorder := Recording e rest; sweeper := s |}
| record_return e c s :
    step {| col := c; recorder := Recording e []; sweeper := s |}
         {| col := c; recorder := RIdle; sweeper := s |}
| record_outcome node o c s :
    step {| col := c; recorder := RIdle; sweeper := s |}
         {| col := collector_record_resolution_outcome node o c; recorder := RIdle;
            sweeper := s |}
| record_dropped node t c s :
    step {| col := c; recorder := RIdle; sweeper := s |}
         {| col := collector_record_dropped_total node t c; recorder := RIdle; sweeper := s |}
| pod_deleted ns pod now c r s :
    step {| col := c; recorder := r; sweeper := s |}
         {| col := note_pod_deleted ns pod now c; recorder := r; sweeper := s |}
| sweep_drain now ttl c r :
    let '(pending, due) := retain (fun _ removable_at => now <? removable_at)
                             (deleted_after c) in
    step {| col := c; recorder := r; sweeper := SIdle |}
         {| col := upd_deleted (fun _ => pending) c; recorder := r;
            sweeper := SDrained now ttl due |}
| sweep_scan now ttl due c r :
    let '(live, stale) := retain (keep_series due now ttl) (last_seen c) in
    step {| col := c; recorder := r; sweeper := SDrained now ttl due |}
         {| col := upd_last_seen (fun _ => live) c; recorder := r;
            sweeper := SRemoving (removals live stale) |}
| sweep_remove d rest c r :
    step {| col := c; recorder := r; sweeper := SRemoving (d :: rest) |}
         {| col := do_remove d c; recorder := r; sweeper := SRemoving rest |}
| sweep_return c r :
    step {| col := c; recorder := r; sweeper := SRemoving [] |}
         {| col := c; recorder := r; sweeper := SIdle |}.

Definition reachable (w : World) : Prop := rtc step start w.

(** ** What one call changes *)

Lemma on_handle_arity ls f v :
  mv_arity (f v) = mv_arity v -> mv_arity (on_handle ls f v) = mv_arity v.
Proof. unfold on_handle. by destruct (mv_value v ls). Qed.

Lemma raise_arity ls bytes (v : V) : mv_arity (raise ls bytes v) = mv_arity v.
Proof. unfold raise. case_match; [apply mv_set_arity|done]. Qed.

(** Neither the creation nor an update makes a series other than its own exist. *)
Lemma with_present ls ls' (v : V) :
  length ls = mv_arity v -> is_Some (mv_value (mv_with ls v) ls') ->
  ls = ls' \/ is_Some (mv_value v ls').
Proof. intros Hl. rewrite mv_with_value by done. case_decide; auto. Qed.

Lemma on_handle_present ls ls' f (v : V) :
  (forall l, ls <> l -> mv_value (f v) l = mv_value v l) ->
  is_Some (mv_value (on_handle ls f v) ls') -> ls = ls' \/ is_Some (mv_value v ls').
Proof.
  intros Hf. unfold on_handle. destruct (decide (ls = ls')) as [->|Hne]; [by left|].
  destruct (mv_value v ls); [rewrite Hf by done|]; auto.
Qed.

Lemma inc_elsewhere ls (v : V) l :
  length ls = mv_arity v -> ls <> l -> mv_value (mv_inc ls v) l = mv_value v l.
Proof. intros Hl Hne. rewrite mv_inc_value by done. by rewrite decide_False. Qed.

Lemma set_elsewhere ls x (v : V) l :
  length ls = mv_arity v -> ls <> l -> mv_value (mv_set ls x v) l = mv_value v l.
Proof. intros Hl Hne. rewrite mv_set_value by done. by rewrite decide_False. Qed.

Lemma raise_elsewhere ls bytes (v : V) l :
  length ls = mv_arity v -> ls <> l -> mv_value (raise ls bytes v) l = mv_value v l.
Proof. intros Hl Hne. unfold raise. case_match; [by apply set_elsewhere|done]. Qed.

Lemma wf_do_record e r c : wf_collector c -> wf_collector (do_record e r c).
Proof.
  intros [].
  destruct r; split; try done; simpl;
    rewrite ?mv_with_arity, ?mv_inc_arity, ?on_handle_arity; try done;
    rewrite ?mv_inc_arity, ?mv_set_arity, ?raise_arity; done.
Qed.

Lemma wf_do_remove d c : wf_collector c -> wf_collector (do_remove d c).
Proof.
  intros []. destruct d; split; try done; simpl; by rewrite ?mv_inc_arity, ?mv_delete_arity.
Qed.

Lemma do_record_kills e r c k :
  wf_collector c -> is_Some (kills (do_record e r c) k) ->
  k = key_of_event e \/ is_Some (kills c k).
Proof.
  intros Hwf. pose proof (wf_kills _ Hwf) as Ha.
  destruct r; try (by right); unfold kills, do_record, upd_kills; cbn [oom_kills_total];
    [intros [Hl|?]%with_present|intros [Hl|?]%on_handle_present]; auto;
    try (left; symmetry; by apply labels_inj). intros l. by apply inc_elsewhere.
Qed.

Lemma do_record_stamp e r c k :
  wf_collector c -> is_Some (stamp (do_record e r c) k) ->
  k = key_of_event e \/ is_Some (stamp c k).
Proof.
  intros Hwf. pose proof (wf_timestamp _ Hwf) as Ha.
  destruct r; try (by right); unfold stamp, do_record, upd_timestamp; cbn [oom_last_timestamp];
    [intros [Hl|?]%with_present|intros [Hl|?]%on_handle_present]; auto;
    try (left; symmetry; by apply labels_inj). intros l. by apply set_elsewhere.
Qed.

Lemma do_record_memory e r c k mt :
  wf_collector c -> is_Some (memory (do_record e r c) k mt) ->
  shares_memory_series_with (key_of_event e) k = true \/ is_Some (memory c k mt).
Proof.
  intros Hwf. pose proof (wf_memory _ Hwf) as Ha.
  destruct r; try (by right); unfold memory, do_record, upd_memory;
    cbn [oom_memory_usage_bytes];
    [intros [Hl|?]%with_present|intros [Hl|?]%on_handle_present]; auto;
    try (left; by apply memory_labels_eq in Hl as [? _]). intros l. by apply raise_elsewhere.
Qed.

Lemma do_record_last_seen e r c :
  last_seen (do_record e r c)
  = match r with
    | RTrack => <[key_of_event e := ev_timestamp e]> (last_seen c)
    | _ => last_seen c
    end.
Proof. by destruct r. Qed.

Lemma do_remove_kills d c k :
  wf_collector c -> is_Some (kills (do_remove d c) k) -> d <> DKills k /\ is_Some (kills c k).
Proof.
  intros Hwf. destruct d as [k'| | |]; try done. unfold kills, do_remove, upd_kills.
  cbn [oom_kills_total]. rewrite mv_delete_value by (by rewrite wf_kills).
  case_decide as Hl; [by intros []|]. split; [|done]. intros [= ->]. done.
Qed.

Lemma do_remove_stamp d c k :
  wf_collector c -> is_Some (stamp (do_remove d c) k) ->
  d <> DTimestamp k /\ is_Some (stamp c k).
Proof.
  intros Hwf. destruct d as [|k'| |]; try done. unfold stamp, do_remove, upd_timestamp.
  cbn [oom_last_timestamp]. rewrite mv_delete_value by (by rewrite wf_timestamp).
  case_decide as Hl; [by intros []|]. split; [|done]. intros [= ->]. done.
Qed.

Lemma do_remove_memory d c k mt :
  wf_collector c -> is_Some (memory (do_remove d c) k mt) ->
  (forall k', d = DMemory k' mt -> shares_memory_series_with k' k = false) /\
  is_Some (memory c k mt).
Proof.
  intros Hwf. destruct d as [| |k' mt'|]; try done. unfold memory, do_remove, upd_memory.
  cbn [oom_memory_usage_bytes]. rewrite mv_delete_value by (by rewrite wf_memory).
  case_decide as Hl; [by intros []|]. split; [|done]. intros k'' [= <- <-].
  apply not_true_is_false. intros Hs. by apply Hl, memory_labels_eq.
Qed.

Lemma do_remove_last_seen d c : last_seen (do_remove d c) = last_seen c.
Proof. by destruct d. Qed.

(** ** The invariant of the interleaving *)

(** [k] is being recorded and not tracked yet. *)
Definition in_flight (r : Recorder) k : Prop :=
  match r with RIdle => False | Recording e rest => RTrack ∈ rest /\ key_of_event e = k end.

(** The sweeper still has [d] to do. *)
Definition pending (s : Sweeper) (d : RemoveStep) : Prop :=
  match s with SRemoving rest => d ∈ rest | _ => False end.

(** A pending removal is still justified: its label set is untracked, and a memory gauge
    goes only if no tracked label set names its container. *)
Definition justified c (d : RemoveStep) : Prop :=
  match d with
  | DKills k | DTimestamp k => last_seen c !! k = None
  | DMemory k _ => forall l, is_Some (last_seen c !! l) -> shares_memory_series_with l k = false
  | DEvicted _ => True
  end.

(** A series is accounted for: tracked, about to be tracked, or about to be removed. *)
Definition accounted (P : SeriesKey -> Prop) (D : SeriesKey -> RemoveStep) c r s : Prop :=
  exists k, P k /\ (is_Some (last_seen c !! k) \/ in_flight r k \/ pending s (D k)).

Record interleaving_inv (w : World) : Prop := {
  iv_wf : wf_collector (col w);
  iv_program : forall e rest, recorder w = Recording e rest ->
    exists before, record_program e = before ++ rest;
  iv_guard : forall d, pending (sweeper w) d -> justified (col w) d;
  iv_kills : forall k, is_Some (kills (col w) k) ->
    accounted (fun k' => k' = k) DKills (col w) (recorder w) (sweeper w);
  iv_stamp : forall k, is_Some (stamp (col w) k) ->
    accounted (fun k' => k' = k) DTimestamp (col w) (recorder w) (sweeper w);
  iv_memory : forall k mt, mt ∈ MEMORY_TYPES -> is_Some (memory (col w) k mt) ->
    accounted (fun k' => shares_memory_series_with k' k = true) (fun k' => DMemory k' mt)
      (col w) (recorder w) (sweeper w);
}.

(** The last call of the program is the one that tracks. *)
Lemma track_is_last e before r rest :
  record_program e = before ++ r :: rest -> r <> RTrack -> RTrack ∈ rest.
Proof.
  intros He Hr. destruct (last (r :: rest)) as [x|] eqn:Hl; [|by apply last_None in Hl].
  assert (last (before ++ r :: rest) = Some x) as Hx.
  { apply last_Some in Hl as [l' ->]. by rewrite app_assoc, last_snoc. }
  rewrite <- He in Hx. unfold record_program in Hx. rewrite !app_assoc in Hx.
  change [RTimestamp; RTimestampSet; RTrack] with ([RTimestamp; RTimestampSet] ++ [RTrack]) in Hx.
  rewrite app_assoc, last_snoc in Hx. simplify_eq.
  apply last_Some in Hl as [[|y l'] Hl]; simplify_eq/=. set_solver.
Qed.

Lemma accounted_mono P D c r s c' r' s' :
  (forall k, is_Some (last_seen c !! k) -> accounted P D c' r' s' \/ ~ P k) ->
  (forall k, in_flight r k -> accounted P D c' r' s' \/ ~ P k) ->
  (forall k, pending s (D k) -> accounted P D c' r' s' \/ ~ P k) ->
  accounted P D c r s -> accounted P D c' r' s'.
Proof. intros H1 H2 H3 (k & HP & [Hk|[Hk|Hk]]); naive_solver. Qed.

Lemma world_inv_start : interleaving_inv start.
Proof.
  destruct tracked_new as [Hwf Hk Hs Hm]. split; simpl; try done.
  - intros k Hx. apply Hk in Hx. exists k. auto.
  - intros k Hx. apply Hs in Hx. exists k. auto.
  - intros k mt Hmt Hx. apply Hm in Hx as (k' & Hx & Hs'); [|done]. exists k'. auto.
Qed.

(** Steps that touch no per-container series and only add to what is in flight. *)
Lemma world_inv_ext c r s c' r' s' :
  oom_kills_total c' = oom_kills_total c -> oom_last_timestamp c' = oom_last_timestamp c ->
  oom_memory_usage_bytes c' = oom_memory_usage_bytes c -> last_seen c' = last_seen c ->
  (wf_collector c -> wf_collector c') ->
  (forall k, in_flight r k -> in_flight r' k) ->
  (forall e rest, r' = Recording e rest -> exists before, record_program e = before ++ rest) ->
  (forall d, pending s' d <-> pending s d) ->
  interleaving_inv {| col := c; recorder := r; sweeper := s |} ->
  interleaving_inv {| col := c'; recorder := r'; sweeper := s' |}.
Proof.
  intros Hk Ht Hm Hl Hwf Hr Hp Hs [Iwf Ip Ig Ik It Im]. simpl in *.
  assert (forall P D, accounted P D c r s -> accounted P D c' r' s') as Hacc.
  { intros P D (k & HP & Hc). exists k. split; [done|]. rewrite Hl, Hs.
    destruct Hc as [?|[?|?]]; auto. }
  split; simpl; auto.
  - intros d Hd. rewrite Hs in Hd. specialize (Ig d Hd). unfold justified in *.
    by rewrite Hl.
  - unfold kills in *. rewrite Hk. auto.
  - unfold stamp in *. rewrite Ht. auto.
  - unfold memory in *. rewrite Hm. auto.
Qed.

(** Running one call of the recorder keeps what is accounted for so. *)
Lemma accounted_record P D e r rest c s :
  (r <> RTrack -> RTrack ∈ rest) ->
  accounted P D c (Recording e (r :: rest)) s ->
  accounted P D (do_record e r c) (Recording e rest) s.
Proof.
  intros Hrest (k & HP & Hc). exists k. split; [done|]. rewrite do_record_last_seen.
  destruct Hc as [Hc|[[Hc Hk]|Hc]]; [left|..|by auto].
  - destruct r; try done. rewrite lookup_insert. by case_decide.
  - simpl in Hk. subst k. apply elem_of_cons in Hc as [<-|Hc]; [left|right; left; by split].
    by rewrite lookup_insert, decide_True.
Qed.

Lemma being_recorded e r rest (P : SeriesKey -> Prop) D c s :
  (r <> RTrack -> RTrack ∈ rest) -> P (key_of_event e) ->
  accounted P D (do_record e r c) (Recording e rest) s.
Proof.
  intros Hrest HP. apply accounted_record; [done|]. exists (key_of_event e).
  split; [done|]. right. left. split; [|done].
  destruct r; [right; by apply Hrest..|left].
Qed.

Lemma world_inv_record_call e r rest c s :
  (r = RTrack -> guard_held s = false) ->
  interleaving_inv {| col := c; recorder := Recording e (r :: rest); sweeper := s |} ->
  interleaving_inv {| col := do_record e r c; recorder := Recording e rest; sweeper := s |}.
Proof.
  intros Hg [Iwf Ip Ig Ik It Im]. simpl in *.
  destruct (Ip e _ eq_refl) as [before Hb].
  assert (r <> RTrack -> RTrack ∈ rest) as Hrest by (by eapply track_is_last).
  split; cbn [col recorder sweeper].
  - by apply wf_do_record.
  - intros e' rest' [= <- <-]. exists (before ++ [r]). by rewrite <- app_assoc.
  - intros d Hd. destruct (decide (r = RTrack)) as [->|Hr].
    + specialize (Hg eq_refl). destruct s; done.
    + specialize (Ig d Hd). unfold justified in *. rewrite do_record_last_seen.
      by destruct r.
  - intros k Hk. apply do_record_kills in Hk as [->|Hk]; [|..|done].
    + by apply being_recorded.
    + apply accounted_record; auto.
  - intros k Hk. apply do_record_stamp in Hk as [->|Hk]; [|..|done].
    + by apply being_recorded.
    + apply accounted_record; auto.
  - intros k mt Hmt Hk. apply do_record_memory in Hk as [Hs|Hk]; [|..|done].
    + by apply being_recorded.
    + apply accounted_record; auto.
Qed.

Lemma elem_of_removals live stale d :
  d ∈ removals live stale <->
  exists k, k ∈ stale /\ d ∈ remove_program k (orphaned live k).
Proof. unfold removals. rewrite list_elem_of_bind. naive_solver. Qed.

Lemma elem_of_remove_program k b d :
  d ∈ remove_program k b <->
  d = DKills k \/ d = DTimestamp k \/ d = DEvicted k \/
  (b = true /\ exists mt, mt ∈ MEMORY_TYPES /\ d = DMemory k mt).
Proof.
  unfold remove_program. rewrite !elem_of_app, !elem_of_cons, elem_of_nil.
  assert (d ∈ (if b then DMemory k <$> MEMORY_TYPES else []) <->
          b = true /\ exists mt, mt ∈ MEMORY_TYPES /\ d = DMemory k mt) as ->.
  { destruct b; [|set_solver]. rewrite list_elem_of_fmap. naive_solver. }
  tauto.
Qed.

(** The scan moves every key from tracked to still tracked or to be removed. *)
Lemma scan_cases due now ttl c k :
  is_Some (last_seen c !! k) ->
  is_Some ((retain (keep_series due now ttl) (last_seen c)).1 !! k) \/
  k ∈ (retain (keep_series due now ttl) (last_seen c)).2.
Proof.
  intros [x Hx]. rewrite retain_kept, retain_dropped, Hx.
  destruct (keep_series due now ttl k x) eqn:E; [left|right]; by eauto.
Qed.

Lemma scan_disjoint due now ttl c k :
  k ∈ (retain (keep_series due now ttl) (last_seen c)).2 ->
  (retain (keep_series due now ttl) (last_seen c)).1 !! k = None.
Proof. rewrite retain_kept, retain_dropped. by intros (x & -> & ->). Qed.

Lemma world_inv_scan due now ttl c r :
  let live := (retain (keep_series due now ttl) (last_seen c)).1 in
  let stale := (retain (keep_series due now ttl) (last_seen c)).2 in
  interleaving_inv {| col := c; recorder := r; sweeper := SDrained now ttl due |} ->
  interleaving_inv {| col := upd_last_seen (fun _ => live) c; recorder := r;
                      sweeper := SRemoving (removals live stale) |}.
Proof.
  intros live stale [Iwf Ip Ig Ik It Im]. cbn [col recorder sweeper] in *.
  assert (forall c' : Collector, last_seen (upd_last_seen (fun _ => live) c') = live) as Hls
    by done.
  assert (forall k D, is_Some (last_seen c !! k) -> D = DKills k \/ D = DTimestamp k ->
    is_Some (live !! k) \/ D ∈ removals live stale) as Hmove.
  { intros k D Hk HD. destruct (scan_cases due now ttl c k Hk) as [?|Hst]; [by left|right].
    apply elem_of_removals. exists k. split; [done|]. apply elem_of_remove_program. tauto. }
  split; cbn [col recorder sweeper]; try done.
  - by apply wf_upd_last_seen.
  - intros d (k & Hk & Hd)%elem_of_removals. apply elem_of_remove_program in Hd.
    destruct Hd as [->|[->|[->|(Ho & mt & _ & ->)]]]; simpl; [by apply scan_disjoint..|done|].
    by apply orphaned_spec.
  - intros k (k' & -> & Hc)%Ik. exists k. split; [done|]. rewrite Hls.
    destruct Hc as [Hc|[Hc|[]]]; [|by auto]. edestruct (Hmove k (DKills k)); auto.
  - intros k (k' & -> & Hc)%It. exists k. split; [done|]. rewrite Hls.
    destruct Hc as [Hc|[Hc|[]]]; [|by auto]. edestruct (Hmove k (DTimestamp k)); auto.
  - intros k mt Hmt (k' & Hs & Hc)%Im; [|done]. destruct Hc as [Hc|[Hc|[]]].
    + destruct (scan_cases due now ttl c k' Hc) as [?|Hst]; [by exists k'; auto|].
      destruct (orphaned live k') eqn:Ho.
      * exists k'. split; [done|]. right. right. apply elem_of_removals. exists k'.
        split; [done|]. apply elem_of_remove_program. eauto 8.
      * unfold orphaned in Ho. apply negb_false_iff, existsb_exists in Ho as (l & Hl & Hlk).
        apply list_elem_of_In, list_elem_of_fmap in Hl as ([l' x] & -> & Hl%elem_of_map_to_list).
        exists l'. split; [by eapply shares_trans|]. left. rewrite Hls. by eexists.
    + exists k'. auto.
Qed.

Lemma world_inv_remove d rest c r :
  interleaving_inv {| col := c; recorder := r; sweeper := SRemoving (d :: rest) |} ->
  interleaving_inv {| col := do_remove d c; recorder := r; sweeper := SRemoving rest |}.
Proof.
  intros [Iwf Ip Ig Ik It Im]. cbn [col recorder sweeper] in *.
  split; cbn [col recorder sweeper]; try done.
  - by apply wf_do_remove.
  - intros d' Hd. specialize (Ig d' (list_elem_of_further _ _ _ Hd)). unfold justified in *.
    by rewrite do_remove_last_seen.
  - intros k [Hd Hk]%do_remove_kills; [|done]. destruct (Ik k Hk) as (k' & -> & Hc).
    exists k. split; [done|]. rewrite do_remove_last_seen.
    destruct Hc as [?|[?|Hc]]; [by auto..|]. apply elem_of_cons in Hc as [Hc|Hc]; [congruence|auto].
  - intros k [Hd Hk]%do_remove_stamp; [|done]. destruct (It k Hk) as (k' & -> & Hc).
    exists k. split; [done|]. rewrite do_remove_last_seen.
    destruct Hc as [?|[?|Hc]]; [by auto..|]. apply elem_of_cons in Hc as [Hc|Hc]; [congruence|auto].
  - intros k mt Hmt [Hd Hk]%do_remove_memory; [|done].
    destruct (Im k mt Hmt Hk) as (k' & Hs & Hc). exists k'. split; [done|].
    rewrite do_remove_last_seen. destruct Hc as [?|[?|Hc]]; [by auto..|].
    apply elem_of_cons in Hc as [<-|Hc]; [|by auto]. by rewrite (Hd k' eq_refl) in Hs.
Qed.

Lemma world_inv_step w w' : step w w' -> interleaving_inv w -> interleaving_inv w'.
Proof.
  intros [ e c s | e r rest c s Hg | e c s | node o c s | node t c s | ns pod now c r s
         | now ttl c r | now ttl due c r | d rest c r | c r ].
  - apply world_inv_ext; try done. intros e' rest [= <- <-]. by exists [].
  - by apply world_inv_record_call.
  - apply world_inv_ext; try done. intros k [Hin _]. by apply elem_of_nil in Hin.
  - apply world_inv_ext; try done; [by destruct o..|by apply wf_record_outcome].
  - destruct (record_dropped_rest node t c) as (? & ? & ? & ? & ?).
    apply world_inv_ext; try done; [..|by apply wf_record_dropped];
      unfold collector_record_dropped_total;
      by destruct (checked_sub t _) as [d|]; [destruct (0 <? d)|].
  - intros Hi. pose proof (iv_program _ Hi). revert Hi. apply world_inv_ext; try done.
    apply wf_upd_deleted.
  - intros Hi. pose proof (iv_program _ Hi). revert Hi. apply world_inv_ext; try done.
    apply wf_upd_deleted.
  - apply world_inv_scan.
  - apply world_inv_remove.
  - intros Hi. pose proof (iv_program _ Hi). revert Hi. apply world_inv_ext; try done.
    intros d. simpl. by rewrite elem_of_nil.
Qed.

Lemma world_inv_reachable w : reachable w -> interleaving_inv w.
Proof.
  intros Hr. assert (forall w0, rtc step w0 w -> interleaving_inv w0 -> interleaving_inv w)
    as Hpres.
  { intros w0. induction 1 as [|w1 w2 w3 Hs _ IH]; [done|]. intros Hi.
    by apply IH, (world_inv_step w1). }
  apply (Hpres start Hr), world_inv_start.
Qed.

(** ** Uninterrupted runs are the operations *)

Lemma record_rest e rest c s :
  guard_held s = false ->
  rtc step {| col := c; recorder := Recording e rest; sweeper := s |}
    {| col := foldl (fun c r => do_record e r c) c rest; recorder := RIdle; sweeper := s |}.
Proof.
  intros Hg. revert c. induction rest as [|r rest IH]; intros c.
  - apply rtc_once, record_return.
  - eapply rtc_l; [by apply record_call|]. apply IH.
Qed.

(** The state after all the calls of a recording. *)
Definition recorded_by (e : EnrichedOomEvent) c : Collector :=
  foldl (fun c r => do_record e r c) c (record_program e).

(** An update right after the creation of its series. *)
Lemma on_handle_with ls f (v : V) :
  length ls = mv_arity v -> on_handle ls f (mv_with ls v) = f (mv_with ls v).
Proof. intros Hl. unfold on_handle. rewrite mv_with_value by done. by rewrite decide_True. Qed.

Lemma inc_after_with ls (v : V) :
  length ls = mv_arity v -> mv_equiv (on_handle ls (mv_inc ls) (mv_with ls v)) (mv_inc ls v).
Proof.
  intros Hl. rewrite on_handle_with by done. split.
  - by rewrite !mv_inc_arity, mv_with_arity.
  - intros l. rewrite !mv_inc_value, !mv_with_value by (by rewrite ?mv_with_arity).
    by repeat case_decide; subst.
Qed.

Lemma set_after_with ls x (v : V) :
  length ls = mv_arity v -> mv_equiv (on_handle ls (mv_set ls x) (mv_with ls v)) (mv_set ls x v).
Proof.
  intros Hl. rewrite on_handle_with by done. split.
  - by rewrite !mv_set_arity, mv_with_arity.
  - intros l. rewrite !mv_set_value, !mv_with_value by (by rewrite ?mv_with_arity).
    by case_decide.
Qed.

Lemma raise_after_with ls kb (v : V) :
  length ls = mv_arity v ->
  on_handle ls (raise ls (f64_of_N (wrapping_mul kb 1024))) (mv_with ls v) = raise_gauge ls kb v.
Proof. intros Hl. by rewrite on_handle_with. Qed.

Lemma run_record_program e c :
  wf_collector c -> collector_equiv (recorded_by e c) (collector_record_oom_event e c).
Proof.
  intros Hwf. split; try done.
  - rewrite record_event_kills. apply inc_after_with. by rewrite (wf_kills _ Hwf).
  - rewrite record_event_memory. unfold raise_gauges, memory_values.
    cbn [zip zip_with MEMORY_TYPES foldl].
    rewrite <- !raise_after_with by (by rewrite ?raise_gauge_arity, (wf_memory _ Hwf)). done.
  - rewrite record_event_timestamp. apply set_after_with. by rewrite (wf_timestamp _ Hwf).
Qed.

Lemma remove_rest rest c r :
  rtc step {| col := c; recorder := r; sweeper := SRemoving rest |}
    {| col := foldl (fun c d => do_remove d c) c rest; recorder := r; sweeper := SIdle |}.
Proof.
  revert c. induction rest as [|d rest IH]; intros c.
  - apply rtc_once, sweep_return.
  - eapply rtc_l; [by apply sweep_remove|]. apply IH.
Qed.

Lemma run_removals live stale c :
  foldl (fun c d => do_remove d c) c (removals live stale) = remove_all live stale c.
Proof.
  unfold removals, remove_all. revert c. induction stale as [|k stale IH]; intros c; [done|].
  simpl. rewrite foldl_app, IH. f_equal. by destruct (orphaned live k).
Qed.

Lemma run_recording e c s :
  guard_held s = false ->
  rtc step {| col := c; recorder := RIdle; sweeper := s |}
    {| col := recorded_by e c; recorder := RIdle; sweeper := s |}.
Proof. intros Hg. eapply rtc_l; [apply record_start|]. by apply record_rest. Qed.

Lemma run_sweep now ttl c r :
  rtc step {| col := c; recorder := r; sweeper := SIdle |}
    {| col := (evict_stale now ttl c).2; recorder := r; sweeper := SIdle |}.
Proof.
  eapply rtc_l; [apply (sweep_drain now ttl)|].
  eapply rtc_l; [apply (sweep_scan now ttl)|].
  rewrite evict_stale_unfold, <- run_removals. apply remove_rest.
Qed.

(** ** A sweep between two calls of a recording *)

Definition do_calls (e : EnrichedOomEvent) (l : list RecordStep) c : Collector :=
  foldl (fun c r => do_record e r c) c l.

Lemma run_calls e done rest c s :
  RTrack ∉ done ->
  rtc step {| col := c; recorder := Recording e (done ++ rest); sweeper := s |}
    {| col := do_calls e done c; recorder := Recording e rest; sweeper := s |}.
Proof.
  revert c. induction done as [|r done IH]; intros c Hd; [done|].
  apply not_elem_of_cons in Hd as [Hr Hd].
  eapply rtc_l; [apply record_call; congruence|]. by apply IH.
Qed.

Lemma wf_do_calls e l c : wf_collector c -> wf_collector (do_calls e l c).
Proof.
  unfold do_calls. revert c. induction l as [|r l IH]; intros c Hc; [done|].
  by apply IH, wf_do_record.
Qed.

Lemma do_calls_last_seen e l c :
  last_seen (do_calls e l c)
  = if decide (RTrack ∈ l) then <[key_of_event e := ev_timestamp e]> (last_seen c) else last_seen c.
Proof.
  unfold do_calls. revert c. induction l as [|r l IH]; intros c; [done|]. simpl.
  rewrite IH, do_record_last_seen.
  destruct (decide (RTrack ∈ l)) as [Hl|Hl], (decide (RTrack ∈ r :: l)) as [Hr|Hr];
    rewrite elem_of_cons in Hr; destruct r; try done; try (exfalso; naive_solver).
  apply insert_insert_eq.
Qed.

(** Only its first two calls touch the kill counter, and only one the node total. *)
Lemma do_calls_kills e l c :
  RKills ∉ l -> RKillsInc ∉ l -> oom_kills_total (do_calls e l c) = oom_kills_total c.
Proof.
  unfold do_calls. revert c. induction l as [|r l IH]; intros c H1 H2; [done|].
  apply not_elem_of_cons in H1 as [? ?], H2 as [? ?]. simpl. rewrite IH by done. by destruct r.
Qed.

Lemma do_calls_per_node e l c :
  NoDup (filter (fun r => r = RPerNode) l) ->
  oom_kills_per_node_total (do_calls e l c)
  = if decide (RPerNode ∈ l) then mv_inc [k_node (key_of_event e)] (oom_kills_per_node_total c)
    else oom_kills_per_node_total c.
Proof.
  unfold do_calls. revert c. induction l as [|r l IH]; intros c Hn; [done|].
  rewrite filter_cons in Hn. destruct (decide (r = RPerNode)) as [->|Hr].
  - apply NoDup_cons in Hn as [Hin Hn]. rewrite list_elem_of_filter in Hin.
    cbn [foldl]. rewrite IH by done. rewrite decide_False by naive_solver.
    by rewrite decide_True by left.
  - cbn [foldl]. rewrite IH by done.
    destruct (decide (RPerNode ∈ l)); [rewrite decide_True by (by right)
      |rewrite decide_False by (by intros [?|?]%elem_of_cons)]; by destruct r.
Qed.

(** Once the counter has been incremented and until the label set is tracked, the calls that
    remain are neither of the first two. *)
Lemma program_window e done rest :
  record_program e = done ++ rest -> RKillsInc ∈ done -> RTrack ∈ rest ->
  RTrack ∉ done /\ RKills ∉ rest /\ RKillsInc ∉ rest /\
  ((RPerNode ∈ done /\ RPerNode ∉ rest) \/ (RPerNode ∉ done /\ RPerNode ∈ rest)) /\
  NoDup (filter (fun r => r = RPerNode) done) /\ NoDup (filter (fun r => r = RPerNode) rest).
Proof.
  intros Hp Hd Hr. unfold record_program, memory_values, MEMORY_TYPES in Hp.
  cbn [zip zip_with mbind list_bind app] in Hp.
  repeat match goal with
  | Hp : _ :: _ = ?d ++ rest |- _ => destruct d as [|? d]; simplify_list_eq
  | Hp : [] = _ ++ rest |- _ => symmetry in Hp; apply app_nil in Hp as [-> ->]
  end.
  all: try (exfalso; set_solver).
  all: split_and!; apply (bool_decide_unpack _); exact I.
Qed.
End concurrency.
Arguments World V : clear implicits.

Section properties.
Context {V : Type} `{MetricVecLaws V}.
Abbreviation Collector := (MetricsCollector V).

(** C33: the steps refine the operations: from any state, the watch loop's steps run
    without interruption end in a state no scrape and no later operation can tell from the
    one [record_oom_event] returns, as long as the sweeper does not hold the guard, and the
    sweeper's steps are [evict_stale], whatever the watch loop is in the middle of. *)
Theorem uninterrupted_steps_are_the_operations (c : Collector) e now ttl r s :
  (wf_collector c -> guard_held s = false ->
   exists c', collector_equiv c' (collector_record_oom_event e c) /\
     rtc step {| col := c; recorder := RIdle; sweeper := s |}
              {| col := c'; recorder := RIdle; sweeper := s |}) /\
  rtc step {| col := c; recorder := r; sweeper := SIdle |}
           {| col := (evict_stale now ttl c).2; recorder := r; sweeper := SIdle |}.
Proof.
  split.
  - intros Hwf Hg. exists (recorded_by e c). split; [by apply run_record_program|by apply run_recording].
  - apply run_sweep.
Qed.

(** C18: what the guard buys: however the tasks interleave, while the sweeper removes, the
    label sets it is about to delete stay untracked, and a shared memory gauge it is about
    to delete is named by no tracked label set. So no removal hits a label set that was
    recorded (to the end) after the scan. *)
Theorem removals_stay_justified (w : World V) (d : RemoveStep) :
  reachable w -> pending (sweeper w) d -> justified (col w) d.
Proof. intros Hr. apply (iv_guard _ (world_inv_reachable w Hr)). Qed.

(** C10: no interleaving leaks a series: whenever no recording and no sweep is under way,
    every exported kill counter and timestamp is tracked, and every memory gauge has a
    tracked label set of its container, so a later sweep can find and remove them all. *)
Theorem no_interleaving_leaks_a_series (w : World V) (k : SeriesKey) :
  reachable w -> recorder w = RIdle -> guard_held (sweeper w) = false ->
  (is_Some (kills (col w) k) -> is_Some (last_seen (col w) !! k)) /\
  (is_Some (stamp (col w) k) -> is_Some (last_seen (col w) !! k)) /\
  (forall mt, mt ∈ MEMORY_TYPES -> is_Some (memory (col w) k mt) ->
     exists k', is_Some (last_seen (col w) !! k') /\ shares_memory_series_with k' k = true).
Proof.
  intros Hr Hrec Hg. destruct (world_inv_reachable w Hr) as [_ _ _ Ik It Im].
  assert (forall d, pending (sweeper w) d -> False) as Hp by (by destruct (sweeper w)).
  rewrite Hrec in *. split_and!.
  - intros (k' & -> & [?|[[]|Hd]])%Ik; [done|destruct (Hp _ Hd)].
  - intros (k' & -> & [?|[[]|Hd]])%It; [done|destruct (Hp _ Hd)].
  - intros mt Hmt (k' & Hs & [?|[[]|Hd]])%Im; [by exists k'|destruct (Hp _ Hd)|done].
Qed.
(** The node total across a sweep in the middle of a recording. *)
Lemma sweep_between_counts_once (c : Collector) e before after now ttl :
  wf_collector c ->
  (RPerNode ∈ before /\ RPerNode ∉ after) \/ (RPerNode ∉ before /\ RPerNode ∈ after) ->
  NoDup (filter (fun r => r = RPerNode) before) -> NoDup (filter (fun r => r = RPerNode) after) ->
  per_node (do_calls e after (evict_stale now ttl (do_calls e before c)).2) (k_node (key_of_event e))
  = Some (f64_add (default 0 (per_node c (k_node (key_of_event e)))) 1).
Proof.
  intros Hwf Hper Hn1 Hn2. unfold per_node. rewrite do_calls_per_node by done.
  rewrite (proj1 (swept_rest now ttl (do_calls e before c))), do_calls_per_node by done.
  destruct Hper as [[? ?]|[? ?]]; repeat case_decide; try done;
    rewrite mv_inc_value by (by rewrite (wf_per_node _ Hwf)); by rewrite decide_True.
Qed.

(** A recording that is over before the sweep keeps its increment. *)
Lemma record_then_sweep_keeps (c : Collector) e now ttl :
  let k := key_of_event e in
  wf_collector c -> now - ev_timestamp e < ttl ->
  (forall t, deleted_after c !! (k_namespace k, k_pod k) = Some t -> now < t) ->
  kills (evict_stale now ttl (collector_record_oom_event e c)).2 k
  = Some (f64_add (default 0 (kills c k)) 1).
Proof.
  intros k Hwf Hyoung Hdel. rewrite swept_kills by (by apply wf_record_event).
  rewrite decide_False; [rewrite kills_record by done; by rewrite decide_True|].
  rewrite (stale_keys_iff now ttl _ k (ev_timestamp e)).
  - intros [?|(t & Ht%Hdel & ?)]; lia.
  - by rewrite record_event_last_seen, lookup_insert, decide_True.
Qed.

(** C40: the guard does not protect a recording that has started. Take any reachable state
    in which a label set is tracked and aged out, any kill of it, and any point of its
    recording after the counter's increment and before [last_seen] is locked. A sweep can
    run there, and the recording then finish; afterwards the label set is tracked as killed
    just now, with no kill counter behind it, and the node total alone counts the kill.
    Either order of the two without overlap leaves a counter: swept first, it restarts at
    one; recorded first, it survives the sweep, increment included, as long as the kill is
    younger than the time-to-live and the pod not past a deletion's grace. *)
Theorem sweep_inside_a_recording_loses_the_kill (w : World V) (e : EnrichedOomEvent)
    (before after : list RecordStep) (seen now ttl : N) :
  reachable w -> recorder w = RIdle -> sweeper w = SIdle ->
  last_seen (col w) !! key_of_event e = Some seen -> ttl <= now - seen ->
  record_program e = before ++ after -> RKillsInc ∈ before -> RTrack ∈ after ->
  let k := key_of_event e in
  let mid := do_calls e before (col w) in
  let swept := (evict_stale now ttl mid).2 in
  let c' := do_calls e after swept in
  rtc step w {| col := mid; recorder := Recording e after; sweeper := SIdle |} /\
  rtc step {| col := mid; recorder := Recording e after; sweeper := SIdle |}
           {| col := swept; recorder := Recording e after; sweeper := SIdle |} /\
  rtc step {| col := swept; recorder := Recording e after; sweeper := SIdle |}
           {| col := c'; recorder := RIdle; sweeper := SIdle |} /\
  last_seen c' !! k = Some (ev_timestamp e) /\ kills c' k = None /\
  per_node c' (k_node k) = Some (f64_add (default 0 (per_node (col w) (k_node k))) 1) /\
  kills (collector_record_oom_event e (evict_stale now ttl (col w)).2) k = Some 1 /\
  (now - ev_timestamp e < ttl ->
   (forall t, deleted_after (col w) !! (k_namespace k, k_pod k) = Some t -> now < t) ->
   kills (evict_stale now ttl (collector_record_oom_event e (col w))).2 k
   = Some (f64_add (default 0 (kills (col w) k)) 1)).
Proof.
  destruct w as [c r s]. intros Hreach Hrec Hswp Hseen Hage Hp Hb Ha.
  cbn [col recorder sweeper] in Hrec, Hswp, Hseen. subst r s.
  pose proof (iv_wf _ (world_inv_reachable _ Hreach)) as Hwf. cbn [col] in Hwf.
  destruct (program_window e before after Hp Hb Ha) as (Htr & Hk1 & Hk2 & Hper & Hn1 & Hn2).
  intros k mid swept c'.
  assert (wf_collector mid) as Hmid by (by apply wf_do_calls).
  assert (last_seen mid = last_seen c) as Hls
    by (unfold mid; rewrite do_calls_last_seen; by rewrite decide_False).
  assert (k ∈ stale_keys now ttl c) as Hst by (apply (stale_keys_iff now ttl c k seen); [done|by left]).
  assert (k ∈ stale_keys now ttl mid) as Hstm.
  { apply (stale_keys_iff now ttl mid k seen); [by rewrite Hls|by left]. }
  assert (wf_collector swept) as Hsw by (by apply wf_evict_stale).
  split_and!.
  - eapply rtc_l; [apply (record_start e)|]. rewrite Hp. by apply run_calls.
  - apply run_sweep.
  - by apply record_rest.
  - unfold c'. rewrite do_calls_last_seen, decide_True by done.
    by rewrite lookup_insert, decide_True.
  - unfold kills, c'. rewrite do_calls_kills by done. change (kills swept k = None).
    unfold swept. by rewrite swept_kills, decide_True.
  - apply sweep_between_counts_once; done.
  - rewrite kills_record by (by apply wf_evict_stale). rewrite decide_True by done.
    by rewrite swept_kills, decide_True.
  - intros Hyoung Hdel. apply record_then_sweep_keeps; done.
Qed.

End properties.

(** ** Concrete runs *)

(** The world after a first kill of restart 1 at second 1000. *)
Definition after_first : World MapVec :=
  {| col := recorded_by (sample_kill 1 1000) mapped_new; recorder := RIdle; sweeper := SIdle |}.

Lemma after_first_reachable : reachable after_first.
Proof. by apply (run_recording (sample_kill 1 1000)). Qed.

(** A second kill of the same label set at 4600, overtaken by a sweep at 4700 when all its
    calls are done but the last. *)
Definition overtaken : list RecordStep := take 13 (record_program (sample_kill 1 4600)).

Lemma sweep_inside_a_recording_loses_the_kill_witness :
  let c' := do_calls (sample_kill 1 4600) [RTrack]
              (evict_stale 4700 3600 (do_calls (sample_kill 1 4600) overtaken (col after_first))).2 in
  last_seen c' !! sample_key 1 = Some 4600 /\ kills c' (sample_key 1) = None /\
  per_node c' (lit "node-1") = Some 2 /\
  kills (evict_stale 4700 3600 (collector_record_oom_event (sample_kill 1 4600) (col after_first))).2
    (sample_key 1) = Some 2.
Proof.
  intros c'.
  destruct (sweep_inside_a_recording_loses_the_kill after_first (sample_kill 1 4600) overtaken
    [RTrack] 1000 4700 3600) as (_ & _ & _ & Hl & Hk & Hn & _ & Hkeep).
  - apply after_first_reachable.
  - done.
  - done.
  - by vm_compute.
  - by vm_compute.
  - by vm_compute.
  - right. left.
  - left.
  - split_and!; [exact Hl|exact Hk|etrans; [exact Hn|by vm_compute]|].
    etrans; [apply Hkeep; [by vm_compute|]|by vm_compute]. intros t Ht. by vm_compute in Ht.
Defined.

Lemma uninterrupted_steps_are_the_operations_witness :
  (exists c', collector_equiv c' (collector_record_oom_event (sample_kill 1 1000) mapped_new) /\
     rtc step start {| col := c'; recorder := RIdle; sweeper := SIdle |}) /\
  rtc step after_first
    {| col := (evict_stale 4700 3600 (col after_first)).2; recorder := RIdle; sweeper := SIdle |}.
Proof.
  split.
  - apply (uninterrupted_steps_are_the_operations mapped_new (sample_kill 1 1000) 0 0 RIdle SIdle);
      [apply wf_collector_new|done].
  - apply (uninterrupted_steps_are_the_operations (col after_first) (sample_kill 1 1000) 4700
      3600 RIdle SIdle).
Defined.

(** The sweeper about to delete the first series. *)
Definition drained_first : World MapVec :=
  {| col := upd_deleted (fun _ => (retain (fun _ t => 4700 <? t)
              (deleted_after (col after_first))).1) (col after_first);
     recorder := RIdle;
     sweeper := SDrained 4700 3600 (due_pods 4700 (col after_first)) |}.

Definition removing_first : World MapVec :=
  let '(live, stale) := retain (keep_series (due_pods 4700 (col after_first)) 4700 3600)
                          (last_seen (col drained_first)) in
  {| col := upd_last_seen (fun _ => live) (col drained_first); recorder := RIdle;
     sweeper := SRemoving (removals live stale) |}.

Lemma removing_first_reachable : reachable removing_first.
Proof.
  unfold reachable. etrans; [apply after_first_reachable|].
  eapply rtc_l; [exact (sweep_drain 4700 3600 (col after_first) RIdle)|].
  apply rtc_once.
  exact (sweep_scan 4700 3600 (due_pods 4700 (col after_first)) (col drained_first) RIdle).
Qed.

Lemma removals_stay_justified_witness :
  last_seen (col removing_first) !! sample_key 1 = None.
Proof.
  apply (removals_stay_justified removing_first (DKills (sample_key 1))
    removing_first_reachable).
  assert (sweeper removing_first = SRemoving (removals ∅ [sample_key 1])) as -> by (by vm_compute).
  left.
Defined.

Lemma no_interleaving_leaks_a_series_witness :
  is_Some (last_seen (col after_first) !! sample_key 1).
Proof.
  apply (no_interleaving_leaks_a_series after_first (sample_key 1) after_first_reachable
    eq_refl eq_refl). vm_compute. by eexists.
Defined.
