(* ===== verification/Regex.v ===== *)
(** * Regex: the fragment of regular expressions the cgroup patterns use

    The patterns of [CONTAINER_ID_PATTERNS] ([oom-watcher/src/kubernetes.rs]) as syntax
    trees, a printer that gives back the pattern text of the source, and the documented
    leftmost-first search of the [regex] crate. The crate itself is an interface:
    what the code relies on is that its [captures] is that search. *)
From S2P Require Import Prelude Text.

(** ** Syntax *)

(** What matches one character. *)
Inductive Atom :=
| AChar (c : N)
| AClass (negated : bool) (ranges : list (N * N))
| ADot.

(** [RGroup] is the one capture group of a pattern; [RRep a n] is [a{n}]; [RLazy a] is
    [a*?]; [REnd] is [$] without the multi-line flag. *)
Inductive Re :=
| RAtom (a : Atom)
| RRep (a : Atom) (n : nat)
| RLazy (a : Atom)
| REnd
| RSeq (r1 r2 : Re)
| RAlt (r1 r2 : Re)
| RGroup (r : Re).

(** A literal string. *)
Fixpoint RStr (s : str) : Re :=
  match s with
  | [] => RRep ADot 0
  | [c] => RAtom (AChar c)
  | c :: s => RSeq (RAtom (AChar c)) (RStr s)
  end.

(** ** Printing, in the crate's pattern syntax *)

Definition show_range (r : N * N) : str := r.1 :: Chars.minus :: [r.2].

Definition show_class (negated : bool) (body : str) : str :=
  lit "[" ++ (if negated then lit "^" else []) ++ body ++ lit "]".

Definition show_atom (a : Atom) : str :=
  match a with
  | AChar c => [c]
  | AClass neg ranges =>
      show_class neg (concat ((fun r => if r.1 =? r.2 then [r.1] else show_range r) <$> ranges))
  | ADot => lit "."
  end.

(** The alternatives of a nest of [RAlt]. *)
Fixpoint show_re (r : Re) : str :=
  match r with
  | RAtom a => show_atom a
  | RRep a n => show_atom a ++ lit "{" ++ show_N (N.of_nat n) ++ lit "}"
  | RLazy a => show_atom a ++ lit "*?"
  | REnd => lit "$"
  | RSeq r1 r2 => show_re r1 ++ show_re r2
  | RAlt r1 r2 => lit "(?:" ++ show_alt r1 ++ lit "|" ++ show_alt r2 ++ lit ")"
  | RGroup r => lit "(" ++ show_re r ++ lit ")"
  end
with show_alt (r : Re) : str :=
  match r with
  | RAlt r1 r2 => show_alt r1 ++ lit "|" ++ show_alt r2
  | RAtom a => show_atom a
  | RRep a n => show_atom a ++ lit "{" ++ show_N (N.of_nat n) ++ lit "}"
  | RLazy a => show_atom a ++ lit "*?"
  | REnd => lit "$"
  | RSeq r1 r2 => show_re r1 ++ show_re r2
  | RGroup r => lit "(" ++ show_re r ++ lit ")"
  end.

(** ** Matching *)

Definition in_ranges (ranges : list (N * N)) (c : N) : bool :=
  existsb (fun r => (r.1 <=? c) && (c <=? r.2)) ranges.

Definition atom_matches (a : Atom) (c : N) : bool :=
  match a with
  | AChar d => d =? c
  | AClass neg ranges => xorb neg (in_ranges ranges c)
  | ADot => negb (c =? Chars.newline)
  end.

(** [a{n}]. *)
Fixpoint match_rep (a : Atom) (n : nat) (s : str) : option str :=
  match n with
  | O => Some s
  | S n => match s with
           | [] => None
           | c :: s => if atom_matches a c then match_rep a n s else None
           end
  end.

(** [a*?]: every remainder, shortest match first. *)
Fixpoint match_lazy (a : Atom) (s : str) : list str :=
  s :: match s with
       | [] => []
       | c :: s => if atom_matches a c then match_lazy a s else []
       end.

(** The text of [s] before its suffix [rest]. *)
Definition consumed (s rest : str) : str := take (length s - length rest) s.

(** All ways to match at the head of [s], by priority: what is left, and the capture. *)
Fixpoint match_re (r : Re) (s : str) : list (str * option str) :=
  match r with
  | RAtom a => match s with
               | [] => []
               | c :: s => if atom_matches a c then [(s, None)] else []
               end
  | RRep a n => match match_rep a n s with Some s => [(s, None)] | None => [] end
  | RLazy a => (fun s => (s, None)) <$> match_lazy a s
  | REnd => match s with [] => [([], None)] | _ => [] end
  | RSeq r1 r2 =>
      match_re r1 s ≫= (fun '(s, cap) =>
        (fun '(s, cap') => (s, or_else cap' (fun _ => cap))) <$> match_re r2 s)
  | RAlt r1 r2 => match_re r1 s ++ match_re r2 s
  | RGroup r => (fun '(rest, _) => (rest, Some (consumed s rest))) <$> match_re r s
  end.

(** Leftmost-first search: the first match at the earliest position, with its capture. *)
Fixpoint search (r : Re) (s : str) : option (option str) :=
  match match_re r s with
  | (_, cap) :: _ => Some cap
  | [] => match s with [] => None | _ :: s => search r s end
  end.

(** The interface to the crate: [re.captures(text)], reduced to capture group 1. *)
Class RegexEngine := {
  captures : Re -> str -> option (option str);
  captures_is_search : forall r s, captures r s = search r s;
}.

#[export] Instance reference_engine : RegexEngine := {|
  captures := search;
  captures_is_search _ _ := eq_refl;
|}.

(** ** What a match is *)

Fixpoint matches (r : Re) (s rest : str) (cap : option str) : Prop :=
  match r with
  | RAtom a => exists c, s = c :: rest /\ atom_matches a c = true /\ cap = None
  | RRep a n => exists run, s = run ++ rest /\ length run = n /\
                            Forall (fun c => atom_matches a c = true) run /\ cap = None
  | RLazy a => exists run, s = run ++ rest /\ Forall (fun c => atom_matches a c = true) run /\
                           cap = None
  | REnd => s = [] /\ rest = [] /\ cap = None
  | RSeq r1 r2 => exists mid cap1 cap2, matches r1 s mid cap1 /\ matches r2 mid rest cap2 /\
                                        cap = or_else cap2 (fun _ => cap1)
  | RAlt r1 r2 => matches r1 s rest cap \/ matches r2 s rest cap
  | RGroup r => exists txt cap', s = txt ++ rest /\ matches r s rest cap' /\ cap = Some txt
  end.

Lemma match_rep_Some a n s rest :
  match_rep a n s = Some rest <->
  exists run, s = run ++ rest /\ length run = n /\ Forall (fun c => atom_matches a c = true) run.
Proof.
  revert s. induction n as [|n IH]; intros s; simpl.
  - split.
    + intros [= ->]. by exists [].
    + intros ([|] & -> & ? & _); done.
  - split.
    + destruct s as [|c s]; [done|]. destruct (atom_matches a c) eqn:E; [|done].
      intros (run & -> & <- & Hr)%IH. exists (c :: run). auto.
    + intros ([|c run] & -> & Hl & Hr); [done|]. simpl in *.
      apply Forall_cons in Hr as [-> Hr]. apply IH. exists run. auto with lia.
Qed.

Lemma elem_of_match_lazy a s rest :
  rest ∈ match_lazy a s <->
  exists run, s = run ++ rest /\ Forall (fun c => atom_matches a c = true) run.
Proof.
  induction s as [|c s IH]; simpl; rewrite elem_of_cons.
  - rewrite elem_of_nil. split.
    + intros [->|[]]. by exists [].
    + intros ([|] & ? & _); [by left|done].
  - split.
    + intros [->|Hin]; [by exists []|]. destruct (atom_matches a c) eqn:E;
        [|by apply elem_of_nil in Hin].
      apply IH in Hin as (run & -> & Hr). exists (c :: run). auto.
    + intros ([|d run] & Heq & Hr); simplify_eq/=; [by left|right].
      apply Forall_cons in Hr as [-> Hr]. apply IH. eauto.
Qed.

Lemma matches_suffix r s rest cap : matches r s rest cap -> exists txt, s = txt ++ rest.
Proof.
  revert s rest cap. induction r as [a|a n|a| |r1 IH1 r2 IH2|r1 IH1 r2 IH2|r IH];
    intros s rest cap; simpl.
  - intros (c & -> & _). by exists [c].
  - intros (run & -> & _). eauto.
  - intros (run & -> & _). eauto.
  - intros (-> & -> & _). by exists [].
  - intros (mid & c1 & c2 & H1 & H2 & _). apply IH1 in H1 as [t1 ->].
    apply IH2 in H2 as [t2 ->]. exists (t1 ++ t2). by rewrite <- app_assoc.
  - intros [?|?]; eauto.
  - intros (txt & _ & -> & _). eauto.
Qed.

Lemma consumed_app txt rest : consumed (txt ++ rest) rest = txt.
Proof.
  unfold consumed. rewrite length_app. replace (length txt + length rest - length rest)%nat
    with (length txt) by lia. apply take_app_length.
Qed.

Lemma elem_of_match_re r s rest cap : (rest, cap) ∈ match_re r s <-> matches r s rest cap.
Proof.
  revert s rest cap. induction r as [a|a n|a| |r1 IH1 r2 IH2|r1 IH1 r2 IH2|r IH];
    intros s rest cap; simpl.
  - destruct s as [|c s].
    { rewrite elem_of_nil. split; [done|]. by intros (c & ? & _). }
    destruct (atom_matches a c) eqn:E.
    + rewrite list_elem_of_singleton. split; [intros [= -> ->]; by exists c|].
      intros (d & [= <- <-] & _ & ->). done.
    + rewrite elem_of_nil. split; [done|]. intros (d & [= <- <-] & ? & _). congruence.
  - destruct (match_rep a n s) as [s'|] eqn:E.
    + rewrite list_elem_of_singleton. split.
      * intros [= -> ->]. apply match_rep_Some in E as (run & ? & ? & ?). eauto 6.
      * intros (run & ? & ? & ? & ->).
        assert (match_rep a n s = Some rest) as E' by (apply match_rep_Some; eauto).
        congruence.
    + rewrite elem_of_nil. split; [done|]. intros (run & ? & ? & ? & ->).
      assert (match_rep a n s = Some rest) as E' by (apply match_rep_Some; eauto). congruence.
  - rewrite list_elem_of_fmap. setoid_rewrite elem_of_match_lazy. split.
    + intros (s' & [= -> ->] & run & -> & Hr). by exists run.
    + intros (run & -> & Hr & ->). exists rest. split; [done|by exists run].
  - destruct s as [|c s].
    + rewrite list_elem_of_singleton. split; [by intros [= -> ->]|by intros (_ & -> & ->)].
    + rewrite elem_of_nil. split; [done|]. by intros [? _].
  - rewrite list_elem_of_bind. split.
    + intros ([mid c1] & Hin & H1). apply list_elem_of_fmap in Hin as ([rest' c2] & [= -> ->] & H2).
      apply IH1 in H1. apply IH2 in H2. eauto 8.
    + intros (mid & c1 & c2 & H1 & H2 & ->). exists (mid, c1). split; [|by apply IH1].
      apply list_elem_of_fmap. exists (rest, c2). split; [done|by apply IH2].
  - rewrite elem_of_app, IH1, IH2. done.
  - rewrite list_elem_of_fmap. split.
    + intros ([rest' c] & [= -> ->] & Hin). apply IH in Hin.
      destruct (matches_suffix _ _ _ _ Hin) as [txt ->]. rewrite consumed_app. eauto 6.
    + intros (txt & c & -> & Hm & ->). exists (rest, c). rewrite consumed_app.
      split; [done|by apply IH].
Qed.

Lemma match_re_nil r s : match_re r s = [] <-> forall rest cap, ~ matches r s rest cap.
Proof.
  setoid_rewrite <- elem_of_match_re. split; [intros ->; by intros ?? ?%elem_of_nil|].
  intros H. destruct (match_re r s) as [|[rest cap] l]; [done|]. destruct (H rest cap). left.
Qed.

(** A search succeeds at the first position that matches, with a match of that position. *)
Lemma search_Some r s cap :
  search r s = Some cap ->
  exists pre suf rest, s = pre ++ suf /\ matches r suf rest cap /\
    forall pre' c pre'', pre = pre' ++ c :: pre'' ->
      forall rest' cap', ~ matches r (c :: pre'' ++ suf) rest' cap'.
Proof.
  induction s as [|x s IH]; simpl.
  - destruct (match_re r []) as [|[rest c] l] eqn:E; [done|]. intros [= ->].
    exists [], [], rest. split_and!; [done|apply elem_of_match_re; rewrite E; left|].
    intros [|] ?? ?; done.
  - destruct (match_re r (x :: s)) as [|[rest c] l] eqn:E.
    + intros (pre & suf & rest & -> & Hm & Hf)%IH. exists (x :: pre), suf, rest.
      split_and!; [done..|]. intros [|y pre'] c pre'' Heq; simplify_eq/=; [|by eapply Hf].
      by apply match_re_nil.
    + intros [= ->]. exists [], (x :: s), rest.
      split_and!; [done|apply elem_of_match_re; rewrite E; left|]. intros [|] ?? ?; done.
Qed.

Lemma search_None r s :
  search r s = None <->
  forall pre suf rest cap, s = pre ++ suf -> ~ matches r suf rest cap.
Proof.
  split.
  - induction s as [|x s IH]; simpl.
    + destruct (match_re r []) as [|[rest c] l] eqn:E; [|done]. intros _ pre suf ?? Heq.
      apply eq_sym, app_nil in Heq as [-> ->]. by apply match_re_nil.
    + destruct (match_re r (x :: s)) as [|[rest c] l] eqn:E; [|done].
      intros Hs [|y pre] suf ?? Heq; simplify_eq/=; [by apply match_re_nil|by eapply IH].
  - intros H. destruct (search r s) eqn:E; [|done].
    apply search_Some in E as (pre & suf & rest & -> & Hm & _). by eapply H in Hm.
Qed.

(** Matching a literal. *)
Lemma matches_str l s rest cap : matches (RStr l) s rest cap <-> s = l ++ rest /\ cap = None.
Proof.
  revert s. induction l as [|c l IH]; intros s.
  - simpl. split; [|intros [-> ->]; by exists []]. by intros ([|] & -> & ? & _ & ->).
  - destruct l as [|c' l].
    + simpl. split; [|intros [-> ->]; exists c; by rewrite N.eqb_refl].
      by intros (d & -> & <-%N.eqb_eq & ->).
    + change (matches (RSeq (RAtom (AChar c)) (RStr (c' :: l))) s rest cap <->
              s = (c :: c' :: l) ++ rest /\ cap = None).
      cbn [matches]. split.
      * intros (mid & c1 & c2 & (d & -> & <-%N.eqb_eq & ->) & H & Hc).
        assert (cap = c2) as -> by (rewrite Hc; by destruct c2).
        by apply IH in H as [-> ->].
      * intros [-> ->]. exists ((c' :: l) ++ rest), None, None. split_and!; [|by apply IH|done].
        exists c. simpl. by rewrite N.eqb_refl.
Qed.
