(* ===== verification/Cgroup.v ===== *)
(** * Cgroup: lifting the container id out of a cgroup file

    [CONTAINER_ID_PATTERNS] and [extract_container_id] ([oom-watcher/src/kubernetes.rs]):
    the three patterns, their precedence, and what text they find an id in. *)
From S2P Require Import Prelude Text Regex.

(** ** The patterns *)

Definition hex_class : Atom := AClass false [(48, 57); (97, 102)].
Definition not_hex_class : Atom := AClass true [(48, 57); (97, 102)].
Definition dash_or_slash : Atom :=
  AClass false [(Chars.minus, Chars.minus); (Chars.slash, Chars.slash)].

(** [([0-9a-f]{64})(?:[^0-9a-f]|$)], the end of all three. *)
Definition id_and_boundary : Re :=
  RSeq (RGroup (RRep hex_class 64)) (RAlt (RAtom not_hex_class) REnd).

Definition runtime_pattern : Re :=
  RSeq (RAlt (RStr (lit "cri-containerd")) (RAlt (RStr (lit "crio"))
         (RAlt (RStr (lit "docker")) (RStr (lit "libpod")))))
    (RSeq (RAtom dash_or_slash) id_and_boundary).

Definition kubepods_pattern : Re :=
  RSeq (RStr (lit "/kubepods"))
    (RSeq (RLazy ADot) (RSeq (RAtom (AChar Chars.slash)) id_and_boundary)).

Definition catch_all_pattern : Re := RSeq (RAtom dash_or_slash) id_and_boundary.

Definition CONTAINER_ID_PATTERNS : list Re :=
  [runtime_pattern; kubepods_pattern; catch_all_pattern].

(** The trees above are the pattern texts of the source. *)
Example pattern_texts :
  show_re <$> CONTAINER_ID_PATTERNS =
  [lit "(?:cri-containerd|crio|docker|libpod)[-/]([0-9a-f]{64})(?:[^0-9a-f]|$)";
   lit "/kubepods.*?/([0-9a-f]{64})(?:[^0-9a-f]|$)";
   lit "[-/]([0-9a-f]{64})(?:[^0-9a-f]|$)"].
Proof. by vm_compute. Qed.

(** [extract_container_id]. *)
Definition extract_container_id `{RegexEngine} (cgroup : str) : option str :=
  find_map (fun re => match captures re cgroup with Some group1 => group1 | None => None end)
    CONTAINER_ID_PATTERNS.

(** ** What the patterns mean *)

(** Sixty-four hexadecimal digits and no more: the text that follows does not continue them. *)
Definition hex64 (id : str) : Prop :=
  length id = 64%nat /\ Forall (fun c => Chars.is_hex c = true) id.
Definition boundary (post : str) : Prop :=
  match post with [] => True | c :: _ => Chars.is_hex c = false end.
Definition id_here (s id : str) : Prop :=
  exists post, s = id ++ post /\ hex64 id /\ boundary post.

Definition runtimes : list str :=
  [lit "cri-containerd"; lit "crio"; lit "docker"; lit "libpod"].
Definition delimiter (d : N) : Prop := d = Chars.minus \/ d = Chars.slash.

(** The forms an id is found in, at the head of [s]. *)
Definition delimited_id (s id : str) : Prop :=
  exists d s', s = d :: s' /\ delimiter d /\ id_here s' id.
Definition runtime_id (s id : str) : Prop :=
  exists name s', s = name ++ s' /\ name ∈ runtimes /\ delimited_id s' id.
Definition kubepods_id (s id : str) : Prop :=
  exists mid s', s = lit "/kubepods" ++ mid ++ Chars.slash :: s' /\
                 Forall (fun c => c <> Chars.newline) mid /\ id_here s' id.

(** [id] is found by [P] at the earliest position of [s] where [P] finds anything. *)
Definition leftmost (P : str -> str -> Prop) (s id : str) : Prop :=
  exists pre suf, s = pre ++ suf /\ P suf id /\
    forall pre' c pre'', pre = pre' ++ c :: pre'' -> forall id', ~ P (c :: pre'' ++ suf) id'.
Definition nowhere (P : str -> str -> Prop) (s : str) : Prop :=
  forall pre suf id, s = pre ++ suf -> ~ P suf id.

(** ** Lemmas *)

Lemma hex_class_matches c : atom_matches hex_class c = Chars.is_hex c.
Proof.
  unfold Chars.is_hex, Chars.is_digit. simpl. by rewrite orb_false_r.
Qed.

Lemma not_hex_class_matches c : atom_matches not_hex_class c = negb (Chars.is_hex c).
Proof. unfold Chars.is_hex, Chars.is_digit. simpl. by rewrite orb_false_r. Qed.

Lemma dash_or_slash_matches c : atom_matches dash_or_slash c = true <-> delimiter c.
Proof.
  unfold delimiter, dash_or_slash, atom_matches, in_ranges, Chars.minus, Chars.slash.
  cbn [existsb fst snd xorb]. rewrite !orb_true_iff, !andb_true_iff, !N.leb_le.
  split; [|intros [-> | ->]; lia]. intros [[]|[[]|[=]]]; lia.
Qed.

Lemma matches_id_and_boundary s cap :
  (exists rest, matches id_and_boundary s rest cap) <-> exists id, id_here s id /\ cap = Some id.
Proof.
  split.
  - intros (rest & mid & c1 & c2 & (id & c & -> & (run & Heq & Hl & Hrun & _) & ->) & H2 & ->).
    apply app_inv_tail in Heq as <-. exists id. assert (c2 = None) as ->.
    { destruct H2 as [(? & _ & _ & ?)|(_ & _ & ?)]; done. }
    split; [|done]. exists mid. split; [done|]. split.
    + split; [done|]. eapply Forall_impl; [done|]. intros d Hd. by rewrite <- hex_class_matches.
    + destruct H2 as [(d & -> & Hd & _)|(-> & _)]; [|done].
      rewrite not_hex_class_matches in Hd. by apply negb_true_iff.
  - intros (id & (post & -> & [Hl Hh] & Hb) & ->).
    exists (match post with [] => [] | _ :: post => post end), post, (Some id), None.
    split_and!; [|destruct post as [|d post]|done].
    + exists id, None. split_and!; [done| |done]. exists id. split_and!; try done.
      eapply Forall_impl; [done|]. intros d Hd. by rewrite hex_class_matches.
    + by right.
    + left. exists d. rewrite not_hex_class_matches. simpl in Hb. by rewrite Hb.
Qed.

Lemma matches_catch_all s cap :
  (exists rest, matches catch_all_pattern s rest cap) <->
  exists id, delimited_id s id /\ cap = Some id.
Proof.
  split.
  - intros (rest & mid & c1 & c2 & (d & -> & Hd & ->) & H2 & ->).
    destruct (proj1 (matches_id_and_boundary mid c2)) as (id & Hid & ->); [by eexists|].
    exists id. split; [|done]. exists d, mid. split_and!; [done| |done].
    by apply dash_or_slash_matches.
  - intros (id & (d & s' & -> & Hd & Hid) & ->).
    destruct (proj2 (matches_id_and_boundary s' (Some id))) as [rest Hrest]; [by exists id|].
    exists rest, s', None, (Some id). split_and!; [|done..]. exists d. split_and!; [done| |done].
    by apply dash_or_slash_matches.
Qed.

Lemma matches_runtime_name s rest cap :
  matches (RAlt (RStr (lit "cri-containerd")) (RAlt (RStr (lit "crio"))
    (RAlt (RStr (lit "docker")) (RStr (lit "libpod"))))) s rest cap <->
  (exists name, name ∈ runtimes /\ s = name ++ rest) /\ cap = None.
Proof.
  cbn [matches]. rewrite !matches_str. unfold runtimes. split.
  - intros [[-> ->]|[[-> ->]|[[-> ->]|[-> ->]]]]; (split; [|done]);
      eexists; (split; [|done]); set_solver.
  - intros [(name & Hn & ->) ->]. rewrite !elem_of_cons, elem_of_nil in Hn.
    destruct Hn as [->|[->|[->|[->|[]]]]]; tauto.
Qed.

Lemma matches_runtime s cap :
  (exists rest, matches runtime_pattern s rest cap) <->
  exists id, runtime_id s id /\ cap = Some id.
Proof.
  split.
  - intros (rest & mid & c1 & c2 & [(name & Hn & ->) ->]%matches_runtime_name & H2 & ->).
    destruct (proj1 (matches_catch_all mid c2)) as (id & Hid & ->); [by eexists|].
    exists id. split; [|done]. exists name, mid. done.
  - intros (id & (name & s' & -> & Hn & Hid) & ->).
    destruct (proj2 (matches_catch_all s' (Some id))) as [rest Hrest]; [by exists id|].
    exists rest, s', None, (Some id). split_and!; [|done..]. apply matches_runtime_name.
    split; [by exists name|done].
Qed.

Lemma dot_matches c : atom_matches ADot c = true <-> c <> Chars.newline.
Proof. simpl. by rewrite negb_true_iff, N.eqb_neq. Qed.

Lemma matches_kubepods s cap :
  (exists rest, matches kubepods_pattern s rest cap) <->
  exists id, kubepods_id s id /\ cap = Some id.
Proof.
  split.
  - intros (rest & m1 & c1 & c2 & [-> ->]%matches_str & H & ->).
    destruct H as (m2 & c3 & c4 & (mid & -> & Hmid & ->) & H & ->).
    destruct H as (m3 & c5 & c6 & (d & -> & Hd & ->) & H & ->).
    destruct (proj1 (matches_id_and_boundary m3 c6)) as (id & Hid & ->); [by eexists|].
    exists id. split; [|done]. exists mid, m3. split_and!; [|by setoid_rewrite dot_matches in Hmid|done].
    apply (N.eqb_eq Chars.slash d) in Hd as <-. done.
  - intros (id & (mid & s' & -> & Hmid & Hid) & ->).
    destruct (proj2 (matches_id_and_boundary s' (Some id))) as [rest Hrest]; [by exists id|].
    exists rest, (mid ++ Chars.slash :: s'), None, (Some id).
    split_and!; [by apply matches_str| |done].
    exists (Chars.slash :: s'), None, (Some id). split_and!; [| |done].
    + exists mid. split_and!; [done| |done]. by setoid_rewrite dot_matches.
    + exists s', None, (Some id). split_and!; [by exists Chars.slash|done|done].
Qed.

(** A search whose pattern means [P] finds the leftmost [P], or there is none. *)
Lemma search_leftmost r (P : str -> str -> Prop) s :
  (forall t cap, (exists rest, matches r t rest cap) <-> exists id, P t id /\ cap = Some id) ->
  match search r s with
  | Some cap => exists id, cap = Some id /\ leftmost P s id
  | None => nowhere P s
  end.
Proof.
  intros HP. destruct (search r s) as [cap|] eqn:E.
  - apply search_Some in E as (pre & suf & rest & -> & Hm & Hf).
    destruct (proj1 (HP suf cap)) as (id & Hid & ->); [by eexists|].
    exists id. split; [done|]. exists pre, suf. split_and!; [done..|].
    intros pre' c pre'' Hpre id' Hid'.
    destruct (proj2 (HP (c :: pre'' ++ suf) (Some id'))) as [rest' Hr]; [by exists id'|].
    by eapply Hf in Hr.
  - intros pre suf id Hs Hid. rewrite search_None in E.
    destruct (proj2 (HP suf (Some id))) as [rest Hr]; [by exists id|]. by eapply E in Hr.
Qed.

Lemma runtime_is_delimited s id :
  runtime_id s id -> exists pre suf, s = pre ++ suf /\ delimited_id suf id.
Proof. intros (name & s' & -> & _ & Hid). eauto. Qed.

Lemma kubepods_is_delimited s id :
  kubepods_id s id -> exists pre suf, s = pre ++ suf /\ delimited_id suf id.
Proof.
  intros (mid & s' & -> & _ & Hid). exists (lit "/kubepods" ++ mid), (Chars.slash :: s').
  rewrite <- app_assoc. split; [done|]. exists Chars.slash, s'. split_and!; [done|by right|done].
Qed.

Lemma nowhere_lift (P : str -> str -> Prop) s :
  (forall t id, P t id -> exists pre suf, t = pre ++ suf /\ delimited_id suf id) ->
  nowhere delimited_id s -> nowhere P s.
Proof.
  intros HP Hn pre suf id -> Hid. apply HP in Hid as (p & t & -> & Hid).
  apply (Hn (pre ++ p) t id); [by rewrite <- app_assoc|done].
Qed.

(** Which pattern an answer comes from. *)
Lemma extract_cases `{RegexEngine} cgroup :
  match extract_container_id cgroup with
  | Some id =>
      leftmost runtime_id cgroup id \/
      (nowhere runtime_id cgroup /\ leftmost kubepods_id cgroup id) \/
      (nowhere runtime_id cgroup /\ nowhere kubepods_id cgroup /\
       leftmost delimited_id cgroup id)
  | None => nowhere delimited_id cgroup
  end.
Proof.
  unfold extract_container_id, CONTAINER_ID_PATTERNS. simpl. rewrite !captures_is_search.
  pose proof (search_leftmost _ _ cgroup matches_runtime) as H1.
  pose proof (search_leftmost _ _ cgroup matches_kubepods) as H2.
  pose proof (search_leftmost _ _ cgroup matches_catch_all) as H3.
  destruct (search runtime_pattern cgroup) as [cap|]; [destruct H1 as (id & -> & ?); auto|].
  destruct (search kubepods_pattern cgroup) as [cap|]; [destruct H2 as (id & -> & ?); auto|].
  destruct (search catch_all_pattern cgroup) as [cap|]; [destruct H3 as (id & -> & ?); auto|].
  done.
Qed.

Lemma extract_sound `{RegexEngine} cgroup id :
  extract_container_id cgroup = Some id ->
  exists pre suf, cgroup = pre ++ suf /\ delimited_id suf id.
Proof.
  intros E. pose proof (extract_cases cgroup) as Hs. rewrite E in Hs.
  destruct Hs as [(p & t & -> & Ht & _)|[(_ & p & t & -> & Ht & _)|(_ & _ & p & t & -> & Ht & _)]].
  - apply runtime_is_delimited in Ht as (p' & t' & -> & Ht). exists (p ++ p'), t'.
    by rewrite <- app_assoc.
  - apply kubepods_is_delimited in Ht as (p' & t' & -> & Ht). exists (p ++ p'), t'.
    by rewrite <- app_assoc.
  - by exists p, t.
Qed.

Lemma extract_complete `{RegexEngine} pre suf id :
  delimited_id suf id -> is_Some (extract_container_id (pre ++ suf)).
Proof.
  intros Hid. pose proof (extract_cases (pre ++ suf)) as Hs.
  destruct (extract_container_id _) as [i|]; [by eexists|]. by eapply Hs in Hid.
Qed.

Lemma extract_hex64 `{RegexEngine} cgroup id : extract_container_id cgroup = Some id -> hex64 id.
Proof. by intros (pre & suf & -> & d & s' & -> & _ & post & -> & ? & _)%extract_sound. Qed.

(** ** Properties *)

(** C16: what [extract_container_id] returns. With a runtime's name in front of an id
    anywhere in the file, it is the id behind the leftmost such name; otherwise an id that
    follows the leftmost [/kubepods] with one on its line; otherwise the leftmost id behind a
    dash or a slash. *)
Theorem extract_follows_the_precedence `{RegexEngine} (cgroup id : str) :
  extract_container_id cgroup = Some id ->
  leftmost runtime_id cgroup id \/
  (nowhere runtime_id cgroup /\ leftmost kubepods_id cgroup id) \/
  (nowhere runtime_id cgroup /\ nowhere kubepods_id cgroup /\ leftmost delimited_id cgroup id).
Proof. intros E. pose proof (extract_cases cgroup) as Hs. by rewrite E in Hs. Qed.

(** C12: an id is found exactly when the file has one: some dash or slash followed by
    sixty-four hexadecimal digits and then by something else or the end; what is found is
    such a run, so a longer run of digits is never cut to its first sixty-four; and when
    the file names only one id that id is the answer, whatever the layout. *)
Theorem extract_finds_exactly_the_delimited_ids `{RegexEngine} (cgroup : str) :
  (is_Some (extract_container_id cgroup) <->
   exists pre d id post, cgroup = pre ++ d :: id ++ post /\ delimiter d /\ hex64 id /\
                         boundary post) /\
  (forall id, extract_container_id cgroup = Some id ->
   exists pre d post, cgroup = pre ++ d :: id ++ post /\ delimiter d /\ hex64 id /\
                      boundary post).
Proof.
  assert (forall id, extract_container_id cgroup = Some id ->
    exists pre d post, cgroup = pre ++ d :: id ++ post /\ delimiter d /\ hex64 id /\
                      boundary post) as Hs.
  { intros id (pre & suf & -> & d & s' & -> & Hd & post & -> & Hid & Hb)%extract_sound.
    by exists pre, d, post. }
  split; [|done]. split.
  - intros [id (pre & d & post & ?)%Hs]. by exists pre, d, id, post.
  - intros (pre & d & id & post & -> & Hd & Hid & Hb). apply (extract_complete pre _ id).
    exists d, (id ++ post). split_and!; [done..|]. by exists post.
Qed.

(** ** Concrete files *)

(** A hexadecimal id of sixty-four digits, and the layouts of the table in the source. *)
Definition sample_id (c : N) : str := replicate 64 c.
Definition line_of (path : string) (id : str) (suffix : string) : str :=
  lit "0::" ++ lit path ++ id ++ lit suffix ++ [Chars.newline].

Example containerd_systemd :
  extract_container_id (line_of "/kubepods.slice/kubepods-burstable.slice/kubepods-burstable-pod12.slice/cri-containerd-" (sample_id 97) ".scope") = Some (sample_id 97).
Proof. by vm_compute. Qed.
Example crio_systemd :
  extract_container_id (line_of "/kubepods.slice/kubepods-pod12.slice/crio-" (sample_id 98) ".scope") = Some (sample_id 98).
Proof. by vm_compute. Qed.
Example docker_cgroupfs :
  extract_container_id (line_of "/docker/" (sample_id 48) "") = Some (sample_id 48).
Proof. by vm_compute. Qed.
Example kubelet_burstable :
  extract_container_id (line_of "/kubepods/burstable/pod12/" (sample_id 49) "") = Some (sample_id 49).
Proof. by vm_compute. Qed.
Example kubelet_guaranteed :
  extract_container_id (line_of "/kubepods/pod12/" (sample_id 102) "") = Some (sample_id 102).
Proof. by vm_compute. Qed.
Example longer_run_is_not_an_id :
  extract_container_id (line_of "/docker/" (sample_id 97) "a") = None.
Proof. by vm_compute. Qed.

(** A line with two ids: the runtime's name wins over the position. *)
Definition two_ids : str :=
  lit "/" ++ sample_id 97 ++ lit "/docker-" ++ sample_id 98 ++ lit ".scope".

Lemma extract_follows_the_precedence_witness :
  leftmost runtime_id two_ids (sample_id 98) \/
  (nowhere runtime_id two_ids /\ leftmost kubepods_id two_ids (sample_id 98)) \/
  (nowhere runtime_id two_ids /\ nowhere kubepods_id two_ids /\
   leftmost delimited_id two_ids (sample_id 98)).
Proof. apply extract_follows_the_precedence. by vm_compute. Defined.

Lemma extract_finds_exactly_the_delimited_ids_witness :
  is_Some (extract_container_id (line_of "/docker/" (sample_id 48) "")).
Proof.
  apply (extract_finds_exactly_the_delimited_ids (line_of "/docker/" (sample_id 48) "")).
  exists (lit "0::/docker"), Chars.slash, (sample_id 48), [Chars.newline].
  split_and!; [done|by right| |done]. split; [done|by repeat constructor].
Defined.
