(* ===== verification/Kubernetes.v ===== *)
(** * Kubernetes: from a PID to the container it ran in

    [oom-watcher/src/kubernetes.rs]: matching a container id against the pod statuses of the
    node, the pod cache, and the in-cluster adapter of the resolution seam. *)
From S2P Require Import Prelude Text Io Common Resolve Regex Cgroup.

(** ** Pods, as far as the program reads them

    The types come from [k8s_openapi]; fields nothing reads are left out, and the three
    that [prune_for_cache] strips are opaque. *)

Record ContainerStateTerminated := { t_container_id : option str }.
Record ContainerState := { terminated : option ContainerStateTerminated }.

Record ContainerStatus := {
  cs_name : str;
  cs_container_id : option str;
  cs_image_id : str;
  last_state : option ContainerState;
}.

Record PodStatus := { container_statuses : option (list ContainerStatus) }.

Record ObjectMeta {Opaque : Type} := {
  m_namespace : option str;
  m_name : option str;
  managed_fields : option Opaque;
  annotations : option Opaque;
}.
Arguments ObjectMeta : clear implicits.

Record Pod {Opaque : Type} := {
  metadata : ObjectMeta Opaque;
  spec : option Opaque;
  status : option PodStatus;
}.
Arguments Pod : clear implicits.

Section matching.
Context {Opaque : Type}.
Abbreviation Pod := (Pod Opaque).
Implicit Types (pods : list Pod) (pod : Pod).

(** ** Matching *)

(** [running_container_id]. *)
Definition running_container_id (s : ContainerStatus) : option str := cs_container_id s.

(** [terminated_container_id]. *)
Definition terminated_container_id (s : ContainerStatus) : option str :=
  state ← last_state s; dead ← terminated state; t_container_id dead.

(** [names_container]. *)
Definition names_container (reported id : str) : bool :=
  ends_with reported id || contains reported id.

(** The inner search of [match_container]: the first status whose candidate id matches. *)
Definition match_status (statuses : list ContainerStatus) (id : str)
    (candidate : ContainerStatus -> option str) : option (ContainerStatus * str) :=
  find_map (fun s =>
    full ← candidate s;
    if names_container full id then Some (s, full) else None) statuses.

(** The identity [match_container] builds from the status that matched. *)
Definition identity_from_status pod (s : ContainerStatus) (full : str) : ContainerIdentity := {|
  namespace := default (lit "default") (m_namespace (metadata pod));
  pod_name := default (lit "unknown") (m_name (metadata pod));
  container_name := cs_name s;
  container_id := full;
  image_id := cs_image_id s;
|}.

(** [match_container]. *)
Definition match_container pods (id : str) (candidate : ContainerStatus -> option str)
    : option ContainerIdentity :=
  find_map (fun pod =>
    st ← status pod;
    statuses ← container_statuses st;
    '(s, full) ← match_status statuses id candidate;
    Some (identity_from_status pod s full)) pods.

(** [identity_from_pods]. *)
Definition identity_from_pods pods (id : str) : option ContainerIdentity :=
  or_else (match_container pods id running_container_id)
    (fun _ => match_container pods id terminated_container_id).

(** [prune_for_cache]. *)
Definition prune_for_cache pod : Pod := {|
  metadata := {| m_namespace := m_namespace (metadata pod); m_name := m_name (metadata pod);
                 managed_fields := None; annotations := None |};
  spec := None;
  status := status pod;
|}.

(** ** Specification of a match *)

(** The status [s] of [pod] reports, through [candidate], an id that contains [id]. *)
Definition reports (candidate : ContainerStatus -> option str) pod (s : ContainerStatus)
    (full id : str) : Prop :=
  (exists st statuses, status pod = Some st /\ container_statuses st = Some statuses /\
                       s ∈ statuses) /\
  candidate s = Some full /\ exists a b, full = a ++ id ++ b.

Lemma names_container_iff full id :
  names_container full id = true <-> exists a b, full = a ++ id ++ b.
Proof.
  unfold names_container. rewrite orb_true_iff, <- contains_true.
  split; [|by right]. intros [?%ends_with_contains|?]; done.
Qed.

Lemma match_container_sound pods id candidate i :
  match_container pods id candidate = Some i ->
  exists pod s full, pod ∈ pods /\ reports candidate pod s full id /\
                     i = identity_from_status pod s full.
Proof.
  intros (pod & Hpod & H)%find_map_elem.
  destruct (status pod) as [st|] eqn:Est; [|done]. simpl in H.
  destruct (container_statuses st) as [statuses|] eqn:Ess; [|done]. simpl in H.
  destruct (match_status statuses id candidate) as [[s full]|] eqn:E; [|done].
  simpl in H. simplify_eq. apply find_map_elem in E as (s' & Hs & E).
  destruct (candidate s') as [full'|] eqn:Ec; [|done]. simpl in E.
  destruct (names_container full' id) eqn:En; simplify_eq.
  exists pod, s, full. split_and!; [done| |done]. split_and!; [by eauto|done|].
  by apply names_container_iff.
Qed.

Lemma match_status_complete statuses id candidate s full :
  s ∈ statuses -> candidate s = Some full -> names_container full id = true ->
  is_Some (match_status statuses id candidate).
Proof.
  intros Hs Hc Hn. eapply find_map_is_Some; [done|]. rewrite Hc. simpl. by rewrite Hn.
Qed.

Lemma match_container_complete pods id candidate pod s full :
  pod ∈ pods -> reports candidate pod s full id ->
  is_Some (match_container pods id candidate).
Proof.
  intros Hpod [(st & statuses & Est & Ess & Hs) [Hc Hn%names_container_iff]].
  destruct (match_status_complete statuses id candidate s full Hs Hc Hn) as [[s' full'] E].
  eapply find_map_is_Some; [done|]. rewrite Est. simpl. rewrite Ess. simpl. by rewrite E.
Qed.

Lemma match_container_None pods id candidate :
  match_container pods id candidate = None <->
  forall pod s full, pod ∈ pods -> ~ reports candidate pod s full id.
Proof.
  split.
  - intros E pod s full Hp Hr.
    destruct (match_container_complete pods id candidate pod s full Hp Hr) as [? Hx]. congruence.
  - intros Hn. destruct (match_container _ _ _) as [i|] eqn:E; [|done].
    apply match_container_sound in E as (pod & s & full & Hp & Hr & _). by apply Hn in Hr.
Qed.

Lemma match_container_pruned pods id candidate :
  match_container (prune_for_cache <$> pods) id candidate = match_container pods id candidate.
Proof. unfold match_container. by rewrite find_map_fmap. Qed.
End matching.

Lemma identity_from_pods_pruned {Opaque} (pods : list (Pod Opaque)) id :
  identity_from_pods (prune_for_cache <$> pods) id = identity_from_pods pods id.
Proof. unfold identity_from_pods. by rewrite !match_container_pruned. Qed.

(** ** Properties of the matching *)

(** the matching rules. A pod whose status currently reports the id wins over any pod
    that only remembers it as terminated; the identity is the pod's namespace and name with
    their fallbacks and, verbatim, the name, the full reported id and the image of the very
    status that matched; and there is no identity exactly when no status of any pod reports
    the id either way. *)
Theorem identity_from_pods_spec {Opaque} (pods : list (Pod Opaque)) (id : str) :
  match identity_from_pods pods id with
  | Some i =>
      (exists pod s full, pod ∈ pods /\ reports running_container_id pod s full id /\
                          i = identity_from_status pod s full) \/
      (forall pod s full, pod ∈ pods -> ~ reports running_container_id pod s full id) /\
      (exists pod s full, pod ∈ pods /\ reports terminated_container_id pod s full id /\
                          i = identity_from_status pod s full)
  | None =>
      forall pod s full, pod ∈ pods ->
        ~ reports running_container_id pod s full id /\
        ~ reports terminated_container_id pod s full id
  end.
Proof.
  unfold identity_from_pods, or_else.
  destruct (match_container pods id running_container_id) as [i|] eqn:E1.
  { left. by apply match_container_sound. }
  pose proof (proj1 (match_container_None _ _ _) E1) as Hn1.
  destruct (match_container pods id terminated_container_id) as [i|] eqn:E2.
  { right. split; [done|]. by apply match_container_sound. }
  pose proof (proj1 (match_container_None _ _ _) E2) as Hn2.
  intros pod s full Hp. split; [by apply Hn1|by apply Hn2].
Qed.

(** Pods that all give one identity for an id, under one candidate. *)
Definition unambiguous {Opaque} (candidate : ContainerStatus -> option str)
    (pods : list (Pod Opaque)) (id : str) : Prop :=
  forall p1 s1 f1 p2 s2 f2, p1 ∈ pods -> p2 ∈ pods ->
    reports candidate p1 s1 f1 id -> reports candidate p2 s2 f2 id ->
    identity_from_status p1 s1 f1 = identity_from_status p2 s2 f2.

Lemma match_container_perm {Opaque} (pods pods' : list (Pod Opaque)) id candidate :
  pods ≡ₚ pods' -> unambiguous candidate pods id ->
  match_container pods id candidate = match_container pods' id candidate.
Proof.
  intros Hp Hu. destruct (match_container pods' id candidate) as [i'|] eqn:E'.
  - apply match_container_sound in E' as (p' & s' & f' & Hp' & Hr' & ->).
    rewrite <- Hp in Hp'.
    destruct (match_container_complete pods id candidate p' s' f' Hp' Hr') as [i E].
    rewrite E. apply match_container_sound in E as (p & s & f & Hin & Hr & ->).
    f_equal. by apply Hu.
  - apply match_container_None. intros p s f Hin. rewrite Hp in Hin.
    by apply (proj1 (match_container_None pods' id candidate) E').
Qed.

(** what the cache keeps is enough. Pruning a pod before it is stored changes no lookup
    and keeps the namespace and the name a deletion is reported under; and as long as the
    node's statuses do not claim one id for two different containers, the order the store
    lists its pods in cannot change a lookup either. *)
Theorem lookup_ignores_pruning_and_order {Opaque} (pods pods' : list (Pod Opaque)) (id : str) :
  (forall pod : Pod Opaque,
     m_namespace (metadata (prune_for_cache pod)) = m_namespace (metadata pod) /\
     m_name (metadata (prune_for_cache pod)) = m_name (metadata pod)) /\
  identity_from_pods (prune_for_cache <$> pods) id = identity_from_pods pods id /\
  (pods ≡ₚ pods' -> unambiguous running_container_id pods id ->
   unambiguous terminated_container_id pods id ->
   identity_from_pods pods' id = identity_from_pods pods id).
Proof.
  split_and!; [done|apply identity_from_pods_pruned|]. intros Hp Hr Ht.
  unfold identity_from_pods. by rewrite !(match_container_perm pods pods').
Qed.

(** ** Concrete pods *)

Definition sample_status (name reported : str) (dead : option str) : ContainerStatus := {|
  cs_name := name;
  cs_container_id := Some (lit "containerd://" ++ reported);
  cs_image_id := lit "repo@sha256:aa";
  last_state := d ← dead; Some {| terminated :=
    Some {| t_container_id := Some (lit "containerd://" ++ d) |} |};
|}.

Definition sample_pod (name : str) (statuses : list ContainerStatus) : Pod unit := {|
  metadata := {| m_namespace := Some (lit "prod"); m_name := Some name;
                 managed_fields := Some tt; annotations := Some tt |};
  spec := Some tt;
  status := Some {| container_statuses := Some statuses |};
|}.

(** A pod that was restarted, and one that runs. *)
Definition sample_pods : list (Pod unit) :=
  [sample_pod (lit "api-0") [sample_status (lit "api") (sample_id 97) (Some (sample_id 98))];
   sample_pod (lit "db-0") [sample_status (lit "db") (sample_id 99) None]].

Example finds_the_replaced_container :
  container_id <$> identity_from_pods sample_pods (sample_id 98)
  = Some (lit "containerd://" ++ sample_id 98).
Proof. by vm_compute. Qed.

Example unknown_id_is_a_miss : identity_from_pods sample_pods (sample_id 48) = None.
Proof. by vm_compute. Qed.

(** A single status is never ambiguous. *)
Lemma unambiguous_one candidate name (s : ContainerStatus) id :
  unambiguous candidate [sample_pod name [s]] id.
Proof.
  intros p1 s1 f1 p2 s2 f2 ->%list_elem_of_singleton ->%list_elem_of_singleton.
  intros [(st1 & l1 & [= <-] & [= <-] & ->%list_elem_of_singleton) [Hc1 _]].
  intros [(st2 & l2 & [= <-] & [= <-] & ->%list_elem_of_singleton) [Hc2 _]].
  congruence.
Qed.

Lemma lookup_ignores_pruning_and_order_witness :
  let pods := [sample_pod (lit "db-0") [sample_status (lit "db") (sample_id 99) None]] in
  identity_from_pods pods (sample_id 99) = identity_from_pods pods (sample_id 99) /\
  identity_from_pods (prune_for_cache <$> pods) (sample_id 99)
  = identity_from_pods pods (sample_id 99).
Proof.
  intros pods. destruct (lookup_ignores_pruning_and_order pods pods (sample_id 99))
    as (_ & Hprune & Horder).
  split; [|done]. by apply Horder; [done|apply unambiguous_one..].
Defined.
