(* ===== verification/PodCache.v ===== *)
(** * PodCache: the pod cache and the in-cluster resolver

    [PodCache] and [KubernetesClient] ([oom-watcher/src/kubernetes.rs]). The reflector store
    of the [kube] crate is read through what it answers at one moment: its readiness latch
    and the pods it holds. *)
From S2P Require Import Prelude Text Io Common Resolve Regex Cgroup Kubernetes.

(** What [wait_until_ready().now_or_never()] answers: the initial list landed, the writer is
    gone, or neither yet. *)
Inductive Latch :=
| Synced
| WriterDropped (message : str)
| NotReady.

Record Store {Opaque : Type} := { latch : Latch; stored : list (Pod Opaque) }.
Arguments Store : clear implicits.

(** An event of the pod watch. *)
Inductive Event {Opaque : Type} :=
| Apply (pod : Pod Opaque)
| Delete (pod : Pod Opaque)
| Init
| InitApply (pod : Pod Opaque)
| InitDone.
Arguments Event : clear implicits.

(** What the program reads of the world during one resolution. *)
Record KubeWorld {Opaque : Type} := {
  read_to_string : FileSystem;
  store : Store Opaque;
}.
Arguments KubeWorld : clear implicits.

Record KubernetesClient := { kc_node_name : str }.

Section cache.
Context {Opaque : Type} `{RegexEngine}.
Implicit Types (s : Store Opaque) (w : KubeWorld Opaque).

(** [ensure_synced]. *)
Definition ensure_synced s : result unit Error :=
  match latch s with
  | Synced => Ok tt
  | WriterDropped e => Err (anyhow (lit "the pod cache stopped being maintained: " ++ e))
  | NotReady =>
      Err (anyhow (lit "the pod cache has not finished its initial list of the pods on this node"))
  end.

(** [wait_until_synced]: it returns whatever the bounded wait answers ([None]: it elapsed);
    the value is the warning it logs. *)
Definition wait_until_synced (timeout_secs : N) (answer : option (result unit str))
    : option str :=
  match answer with
  | Some (Ok _) => None
  | Some (Err e) => Some (lit "Pod cache will never sync: " ++ e)
  | None =>
      Some (lit "Pod cache still syncing after " ++ show_N timeout_secs
        ++ lit "s; watching anyway " ++ [8212]
        ++ lit " until it lands, events report an unresolved container rather than a wrong one")
  end.

(** [identity_of]. *)
Definition identity_of s (id : str) : result (option ContainerIdentity) Error :=
  _ <-? ensure_synced s ;;
  Ok (identity_from_pods (stored s) id).

(** The closure over the watch stream: the pod [on_pod_deleted] is called for, if any. *)
Definition on_event (ev : result (Event Opaque) Error) : option (str * str) :=
  match ev with
  | Ok (Delete pod) =>
      match m_namespace (metadata pod), m_name (metadata pod) with
      | Some ns, Some name => Some (ns, name)
      | _, _ => None
      end
  | Ok _ | Err _ => None
  end.

(** Every call a stream of watch events makes, in order. *)
Definition deletion_reports : list (result (Event Opaque) Error) -> list (str * str) :=
  omap on_event.

(** [spec.nodeName=<node>], the selector of the watch. *)
Definition field_selector (node : str) : str := lit "spec.nodeName=" ++ node.

(** [KubernetesClient::new]: the answers of the cluster configuration, of the client
    construction and of the environment decide; also the selector the cache is spawned with. *)
Definition client_new {Config Client : Type} (incluster : result Config str)
    (try_from : Config -> result Client Error) (node_name_var : option str)
    : result (KubernetesClient * str) Error :=
  config <-? match incluster with
             | Ok c => Ok c
             | Err e => Err (anyhow (lit "Failed to create in-cluster config: " ++ e))
             end ;;
  client <-? try_from config ;;
  node <-? match node_name_var with
           | Some n => Ok n
           | None => Err (anyhow (lit
               "NODE_NAME is unset; the DaemonSet must expose it via the downward API"))
           end ;;
  Ok ({| kc_node_name := node |}, field_selector node).

Definition cgroup_path (pid : N) : str := lit "/proc/" ++ show_N pid ++ lit "/cgroup".

(** [get_container_id_from_pid]. *)
Definition get_container_id_from_pid (fs : FileSystem) (pid : N)
    : result (option str) Error :=
  let path := cgroup_path pid in
  match fs path with
  | Ok content => Ok (extract_container_id content)
  | Err e =>
      if decide (kind e = NotFound) then Ok None
      else Err (context (lit "could not read " ++ path
             ++ lit " (is hostPID set and /proc mounted from the host?)") (io_error e))
  end.

(** [get_container_info]. *)
Definition get_container_info w (pid : N) : result (option ContainerIdentity) Error :=
  id <-? get_container_id_from_pid (read_to_string w) pid ;;
  match id with
  | Some id => identity_of (store w) id
  | None => Ok None
  end.

#[export] Instance KubernetesClient_ContainerResolver :
    ContainerResolver KubernetesClient (KubeWorld Opaque) := {|
  node_name := kc_node_name;
  resolve _ w pid :=
    match get_container_info w pid with
    | Ok (Some i) => Found i
    | Ok None => NotFoundOutcome
    | Err e => Failed e
    end;
|}.

(** ** Properties *)

(** C7: the three outcomes of a resolution. It is [Found] when the cgroup file of the
    process was read, names a container, the cache is in sync and one of its pods has that
    container. It is [NotFound] only for the benign reasons: the file is gone, it names no
    container, or an in-sync cache knows no such container. Any other read error and any
    lookup against a cache that is not in sync is [Failed], never a miss. *)
Theorem resolve_classifies (c : KubernetesClient) w (pid : N) :
  let file := read_to_string w (cgroup_path pid) in
  match resolve c w pid with
  | Found i =>
      exists text id, file = Ok text /\ extract_container_id text = Some id /\
        latch (store w) = Synced /\ identity_from_pods (stored (store w)) id = Some i
  | NotFoundOutcome =>
      (exists e, file = Err e /\ kind e = NotFound) \/
      (exists text, file = Ok text /\ extract_container_id text = None) \/
      (exists text id, file = Ok text /\ extract_container_id text = Some id /\
        latch (store w) = Synced /\ identity_from_pods (stored (store w)) id = None)
  | Failed err =>
      (exists e, file = Err e /\ kind e <> NotFound /\
         error_display err = lit "could not read " ++ cgroup_path pid
           ++ lit " (is hostPID set and /proc mounted from the host?)") \/
      (exists text id, file = Ok text /\ extract_container_id text = Some id /\
         latch (store w) <> Synced)
  end.
Proof.
  cbv zeta. unfold resolve, KubernetesClient_ContainerResolver, get_container_info,
    get_container_id_from_pid.
  destruct (read_to_string w (cgroup_path pid)) as [text|e]; cbn [result_bind].
  - destruct (extract_container_id text) as [id|] eqn:Ex; [|by eauto].
    unfold identity_of, ensure_synced.
    destruct (latch (store w)) eqn:El; cbn [result_bind]; [|right; by exists text, id..].
    destruct (identity_from_pods _ id) as [i|] eqn:Ei; [by exists text, id|].
    right. right. by exists text, id.
  - case_decide; cbn [result_bind]; [by eauto|]. left. by exists e.
Qed.

(** C6: end to end, an identity is never invented: when a resolution is [Found], the cgroup
    file of the process holds, behind a dash or a slash, a delimited run of sixty-four
    hexadecimal digits, a container status of a pod in the cache reports an id containing
    that run, and the identity carries that reported id, the status' name and image, and the
    pod's coordinates unchanged. *)
Theorem found_identity_is_the_process_container (c : KubernetesClient) w (pid : N)
    (i : ContainerIdentity) :
  resolve c w pid = Found i ->
  exists text id pod cs candidate,
    read_to_string w (cgroup_path pid) = Ok text /\
    (exists pre suf, text = pre ++ suf /\ delimited_id suf id) /\
    pod ∈ stored (store w) /\
    (candidate = running_container_id \/ candidate = terminated_container_id) /\
    reports candidate pod cs (container_id i) id /\
    container_name i = cs_name cs /\ image_id i = cs_image_id cs /\
    namespace i = default (lit "default") (m_namespace (metadata pod)) /\
    pod_name i = default (lit "unknown") (m_name (metadata pod)).
Proof.
  unfold resolve, KubernetesClient_ContainerResolver, get_container_info,
    get_container_id_from_pid.
  destruct (read_to_string w (cgroup_path pid)) as [text|e]; cbn [result_bind];
    [|by case_decide].
  destruct (extract_container_id text) as [id|] eqn:Ex; [|done].
  unfold identity_of. destruct (ensure_synced (store w)); cbn [result_bind]; [|done].
  destruct (identity_from_pods (stored (store w)) id) as [i'|] eqn:Ei; [|done].
  intros [= ->]. apply extract_sound in Ex. unfold identity_from_pods, or_else in Ei.
  destruct (match_container _ id running_container_id) as [j|] eqn:E1; simplify_eq;
    [apply match_container_sound in E1 as (pod & cs & full & Hp & Hr & ->);
     exists text, id, pod, cs, running_container_id
    |apply match_container_sound in Ei as (pod & cs & full & Hp & Hr & ->);
     exists text, id, pod, cs, terminated_container_id];
    (split_and!; [done|done|done|by auto|done..]).
Qed.

(** deletions reach the recorder exactly as the watch reports them: one call per
    [Delete] event whose pod has both a namespace and a name, in stream order, and none for
    anything else. In particular a relist after a lost watch reports nothing, whichever pods
    are missing from it. *)
Theorem deletion_reports_follow_delete_events (evs1 evs2 : list (result (Event Opaque) Error))
    (pod : Pod Opaque) (ns name : str) (relisted : list (Pod Opaque)) :
  m_namespace (metadata pod) = Some ns -> m_name (metadata pod) = Some name ->
  deletion_reports (evs1 ++ Ok (Delete pod) :: evs2)
    = deletion_reports evs1 ++ (ns, name) :: deletion_reports evs2 /\
  deletion_reports ((Ok <$> (Init :: (InitApply <$> relisted) ++ [InitDone])) ++ evs2)
    = deletion_reports evs2 /\
  (forall k, k ∈ deletion_reports evs1 -> exists p, Ok (Delete p) ∈ evs1 /\
     m_namespace (metadata p) = Some k.1 /\ m_name (metadata p) = Some k.2).
Proof.
  intros Hns Hname. unfold deletion_reports. split_and!.
  - rewrite omap_app. cbn [omap list_omap on_event]. by rewrite Hns, Hname.
  - rewrite omap_app, fmap_cons, fmap_app. cbn [omap list_omap on_event]. rewrite omap_app.
    assert (forall l : list (Pod Opaque), omap on_event (Ok <$> (InitApply <$> l)) = []) as ->;
      [|done].
    intros l. induction l as [|p l IH]; [done|]. rewrite !fmap_cons. by cbn [omap list_omap on_event].
  - intros [n m] (ev & Hin & Hev)%list_elem_of_omap. destruct ev as [[p|p| |p|]|e]; try done.
    simpl in Hev. exists p. destruct (m_namespace (metadata p)), (m_name (metadata p)); by simplify_eq.
Qed.
End cache.

(** ** Concrete lookups *)

Definition sample_client : KubernetesClient := {| kc_node_name := lit "node-1" |}.

(** A node where PID 7 is in the container with id [bb..b], restarted since. *)
Definition sample_world : KubeWorld unit := {|
  read_to_string path :=
    if decide (path = lit "/proc/7/cgroup")
    then Ok (line_of "/kubepods/burstable/pod12/" (sample_id 98) "")
    else Err {| kind := NotFound; io_message := lit "No such file or directory" |};
  store := {| latch := Synced; stored := sample_pods |};
|}.

Example reaped_process_is_not_found :
  resolve sample_client sample_world 8 = NotFoundOutcome.
Proof. by vm_compute. Qed.

Example unsynced_cache_is_an_error :
  exists e, resolve sample_client
    {| read_to_string := read_to_string sample_world;
       store := {| latch := NotReady; stored := [] |} : Store unit |} 7 = Failed e.
Proof. eexists. by vm_compute. Qed.

Definition sample_identity : ContainerIdentity := {|
  namespace := lit "prod"; pod_name := lit "api-0"; container_name := lit "api";
  container_id := lit "containerd://" ++ sample_id 98; image_id := lit "repo@sha256:aa";
|}.

Lemma found_identity_is_the_process_container_witness :
  resolve sample_client sample_world 7 = Found sample_identity /\
  exists pod, pod ∈ stored (store sample_world) /\
    lit "api-0" = default (lit "unknown") (m_name (metadata pod)).
Proof.
  assert (resolve sample_client sample_world 7 = Found sample_identity) as E by (by vm_compute).
  split; [done|].
  destruct (found_identity_is_the_process_container sample_client sample_world 7 _ E)
    as (text & id & pod & cs & candidate & _ & _ & Hpod & _ & _ & _ & _ & _ & Hname).
  by exists pod.
Defined.

Lemma deletion_reports_follow_delete_events_witness :
  let pod := sample_pod (lit "db-0") [] in
  deletion_reports [Ok (Apply pod); Ok (Delete pod); Err (anyhow (lit "watch"))]
  = [(lit "prod", lit "db-0")].
Proof.
  intros pod.
  apply (deletion_reports_follow_delete_events [Ok (Apply pod)] [Err (anyhow (lit "watch"))]
    pod (lit "prod") (lit "db-0") []); done.
Defined.
