(* ===== verification/Reflector.v ===== *)
(** * Reflector: the pod cache as the watch feeds it

    The task [PodCache::spawn] starts ([oom-watcher/src/kubernetes.rs]): the watch stream,
    pruned, applied to the store event by event, and observed by the closure that reports
    deletions; and what a lookup in the cache then answers, as a function of the stream. The
    writer half of the [kube] reflector is an interface with its documented behaviour. *)
From S2P Require Import Prelude Text Io Common Resolve Regex Cgroup Kubernetes PodCache.

(** The reference of an object: its namespace and name. *)
Definition Key : Type := option str * option str.

Definition pod_key {Opaque} (pod : Pod Opaque) : Key :=
  (m_namespace (metadata pod), m_name (metadata pod)).

Class Reflector (Opaque R : Type) := {
  (** [reflector::store()]. *)
  rf_new : R;
  (** [Writer::apply_watcher_event], the call the reflector makes for each event. *)
  rf_apply : Event Opaque -> R -> R;
  (** What a reader of the store sees. *)
  rf_store : R -> Store Opaque;
  (** The pods served, and those of a list that has not completed, by reference. *)
  rf_live : R -> Key -> option (Pod Opaque);
  rf_buffer : R -> Key -> option (Pod Opaque);
  (** [WatchStreamExt::modify] on one event. *)
  rf_modify : (Pod Opaque -> Pod Opaque) -> Event Opaque -> Event Opaque;
}.

(** Readers see the pods served; the latch is released by the first completed list; [Init]
    starts a list beside the pods served, which [InitApply] extends and [InitDone] swaps in;
    the other two events change the pods served. *)
Class ReflectorLaws (Opaque R : Type) `{Reflector Opaque R} : Prop := {
  rf_new_latch : latch (rf_store (R:=R) rf_new) = NotReady;
  rf_apply_latch : forall ev (r : R),
    latch (rf_store (rf_apply ev r))
    = match ev with InitDone => Synced | _ => latch (rf_store r) end;
  rf_stored : forall (r : R) pod,
    pod ∈ stored (rf_store r) <-> exists k, rf_live r k = Some pod;
  rf_new_live : forall k, rf_live (R:=R) rf_new k = None;
  rf_new_buffer : forall k, rf_buffer (R:=R) rf_new k = None;
  rf_apply_live : forall ev (r : R) k,
    rf_live (rf_apply ev r) k
    = match ev with
      | Apply p => if decide (pod_key p = k) then Some p else rf_live r k
      | Delete p => if decide (pod_key p = k) then None else rf_live r k
      | InitDone => rf_buffer r k
      | Init | InitApply _ => rf_live r k
      end;
  rf_apply_buffer : forall ev (r : R) k,
    rf_buffer (rf_apply ev r) k
    = match ev with
      | Apply _ | Delete _ => rf_buffer r k
      | InitApply p => if decide (pod_key p = k) then Some p else rf_buffer r k
      | Init | InitDone => None
      end;
  rf_modify_event : forall f ev,
    rf_modify f ev
    = match ev with
      | Apply p => Apply (f p)
      | Delete p => Delete (f p)
      | InitApply p => InitApply (f p)
      | Init => Init
      | InitDone => InitDone
      end;
}.

(** ** The task *)

Section task.
Context {Opaque R : Type} `{Reflector Opaque R}.
Abbreviation Event := (Event Opaque).
Abbreviation Stream := (list (result Event Error)).

(** One item of the stream: [modify], the reflector, which applies the event before it
    yields it, and the closure of [for_each]. An error changes nothing and is retried. *)
Definition cache_step (item : result Event Error) (r : R) : R * option (str * str) :=
  match item with
  | Ok ev =>
      let ev := rf_modify prune_for_cache ev in
      let r := rf_apply ev r in
      (r, on_event (Ok ev))
  | Err e => (r, on_event (Err e : result Event Error))
  end.

(** The task on a stream: the store, and the deletions reported, in order. *)
Fixpoint cache_task (items : Stream) (r : R) : R * list (str * str) :=
  match items with
  | [] => (r, [])
  | item :: items =>
      let '(r, report) := cache_step item r in
      let '(r, reports) := cache_task items r in
      (r, option_list report ++ reports)
  end.

(** The cache behind a stream. *)
Definition cache_after (items : Stream) : R := (cache_task items rf_new).1.

(** The events of a stream. *)
Definition events (items : Stream) : list Event :=
  omap (fun item => match item with Ok ev => Some ev | Err _ => None end) items.
End task.

(** ** Specification: the pods a stream describes *)

Section spec.
Context {Opaque : Type}.
Abbreviation Event := (Event Opaque).
Implicit Types (evs : list Event) (k : Key) (p : Pod Opaque).

(** The events that decide whether, and as what, [k] is served. *)
Definition touches k (ev : Event) : Prop :=
  match ev with
  | Apply p | Delete p => pod_key p = k
  | InitDone => True
  | Init | InitApply _ => False
  end.

(** The events that decide whether, and as what, [k] is in the list being received. *)
Definition relists k (ev : Event) : Prop :=
  match ev with
  | InitApply p => pod_key p = k
  | Init | InitDone => True
  | Apply _ | Delete _ => False
  end.

(** The last event deciding that [k] is listed said that it is, as [p]. *)
Definition listed evs k p : Prop :=
  exists before after, evs = before ++ InitApply p :: after /\ pod_key p = k /\
    Forall (fun ev => ~ relists k ev) after.

(** The last event deciding that [k] is served said that it is, as [p]: an [Apply], or the
    end of a list that has [p]. *)
Definition live evs k p : Prop :=
  exists before ev after, evs = before ++ ev :: after /\
    Forall (fun ev => ~ touches k ev) after /\
    match ev with
    | Apply q => q = p /\ pod_key p = k
    | InitDone => listed before k p
    | _ => False
    end.

#[global] Instance touches_dec k ev : Decision (touches k ev).
Proof. destruct ev; simpl; apply _. Defined.

#[global] Instance relists_dec k ev : Decision (relists k ev).
Proof. destruct ev; simpl; apply _. Defined.

Lemma snoc_split {A} (l before after : list A) x y :
  l ++ [x] = before ++ y :: after ->
  (after = [] /\ before = l /\ y = x) \/
  (exists after', after = after' ++ [x] /\ l = before ++ y :: after').
Proof.
  destruct after as [|z after _] using rev_ind; intros E.
  - apply app_inj_tail in E as [-> ->]. by left.
  - right. rewrite app_comm_cons, app_assoc in E. apply app_inj_tail in E as [-> ->]. by exists after.
Qed.

Lemma listed_nil k p : ~ listed [] k p.
Proof. by intros ([] & ? & ? & ?). Qed.

Lemma live_nil k p : ~ live [] k p.
Proof. by intros ([] & ? & ? & ? & ?). Qed.

Lemma listed_snoc evs ev k p :
  listed (evs ++ [ev]) k p <->
  match ev with
  | InitApply q => if decide (pod_key q = k) then q = p else listed evs k p
  | Init | InitDone => False
  | Apply _ | Delete _ => listed evs k p
  end.
Proof.
  assert (listed evs k p -> ~ relists k ev -> listed (evs ++ [ev]) k p) as Hkeep.
  { intros (b & a & -> & Hk & Ha) Hev. exists b, (a ++ [ev]). split_and!; [|done|].
    - by rewrite <- app_assoc.
    - apply Forall_app. by split; [|apply Forall_singleton]. }
  split.
  - intros (b & a & [(-> & -> & <-)|(a' & -> & ->)]%snoc_split & Hk & Ha).
    + by rewrite decide_True.
    + rewrite Forall_app, Forall_singleton in Ha. destruct Ha as [Ha Hev].
      assert (listed (b ++ InitApply p :: a') k p) as Hl by (by exists b, a').
      destruct ev; simpl in Hev; try case_decide; tauto.
  - destruct ev as [q|q| |q|]; try done; try (intros; apply Hkeep; simpl; tauto).
    case_decide as Hq; [intros ->|intros; by apply Hkeep].
    exists evs, []. by split_and!.
Qed.

Lemma live_snoc evs ev k p :
  live (evs ++ [ev]) k p <->
  match ev with
  | Apply q => if decide (pod_key q = k) then q = p else live evs k p
  | Delete q => if decide (pod_key q = k) then False else live evs k p
  | InitDone => listed evs k p
  | Init | InitApply _ => live evs k p
  end.
Proof.
  assert (live evs k p -> ~ touches k ev -> live (evs ++ [ev]) k p) as Hkeep.
  { intros (b & e & a & -> & Ha & Hk) Hev. exists b, e, (a ++ [ev]). split_and!; [| |done].
    - by rewrite <- app_assoc.
    - apply Forall_app. by split; [|apply Forall_singleton]. }
  split.
  - intros (b & e & a & [(-> & -> & ->)|(a' & -> & ->)]%snoc_split & Ha & Hk).
    + destruct ev; try done. destruct Hk as [-> <-]. by rewrite decide_True.
    + rewrite Forall_app, Forall_singleton in Ha. destruct Ha as [Ha Hev].
      assert (live (b ++ e :: a') k p) as Hl by (by exists b, e, a').
      destruct ev; simpl in Hev; try case_decide; tauto.
  - destruct ev as [q|q| |q|]; try (intros; apply Hkeep; simpl; tauto).
    + case_decide as Hq; [intros ->|intros; by apply Hkeep].
      exists evs, (Apply p), []. by split_and!.
    + case_decide as Hq; [done|intros; by apply Hkeep].
    + intros. exists evs, InitDone, []. by split_and!.
Qed.
End spec.

(** ** The store refines the specification *)

Section refinement.
Context {Opaque R : Type} `{ReflectorLaws Opaque R} `{RegexEngine}.
Implicit Types (items : list (result (Event Opaque) Error)) (r : R) (k : Key).

Lemma pod_key_pruned (p : Pod Opaque) : pod_key (prune_for_cache p) = pod_key p.
Proof. done. Qed.

Lemma cache_task_snoc items item r :
  cache_task (items ++ [item]) r
  = let '(r', reports) := cache_task items r in
    let '(r'', report) := cache_step item r' in (r'', reports ++ option_list report).
Proof.
  revert r. induction items as [|i items IH]; intros r; cbn [app cache_task].
  - destruct (cache_step item r) as [r1 o]. by rewrite app_nil_r.
  - destruct (cache_step i r) as [r1 o]. rewrite IH.
    destruct (cache_task items r1) as [r2 os]. destruct (cache_step item r2) as [r3 o'].
    by rewrite app_assoc.
Qed.

Lemma cache_after_snoc items item :
  cache_after (R:=R) (items ++ [item]) = (cache_step item (cache_after items)).1.
Proof.
  unfold cache_after. rewrite cache_task_snoc.
  destruct (cache_task items rf_new) as [r os]. by destruct (cache_step item r) eqn:E; simpl; rewrite E.
Qed.

Lemma events_snoc items item :
  events (items ++ [item])
  = events items ++ match item with Ok ev => [ev] | Err _ => [] end.
Proof. unfold events. rewrite omap_app. by destruct item. Qed.

(** The store holds, pruned, exactly what the stream describes. *)
Lemma cache_holds items k q :
  (rf_live (cache_after (R:=R) items) k = Some q <->
     exists p, live (events items) k p /\ q = prune_for_cache p) /\
  (rf_buffer (cache_after (R:=R) items) k = Some q <->
     exists p, listed (events items) k p /\ q = prune_for_cache p).
Proof.
  revert q. induction items as [|item items IH] using rev_ind; intros q.
  - unfold cache_after. cbn. rewrite rf_new_live, rf_new_buffer.
    split; (split; [done|]); intros (p & Hp & _); [by apply live_nil in Hp|by apply listed_nil in Hp].
  - rewrite cache_after_snoc, events_snoc.
    destruct item as [ev|e]; cbn [cache_step fst]; [|rewrite app_nil_r; apply IH].
    rewrite rf_apply_live, rf_apply_buffer, rf_modify_event.
    setoid_rewrite live_snoc. setoid_rewrite listed_snoc.
    destruct (IH q) as [IHl IHb].
    destruct ev as [p|p| |p|]; rewrite ?pod_key_pruned; split; try done; try case_decide; try done;
      split; naive_solver.
Qed.
Lemma cache_latch items :
  latch (rf_store (cache_after (R:=R) items)) = Synced <-> InitDone ∈ events items.
Proof.
  induction items as [|item items IH] using rev_ind.
  { unfold cache_after. cbn. rewrite rf_new_latch. split; [done|by intros ?%elem_of_nil]. }
  rewrite cache_after_snoc, events_snoc, elem_of_app, <- IH.
  destruct item as [ev|e]; cbn [cache_step fst]; [|rewrite elem_of_nil; tauto].
  rewrite rf_apply_latch, rf_modify_event, list_elem_of_singleton.
  destruct ev; naive_solver.
Qed.

Lemma cache_alive items e : latch (rf_store (cache_after (R:=R) items)) <> WriterDropped e.
Proof.
  induction items as [|item items IH] using rev_ind.
  { unfold cache_after. cbn. by rewrite rf_new_latch. }
  rewrite cache_after_snoc. destruct item as [ev|err]; cbn [cache_step fst]; [|done].
  rewrite rf_apply_latch, rf_modify_event. by destruct ev.
Qed.

Lemma live_key evs k (p : Pod Opaque) : live evs k p -> pod_key p = k.
Proof. intros (b & [q|q| |q|] & a & _ & _ & Hk); try done; [by destruct Hk as [-> ?]|]. by destruct Hk as (? & ? & _ & ? & _). Qed.

(** The pods a stream describes. *)
Definition served items (p : Pod Opaque) : Prop := exists k, live (events items) k p.

Lemma cache_stored items q :
  q ∈ stored (rf_store (cache_after (R:=R) items)) <->
  exists p, served items p /\ q = prune_for_cache p.
Proof. rewrite rf_stored. setoid_rewrite (fun k => proj1 (cache_holds items k q)). unfold served. naive_solver. Qed.

Lemma reports_pruned candidate (p : Pod Opaque) s full id :
  reports candidate (prune_for_cache p) s full id <-> reports candidate p s full id.
Proof. done. Qed.

Lemma reported_by_cache items candidate id (P : Pod Opaque -> ContainerStatus -> str -> Prop) :
  (forall p s full, P (prune_for_cache p) s full <-> P p s full) ->
  (exists q s full, q ∈ stored (rf_store (cache_after (R:=R) items)) /\
     reports candidate q s full id /\ P q s full) <->
  (exists p s full, served items p /\ reports candidate p s full id /\ P p s full).
Proof.
  intros HP. setoid_rewrite cache_stored. split.
  - intros (q & s & full & (p & Hp & ->) & Hr & HPq). exists p, s, full. by rewrite <- HP.
  - intros (p & s & full & Hp & Hr & HPp). exists (prune_for_cache p), s, full.
    split_and!; [by exists p|done|by apply HP].
Qed.

(** C4: The cache answers for the watch. Whatever the stream was, relists and errors included, a
    lookup is an error exactly while no list has completed; after that it finds a container
    exactly when a pod the stream describes, with its last known status, reports the id, a
    running container first, and gives that pod's own coordinates, although what is stored
    is the pruned pod. *)
Theorem cache_answers_for_the_watch items (id : str) :
  match identity_of (rf_store (cache_after (R:=R) items)) id with
  | Err _ => InitDone ∉ events items
  | Ok found =>
      InitDone ∈ events items /\
      match found with
      | Some i =>
          (exists p s full, served items p /\ reports running_container_id p s full id /\
             i = identity_from_status p s full) \/
          ~ (exists p s full, served items p /\ reports running_container_id p s full id) /\
          (exists p s full, served items p /\ reports terminated_container_id p s full id /\
             i = identity_from_status p s full)
      | None =>
          ~ (exists p s full, served items p /\
             (reports running_container_id p s full id \/
              reports terminated_container_id p s full id))
      end
  end.
Proof.
  unfold identity_of, ensure_synced. pose proof (cache_latch items) as Hl.
  destruct (latch (rf_store (cache_after items))) eqn:Ela; cbn [result_bind];
    [|intros [=]%Hl..].
  split; [by apply Hl|]. set (pods := stored _). unfold identity_from_pods, or_else.
  assert (forall candidate i, match_container pods id candidate = Some i ->
    exists p s full, served items p /\ reports candidate p s full id /\
      i = identity_from_status p s full) as Hsome.
  { intros candidate i Hi%match_container_sound.
    by apply (reported_by_cache items candidate id (fun p s full => i = identity_from_status p s full)). }
  assert (forall candidate, match_container pods id candidate = None ->
    forall p s full, served items p -> ~ reports candidate p s full id) as Hnone.
  { intros candidate Hc p s full Hp Hr.
    apply (proj1 (match_container_None _ _ _) Hc (prune_for_cache p) s full); [|done].
    apply cache_stored. by exists p. }
  destruct (match_container pods id running_container_id) as [i|] eqn:E1; [left; by apply Hsome|].
  destruct (match_container pods id terminated_container_id) as [i|] eqn:E2.
  - right. split; [|by apply Hsome]. intros (p & s & full & Hp & Hr). exact (Hnone _ E1 p s full Hp Hr).
  - intros (p & s & full & Hp & [Hr|Hr]);
      [exact (Hnone _ E1 p s full Hp Hr)|exact (Hnone _ E2 p s full Hp Hr)].
Qed.

Lemma on_event_pruned (ev : Event Opaque) :
  on_event (Ok (rf_modify (R:=R) prune_for_cache ev)) = on_event (Ok ev).
Proof. rewrite rf_modify_event. by destruct ev. Qed.

Lemma cache_task_reports items r : (cache_task items r).2 = deletion_reports items.
Proof.
  revert r. induction items as [|item items IH]; intros r; [done|].
  cbn [cache_task]. destruct (cache_step item r) as [r1 o] eqn:E.
  specialize (IH r1). destruct (cache_task items r1) as [r2 os]. simpl in IH. subst os.
  assert (o = on_event item) as ->.
  { destruct item as [ev|e]; unfold cache_step in E; rewrite ?on_event_pruned in E; congruence. }
  unfold deletion_reports. cbn [omap list_omap snd]. by destruct (on_event item).
Qed.

(** The pods a stream deletes, in order, and the full name of a pod that has one. *)
Fixpoint deleted (evs : list (Event Opaque)) : list (Pod Opaque) :=
  match evs with
  | [] => []
  | Delete p :: evs => p :: deleted evs
  | _ :: evs => deleted evs
  end.

Definition full_name (p : Pod Opaque) : option (str * str) :=
  match pod_key p with (Some ns, Some name) => Some (ns, name) | _ => None end.

Lemma deletion_reports_cons (item : result (Event Opaque) Error) items :
  deletion_reports (item :: items) = option_list (on_event item) ++ deletion_reports items.
Proof. unfold deletion_reports. cbn [omap list_omap]. by destruct (on_event item). Qed.

Lemma deletion_reports_deleted items :
  deletion_reports items = omap full_name (deleted (events items)).
Proof.
  induction items as [|[ev|e] items IH]; [done| |exact IH].
  rewrite deletion_reports_cons, IH. change (events (Ok ev :: items)) with (ev :: events items).
  destruct ev as [p|p| |p|]; try done. cbn [deleted on_event omap list_omap].
  unfold full_name at 2, pod_key. by destruct (m_namespace (metadata p)), (m_name (metadata p)).
Qed.

(** What one item of the stream reports. *)
Lemma cache_step_report item r ns name :
  (cache_step item r).2 = Some (ns, name) <->
  exists p, item = Ok (Delete p) /\ pod_key p = (Some ns, Some name).
Proof.
  destruct item as [ev|e]; cbn [cache_step snd]; [|by split; [|intros (? & ? & _)]].
  rewrite on_event_pruned. destruct ev as [p|p| |p|]; cbn [on_event];
    try by (split; [|intros (? & ? & _)]).
  unfold pod_key. split; [|by intros (q & [= <-] & [= -> ->])].
  destruct (m_namespace (metadata p)) as [ns'|] eqn:Hn, (m_name (metadata p)) as [name'|] eqn:Hm;
    intros; simplify_eq. exists p. by rewrite Hn, Hm.
Qed.

(** C36: A deletion is reported after the store dropped the pod. The task reports, in order,
    the full names of exactly the pods the stream deletes: pruning hides none from the
    closure, no other event and no error of the watch reports anything, and a deleted pod
    without a namespace or a name is the only one skipped. At the moment it reports a pod,
    the store serves no pod of that name any more. *)
Theorem reported_pods_are_gone items item (ns name : str) :
  (cache_task items (rf_new (R:=R))).2 = omap full_name (deleted (events items)) /\
  ((cache_step item (cache_after (R:=R) items)).2 = Some (ns, name) <->
     exists p, item = Ok (Delete p) /\ pod_key p = (Some ns, Some name)) /\
  ((cache_step item (cache_after (R:=R) items)).2 = Some (ns, name) ->
   forall q, q ∈ stored (rf_store (cache_after (R:=R) (items ++ [item]))) ->
     pod_key q <> (Some ns, Some name)).
Proof.
  split_and!; [by rewrite cache_task_reports, deletion_reports_deleted|apply cache_step_report|].
  intros (p & -> & Hp)%cache_step_report q (k & Hq)%rf_stored Hk.
  rewrite cache_after_snoc in Hq. cbn [cache_step fst] in Hq.
  rewrite rf_apply_live, rf_modify_event, pod_key_pruned in Hq. case_decide as Hpk; [done|].
  apply (proj1 (cache_holds items k q)) in Hq as (p' & <-%live_key & ->).
  apply Hpk. by rewrite Hp, <- Hk.
Qed.
End refinement.

(** ** An instance over finite maps *)

Record MapStore {Opaque : Type} := {
  ms_live : gmap Key (Pod Opaque);
  ms_buffer : gmap Key (Pod Opaque);
  ms_ready : bool;
}.
Arguments MapStore : clear implicits.

#[export] Instance MapStore_Reflector (Opaque : Type) : Reflector Opaque (MapStore Opaque) := {|
  rf_new := {| ms_live := ∅; ms_buffer := ∅; ms_ready := false |};
  rf_apply ev r :=
    match ev with
    | Apply p => {| ms_live := <[pod_key p := p]> (ms_live r); ms_buffer := ms_buffer r;
                    ms_ready := ms_ready r |}
    | Delete p => {| ms_live := delete (pod_key p) (ms_live r); ms_buffer := ms_buffer r;
                     ms_ready := ms_ready r |}
    | Init => {| ms_live := ms_live r; ms_buffer := ∅; ms_ready := ms_ready r |}
    | InitApply p => {| ms_live := ms_live r; ms_buffer := <[pod_key p := p]> (ms_buffer r);
                        ms_ready := ms_ready r |}
    | InitDone => {| ms_live := ms_buffer r; ms_buffer := ∅; ms_ready := true |}
    end;
  rf_store r := {| latch := if ms_ready r then Synced else NotReady;
                   stored := (map_to_list (ms_live r)).*2 |};
  rf_live r k := ms_live r !! k;
  rf_buffer r k := ms_buffer r !! k;
  rf_modify f ev :=
    match ev with
    | Apply p => Apply (f p)
    | Delete p => Delete (f p)
    | InitApply p => InitApply (f p)
    | Init => Init
    | InitDone => InitDone
    end;
|}.

#[export] Instance MapStore_laws (Opaque : Type) : ReflectorLaws Opaque (MapStore Opaque).
Proof.
  split; simpl; try done.
  - by intros [].
  - intros r pod. rewrite list_elem_of_fmap. split.
    + intros ([k p] & -> & Hk%elem_of_map_to_list). by exists k.
    + intros [k Hk]. exists (k, pod). by rewrite elem_of_map_to_list.
  - intros [] r k; simpl; try done; rewrite ?lookup_insert, ?lookup_delete; done.
  - intros [] r k; simpl; try done; rewrite ?lookup_insert, ?lookup_delete; done.
Qed.

(** ** A watch that is lost and listed again *)

Definition victim : Pod unit := sample_pod (lit "api-0") [sample_status (lit "api") (sample_id 98) None].

(** Listed, lost, and missing from the next list, without a [Delete]. *)
Definition relisted_without : list (result (Event unit) Error) :=
  [Ok Init; Ok (InitApply victim); Ok InitDone; Err (anyhow (lit "watch lost")); Ok Init; Ok InitDone].

(** Listed, then deleted. *)
Definition watched : list (result (Event unit) Error) :=
  [Ok Init; Ok (InitApply victim); Ok InitDone].

Example mid_list_is_an_error :
  exists e, identity_of (rf_store (cache_after (R:=MapStore unit)
    [Ok Init; Ok (InitApply victim)])) (sample_id 98) = Err e.
Proof. eexists. by vm_compute. Qed.

Example missing_from_a_relist_stops_resolving :
  identity_of (rf_store (cache_after (R:=MapStore unit) relisted_without)) (sample_id 98) = Ok None
  /\ deletion_reports relisted_without = [].
Proof. by vm_compute. Qed.

Lemma reported_pods_are_gone_witness :
  (cache_task (watched ++ [Err (anyhow (lit "watch lost")); Ok (Delete victim)])
     (rf_new (R:=MapStore unit))).2 = [(lit "prod", lit "api-0")] /\
  identity_of (rf_store (cache_after (R:=MapStore unit) watched)) (sample_id 98) <> Ok None /\
  (prune_for_cache victim ∈ stored (rf_store (cache_after (R:=MapStore unit)
     (watched ++ [Ok (Delete victim)]))) ->
   False).
Proof.
  split_and!; [|by vm_compute|].
  - etrans; [apply (reported_pods_are_gone _ (Ok Init) [] [])|by vm_compute].
  - intros Hv.
    refine (proj2 (proj2 (reported_pods_are_gone (R:=MapStore unit) watched (Ok (Delete victim))
      (lit "prod") (lit "api-0"))) _ (prune_for_cache victim) Hv _); by vm_compute.
Defined.

Lemma cache_answers_for_the_watch_witness :
  identity_of (rf_store (cache_after (R:=MapStore unit) watched)) (sample_id 98)
    = Ok (Some (identity_from_status victim
        (sample_status (lit "api") (sample_id 98) None) (lit "containerd://" ++ sample_id 98))) /\
  InitDone ∈ events watched /\
  ~ (exists p s full, served watched p /\
       (reports running_container_id p s full (sample_id 48) \/
        reports terminated_container_id p s full (sample_id 48))).
Proof.
  pose proof (cache_answers_for_the_watch (R:=MapStore unit) watched (sample_id 48)) as Hmiss.
  assert (identity_of (rf_store (cache_after (R:=MapStore unit) watched)) (sample_id 48) = Ok None)
    as E by (by vm_compute).
  rewrite E in Hmiss. destruct Hmiss as [Hdone Hnone]. split; [by vm_compute|by split].
Defined.
