(* ===== verification/Watch.v ===== *)
(** * Watch: the watch loop

    [oom-watcher/src/watch.rs]: [run], [process_event] and [node_label], generic over the
    three seams and the clock as the source is. *)
From S2P Require Import Prelude Text Float64 Io Common Resolve Seams Health.

Section loop.
Context {S SW C CW R : Type}.
Context `{OomEventSource S SW} `{ContainerResolver C CW} `{MetricsRecorder R}.
Implicit Types (resolver : option C) (recorder : R) (source : S).

(** [node_label]. *)
Definition node_label resolver : str :=
  match resolver with Some c => node_name c | None => lit "unknown" end.

(** [process_event], with what the resolver reads of the world while it runs. *)
Definition process_event (raw : OomKillEvent) resolver (world : CW) recorder (timestamp : N) : R :=
  let '(node, id, recorder) :=
    match resolver with
    | Some client =>
        let outcome := resolve client world (pid raw) in
        (Some (node_name client), identity outcome,
         record_resolution_outcome (node_name client) outcome recorder)
    | None => (None, None, recorder)
    end in
  record_oom_event (enrich raw node id timestamp) recorder.

(** Why the loop woke. *)
Inductive Wake :=
| WakeEvent (e : OomKillEvent)
| WakeEnded
| WakeBeat.

(** One turn of the reactor as the loop sees it: the [select!] polls the source under the
    world [sw], or does not get to it, and finds the ticker fired or not; [cw] is the world
    a resolution started in this turn reads. When both are ready either may win: a turn in
    which the ticker wins before the source is looked at has [polled = None]. [drops_world]
    is the world the drops total is read from, after the event is processed. *)
Record Turn := {
  polled : option SW;
  ticked : bool;
  resolution_world : CW;
  drops_world : SW;
}.

(** The [select!]: what it yields, [None] when the loop stays parked, and the source. *)
Definition select (t : Turn) source : option Wake * S :=
  let on_ticker := if ticked t then Some WakeBeat else None in
  match polled t with
  | None => (on_ticker, source)
  | Some sw =>
      match poll_next sw source with
      | (Ready (Some e), source) => (Some (WakeEvent e), source)
      | (Ready None, source) => (Some WakeEnded, source)
      | (Pending, source) => (on_ticker, source)
      end
  end.

(** The loop between two turns: the source, the recorder, the heartbeats stamped so far and
    how often the clock was read. *)
Record LoopState := {
  ls_source : S;
  ls_recorder : R;
  ls_beats : list N;
  ls_reads : nat;
}.

(** The body after an event. [now n] is the [n]-th reading of the clock. *)
Definition handle_event (now : nat -> N) resolver (t : Turn) (e : OomKillEvent)
    (st : LoopState) : LoopState :=
  let recorder := process_event e resolver (resolution_world t) (ls_recorder st)
                    (now (ls_reads st)) in
  {| ls_source := ls_source st;
     ls_recorder := match dropped_total (drops_world t) (ls_source st) with
                    | Some total => record_dropped_total (node_label resolver) total recorder
                    | None => recorder
                    end;
     ls_beats := ls_beats st;
     ls_reads := Datatypes.S (ls_reads st) |}.

(** [heartbeat(now())]. *)
Definition stamp_heartbeat (now : nat -> N) (st : LoopState) : LoopState :=
  {| ls_source := ls_source st; ls_recorder := ls_recorder st;
     ls_beats := ls_beats st ++ [now (ls_reads st)];
     ls_reads := Datatypes.S (ls_reads st) |}.

(** One turn: the state, and whether the loop has broken out. *)
Definition turn (now : nat -> N) resolver (t : Turn) (st : LoopState) : LoopState * bool :=
  let '(wake, source) := select t (ls_source st) in
  let st := {| ls_source := source; ls_recorder := ls_recorder st; ls_beats := ls_beats st;
               ls_reads := ls_reads st |} in
  match wake with
  | None => (st, false)
  | Some WakeEnded => (st, true)
  | Some (WakeEvent e) => (stamp_heartbeat now (handle_event now resolver t e st), false)
  | Some WakeBeat => (stamp_heartbeat now st, false)
  end.

(** [run], for as many turns as the list has. *)
Fixpoint run (now : nat -> N) resolver (turns : list Turn) (st : LoopState)
    : LoopState * bool :=
  match turns with
  | [] => (st, false)
  | t :: turns =>
      let '(st, ended) := turn now resolver t st in
      if ended then (st, true) else run now resolver turns st
  end.

Definition loop_start source recorder : LoopState :=
  {| ls_source := source; ls_recorder := recorder; ls_beats := []; ls_reads := 0 |}.
End loop.
Arguments Turn : clear implicits.
Arguments LoopState : clear implicits.

(** ** The calls a loop makes *)

(** One call on a recorder. *)
Inductive Call :=
| CallOutcome (node : str) (o : ResolutionOutcome)
| CallEvent (e : EnrichedOomEvent)
| CallDropped (node : str) (total : N).

Definition apply_call {R} `{MetricsRecorder R} (r : R) (c : Call) : R :=
  match c with
  | CallOutcome node o => record_resolution_outcome node o r
  | CallEvent e => record_oom_event e r
  | CallDropped node total => record_dropped_total node total r
  end.

(** The recorder that only keeps the calls. *)
Definition Trace := list Call.

#[export] Instance Trace_MetricsRecorder : MetricsRecorder Trace := {|
  record_resolution_outcome node o t := t ++ [CallOutcome node o];
  record_oom_event e t := t ++ [CallEvent e];
  record_dropped_total node total t := t ++ [CallDropped node total];
|}.

Definition call_event (c : Call) : option EnrichedOomEvent :=
  match c with CallEvent e => Some e | _ => None end.

Section calls.
Context {S SW C CW : Type}.
Context `{OomEventSource S SW} `{ContainerResolver C CW}.
Implicit Types (resolver : option C) (source : S).

(** The calls one event must cause: its outcome if there is a resolver, then the event, then
    the drops total if the source knows one. *)
Definition calls_of_event resolver (world : CW) (e : OomKillEvent) (timestamp : N)
    (total : option N) : list Call :=
  let outcome := (fun c : C => resolve c world (pid e)) <$> resolver in
  match resolver, outcome with
  | Some c, Some o => [CallOutcome (node_name c) o]
  | _, _ => []
  end
  ++ [CallEvent (enrich e (node_name <$> resolver) (outcome ≫= identity) timestamp)]
  ++ match total with
     | Some total => [CallDropped (node_label resolver) total]
     | None => []
     end.

(** The whole specification of the loop's calls and heartbeats, without a recorder: what is
    polled, in which order, and which reading of the clock stamps what. *)
Fixpoint expected (now : nat -> N) resolver (turns : list (Turn SW CW)) source (reads : nat)
    : list Call * list N * bool :=
  match turns with
  | [] => ([], [], false)
  | t :: turns =>
      match select t source with
      | (None, source) => expected now resolver turns source reads
      | (Some WakeEnded, _) => ([], [], true)
      | (Some WakeBeat, source) =>
          let '(calls, beats, ended) := expected now resolver turns source (reads + 1) in
          (calls, now reads :: beats, ended)
      | (Some (WakeEvent e), source) =>
          let '(calls, beats, ended) := expected now resolver turns source (reads + 2) in
          (calls_of_event resolver (resolution_world t) e (now reads)
             (dropped_total (drops_world t) source) ++ calls,
           now (reads + 1)%nat :: beats, ended)
      end
  end.

Lemma process_event_calls {R} `{MetricsRecorder R} (r : R) resolver world e ts total :
  match total with
  | Some total => record_dropped_total (node_label resolver) total
                    (process_event e resolver world r ts)
  | None => process_event e resolver world r ts
  end = foldl apply_call r (calls_of_event resolver world e ts total).
Proof. destruct resolver as [c|], total as [n|]; done. Qed.

(** Every recorder goes through exactly the expected calls. *)
Lemma run_expected {R} `{MetricsRecorder R} now resolver turns (st : LoopState S R) :
  let '(st', ended) := run now resolver turns st in
  let '(calls, beats, ended') := expected now resolver turns (ls_source st) (ls_reads st) in
  ls_recorder st' = foldl apply_call (ls_recorder st) calls /\
  ls_beats st' = ls_beats st ++ beats /\ ended = ended'.
Proof.
  revert st. induction turns as [|t turns IH]; intros st; [simpl; by rewrite app_nil_r|].
  simpl. unfold turn. destruct (select t (ls_source st)) as [[[e| |]|] source]; cbn [fst snd].
  - rewrite Nat.add_1_r. specialize (IH (stamp_heartbeat now (handle_event now resolver t e
      {| ls_source := source; ls_recorder := ls_recorder st; ls_beats := ls_beats st;
         ls_reads := ls_reads st |}))).
    destruct (run now resolver turns _) as [st' ended].
    cbn [ls_source ls_reads ls_beats ls_recorder stamp_heartbeat handle_event] in IH.
    replace (ls_reads st + 2)%nat with (Datatypes.S (Datatypes.S (ls_reads st))) by lia.
    destruct (expected _ _ _ source _) as [[calls beats] ended'].
    destruct IH as (-> & -> & ->). split_and!; [|by rewrite <- app_assoc|done].
    by rewrite foldl_app, process_event_calls.
  - by rewrite app_nil_r.
  - rewrite Nat.add_1_r. specialize (IH (stamp_heartbeat now
      {| ls_source := source; ls_recorder := ls_recorder st; ls_beats := ls_beats st;
         ls_reads := ls_reads st |})).
    destruct (run now resolver turns _) as [st' ended].
    cbn [ls_source ls_reads ls_beats ls_recorder stamp_heartbeat] in IH.
    destruct (expected _ _ _ source _) as [[calls beats] ended'].
    destruct IH as (-> & -> & ->). split_and!; [done|by rewrite <- app_assoc|done].
  - apply (IH {| ls_source := source; ls_recorder := ls_recorder st; ls_beats := ls_beats st;
                 ls_reads := ls_reads st |}).
Qed.
End calls.

(** ** A finite source *)

(** How often the source was polled. *)
Definition polls {SW CW} (turns : list (Turn SW CW)) : nat :=
  length (omap (fun t => polled t) turns).

(** The raw events a list of calls records. *)
Definition recorded (calls : list Call) : list OomKillEvent :=
  raw_event <$> omap call_event calls.

Lemma recorded_app c1 c2 : recorded (c1 ++ c2) = recorded c1 ++ recorded c2.
Proof. unfold recorded. by rewrite omap_app, fmap_app. Qed.

Lemma recorded_calls_of_event {C CW} `{ContainerResolver C CW} (resolver : option C) (world : CW)
    e ts total : recorded (calls_of_event resolver world e ts total) = [e].
Proof.
  unfold calls_of_event. rewrite !recorded_app.
  assert (forall x, recorded [CallEvent x] = [raw_event x]) as -> by done.
  rewrite enrich_raw. by destruct resolver as [c|], total as [n|].
Qed.

Lemma expected_vec {C CW} `{ContainerResolver C CW} now (resolver : option C)
    (turns : list (Turn unit CW)) es drops reads :
  let '(calls, beats, ended) :=
    expected now resolver turns {| vec_events := es; vec_drops := drops |} reads in
  recorded calls = take (polls turns) es /\
  ended = bool_decide (length es < polls turns)%nat.
Proof.
  revert es reads. induction turns as [|t turns IH]; intros es reads.
  { split; [done|]. symmetry. apply bool_decide_eq_false_2. unfold polls. simpl. lia. }
  unfold polls. simpl. unfold select. destruct t as [[[]|] tk cw dw]; cbn [polled].
  - cbn [length]. destruct es as [|e es]; cbn [poll_next VecSource_OomEventSource vec_events].
    { split; [by destruct (polls turns)|]. symmetry. apply bool_decide_eq_true_2. simpl. lia. }
    specialize (IH es (reads + 2)%nat). cbn [vec_drops].
    destruct (expected _ _ turns _ _) as [[calls beats] ended]. destruct IH as [Hr ->].
    rewrite recorded_app, recorded_calls_of_event, Hr. split; [done|].
    apply bool_decide_ext. apply Nat.succ_lt_mono.
  - destruct tk; [|apply IH]. specialize (IH es (reads + 1)%nat). cbn [ticked].
    by destruct (expected _ _ turns _ _) as [[calls beats] ended].
Qed.

(** ** Heartbeats *)

(** The events among the calls of one event carry its timestamp and the node. *)
Lemma calls_of_event_event {C CW} `{ContainerResolver C CW} (resolver : option C) (world : CW)
    e ts total e' :
  CallEvent e' ∈ calls_of_event resolver world e ts total ->
  exists id, e' = enrich e (node_name <$> resolver) id ts.
Proof.
  unfold calls_of_event. intros [Hin|[Hin|Hin]%elem_of_app]%elem_of_app.
  - destruct resolver as [c|]; simpl in Hin; [|by apply elem_of_nil in Hin].
    by apply list_elem_of_singleton in Hin.
  - apply list_elem_of_singleton in Hin as [= ->]. by eexists.
  - destruct total; [by apply list_elem_of_singleton in Hin|by apply elem_of_nil in Hin].
Qed.

Lemma calls_of_event_time {C CW} `{ContainerResolver C CW} (resolver : option C) (world : CW)
    e ts total e' :
  CallEvent e' ∈ calls_of_event resolver world e ts total -> ev_timestamp e' = ts.
Proof. intros [id ->]%calls_of_event_event. apply enrich_timestamp. Qed.

(** A heartbeat is never older than what was recorded before it. *)
Lemma expected_times {S SW C CW} `{OomEventSource S SW} `{ContainerResolver C CW}
    now (resolver : option C) (turns : list (Turn SW CW)) (source : S) reads :
  (forall n, now n <= now (Datatypes.S n)) ->
  let '(calls, beats, ended) := expected now resolver turns source reads in
  (forall e, CallEvent e ∈ calls -> exists b, last beats = Some b /\ ev_timestamp e <= b) /\
  (forall b, b ∈ beats -> now reads <= b) /\
  (forall b, last beats = Some b -> now reads <= b).
Proof.
  intros Hmono. assert (forall n m, (n <= m)%nat -> now n <= now m) as Hle.
  { intros n m Hnm. induction Hnm as [|m Hnm IH]; [done|]. etrans; [done|apply Hmono]. }
  revert source reads. induction turns as [|t turns IH]; intros source reads.
  { simpl. split_and!; [by intros ? ?%elem_of_nil|by intros ? ?%elem_of_nil|done]. }
  simpl. destruct (select t source) as [[[e| |]|] source']; [| | |apply IH].
  - specialize (IH source' (reads + 2)%nat).
    destruct (expected now resolver turns source' (reads + 2)) as [[calls beats] ended].
    destruct IH as (IHe & IHb & IHl).
    assert (now reads <= now (reads + 1)%nat) by (apply Hle; lia).
    assert (now (reads + 1)%nat <= now (reads + 2)%nat) by (apply Hle; lia).
    assert (exists b, last (now (reads + 1)%nat :: beats) = Some b /\
                      now (reads + 1)%nat <= b /\ forall b', last beats = Some b' -> b = b')
      as (b & Hlast & Hb & Hsame).
    { rewrite last_cons. destruct (last beats) as [b|] eqn:El.
      - exists b. split_and!; [done| |by intros ? [= ->]]. specialize (IHl b eq_refl). lia.
      - exists (now (reads + 1)%nat). split_and!; [done|done|by intros]. }
    split_and!.
    + intros e' Hin. exists b. split; [done|]. apply elem_of_app in Hin as [Hin|Hin].
      * rewrite (calls_of_event_time _ _ _ _ _ _ Hin). lia.
      * destruct (IHe e' Hin) as (b' & Hb' & ?). by rewrite (Hsame b' Hb').
    + intros b' [->|Hb']%elem_of_cons; [lia|]. specialize (IHb b' Hb'). lia.
    + intros b' Hb'. rewrite Hlast in Hb'. simplify_eq. lia.
  - split_and!; [by intros ? ?%elem_of_nil|by intros ? ?%elem_of_nil|done].
  - specialize (IH source' (reads + 1)%nat).
    destruct (expected now resolver turns source' (reads + 1)) as [[calls beats] ended].
    destruct IH as (IHe & IHb & IHl). assert (now reads <= now (reads + 1)%nat) by (apply Hle; lia).
    split_and!.
    + intros e (b & Hb & ?)%IHe. exists b. rewrite last_cons, Hb. done.
    + intros b [->|Hb]%elem_of_cons; [lia|]. specialize (IHb b Hb). lia.
    + intros b. rewrite last_cons. destruct (last beats) as [b'|] eqn:El.
      * intros [= <-]. specialize (IHl b' eq_refl). lia.
      * by intros [= <-].
Qed.

(** ** The node label *)

(** What holds of every call the loop makes: one node label throughout, the node on every
    event exactly when there is a resolver, and nothing Kubernetes knows without one. *)
Definition call_ok {C CW} `{ContainerResolver C CW} (resolver : option C) (call : Call) : Prop :=
  match call with
  | CallOutcome node _ => exists c, resolver = Some c /\ node = node_name c
  | CallEvent e =>
      ev_node_name e = node_name <$> resolver /\
      (resolver = None -> ev_namespace e = None /\ ev_pod_name e = None /\
         ev_container_name e = None /\ ev_container_id e = None /\ ev_image_id e = None)
  | CallDropped node _ => node = node_label resolver
  end.

Definition is_outcome (call : Call) : bool :=
  match call with CallOutcome _ _ => true | _ => false end.
Definition is_event (call : Call) : bool :=
  match call with CallEvent _ => true | _ => false end.
Definition count (p : Call -> bool) (calls : list Call) : nat :=
  length (filter (fun c => p c = true) calls).

Lemma count_app p c1 c2 : count p (c1 ++ c2) = (count p c1 + count p c2)%nat.
Proof. unfold count. by rewrite filter_app, length_app. Qed.

Lemma calls_of_event_ok {C CW} `{ContainerResolver C CW} (resolver : option C) (world : CW)
    e ts total :
  Forall (call_ok resolver) (calls_of_event resolver world e ts total) /\
  count is_event (calls_of_event resolver world e ts total) = 1%nat /\
  count is_outcome (calls_of_event resolver world e ts total)
  = match resolver with Some _ => 1%nat | None => 0%nat end.
Proof.
  unfold calls_of_event. split_and!.
  - rewrite !Forall_app. split_and!.
    + destruct resolver as [c|]; constructor; [by exists c|done].
    + constructor; [|done]. simpl. split; [apply enrich_node|]. by intros ->.
    + destruct total; by repeat constructor.
  - rewrite !count_app. by destruct resolver, total.
  - rewrite !count_app. by destruct resolver, total.
Qed.

Lemma expected_ok {S SW C CW} `{OomEventSource S SW} `{ContainerResolver C CW}
    now (resolver : option C) (turns : list (Turn SW CW)) (source : S) reads :
  let calls := (expected now resolver turns source reads).1.1 in
  Forall (call_ok resolver) calls /\
  count is_outcome calls = match resolver with Some _ => count is_event calls | None => 0%nat end.
Proof.
  revert source reads. induction turns as [|t turns IH]; intros source reads.
  { simpl. split; [constructor|]. by destruct resolver. }
  simpl. destruct (select t source) as [[[e| |]|] source']; [| | |apply IH].
  - specialize (IH source' (reads + 2)%nat).
    destruct (expected now resolver turns source' (reads + 2)) as [[calls beats] ended].
    cbn [fst] in *. destruct IH as [IHf IHc].
    destruct (calls_of_event_ok resolver (resolution_world t) e (now reads)
      (dropped_total (drops_world t) source')) as (Hf & He & Ho).
    split; [by apply Forall_app|]. rewrite !count_app, He, Ho, IHc. by destruct resolver.
  - simpl. split; [constructor|]. by destruct resolver.
  - specialize (IH source' (reads + 1)%nat).
    by destruct (expected now resolver turns source' (reads + 1)) as [[calls beats] ended].
Qed.

Lemma foldl_trace (t calls : Trace) : foldl apply_call t calls = t ++ calls.
Proof.
  revert t. induction calls as [|c calls IH]; intros t; [by rewrite app_nil_r|].
  simpl. rewrite IH. destruct c; simpl; by rewrite <- app_assoc.
Qed.

(** ** Properties *)

(** C11: the loop is parametric in its recorder: whatever the recorder, the loop drives it
    through exactly the calls the specification lists (per event its resolution outcome, then
    the enriched event stamped with the reading taken before the resolution, then the
    drops total), in order, and stamps exactly the listed heartbeats. So what the tests
    observe with a spy is what the Prometheus collector undergoes. *)
Theorem every_recorder_undergoes_the_same_calls {S SW C CW R} `{OomEventSource S SW}
    `{ContainerResolver C CW} `{MetricsRecorder R} (now : nat -> N) (resolver : option C)
    (turns : list (Turn SW CW)) (source : S) (recorder : R) :
  let '(st, ended) := run now resolver turns (loop_start source recorder) in
  let '(spy, spy_ended) := run now resolver turns (loop_start source ([] : Trace)) in
  let '(calls, beats, ended') := expected now resolver turns source 0 in
  ls_recorder spy = calls /\ ls_recorder st = foldl apply_call recorder calls /\
  ls_beats st = beats /\ ls_beats spy = beats /\ ended = ended' /\ spy_ended = ended'.
Proof.
  pose proof (run_expected now resolver turns (loop_start source recorder)) as Hrun.
  pose proof (run_expected now resolver turns (loop_start source ([] : Trace))) as Hexp.
  cbn [loop_start ls_source ls_reads ls_recorder ls_beats] in Hrun, Hexp.
  destruct (run now resolver turns (loop_start source recorder)) as [st ended].
  destruct (run now resolver turns (loop_start source ([] : Trace))) as [spy spy_ended].
  destruct (expected now resolver turns source 0) as [[calls beats] ended'].
  destruct Hrun as (-> & -> & ->), Hexp as (-> & -> & ->). rewrite foldl_trace. done.
Qed.

(** C28: a finite source is drained in order, each event recorded once, and the loop returns
    when it is empty: after any turns, heartbeat ticks interleaved at will, the recorded
    events are the first as many of the source's as it was polled, and the loop has ended
    exactly if it was polled once more than the source has events. *)
Theorem finite_source_is_drained_in_order {C CW} `{ContainerResolver C CW} (now : nat -> N)
    (resolver : option C) (turns : list (Turn unit CW)) (es : list OomKillEvent)
    (drops : option N) :
  let '(st, ended) := run now resolver turns
    (loop_start {| vec_events := es; vec_drops := drops |} ([] : Trace)) in
  recorded (ls_recorder st) = take (polls turns) es /\
  ended = bool_decide (length es < polls turns)%nat.
Proof.
  set (source := {| vec_events := es; vec_drops := drops |}).
  pose proof (run_expected now resolver turns (loop_start source ([] : Trace))) as Hrun.
  pose proof (expected_vec now resolver turns es drops 0) as Hexp.
  destruct (run now resolver turns _) as [st ended].
  cbn [loop_start ls_source ls_reads ls_recorder] in Hrun. fold source in Hexp.
  destruct (expected now resolver turns source 0) as [[calls beats] ended'].
  destruct Hrun as (-> & _ & ->), Hexp as [Hr ->]. by rewrite foldl_trace.
Qed.

(** C29: the enrichment rule across the loop: every recorded event carries the node exactly
    when there is a resolver, every outcome and every drops total is reported under that same
    node ([unknown] without one), each event has exactly one outcome with a resolver and
    none without, and without one no event carries container coordinates. *)
Theorem node_is_known_iff_there_is_a_resolver {S SW C CW} `{OomEventSource S SW}
    `{ContainerResolver C CW} (now : nat -> N) (resolver : option C)
    (turns : list (Turn SW CW)) (source : S) :
  let calls := ls_recorder (run now resolver turns (loop_start source ([] : Trace))).1 in
  Forall (call_ok resolver) calls /\
  count is_outcome calls = match resolver with Some _ => count is_event calls | None => 0%nat end.
Proof.
  pose proof (run_expected now resolver turns (loop_start source ([] : Trace))) as Hrun.
  pose proof (expected_ok now resolver turns source 0) as Hexp.
  destruct (run now resolver turns _) as [st ended].
  cbn [loop_start ls_source ls_reads ls_recorder] in Hrun.
  destruct (expected now resolver turns source 0) as [[calls beats] ended'].
  destruct Hrun as (Hr & _ & _). cbv zeta. cbn [fst] in *. by rewrite Hr, foldl_trace.
Qed.

(** The liveness state after the loop stamped [beats]. *)
Definition health_after (t0 : N) (beats : list N) : Health :=
  foldl (fun h at_secs => beat at_secs h) (mark_started t0 health_new) beats.

Lemma health_after_snoc t0 beats b : health_after t0 (beats ++ [b]) = beat b (health_after t0 beats).
Proof. unfold health_after. by rewrite foldl_app. Qed.

Lemma liveness_after t0 beats t :
  liveness t (health_after t0 beats) = judge t (default t0 (last beats)).
Proof.
  assert (started (health_after t0 beats) = true) as Hs.
  { induction beats as [|b beats IH] using rev_ind; [done|]. by rewrite health_after_snoc. }
  unfold liveness. rewrite Hs. cbn [negb].
  destruct beats as [|b beats] using rev_ind; [done|]. by rewrite health_after_snoc, last_snoc.
Qed.

(** C30: the heartbeat certifies finished work: on a clock that does not step back, the probe
    judges by the loop's last stamp (or the seed, before any), and no event has been
    recorded with a later timestamp than that stamp: the stamp follows the processing, so a
    loop stuck in a resolution stops stamping. *)
Theorem heartbeat_follows_the_processing {S SW C CW} `{OomEventSource S SW}
    `{ContainerResolver C CW} (now : nat -> N) (resolver : option C)
    (turns : list (Turn SW CW)) (source : S) (t0 t : N) :
  (forall n, now n <= now (Datatypes.S n)) ->
  let st := (run now resolver turns (loop_start source ([] : Trace))).1 in
  liveness t (health_after t0 (ls_beats st)) = judge t (default t0 (last (ls_beats st))) /\
  (forall e, CallEvent e ∈ ls_recorder st ->
     exists b, last (ls_beats st) = Some b /\ ev_timestamp e <= b).
Proof.
  intros Hmono st. split; [apply liveness_after|].
  pose proof (run_expected now resolver turns (loop_start source ([] : Trace))) as Hrun.
  pose proof (expected_times now resolver turns source 0 Hmono) as Hexp.
  unfold st. destruct (run now resolver turns _) as [st' ended].
  cbn [loop_start ls_source ls_reads ls_recorder ls_beats fst] in *.
  destruct (expected now resolver turns source 0) as [[calls beats] ended'].
  destruct Hrun as (-> & -> & _), Hexp as (He & _). rewrite foldl_trace. apply He.
Qed.

(** ** Concrete runs *)

Definition sample_raw (p : N) : OomKillEvent :=
  {| pid := p; comm := []; total_vm := 100; anon_rss := 50; file_rss := 10; shmem_rss := 5;
     uid := 1000; pgtables := 2; oom_score_adj := 0 |}.
Definition poll_turn : Turn unit unit :=
  {| polled := Some tt; ticked := false; resolution_world := tt; drops_world := tt |}.
Definition tick_turn : Turn unit unit :=
  {| polled := None; ticked := true; resolution_world := tt; drops_world := tt |}.
Definition sample_resolver : option FakeResolver :=
  Some {| fake_node := lit "node-1"; behavior := BNotFound |}.
Definition sample_source : VecSource :=
  {| vec_events := [sample_raw 1; sample_raw 2]; vec_drops := Some 7 |}.
Definition sample_turns : list (Turn unit unit) :=
  [poll_turn; tick_turn; poll_turn; tick_turn; poll_turn].

Example sample_run_ends :
  (run (fun n => 100 + N.of_nat n) sample_resolver sample_turns
     (loop_start sample_source spy_default)).2 = true.
Proof. by vm_compute. Qed.

Example sample_run_heartbeats :
  ls_beats (run (fun n => 100 + N.of_nat n) sample_resolver sample_turns
    (loop_start sample_source spy_default)).1 = [101; 102; 104; 105].
Proof. by vm_compute. Qed.

Lemma heartbeat_follows_the_processing_witness :
  let st := (run (fun n => 100 + N.of_nat n) sample_resolver sample_turns
    (loop_start sample_source ([] : Trace))).1 in
  liveness 195 (health_after 90 (ls_beats st)) = judge 195 (default 90 (last (ls_beats st))) /\
  judge 195 (default 90 (last (ls_beats st))) = Live 90.
Proof.
  intros st. split; [|by vm_compute].
  apply (heartbeat_follows_the_processing (fun n => 100 + N.of_nat n) sample_resolver
    sample_turns sample_source 90 195). intros n. lia.
Defined.
