(* ===== verification/Attribution.v ===== *)
(** * Attribution: the series a kill lands on

    Resolution and recording composed: [process_event] ([oom-watcher/src/watch.rs]) with the
    in-cluster resolver and its pod cache ([kubernetes.rs]), recording into the collector
    ([metrics.rs]). *)
From S2P Require Import Prelude Text Float64 Io Common Resolve Seams Prometheus Metrics Eviction.
From S2P Require Import Sweep Recording Regex Cgroup Kubernetes PodCache Reflector Watch.

(** What a resolution reads while the cache has followed [items]. *)
Definition world_after {Opaque R} `{Reflector Opaque R} (fs : FileSystem)
    (items : list (result (Event Opaque) Error)) : KubeWorld Opaque :=
  {| read_to_string := fs; store := rf_store (cache_after (R:=R) items) |}.

(** The label set of a container a pod status describes, seen from [node]. *)
Definition container_key {Opaque} (node : str) (p : Pod Opaque) (s : ContainerStatus) (full : str)
    : SeriesKey := {|
  k_node := node;
  k_namespace := default (lit "default") (m_namespace (metadata p));
  k_pod := default (lit "unknown") (m_name (metadata p));
  k_container := cs_name s;
  k_container_id := full;
  k_image_id := cs_image_id s;
|}.

(** The label set of a kill nothing resolved. *)
Definition unresolved_key (node : str) : SeriesKey := {|
  k_node := node;
  k_namespace := lit "unknown"; k_pod := lit "unknown"; k_container := lit "unknown";
  k_container_id := lit "unknown"; k_image_id := lit "unknown";
|}.

Section attribution.
Context {Opaque R V : Type} `{ReflectorLaws Opaque R} `{RegexEngine} `{MetricVecLaws V}.
Abbreviation Collector := (MetricsCollector V).
Implicit Types (items : list (result (Event Opaque) Error)) (c : Collector).

Lemma key_of_resolved raw node (p : Pod Opaque) s full ts :
  key_of_event (enrich raw (Some node) (Some (identity_from_status p s full)) ts)
  = container_key node p s full.
Proof. done. Qed.

Lemma key_of_unresolved raw node ts :
  key_of_event (enrich raw (Some node) None ts) = unresolved_key node.
Proof. done. Qed.

(** The pods that report an id as running agree on the container. *)
Definition one_container items (id : str) (p : Pod Opaque) (s : ContainerStatus) (full : str) : Prop :=
  served items p /\ reports running_container_id p s full id /\
  forall p' s' full', served items p' -> reports running_container_id p' s' full' id ->
    identity_from_status p' s' full' = identity_from_status p s full.

Lemma resolve_one_container (client : KubernetesClient) (fs : FileSystem) items (pid : N)
    text id p s full :
  fs (cgroup_path pid) = Ok text -> extract_container_id text = Some id ->
  InitDone ∈ events items -> one_container items id p s full ->
  resolve client (world_after (R:=R) fs items) pid = Found (identity_from_status p s full).
Proof.
  intros Hfs Hid Hdone (Hp & Hr & Hone). unfold resolve, KubernetesClient_ContainerResolver,
    get_container_info, get_container_id_from_pid, world_after. cbn [read_to_string store].
  rewrite Hfs. cbn [result_bind]. rewrite Hid.
  unfold identity_of, ensure_synced. apply (cache_latch (R:=R)) in Hdone. rewrite Hdone.
  cbn [result_bind]. unfold identity_from_pods, or_else.
  destruct (match_container _ id running_container_id) as [i|] eqn:E.
  - apply match_container_sound in E.
    apply (reported_by_cache items running_container_id id
      (fun p s full => i = identity_from_status p s full)) in E as (p' & s' & full' & Hp' & Hr' & ->);
      [|done]. by rewrite (Hone p' s' full').
  - exfalso. apply (proj1 (match_container_None _ _ _) E (prune_for_cache p) s full); [|done].
    apply cache_stored. by exists p.
Qed.

(** What [process_event] does to the collector once the outcome is known. *)
Lemma process_event_found (client : KubernetesClient) w raw i c now :
  resolve client w (pid raw) = Found i ->
  process_event raw (Some client) (w : KubeWorld Opaque) c now
  = collector_record_oom_event (enrich raw (Some (kc_node_name client)) (Some i) now) c.
Proof. unfold process_event. by intros ->. Qed.

Lemma process_event_unresolved (client : KubernetesClient) w raw c now reason :
  resolve client w (pid raw) = reason -> identity reason = None ->
  process_event raw (Some client) (w : KubeWorld Opaque) c now
  = collector_record_oom_event (enrich raw (Some (kc_node_name client)) None now)
      (collector_record_resolution_outcome (kc_node_name client) reason c).
Proof. unfold process_event. intros -> Hi. simpl. by rewrite Hi. Qed.

(** What recording an event changes besides its own series: nothing. *)
Lemma record_event_elsewhere e c :
  wf_collector c ->
  let c' := collector_record_oom_event e c in
  let k := key_of_event e in
  (forall k', k' <> k -> kills c' k' = kills c k' /\ stamp c' k' = stamp c k' /\
     last_seen c' !! k' = last_seen c !! k') /\
  (forall k' mt, mt ∈ MEMORY_TYPES -> shares_memory_series_with k k' = false ->
     memory c' k' mt = memory c k' mt) /\
  (forall n, n <> k_node k -> per_node c' n = per_node c n) /\
  (forall n reason, failures c' n reason = failures c n reason) /\
  (forall n, dropped c' n = dropped c n /\ evicted c' n = evicted c n) /\
  deleted_after c' = deleted_after c.
Proof.
  intros Hwf c' k. subst c' k. unfold failures, dropped, evicted.
  destruct (record_event_rest e c) as (-> & -> & -> & _ & ->). split_and!; try done.
  - intros k' Hne. rewrite kills_record, stamp_record, !decide_False by done.
    by rewrite record_event_last_seen, lookup_insert_ne.
  - intros k' mt Hmt Hs. by rewrite memory_record, Hs.
  - intros n Hne. by rewrite per_node_record, decide_False.
Qed.

(** C8: A kill lands on the series of its container. When the process's cgroup file names a
    container the node's pods report as running (without contradicting each other), the kill
    raises exactly the counter of that pod, container and reported id by one, stamps it with
    the time of the kill, starts or refreshes its age, raises each of the container's memory
    gauges to its figure in bytes, and adds one to the node total. Nothing else of the
    collector changes: no other label set's counter, timestamp or age, no other container's
    gauges, no other node's total, no resolution failure, and neither the dropped and
    evicted counters nor the pending deletions. *)
Theorem kill_is_attributed_to_its_container (ops : list Op) (client : KubernetesClient)
    (fs : FileSystem) items (raw : OomKillEvent) (now : N) text id p s full :
  fs (cgroup_path (pid raw)) = Ok text -> extract_container_id text = Some id ->
  InitDone ∈ events items -> one_container items id p s full ->
  let c := run_ops ops (collector_new : Collector) in
  let c' := process_event raw (Some client) (world_after (R:=R) fs items) c now in
  let node := kc_node_name client in
  let k := container_key node p s full in
  (kills c' k = Some (f64_add (default 0 (kills c k)) 1) /\ stamp c' k = Some (f64_of_N now) /\
   last_seen c' !! k = Some now /\
   (forall mt kb,
      (mt, kb) ∈ [(lit "total_vm", total_vm raw); (lit "anon_rss", anon_rss raw);
                  (lit "file_rss", file_rss raw); (lit "shmem_rss", shmem_rss raw)] ->
      kb < 2 ^ 54 ->
      memory c' k mt = Some (N.max (default 0 (memory c k mt)) (f64_of_N (1024 * kb)))) /\
   per_node c' node = Some (f64_add (default 0 (per_node c node)) 1)) /\
  (forall k', k' <> k -> kills c' k' = kills c k' /\ stamp c' k' = stamp c k' /\
     last_seen c' !! k' = last_seen c !! k') /\
  (forall k' mt, mt ∈ MEMORY_TYPES -> shares_memory_series_with k k' = false ->
     memory c' k' mt = memory c k' mt) /\
  (forall n, n <> node -> per_node c' n = per_node c n) /\
  (forall n reason, failures c' n reason = failures c n reason) /\
  (forall n, dropped c' n = dropped c n /\ evicted c' n = evicted c n) /\
  deleted_after c' = deleted_after c.
Proof.
  intros Hfs Hid Hdone Hone c c' node k.
  assert (wf_collector c) as Hwf by apply wf_run_ops.
  assert (c' = collector_record_oom_event (enrich raw (Some node)
    (Some (identity_from_status p s full)) now) c) as ->
    by (by eapply process_event_found, resolve_one_container).
  set (e := enrich _ _ _ _). assert (key_of_event e = k) as Hk by done.
  assert (ev_timestamp e = now) as Hts by apply enrich_timestamp.
  split; [|rewrite <- Hk; by apply record_event_elsewhere].
  rewrite kills_record, stamp_record, per_node_record, record_event_last_seen by done.
  rewrite Hk, Hts, !decide_True by done. split_and!; [done|done|by rewrite lookup_insert, decide_True| |done].
  intros mt kb Hkb Hb.
  assert (mt ∈ MEMORY_TYPES /\ kilobytes_of mt e = kb) as [Hmt Hfig].
  { rewrite !elem_of_cons, elem_of_nil in Hkb. unfold MEMORY_TYPES. rewrite !elem_of_cons.
    by destruct Hkb as [[= -> ->]|[[= -> ->]|[[= -> ->]|[[= -> ->]|[]]]]]; split; auto 6. }
  rewrite memory_record, Hk, shares_refl, memory_figure_kb, Hfig by done.
  rewrite wrapping_mul_small by (unfold u64_bound; lia). by rewrite N.mul_comm.
Qed.

(** C9: A kill nothing resolves is still counted: in the node total, on the label set of unknowns
    under this node, and as exactly one resolution failure, of the reason the outcome has. *)
Theorem unresolved_kill_is_counted (ops : list Op) (client : KubernetesClient)
    (w : KubeWorld Opaque) (raw : OomKillEvent) (now : N) (reason : str) :
  reason_of (resolve client w (pid raw)) = Some reason ->
  let c := run_ops ops (collector_new : Collector) in
  let c' := process_event raw (Some client) w c now in
  let node := kc_node_name client in
  kills c' (unresolved_key node) = Some (f64_add (default 0 (kills c (unresolved_key node))) 1) /\
  per_node c' node = Some (f64_add (default 0 (per_node c node)) 1) /\
  failures c' node reason = Some (f64_add (default 0 (failures c node reason)) 1) /\
  (forall node' reason', (node', reason') <> (node, reason) ->
     failures c' node' reason' = failures c node' reason').
Proof.
  intros Hreason c c' node. assert (wf_collector c) as Hwf by apply wf_run_ops.
  set (o := resolve client w (pid raw)) in *.
  assert (identity o = None) as Hi by (by destruct o).
  assert (c' = collector_record_oom_event (enrich raw (Some node) None now)
    (collector_record_resolution_outcome node o c)) as ->
    by (by apply process_event_unresolved).
  set (e := enrich _ _ _ _). set (c1 := collector_record_resolution_outcome node o c).
  assert (wf_collector c1) as Hwf1 by (by apply wf_record_outcome).
  destruct (record_outcome_rest node o c) as (Hk & Hn & _).
  assert (key_of_event e = unresolved_key node) as Hkey by done.
  rewrite kills_record, per_node_record, Hkey, !decide_True by done.
  assert (forall n r, failures (collector_record_oom_event e c1) n r = failures c1 n r) as Hf.
  { intros n r. unfold failures. by destruct (record_event_rest e c1) as (-> & _). }
  unfold kills, per_node. fold c1 in Hk, Hn. rewrite Hk, Hn. split_and!; [done|done|..].
  - rewrite Hf. unfold c1. rewrite failures_outcome by done. rewrite Hreason. by rewrite !decide_True.
  - intros n r Hne. rewrite Hf. unfold c1. rewrite failures_outcome by done. rewrite Hreason.
    by rewrite decide_False by (intros [? ?]; congruence).
Qed.
End attribution.

(** ** Concrete kills *)

Definition victim_status : ContainerStatus := sample_status (lit "api") (sample_id 98) None.

Lemma victim_is_one_container :
  one_container watched (sample_id 98) victim victim_status (lit "containerd://" ++ sample_id 98).
Proof.
  assert (forall p, served watched p -> prune_for_cache p = prune_for_cache victim) as Hall.
  { intros p Hp. assert (prune_for_cache p ∈ stored (rf_store (cache_after (R:=MapStore unit) watched)))
      as Hin by (apply cache_stored; by exists p).
    assert (stored (rf_store (cache_after (R:=MapStore unit) watched)) = [prune_for_cache victim])
      as Hone by (by vm_compute).
    rewrite Hone in Hin. by apply list_elem_of_singleton in Hin. }
  assert (served watched victim) as Hserved.
  { exists (pod_key victim), [Init; InitApply victim], InitDone, [].
    split_and!; [done|done|]. by exists [Init], []. }
  split_and!; [done| |].
  - split_and!; [|done|]; [by eexists _, [victim_status]; split_and!; [done|done|left]|].
    by exists (lit "containerd://"), [].
  - intros p s full Hp [(st & statuses & Hst & Hss & Hs) [Hfull _]].
    assert (status p = status victim /\ metadata (prune_for_cache p) = metadata (prune_for_cache victim))
      as [Hstatus Hmeta].
    { apply Hall in Hp. split; [|by rewrite Hp]. by apply (f_equal status) in Hp. }
    rewrite Hstatus in Hst. injection Hst as <-. injection Hss as <-.
    apply list_elem_of_singleton in Hs as ->. injection Hfull as <-.
    unfold identity_from_status. injection Hmeta as -> ->. done.
Qed.

Definition victim_raw : OomKillEvent := sample_raw 7.

Definition victim_key : SeriesKey :=
  container_key (lit "node-1") victim victim_status (lit "containerd://" ++ sample_id 98).

Lemma kill_is_attributed_to_its_container_witness :
  let c' := process_event victim_raw (Some sample_client)
    (world_after (R:=MapStore unit) (read_to_string sample_world) watched)
    (run_ops [] mapped_new) 5000 in
  kills c' victim_key = Some (f64_add (default 0 (kills mapped_new victim_key)) 1) /\
  k_pod victim_key = lit "api-0" /\ last_seen c' !! victim_key = Some 5000 /\
  deleted_after c' = ∅.
Proof.
  intros c'.
  destruct (kill_is_attributed_to_its_container (R:=MapStore unit) (V:=MapVec) [] sample_client
    (read_to_string sample_world) watched victim_raw 5000
    (line_of "/kubepods/burstable/pod12/" (sample_id 98) "") (sample_id 98) victim victim_status
    (lit "containerd://" ++ sample_id 98)) as ((Hk & _ & Hl & _) & _ & _ & _ & _ & _ & Hd).
  - by vm_compute.
  - by vm_compute.
  - right. right. left.
  - exact victim_is_one_container.
  - split; [exact Hk|]. split; [by vm_compute|]. split; [exact Hl|exact Hd].
Defined.

Lemma unresolved_kill_is_counted_witness :
  let w : KubeWorld unit :=
    {| read_to_string := read_to_string sample_world; store := {| latch := NotReady; stored := [] |} |} in
  reason_of (resolve sample_client w (pid victim_raw)) = Some (lit "error") /\
  failures (process_event victim_raw (Some sample_client) w (run_ops [] mapped_new) 5000)
    (lit "node-1") (lit "error") = Some (f64_add (default 0 (failures mapped_new (lit "node-1") (lit "error"))) 1).
Proof.
  intros w.
  assert (reason_of (resolve sample_client w (pid victim_raw)) = Some (lit "error")) as Hr
    by (by vm_compute).
  split; [exact Hr|].
  exact (proj1 (proj2 (proj2 (unresolved_kill_is_counted (V:=MapVec) [] sample_client w victim_raw
    5000 (lit "error") Hr)))).
Defined.
