(* ===== verification/Pipeline.v ===== *)
(** * Pipeline: the watch loop feeding the Prometheus collector

    [watch::run] with the [MetricsCollector] as its recorder, as [main] wires them
    ([oom-watcher/src/main.rs]), together with the sweeper task and the pod watch's
    deletion reports. *)
From S2P Require Import Prelude Text Float64 Io Common Resolve Seams Health Prometheus Metrics.
From S2P Require Import Eviction Sweep Recording Regex Cgroup Kubernetes PodCache Watch.

(** ** The loop's calls are operations of the collector *)

Definition op_of_call (c : Call) : Op :=
  match c with
  | CallOutcome node o => OpOutcome node o
  | CallEvent e => OpEvent e
  | CallDropped node total => OpDropped node total
  end.

(** The closure [main] hands to the pod cache: each deletion is noted at the time it is
    seen. *)
Definition deletion_op (report : (str * str) * N) : Op :=
  OpPodDeleted report.1.1 report.1.2 report.2.

(** The sweeper task: the first tick of its interval is discarded, every later one sweeps. *)
Definition sweeper_ops (ttl : N) (ticks : list N) : list Op :=
  match ticks with [] => [] | _ :: ticks => (fun now => OpSweep now ttl) <$> ticks end.

Section pipeline.
Context {V : Type} `{MetricVecLaws V}.
Abbreviation Collector := (MetricsCollector V).

Lemma apply_call_op (c : Collector) call : apply_call c call = run_op c (op_of_call call).
Proof. by destruct call. Qed.

Lemma apply_calls_ops (c : Collector) calls :
  foldl apply_call c calls = run_ops (op_of_call <$> calls) c.
Proof.
  unfold run_ops, flip. revert c. induction calls as [|call calls IH]; intros c; [done|].
  simpl. by rewrite IH, apply_call_op.
Qed.

Lemma events_of_calls calls : events_of (op_of_call <$> calls) = omap call_event calls.
Proof.
  induction calls as [|[n o|e|n t] calls IH]; [done|exact IH| |exact IH].
  exact (f_equal (cons e) IH).
Qed.

Lemma filter_all {A} (P : A -> Prop) `{!forall x, Decision (P x)} (l : list A) :
  Forall P l -> filter P l = l.
Proof.
  induction 1 as [|x l Hx _ IH]; [done|]. rewrite filter_cons, IH. by rewrite decide_True.
Qed.

(** Whatever the source, the per-node total is the number of events the loop recorded. *)
Lemma node_total_is_recorded {S SW C CW} `{OomEventSource S SW} `{ContainerResolver C CW}
    (now : nat -> N) (client : C) (turns : list (Turn SW CW)) (source : S) (history : list Op) :
  let spy := (run now (Some client) turns (loop_start source ([] : Trace))).1 in
  filter (fun op => is_Some (op_event op)) history
    = filter (fun op => is_Some (op_event op)) (op_of_call <$> ls_recorder spy) ->
  per_node (run_ops history (collector_new : Collector)) (node_name client)
    = counted (recorded (ls_recorder spy)).
Proof.
  cbv zeta. intros Hops.
  assert (forall ops, events_of ops
            = omap op_event (filter (fun op => is_Some (op_event op)) ops)) as Hev.
  { intros ops. induction ops as [|op ops IH]; [done|]. unfold events_of in *.
    rewrite filter_cons. destruct (op_event op) as [e|] eqn:E.
    - rewrite decide_True by eauto. simpl. rewrite E. f_equal. apply IH.
    - rewrite decide_False by (by intros []). simpl. rewrite E. apply IH. }
  rewrite per_node_history, Hev, Hops, <- Hev, events_of_calls. clear Hev Hops history.
  pose proof (run_expected now (Some client) turns (loop_start source ([] : Trace))) as Hrun.
  pose proof (expected_ok now (Some client) turns source 0) as Hok.
  destruct (run now (Some client) turns _) as [st ended].
  cbn [loop_start ls_source ls_reads ls_recorder fst] in *.
  destruct (expected now (Some client) turns _ 0) as [[calls beats] ended'].
  destruct Hrun as (-> & _ & _), Hok as [Hok _]. rewrite foldl_trace. cbn [app fst] in *.
  rewrite filter_all; cycle 1.
  { apply Forall_forall. intros e (call & Hin & Hc)%list_elem_of_omap.
    rewrite Forall_forall in Hok. apply Hok in Hin. destruct call; simplify_eq/=.
    destruct Hin as [Hn _]. by rewrite Hn. }
  unfold recorded, counted. rewrite length_fmap. by destruct (omap call_event calls).
Qed.

(** ** Properties *)

(** from the kernel's events to the exported total. Let the loop run on a finite source
    with a resolver, recording into the collector, while the sweeper and the deletion
    reports interleave with its calls in any way. Then the per-node total is the number of
    events the loop took from the source: no kill is lost or counted twice on the way. *)
Theorem every_kill_reaches_the_node_total {C CW} `{ContainerResolver C CW} (now : nat -> N)
    (client : C) (turns : list (Turn unit CW)) (es : list OomKillEvent) (drops : option N)
    (history : list Op) :
  let spy := (run now (Some client) turns
                (loop_start {| vec_events := es; vec_drops := drops |} ([] : Trace))).1 in
  filter (fun op => is_Some (op_event op)) history
    = filter (fun op => is_Some (op_event op)) (op_of_call <$> ls_recorder spy) ->
  per_node (run_ops history (collector_new : Collector)) (node_name client)
    = counted (take (polls turns) es).
Proof.
  cbv zeta. intros Hops. rewrite (node_total_is_recorded now client turns _ history Hops).
  pose proof (run_expected now (Some client) turns
    (loop_start {| vec_events := es; vec_drops := drops |} ([] : Trace))) as Hrun.
  pose proof (expected_vec now (Some client) turns es drops 0) as Hvec.
  destruct (run now (Some client) turns _) as [st ended].
  cbn [loop_start ls_source ls_reads ls_recorder fst] in *.
  destruct (expected now (Some client) turns _ 0) as [[calls beats] ended'].
  destruct Hrun as (-> & _ & _), Hvec as [Hr _]. by rewrite foldl_trace, <- Hr.
Qed.

(** A label set not recorded again keeps the age it had, until it goes. *)
Lemma last_seen_old op (c : Collector) k x :
  (forall e, op = OpEvent e -> key_of_event e <> k) ->
  last_seen (run_op c op) !! k = Some x -> last_seen c !! k = Some x.
Proof.
  intros Hk. destruct op as [n o|e|n t|ns pod t|t ttl]; cbn [run_op].
  - by destruct o.
  - unfold record_oom_event, MetricsCollector_MetricsRecorder. rewrite record_event_last_seen.
    rewrite lookup_insert_ne; [done|]. by apply Hk.
  - unfold record_dropped_total, MetricsCollector_MetricsRecorder, collector_record_dropped_total.
    destruct (checked_sub t _) as [d|]; [destruct (0 <? d)|]; done.
  - done.
  - rewrite swept_last_seen. by intros [? _]%lookup_live_keys.
Qed.

Lemma last_seen_old_ops ops (c : Collector) k x :
  Forall (fun op => forall e, op = OpEvent e -> key_of_event e <> k) ops ->
  last_seen (run_ops ops c) !! k = Some x -> last_seen c !! k = Some x.
Proof.
  unfold run_ops, flip. intros Hops. revert c. induction Hops as [|op ops Hop _ IH]; intros c; [done|].
  simpl. intros Hx. by apply (last_seen_old op), IH.
Qed.

(** The collector after [n] rounds of the sweeper, other operations in between. *)
Fixpoint rounds (others : nat -> list Op) (now : nat -> N) (ttl : N) (n : nat) (c : Collector)
    : Collector :=
  match n with
  | O => c
  | S n => run_op (run_ops (others n) (rounds others now ttl n c)) (OpSweep (now n) ttl)
  end.

Lemma rounds_tracked others now ttl n c : tracked c -> tracked (rounds others now ttl n c).
Proof. intros Hc. induction n as [|n IH]; [done|]. by apply tracked_op, tracked_ops. Qed.

Lemma rounds_last_seen others now ttl n c k x :
  (forall i, Forall (fun op => forall e, op = OpEvent e -> key_of_event e <> k) (others i)) ->
  last_seen (rounds others now ttl n c) !! k = Some x -> last_seen c !! k = Some x.
Proof.
  intros Ho. revert x. induction n as [|n IH]; intros x; [done|]. cbn [rounds].
  intros Hx%last_seen_old; [|by intros]. by apply IH, (last_seen_old_ops (others n)).
Qed.

(** The first sweep at or after a deadline. *)
Lemma first_reaching (now : nat -> N) (deadline : N) m :
  deadline <= now m ->
  exists i, deadline <= now i /\ forall j, (j < i)%nat -> now j < deadline.
Proof.
  assert (forall n, (exists i, deadline <= now i /\ forall j, (j < i)%nat -> now j < deadline) \/
                    forall j, (j < n)%nat -> now j < deadline) as Hn.
  { induction n as [|n [?|IH]]; [right; lia|by left|].
    destruct (N.le_gt_cases deadline (now n)) as [Hd|Hd]; [left; by exists n|right].
    intros j Hj. destruct (decide (j = n)) as [->|]; [done|apply IH; lia]. }
  destruct (Hn (S m)) as [?|Hall]; [done|]. intros Hm. specialize (Hall m). lia.
Qed.

(** C17: eviction is late by less than one sweep interval. Whatever else happens, a label set
    last killed at [seen] and not killed again is gone after a sweep that runs before
    [seen + ttl + interval], provided the sweeper keeps running and two of its readings of
    the clock are never more than [interval] apart. *)
Theorem stale_series_go_within_one_interval (ops : list Op) (others : nat -> list Op)
    (now : nat -> N) (ttl interval : N) (k : SeriesKey) (seen : N) :
  last_seen (run_ops ops (collector_new : Collector)) !! k = Some seen ->
  (forall i, Forall (fun op => forall e, op = OpEvent e -> key_of_event e <> k) (others i)) ->
  now 0%nat < seen + ttl + interval -> (forall i, now (S i) <= now i + interval) ->
  (exists m, seen + ttl <= now m) ->
  exists i, now i < seen + ttl + interval /\
    let c := rounds others now ttl (S i) (run_ops ops collector_new) in
    kills c k = None /\ stamp c k = None /\ last_seen c !! k = None.
Proof.
  intros Hseen Hothers H0now Hgap [m Hm].
  destruct (first_reaching now (seen + ttl) m Hm) as (i & Hi & Hbefore).
  exists i. split.
  { destruct i as [|i]; [done|]. specialize (Hgap i). specialize (Hbefore i). lia. }
  intros c. assert (tracked c) as Ht by apply rounds_tracked, tracked_ops, tracked_new.
  assert (last_seen c !! k = None) as Hnone.
  { destruct (last_seen c !! k) as [x|] eqn:Hx; [exfalso|done].
    unfold c in Hx. cbn [rounds run_op] in Hx. rewrite swept_last_seen in Hx.
    apply lookup_live_keys in Hx as [Hx Hn]. apply Hn. left.
    apply last_seen_old_ops, rounds_last_seen in Hx; [|done..].
    rewrite Hseen in Hx. simplify_eq. lia. }
  by rewrite !eq_None_not_Some, (tr_kills _ Ht), (tr_stamp _ Ht), <- !eq_None_not_Some.
Qed.
End pipeline.

(** ** Concrete runs *)

Lemma every_kill_reaches_the_node_total_witness :
  let client := {| fake_node := lit "node-1"; behavior := BNotFound |} in
  let spy := (run (fun n => 100 + N.of_nat n) (Some client) sample_turns
                (loop_start sample_source ([] : Trace))).1 in
  per_node (run_ops ((op_of_call <$> ls_recorder spy) ++ sweeper_ops 60 [90; 400]) mapped_new)
    (node_name client) = Some 2.
Proof.
  intros client spy.
  pose proof (every_kill_reaches_the_node_total (V:=MapVec) (fun n => 100 + N.of_nat n) client
    sample_turns [sample_raw 1; sample_raw 2] (Some 7)
    ((op_of_call <$> ls_recorder spy) ++ sweeper_ops 60 [90; 400])) as Hall.
  etrans; [apply Hall|by vm_compute]. rewrite filter_app. by rewrite app_nil_r.
Defined.

Lemma stale_series_go_within_one_interval_witness :
  exists i, 300 * N.of_nat i < 4600 + 1800 + 300 /\
    kills (rounds (fun _ => []) (fun i => 300 * N.of_nat i) 1800 (S i)
      (run_ops sample_ops mapped_new)) (sample_key 2) = None.
Proof.
  destruct (stale_series_go_within_one_interval (V:=MapVec) sample_ops (fun _ => [])
    (fun i => 300 * N.of_nat i) 1800 300 (sample_key 2) 4600) as (i & Hi & Hk & _).
  - by vm_compute.
  - by constructor.
  - by vm_compute.
  - intros i. lia.
  - by exists 100%nat.
  - by exists i.
Defined.
