(* ===== verification/EndToEnd.v ===== *)
(** * EndToEnd: from the tracepoint to the exported total

    The probe ([oom-watcher-ebpf/src/main.rs]) filling the ring buffer while the source
    ([oom-watcher/src/source.rs]) empties it, the watch loop ([watch.rs]) taking the events
    and the collector ([metrics.rs]) counting them, in one statement: where every kill the
    kernel marked is at any moment. *)
From S2P Require Import Prelude Text Float64 Layout Io Common Tracepoint Probe Resolve Seams Source.
From S2P Require Import Health Prometheus Metrics Eviction Recording Watch Pipeline.

(** ** The two ends of the ring buffer *)

(** [RingBuf::next] of the consumer: the oldest committed record, removed. *)
Class RingConsumer (R : Type) `{RingBuf R} := { ring_next : R -> option (list N * R) }.

Class RingConsumerLaws (R : Type) `{RingConsumer R} : Prop := {
  ring_next_Some : forall (r : R) d r', ring_next r = Some (d, r') ->
    ring_records r = d :: ring_records r';
}.

(** What happens at the ring buffer: a firing of the tracepoint, or one turn of the
    consumer's [while let Some(item) = ring_buf.next()]. *)
Inductive KernelStep :=
| Fires (f : Firing)
| Takes.

(** The maps, and every record the consumer has taken so far. *)
Record Kernel {R : Type} := { k_maps : Maps R; k_taken : list (list N) }.
Arguments Kernel : clear implicits.

Section kernel.
Context {R : Type} `{RingConsumer R}.

Definition kernel_step (k : Kernel R) (s : KernelStep) : Kernel R :=
  match s with
  | Fires f => {| k_maps := fire (k_maps k) f; k_taken := k_taken k |}
  | Takes =>
      match ring_next (EVENTS (k_maps k)) with
      | Some (d, r) => {| k_maps := {| EVENTS := r; DROPPED := DROPPED (k_maps k) |};
                          k_taken := k_taken k ++ [d] |}
      | None => k
      end
  end.

Definition kernel_run : list KernelStep -> Kernel R -> Kernel R := flip (foldl kernel_step).

(** The event of a firing whose trace entry can be read. *)
Definition event_of_firing (f : Firing) : option OomKillEvent :=
  data ← probe_read_kernel (f_helpers f) (f_ctx f) size_of_MarkVictimArgs;
  let args := read_args data in
  Some (event_of_args args (probe_read_kernel_str (f_helpers f)
    (f_ctx f + N.land (comm_data_loc args) 65535) (replicate 16 0))).

(** Whether the ring buffer has room for it. *)
Definition accepts (k : Kernel R) (f : Firing) : bool :=
  match event_of_firing f with
  | Some e => bool_decide (is_Some (ring_output (event_memory (f_pad f) e) (EVENTS (k_maps k))))
  | None => false
  end.

(** The events queued, in order. *)
Fixpoint queued (steps : list KernelStep) (k : Kernel R) : list OomKillEvent :=
  match steps with
  | [] => []
  | s :: steps =>
      match s with
      | Fires f => if accepts k f then option_list (event_of_firing f) else []
      | Takes => []
      end ++ queued steps (kernel_step k s)
  end.

Definition firings (steps : list KernelStep) : list Firing :=
  omap (fun s => match s with Fires f => Some f | Takes => None end) steps.

(** Every record of the ring buffer so far, as events. *)
Definition delivered (k : Kernel R) : list OomKillEvent :=
  omap decode_item (k_taken k ++ ring_records (EVENTS (k_maps k))).
End kernel.

(** ** What the loop consumed *)

(** The records the readiness answers of each poll brought. *)
Fixpoint consumed {CW} (turns : list (Turn SourceWorld CW)) (s : RingBufSource) : list (list N) :=
  match turns with
  | [] => []
  | t :: turns =>
      match polled t with
      | None => consumed turns s
      | Some sw =>
          let '(answer, s', rest) := next (readiness sw) s in
          (take (length (readiness sw) - length rest) (readiness sw) ≫= items_of)
          ++ match answer with Ready None => [] | _ => consumed turns s' end
      end
  end.

(** One poll of the source hands out the oldest event it holds. *)
Lemma next_consumes ws s :
  let '(answer, s', rest) := next ws s in
  let events := Source.pending s
    ++ omap decode_item (take (length ws - length rest) ws ≫= items_of) in
  match answer with
  | Ready (Some e) => events = e :: Source.pending s'
  | Ready None | Pending => events = [] /\ Source.pending s' = []
  end.
Proof.
  revert s. induction ws as [|w ws IH]; intros [[|e p]]; cbn [next Source.pending].
  - done.
  - cbn. by rewrite app_nil_r.
  - destruct w as [items|].
    + specialize (IH {| pending := drain items [] |}). cbn [Source.pending] in IH.
      pose proof (next_suffix ws {| pending := drain items [] |}) as Hsuf.
      destruct (next ws _) as [[answer s'] rest]. destruct (Hsuf _ _ _ eq_refl) as [pre ->].
      cbn [length]. rewrite !length_app. rewrite !length_app in IH.
      replace (S (length pre + length rest) - length rest)%nat with (S (length pre)) by lia.
      replace (length pre + length rest - length rest)%nat with (length pre) in IH by lia.
      rewrite drain_omap in IH. cbn [take app mbind list_bind items_of] in *.
      by rewrite omap_app.
    + cbn [length]. replace (S (length ws) - length ws)%nat with 1%nat by lia. done.
  - cbn [length]. rewrite Nat.sub_diag. cbn. by rewrite app_nil_r.
Qed.

Lemma recorded_calls (t : Trace) calls : recorded (foldl apply_call t calls) = recorded t ++ recorded calls.
Proof. by rewrite foldl_trace, recorded_app. Qed.

(** What the loop recorded and what the source still holds is what was there and what the
    polls brought. *)
Lemma run_conserves {C CW} `{ContainerResolver C CW} now (resolver : option C)
    (turns : list (Turn SourceWorld CW)) (st : LoopState RingBufSource Trace) :
  let st' := (run now resolver turns st).1 in
  recorded (ls_recorder st') ++ Source.pending (ls_source st')
  = recorded (ls_recorder st) ++ Source.pending (ls_source st)
    ++ omap decode_item (consumed turns (ls_source st)).
Proof.
  revert st. induction turns as [|t turns IH]; intros st; cbn zeta.
  { simpl. by rewrite app_nil_r. }
  cbn [run consumed]. unfold turn, select. destruct (polled t) as [sw|] eqn:Ep.
  - pose proof (next_consumes (readiness sw) (ls_source st)) as Hn.
    cbn [poll_next RingBufSource_OomEventSource].
    destruct (next (readiness sw) (ls_source st)) as [[answer s'] rest]. cbn [fst].
    set (brought := take _ _ ≫= items_of) in *.
    rewrite omap_app, (app_assoc (Source.pending (ls_source st))).
    destruct answer as [|[e|]].
    + destruct Hn as [-> Hs']. destruct (ticked t); rewrite IH; cbn; by rewrite Hs'.
    + rewrite Hn, IH. cbn [ls_source ls_recorder stamp_heartbeat handle_event].
      rewrite (process_event_calls (R:=Trace)), recorded_calls, recorded_calls_of_event.
      by rewrite <- app_assoc.
    + destruct Hn as [-> Hs']. simpl. by rewrite Hs', app_nil_r.
  - destruct (ticked t); by rewrite IH.
Qed.

(** ** Conservation at the ring buffer *)

Section conservation.
Context {R : Type} `{RingBufLaws R} `{!RingConsumer R} `{!RingConsumerLaws R}.
Implicit Types (k : Kernel R) (f : Firing).

Lemma event_of_firing_wf f e :
  helpers_ok (f_helpers f) -> event_of_firing f = Some e -> wf_event e.
Proof.
  intros Hh He. unfold event_of_firing in He.
  destruct (probe_read_kernel _ _ _) as [data|] eqn:Hd; [|done]. simpl in He. simplify_eq.
  destruct (probe_read_length _ Hh _ _ _ Hd) as [_ Hb]. apply event_of_args_wf; [done| |].
  - by rewrite probe_read_str_length.
  - apply (probe_read_str_bytes _ Hh). by repeat constructor.
Qed.

Lemma decode_event_memory pad e : wf_event e -> decode_item (event_memory pad e) = Some e.
Proof.
  intros He. unfold decode_item. rewrite length_event_memory by apply wf_comm, He.
  rewrite Nat.leb_refl. by rewrite read_event_memory.
Qed.

Lemma fire_events (m : Maps R) f :
  fire m f =
    match event_of_firing f with
    | Some e =>
        match ring_output (event_memory (f_pad f) e) (EVENTS m) with
        | Some r => {| EVENTS := r; DROPPED := DROPPED m |}
        | None => count_drop (f_cpu f) m
        end
    | None => m
    end.
Proof.
  unfold fire, mark_victim, event_of_firing. destruct (probe_read_kernel _ _ _); [|done].
  simpl. by destruct (ring_output _ _).
Qed.

(** A step appends to the ring buffer's history exactly what it queues. *)
Lemma delivered_step k s :
  (forall f, s = Fires f -> helpers_ok (f_helpers f)) ->
  delivered (kernel_step k s) = delivered k ++ queued [s] k.
Proof.
  intros Hh. unfold delivered. destruct s as [f|]; cbn [kernel_step queued k_maps k_taken].
  - rewrite app_nil_r, fire_events. unfold accepts.
    destruct (event_of_firing f) as [e|] eqn:He; [|by rewrite app_nil_r].
    destruct (ring_output _ _) as [r|] eqn:Hr; cbn [EVENTS option_list].
    + rewrite (ring_output_records _ _ _ Hr), bool_decide_eq_true_2 by eauto.
      rewrite app_assoc, omap_app. f_equal. cbn [omap list_omap].
      rewrite decode_event_memory; [done|]. eapply event_of_firing_wf; [by apply Hh|done].
    + rewrite bool_decide_eq_false_2 by (intros [? ?]; congruence). rewrite app_nil_r.
      unfold count_drop. by destruct (DROPPED (k_maps k) !! f_cpu f).
  - rewrite app_nil_r. destruct (ring_next _) as [[d r]|] eqn:Hn; [|done]. cbn.
    by rewrite (ring_next_Some _ _ _ Hn), <- app_assoc.
Qed.

Lemma delivered_run steps k :
  Forall (fun f => helpers_ok (f_helpers f)) (firings steps) ->
  delivered (kernel_run steps k) = delivered k ++ queued steps k.
Proof.
  unfold kernel_run, flip. revert k. induction steps as [|s steps IH]; intros k Hh.
  { simpl. by rewrite app_nil_r. }
  cbn [foldl]. rewrite IH, delivered_step.
  - by destruct s; cbn [queued]; rewrite ?app_nil_r, <- ?app_assoc.
  - intros f ->. by apply Forall_cons in Hh as [? _].
  - destruct s; [by apply Forall_cons in Hh as [_ ?]|done].
Qed.

(** The history grows by what a step queues. *)
Lemma queued_length_step k s :
  length (k_taken (kernel_step k s) ++ ring_records (EVENTS (k_maps (kernel_step k s))))
  = (length (k_taken k ++ ring_records (EVENTS (k_maps k))) + length (queued [s] k))%nat.
Proof.
  destruct s as [f|]; cbn [kernel_step queued k_maps k_taken]; rewrite app_nil_r.
  - rewrite fire_events. unfold accepts.
    destruct (event_of_firing f) as [e|] eqn:He; [|simpl; lia].
    destruct (ring_output _ _) as [r|] eqn:Hr; cbn [EVENTS option_list].
    + rewrite (ring_output_records _ _ _ Hr), bool_decide_eq_true_2 by eauto.
      rewrite !length_app. simpl. lia.
    + rewrite bool_decide_eq_false_2 by (intros [? ?]; congruence).
      unfold count_drop. destruct (DROPPED (k_maps k) !! f_cpu f); simpl; lia.
  - destruct (ring_next _) as [[d r]|] eqn:Hn; [|simpl; lia]. cbn [k_taken k_maps EVENTS length].
    rewrite (ring_next_Some _ _ _ Hn), !length_app. simpl. lia.
Qed.

Lemma queued_length steps k :
  length (k_taken (kernel_run steps k) ++ ring_records (EVENTS (k_maps (kernel_run steps k))))
  = (length (k_taken k ++ ring_records (EVENTS (k_maps k))) + length (queued steps k))%nat.
Proof.
  unfold kernel_run, flip. revert k. induction steps as [|s steps IH]; intros k; [simpl; lia|].
  cbn [foldl]. rewrite IH, queued_length_step.
  destruct s; cbn [queued]; rewrite ?app_nil_r, ?length_app; simpl; lia.
Qed.

(** Records taken, records waiting and drops counted. *)
Definition accounted k : N :=
  N.of_nat (length (k_taken k)) + enqueued (k_maps k) + sum_N (DROPPED (k_maps k)).

Lemma accounted_step k s :
  (forall f, s = Fires f -> (f_cpu f < length (DROPPED (k_maps k)))%nat) ->
  sum_N (DROPPED (k_maps k)) + N.of_nat (length (firings [s])) < u64_bound ->
  length (DROPPED (k_maps (kernel_step k s))) = length (DROPPED (k_maps k)) /\
  sum_N (DROPPED (k_maps (kernel_step k s)))
    <= sum_N (DROPPED (k_maps k)) + N.of_nat (length (firings [s])) /\
  accounted (kernel_step k s) = accounted k + N.of_nat (length (filter readable (firings [s]))).
Proof.
  intros Hcpu Hsum. unfold accounted. destruct s as [f|]; cbn [kernel_step k_maps k_taken].
  - destruct (fire_accounts f (k_maps k)) as [Hl Heq]; [by apply Hcpu|done|].
    assert (enqueued (k_maps k) <= enqueued (fire (k_maps k) f)) as Hle.
    { unfold enqueued. rewrite fire_events. destruct (event_of_firing f) as [e|]; [|done].
      destruct (ring_output _ _) as [r|] eqn:Hr.
      - cbn. rewrite (ring_output_records _ _ _ Hr), length_app. lia.
      - unfold count_drop. by destruct (DROPPED (k_maps k) !! f_cpu f). }
    change (firings [Fires f]) with [f]. rewrite filter_cons, filter_nil. cbn [length].
    split_and!; [done|destruct (readable f); lia|].
    destruct (readable f) eqn:Er; case_decide; simpl in *; try (by rewrite Er in *); lia.
  - destruct (ring_next _) as [[d r]|] eqn:Hn; cbn [k_maps k_taken DROPPED];
      (split_and!; [done|simpl; lia|]); cbn [firings omap list_omap]; rewrite filter_nil; [|simpl; lia].
    apply ring_next_Some in Hn. unfold enqueued. cbn [EVENTS]. rewrite Hn, length_app. simpl. lia.
Qed.

Lemma firings_cons s steps : firings (s :: steps) = firings [s] ++ firings steps.
Proof. apply (omap_app _ [s] steps). Qed.

Lemma accounted_run steps k :
  Forall (fun f => (f_cpu f < length (DROPPED (k_maps k)))%nat) (firings steps) ->
  sum_N (DROPPED (k_maps k)) + N.of_nat (length (firings steps)) < u64_bound ->
  accounted (kernel_run steps k) = accounted k + N.of_nat (length (filter readable (firings steps))).
Proof.
  unfold kernel_run, flip. revert k. induction steps as [|s steps IH]; intros k Hcpu Hsum.
  { simpl. lia. }
  cbn [foldl]. rewrite firings_cons in *. rewrite length_app in Hsum. rewrite filter_app, length_app.
  apply Forall_app in Hcpu as [Hs Hcpu].
  destruct (accounted_step k s) as (Hl & Hd & Ha).
  - intros f ->. by apply Forall_cons in Hs as [? _].
  - lia.
  - rewrite IH, Ha; [lia|by rewrite Hl|lia].
Qed.
End conservation.

(** ** Where every kill is *)

Section whole.
Context {R V C CW : Type} `{RingBufLaws R} `{!RingConsumer R} `{!RingConsumerLaws R}.
Context `{MetricVecLaws V} `{ContainerResolver C CW}.

(** C1: Where every marked kill is. Let firings of the probe, on any CPUs, and reads of the ring
    buffer interleave in any way; let the loop run on the source those reads feed, recording
    into the collector beside sweeps and deletion reports. Then the events the loop recorded,
    those the source still holds and those still in the ring buffer are, in order, exactly
    the events the probe queued; the exported node total is the number recorded; and with
    the drops counted they add up to the trace entries read: no kill disappears and none is
    counted twice, from the tracepoint to the metric. *)
Theorem every_marked_kill_is_accounted_for (steps : list KernelStep) (m : Maps R)
    (now : nat -> N) (client : C) (turns : list (Turn SourceWorld CW)) (history : list Op) :
  let start := {| k_maps := m; k_taken := [] |} in
  let k := kernel_run steps start in
  let st := (run now (Some client) turns (loop_start {| Source.pending := [] |} ([] : Trace))).1 in
  ring_records (EVENTS m) = [] ->
  Forall (fun f => helpers_ok (f_helpers f)) (firings steps) ->
  Forall (fun f => (f_cpu f < length (DROPPED m))%nat) (firings steps) ->
  sum_N (DROPPED m) + N.of_nat (length (firings steps)) < u64_bound ->
  consumed turns {| Source.pending := [] |} = k_taken k ->
  filter (fun op => is_Some (op_event op)) history
    = filter (fun op => is_Some (op_event op)) (op_of_call <$> ls_recorder st) ->
  recorded (ls_recorder st) ++ Source.pending (ls_source st)
    ++ omap decode_item (ring_records (EVENTS (k_maps k))) = queued steps start /\
  per_node (run_ops history (collector_new : MetricsCollector V)) (node_name client)
    = counted (recorded (ls_recorder st)) /\
  N.of_nat (length (recorded (ls_recorder st) ++ Source.pending (ls_source st)
    ++ omap decode_item (ring_records (EVENTS (k_maps k))))) + sum_N (DROPPED (k_maps k))
    = sum_N (DROPPED m) + N.of_nat (length (filter readable (firings steps))).
Proof.
  intros start k st Hempty Hh Hcpu Hsum Hcons Hhist.
  pose proof (delivered_run steps start Hh) as Hdel.
  pose proof (queued_length steps start) as Hlen.
  pose proof (accounted_run steps start Hcpu Hsum) as Hacc.
  pose proof (run_conserves now (Some client) turns
    (loop_start {| Source.pending := [] |} ([] : Trace))) as Hrun.
  unfold delivered, accounted, enqueued in *. cbn [start k_taken k_maps] in *.
  rewrite Hempty in *. fold start k in Hdel, Hlen, Hacc. cbn [loop_start ls_recorder ls_source] in Hrun.
  rewrite Hcons in Hrun. cbn [recorded Source.pending app omap list_omap fmap list_fmap] in Hrun.
  assert (recorded (ls_recorder st) ++ Source.pending (ls_source st)
    ++ omap decode_item (ring_records (EVENTS (k_maps k))) = queued steps start) as Hall.
  { rewrite app_assoc. unfold st at 1 2. rewrite Hrun, <- omap_app. exact Hdel. }
  split_and!; [done| |].
  - by apply node_total_is_recorded.
  - rewrite Hall. rewrite length_app in Hlen. simpl in *. lia.
Qed.
End whole.

(** ** A concrete run: three kills, room for one record at a time *)

#[export] Instance BoundedRing_RingConsumer : RingConsumer BoundedRing := {|
  ring_next r :=
    match bstored r with
    | [] => None
    | d :: ds => Some (d, {| bcap := bcap r; bstored := ds |})
    end;
|}.

#[export] Instance BoundedRing_consumer_laws : RingConsumerLaws BoundedRing.
Proof. split. intros [cap [|d ds]] d' r' Hr; by simplify_eq/=. Qed.

Definition sample_steps : list KernelStep :=
  [Fires sample_firing; Fires sample_firing; Takes; Fires sample_firing].

Definition sample_kernel : Kernel BoundedRing :=
  kernel_run sample_steps {| k_maps := small_maps; k_taken := [] |}.

Definition sample_turns_fed : list (Turn SourceWorld unit) :=
  [{| polled := Some {| readiness := [Readable (k_taken sample_kernel)]; dropped_per_cpu := None |};
      ticked := false; resolution_world := tt;
      drops_world := {| readiness := []; dropped_per_cpu := Some (DROPPED (k_maps sample_kernel)) |} |}].

Definition sample_client_fed : FakeResolver := {| fake_node := lit "node-1"; behavior := BNotFound |}.

Definition sample_loop : LoopState RingBufSource Trace :=
  (run (fun n => 100 + N.of_nat n) (Some sample_client_fed) sample_turns_fed
     (loop_start {| Source.pending := [] |} ([] : Trace))).1.

(** One kill recorded, one waiting in the ring buffer, one dropped. *)
Lemma every_marked_kill_is_accounted_for_witness :
  (length (recorded (ls_recorder sample_loop)),
   length (ring_records (EVENTS (k_maps sample_kernel))), DROPPED (k_maps sample_kernel))
    = (1%nat, 1%nat, [0; 1]) /\
  per_node (run_ops (op_of_call <$> ls_recorder sample_loop)
    (collector_new : MetricsCollector MapVec)) (node_name sample_client_fed)
    = counted (recorded (ls_recorder sample_loop)).
Proof.
  split; [by vm_compute|].
  assert (helpers_ok (f_helpers sample_firing)) as Hh by (apply flat_helpers_ok, sample_entry_bytes).
  destruct (every_marked_kill_is_accounted_for (V:=MapVec) sample_steps small_maps
    (fun n => 100 + N.of_nat n) sample_client_fed sample_turns_fed
    (op_of_call <$> ls_recorder sample_loop)) as (_ & Hnode & _); [..|exact Hnode].
  - done.
  - do 3 (constructor; [exact Hh|]). constructor.
  - do 3 (constructor; [by vm_compute; lia|]). constructor.
  - by vm_compute.
  - by vm_compute.
  - done.
Defined.
