(* ===== verification/Main.v ===== *)
(** * Main: configuration, startup and supervision

    [oom-watcher/src/main.rs]: what the environment configures, the order startup runs in
    and what is fatal in it, and the [select!] that supervises the tasks. *)
From S2P Require Import Prelude Text Io Common Tracepoint Resolve Seams Source Health Regex Cgroup.
From S2P Require Import Kubernetes PodCache.

(** ** Configuration *)

Definition DEFAULT_SERIES_TTL_SECONDS : N := 1800.
Definition DEFAULT_SERIES_SWEEP_INTERVAL_SECONDS : N := 300.
Definition CACHE_SYNC_TIMEOUT : N := 10.
Definition DEFAULT_METRICS_PORT : N := 8080.

(** The environment: [None] when a variable is unset or not Unicode. *)
Abbreviation Env := (str -> option str) (only parsing).

(** [env_seconds]. *)
Definition env_seconds (env : Env) (name : str) (fallback : N) : N :=
  N.max (default fallback (env name ≫= parse_u64)) 1.

(** The port of the HTTP surface, and the address it is bound to. *)
Definition metrics_port (env : Env) : N :=
  default DEFAULT_METRICS_PORT (parse_u16 (default (lit "8080") (env (lit "METRICS_PORT")))).
Definition bind_address (port : N) : str := lit "0.0.0.0:" ++ show_N port.

Definition series_ttl (env : Env) : N :=
  env_seconds env (lit "SERIES_TTL_SECONDS") DEFAULT_SERIES_TTL_SECONDS.
Definition sweep_interval (env : Env) : N :=
  env_seconds env (lit "SERIES_SWEEP_INTERVAL_SECONDS") DEFAULT_SERIES_SWEEP_INTERVAL_SECONDS.

(** [wall_clock_secs]: a clock set before 1970 reads as zero. *)
Definition wall_clock_secs (since_epoch : option N) : N := default 0 since_epoch.

(** ** Startup *)

(** The client and the task feeding its cache: both or neither. *)
Definition connect (client : result (KubernetesClient * str) Error)
    : option KubernetesClient * option str :=
  match client with
  | Ok (client, cache_task) => (Some client, Some cache_task)
  | Err _ => (None, None)
  end.

(** [shutdown_signal]: what the registration of SIGTERM and the first signal answer. *)
Inductive Signal := SigInt (registered : result unit Error) | SigTerm.

Definition shutdown_signal (sigterm : result unit Error) (first : Signal) : result unit Error :=
  _ <-? sigterm ;;
  match first with
  | SigInt registered => _ <-? registered ;; Ok tt
  | SigTerm => Ok tt
  end.

(** ** Supervision *)

(** The arms of the supervising [select!]. *)
Inductive Arm :=
| ShutdownSignal (res : result unit Error)
| EventProcessor
| MetricsServer
| SeriesSweeper
| PodCacheTask.

Definition arm_enabled (watching_pods : bool) (a : Arm) : bool :=
  match a with PodCacheTask => watching_pods | _ => true end.

(** What [main] returns for an arm; a failed registration of the signals returns early,
    with that error. *)
Definition arm_outcome (a : Arm) : result unit Error :=
  match a with
  | ShutdownSignal res => _ <-? res ;; Ok tt
  | EventProcessor => Err (anyhow (lit "event processor task exited"))
  | MetricsServer => Err (anyhow (lit "metrics server task exited"))
  | SeriesSweeper => Err (anyhow (lit "series sweeper task exited"))
  | PodCacheTask => Err (anyhow (lit "pod cache task exited"))
  end.

(** The [select!] over the arms that are ready, in the order it looks at them; [None] while
    it has to wait. *)
Definition supervise (watching_pods : bool) (ready : list Arm) : option (result unit Error) :=
  arm_outcome <$> find_first (arm_enabled watching_pods) ready.

(** [main]: connect (never fatal), bind (fatal), bring the source up (fatal), supervise. *)
Definition main (env : Env) (client : result (KubernetesClient * str) Error)
    (bind : str -> result unit Error) (source : result RingBufSource Error)
    (ready : list Arm) : option (result unit Error) :=
  let '(k8s_client, pod_cache) := connect client in
  match bind (bind_address (metrics_port env)) with
  | Err e => Some (Err e)
  | Ok _ =>
      match source with
      | Err e => Some (Err e)
      | Ok _ => supervise (bool_decide (is_Some pod_cache)) ready
      end
  end.

(** ** Properties *)

(** durations from the environment are usable: never zero (a zero period makes the
    ticker panic, a zero time-to-live evicts unscraped series) and always a [u64]; a decimal
    number in range is taken as it is, zero becoming one, and anything else, signs and
    overflow included, falls back to the default. *)
Theorem env_seconds_is_usable (env : Env) (name : str) (fallback : N) :
  is_u64 fallback ->
  1 <= env_seconds env name fallback /\ is_u64 (env_seconds env name fallback) /\
  (forall n, env name = Some (show_N n) -> is_u64 n ->
     env_seconds env name fallback = N.max n 1) /\
  (env name ≫= parse_u64 = None -> env_seconds env name fallback = N.max fallback 1) /\
  (forall n, env name = Some (show_N n) -> ~ is_u64 n ->
     env_seconds env name fallback = N.max fallback 1).
Proof.
  intros Hf. unfold env_seconds, is_u64 in *. split_and!.
  - lia.
  - assert (forall o, default fallback (o ≫= parse_u64) < u64_bound) as Hd.
    { intros [s|]; simpl; [|done]. destruct (parse_u64 s) as [n|] eqn:E; [|done]. simpl.
      by apply parse_unsigned_bound in E. }
    specialize (Hd (env name)). unfold u64_bound in *. lia.
  - intros n -> Hn. simpl. unfold parse_u64. by rewrite parse_show_N.
  - by intros ->.
  - intros n -> Hn. simpl. unfold parse_u64. by rewrite parse_show_N_overflow by (done || lia).
Qed.

(** C35: the process exits successfully only when it was asked to stop: both startup steps
    that can fail succeeded and the first arm the supervisor found ready was a shutdown
    signal that was received cleanly. Any task that ends is an error exit, except that
    without a pod cache its arm is never taken; and losing the Kubernetes API at startup
    changes neither the address bound nor what the other arms do. *)
Theorem process_exit_status (env : Env) (client : result (KubernetesClient * str) Error)
    (bind : str -> result unit Error) (source : result RingBufSource Error) (ready : list Arm) :
  (main env client bind source ready = Some (Ok tt) <->
   bind (bind_address (metrics_port env)) = Ok tt /\ is_ok source = true /\
   exists pre post, ready = pre ++ ShutdownSignal (Ok tt) :: post /\
     Forall (fun a => a = PodCacheTask /\ is_ok client = false) pre) /\
  (forall e, bind (bind_address (metrics_port env)) = Err e ->
     main env client bind source ready = Some (Err e)) /\
  (forall e, bind (bind_address (metrics_port env)) = Ok tt -> source = Err e ->
     main env client bind source ready = Some (Err e)).
Proof.
  unfold main. set (watching := bool_decide (is_Some (connect client).2)).
  assert (watching = is_ok client) as Hw by (by destruct client as [[c t]|e]).
  destruct (connect client) as [k8s_client pod_cache]. cbn [snd] in watching. fold watching.
  destruct (bind (bind_address (metrics_port env))) as [[]|e];
    [|split_and!; [split; [done|by intros (? & _)]|by intros ? [= ->]|done]].
  destruct source as [s|e]; [|split_and!; [split; [done|by intros (_ & ? & _)]|done|by intros ? _ [= ->]]].
  split_and!; [|done|done]. unfold supervise. rewrite fmap_Some. split.
  - intros (a & (pre & post & -> & Ha & Hpre)%find_first_Some & Ho). split_and!; [done..|].
    destruct a as [[[]|]| | | |]; try done. exists pre, post. split; [done|].
    eapply Forall_impl; [done|]. intros a Hd. simpl in Hd. destruct a; try done.
    split; [done|]. by rewrite <- Hw.
  - intros (_ & _ & pre & post & -> & Hpre). exists (ShutdownSignal (Ok tt)).
    split; [|done]. apply find_first_Some. exists pre, post. split_and!; [done..|].
    eapply Forall_impl; [done|]. intros a [-> Hc]. simpl. by rewrite Hw.
Qed.

(** ** Concrete configurations *)

Definition sample_env : Env := fun name =>
  if decide (name = lit "SERIES_TTL_SECONDS") then Some (lit "0")
  else if decide (name = lit "METRICS_PORT") then Some (lit "70000") else None.

Example zero_ttl_is_one_second : series_ttl sample_env = 1.
Proof. by vm_compute. Qed.
Example unset_interval_is_the_default : sweep_interval sample_env = 300.
Proof. by vm_compute. Qed.
Example port_out_of_range_is_the_default :
  bind_address (metrics_port sample_env) = lit "0.0.0.0:8080".
Proof. by vm_compute. Qed.

Lemma env_seconds_is_usable_witness :
  env_seconds sample_env (lit "SERIES_TTL_SECONDS") 1800 = N.max 0 1.
Proof.
  destruct (env_seconds_is_usable sample_env (lit "SERIES_TTL_SECONDS") 1800)
    as (_ & _ & Hnum & _); [by vm_compute|].
  apply (Hnum 0); by vm_compute.
Defined.

Lemma process_exit_status_witness :
  main sample_env (Err (anyhow (lit "not in a cluster"))) (fun _ => Ok tt)
    (Ok {| pending := [] |}) [PodCacheTask; ShutdownSignal (Ok tt)] = Some (Ok tt) /\
  main sample_env (Err (anyhow (lit "not in a cluster"))) (fun _ => Ok tt)
    (Ok {| pending := [] |}) [EventProcessor; ShutdownSignal (Ok tt)]
  = Some (Err (anyhow (lit "event processor task exited"))).
Proof.
  split; [|by vm_compute].
  apply (process_exit_status sample_env (Err (anyhow (lit "not in a cluster"))) (fun _ => Ok tt)
    (Ok {| pending := [] |})).
  split_and!; [done..|]. exists [PodCacheTask], []. split; [done|]. by repeat constructor.
Defined.
