(* ===== verification/Process.v ===== *)
(** * Process: the event processor task and its end

    The task [main] spawns around [watch::run] ([oom-watcher/src/main.rs]): it waits for the
    pod cache, starts asserting liveness, and runs the loop; and what its end means for the
    process. *)
From S2P Require Import Prelude Text Io Common Tracepoint Resolve Seams Source Health Regex Cgroup.
From S2P Require Import Kubernetes PodCache Watch Main.

(** The task at some moment: the liveness cell, the loop, and whether the task has ended. *)
Record Processor {S R : Type} := {
  p_health : Health;
  p_loop : LoopState S R;
  p_ended : bool;
}.
Arguments Processor : clear implicits.

Section task.
Context {S SW C CW R : Type}.
Context `{OomEventSource S SW} `{ContainerResolver C CW} `{MetricsRecorder R}.

(** The body of the task. [waited] tells whether [wait_until_synced] has returned, which is
    asked only of a client; the first reading of the clock seeds the heartbeat. *)
Definition event_processor (waited : bool) (now : nat -> N) (k8s_client : option C)
    (turns : list (Turn SW CW)) (source : S) (recorder : R) : Processor S R :=
  if bool_decide (is_Some k8s_client) && negb waited
  then {| p_health := health_new; p_loop := loop_start source recorder; p_ended := false |}
  else
    let '(st, ended) := run (fun n => now (Datatypes.S n)) k8s_client turns
                          (loop_start source recorder) in
    {| p_health := health_after (now O) (ls_beats st); p_loop := st; p_ended := ended |}.

(** The arm of the supervisor the task makes ready. *)
Definition processor_arms (p : Processor S R) : list Arm :=
  if p_ended p then [EventProcessor] else [].

(** The loop ends exactly at a turn in which the source says it has ended. *)
Lemma run_ended_iff now (resolver : option C) (turns : list (Turn SW CW)) (st : LoopState S R) :
  (run now resolver turns st).2 = true <->
  exists pre t post sw s', turns = pre ++ t :: post /\ polled t = Some sw /\
    (run now resolver pre st).2 = false /\
    poll_next sw (ls_source (run now resolver pre st).1) = (Ready None, s').
Proof.
  revert st. induction turns as [|t turns IH]; intros st.
  { split; [done|]. by intros ([|] & ? & ? & ? & ? & ? & _). }
  cbn [run]. destruct (turn now resolver t st) as [st' ended] eqn:Et.
  assert (ended = true <-> exists sw s', polled t = Some sw /\
    poll_next sw (ls_source st) = (Ready None, s')) as Hend.
  { unfold turn, select in Et. destruct (polled t) as [sw|].
    - destruct (poll_next sw (ls_source st)) as [[|[e|]] s'] eqn:Ep.
      + destruct (ticked t); simplify_eq; (split; [done|intros (? & ? & [= <-] & ?)]; congruence).
      + simplify_eq. split; [done|intros (? & ? & [= <-] & ?); congruence].
      + simplify_eq. split; [by eauto|done].
    - destruct (ticked t); simplify_eq; (split; [done|by intros (? & ? & ? & _)]). }
  destruct ended.
  - split; [|done]. intros _. destruct (proj1 Hend eq_refl) as (sw & s' & Hp & Hs).
    by exists [], t, turns, sw, s'.
  - rewrite IH. split.
    + intros (pre & t' & post & sw & s' & -> & Hp & Hr & Hs).
      exists (t :: pre), t', post, sw, s'. cbn [run]. by rewrite Et.
    + intros ([|t0 pre] & t' & post & sw & s' & Hts & Hp & Hr & Hs); simplify_eq/=.
      * assert (false = true) by (apply Hend; by eauto). done.
      * rewrite Et in Hr, Hs. by exists pre, t', post, sw, s'.
Qed.
End task.

(** ** The ring buffer source *)

(** The end of the ring buffer source is a failed readiness call in the answers polled. *)
Lemma ring_ended_failure (sw : SourceWorld) (s s' : RingBufSource) :
  poll_next sw s = (Ready None, s') -> ReadinessFailed ∈ readiness sw.
Proof.
  cbn. destruct (next (readiness sw) s) as [[answer s1] rest] eqn:E. cbn. intros [= -> ->].
  pose proof (next_step (readiness sw) s) as Hn. rewrite E in Hn.
  destruct Hn as (_ & pre & -> & _). set_solver.
Qed.

(** C34: A dead source fails the process, and nothing else ends the task. While the task waits for
    the pod cache, [/healthz] is not yet healthy whatever the clock says; from then on it is
    judged by the seed and the loop's heartbeats; the task never returns unless a readiness
    call on the ring buffer failed; and once it has returned, the process exits with an error
    as soon as the supervisor looks, unless an arm before it was ready, so it does not stay
    up without watching. *)
Theorem dead_source_fails_the_process {C CW R} `{ContainerResolver C CW} `{MetricsRecorder R}
    (waited : bool) (now : nat -> N) (client : option C) (turns : list (Turn SourceWorld CW))
    (source : RingBufSource) (recorder : R) (watching_pods : bool) (before after : list Arm)
    (metrics : option str) (t : N) :
  let p := event_processor waited now client turns source recorder in
  (is_Some client -> waited = false ->
     (router metrics t (p_health p) (lit "/healthz")).1 = SERVICE_UNAVAILABLE /\ p_ended p = false) /\
  (client = None \/ waited = true ->
     liveness t (p_health p) = judge t (default (now O) (last (ls_beats (p_loop p))))) /\
  (p_ended p = true ->
     (exists tn sw, tn ∈ turns /\ polled tn = Some sw /\ ReadinessFailed ∈ readiness sw) /\
     (Forall (fun a => arm_enabled watching_pods a = false) before ->
      supervise watching_pods (before ++ processor_arms p ++ after)
        = Some (Err (anyhow (lit "event processor task exited"))))).
Proof.
  cbv zeta. unfold event_processor. split_and!.
  - intros Hc ->. rewrite bool_decide_eq_true_2 by done. done.
  - intros Hw. assert (bool_decide (is_Some client) && negb waited = false) as ->.
    { destruct Hw as [->| ->]; [done|apply andb_false_r]. }
    destruct (run _ _ _ _) as [st ended]. apply liveness_after.
  - destruct (bool_decide _ && _); [done|].
    destruct (run _ client turns _) as [st ended] eqn:Er. cbn [p_ended]. intros ->. split.
    + pose proof (run_ended_iff (fun n => now (S n)) client turns (loop_start source recorder)) as He.
      rewrite Er in He. destruct (proj1 He eq_refl) as (pre & tn & post & sw & s' & -> & Hp & _ & Hs).
      exists tn, sw. split_and!; [set_solver|done|by eapply ring_ended_failure].
    + intros Hb. unfold supervise, processor_arms. cbn [p_ended].
      rewrite (proj2 (find_first_Some _ _ EventProcessor)); [done|]. by exists before, after.
Qed.

(** ** Concrete ends *)

Definition failing_turn : Turn SourceWorld unit := {|
  polled := Some {| readiness := [Readable [sample_record 1]; ReadinessFailed]; dropped_per_cpu := None |};
  ticked := false; resolution_world := tt;
  drops_world := {| readiness := []; dropped_per_cpu := None |};
|}.

Definition failed_turn : Turn SourceWorld unit := {|
  polled := Some {| readiness := [ReadinessFailed]; dropped_per_cpu := None |};
  ticked := false; resolution_world := tt;
  drops_world := {| readiness := []; dropped_per_cpu := None |};
|}.

(** The event read before the failure is handed out first; then the task ends. *)
Lemma dead_source_fails_the_process_witness :
  let p := event_processor true (fun n => 100 + N.of_nat n) sample_resolver
             [failing_turn; failed_turn] {| pending := [] |} ([] : Trace) in
  p_ended p = true /\ recorded (ls_recorder (p_loop p)) = [sample_event 1] /\
  supervise true ([] ++ processor_arms p ++ []) = Some (Err (anyhow (lit "event processor task exited"))).
Proof.
  intros p. assert (p_ended p = true) as He by (by vm_compute).
  split; [exact He|]. split; [by vm_compute|].
  exact (proj2 (proj2 (proj2 (dead_source_fails_the_process true (fun n => 100 + N.of_nat n)
    sample_resolver [failing_turn; failed_turn] {| pending := [] |} ([] : Trace) true [] []
    None 0)) He) (Forall_nil_2 _)).
Defined.
