(* ===== verification/BuildScript.v ===== *)
(** * BuildScript: how the probe gets into the binary

    [oom-watcher/build.rs] builds the probe with a nested cargo and copies the object where
    [source.rs] embeds it from; [oom-watcher-ebpf/build.rs] tells cargo when to rebuild the
    probe. The environment, cargo, the file system and the look-up of the linker are inputs;
    what the scripts do to the world is a list of effects. *)
From S2P Require Import Prelude Text.

(** ** Paths *)

(** [Path::join]. *)
Definition join_path (p q : str) : str :=
  if starts_with q [Chars.slash] then q
  else match last p with
       | None => q
       | Some c => if c =? Chars.slash then p ++ q else p ++ Chars.slash :: q
       end.

(** [Path::parent], for a path without [.] components. *)
Definition parent (p : str) : option str :=
  match trim_end_matches (N.eqb Chars.slash) p with
  | [] => None
  | q =>
      let dir := reverse (trim_start_matches (fun c => negb (c =? Chars.slash)) (reverse q)) in
      match trim_end_matches (N.eqb Chars.slash) dir with
      | [] => Some (take 1 dir)
      | d => Some d
      end
  end.

(** ** [oom-watcher/build.rs] *)

(** [std::process::Command], as far as the script sets it up. *)
Record Command := {
  program : str;
  env_removed : list str;
  args : list str;
  current_dir : str;
}.

Inductive Effect :=
| RerunIfChanged (path : str)
| RunCommand (c : Command)
| CopyFile (from to : str)
| WriteFile (path contents : str).

(** How a script ends: it returns, or it panics and cargo fails the build. *)
Inductive Exit :=
| Returned
| Panicked (message : str).

(** The names of the build. *)
Definition PROBE_OBJECT : str := lit "bpfel-unknown-none/release/oom-watcher-ebpf".

Definition ebpf_target_dir (workspace_root : str) : str :=
  join_path workspace_root (lit "target/ebpf-subbuild").

(** The nested cargo invocation. *)
Definition build_command (workspace_root : str) : Command := {|
  program := lit "cargo";
  env_removed := [lit "LD_LIBRARY_PATH"; lit "RUSTC"; lit "RUSTUP_TOOLCHAIN"];
  args := [lit "+nightly"; lit "build"; lit "--release"; lit "--package"; lit "oom-watcher-ebpf";
           lit "--target"; lit "bpfel-unknown-none"; lit "--target-dir";
           ebpf_target_dir workspace_root; lit "-Z"; lit "build-std=core"];
  current_dir := workspace_root;
|}.

(** [possible_paths]. *)
Definition possible_paths (workspace_root : str) : list str :=
  [join_path (ebpf_target_dir workspace_root) PROBE_OBJECT;
   lit "../target/ebpf-subbuild/" ++ PROBE_OBJECT;
   lit "target/ebpf-subbuild/" ++ PROBE_OBJECT].

Definition target_path (out_dir : str) : str := join_path out_dir (lit "oom-watcher-ebpf-object").

(** What the script finds: the variables of its environment, how a command ends ([None]
    when it cannot be started, otherwise its success), the files that exist once it ran, and
    whether a copy succeeds. *)
Record BuildWorld := {
  env_var : str -> option str;
  command_status : Command -> option bool;
  path_exists : str -> bool;
  copy_succeeds : str -> str -> bool;
}.

(** [main] of [oom-watcher/build.rs]. *)
Definition build_probe (w : BuildWorld) : list Effect * Exit :=
  if decide (env_var w (lit "OOM_WATCHER_SKIP_EBPF") = Some (lit "1")) then ([], Returned)
  else match env_var w (lit "CARGO_FEATURE_EBPF") with
  | None => ([], Returned)
  | Some _ =>
  match env_var w (lit "OUT_DIR") with
  | None => ([], Panicked (lit "OUT_DIR"))
  | Some out_dir =>
  let rerun := RerunIfChanged (lit "oom-watcher-ebpf/src") in
  match env_var w (lit "CARGO_MANIFEST_DIR") ≫= parent with
  | None => ([rerun], Panicked (lit "CARGO_MANIFEST_DIR"))
  | Some workspace_root =>
  let cmd := build_command workspace_root in
  let ran := [rerun; RunCommand cmd] in
  match command_status w cmd with
  | None => (ran, Panicked (lit "Failed to execute eBPF build command"))
  | Some false => (ran, Panicked (lit "eBPF build failed"))
  | Some true =>
  match find_first (path_exists w) (possible_paths workspace_root) with
  | None => (ran, Panicked (lit "eBPF binary not found"))
  | Some ebpf_path =>
      let target := target_path out_dir in
      let copied := ran ++ [CopyFile ebpf_path target] in
      if copy_succeeds w ebpf_path target then (copied, Returned)
      else (copied, Panicked (lit "Failed to copy " ++ ebpf_path ++ lit " to " ++ target))
  end end end end end.

(** The path [source.rs] embeds the object from in a release build:
    [concat!(env!("OUT_DIR"), "/oom-watcher-ebpf-object")]. *)
Definition embedded_path (out_dir : str) : str := out_dir ++ lit "/oom-watcher-ebpf-object".

(** ** [oom-watcher-ebpf/build.rs] *)

(** [main]: [linker] is the path [which] finds, [Some None] one that is not Unicode, and
    [write_succeeds] what the file system does. *)
Definition track_linker (linker : option (option str)) (out_dir : option str)
    (write_succeeds : str -> bool) : list Effect * Exit :=
  match linker with
  | Some None => ([], Panicked (lit "bpf-linker"))
  | _ =>
  let reruns := (RerunIfChanged <$> option_list (linker ≫= id))
                ++ [RerunIfChanged (lit "minimal_oom.h")] in
  match out_dir with
  | None => (reruns, Panicked (lit "OUT_DIR"))
  | Some out_dir =>
      let path := join_path out_dir (lit "bindings.rs") in
      let written := reruns ++ [WriteFile path (lit "// no bindings required" ++ [Chars.newline])] in
      if write_succeeds path then (written, Returned)
      else (written, Panicked (lit "bindings.rs"))
  end end.

(** ** Properties *)

(** Whether the script has to produce an object. *)
Definition builds_probe (w : BuildWorld) : Prop :=
  env_var w (lit "OOM_WATCHER_SKIP_EBPF") <> Some (lit "1") /\
  is_Some (env_var w (lit "CARGO_FEATURE_EBPF")).

(** C37: A build never embeds a stale or a missing probe in silence. When the probe is wanted
    and the script returns, the nested build ran in the workspace, in a target directory of
    its own, and succeeded, and exactly one file was copied: the first candidate that
    exists, to the very path the release build embeds. When the probe is not wanted the
    script does nothing, and in every other case it panics, which fails the build. *)
Theorem returned_build_embeds_the_probe (w : BuildWorld) (out_dir : str) :
  env_var w (lit "OUT_DIR") = Some out_dir -> last out_dir <> Some Chars.slash -> out_dir <> [] ->
  match build_probe w with
  | (effects, Returned) =>
      (~ builds_probe w /\ effects = []) \/
      (builds_probe w /\ exists workspace_root ebpf_path before after,
         env_var w (lit "CARGO_MANIFEST_DIR") ≫= parent = Some workspace_root /\
         command_status w (build_command workspace_root) = Some true /\
         possible_paths workspace_root = before ++ ebpf_path :: after /\
         path_exists w ebpf_path = true /\ Forall (fun p => path_exists w p = false) before /\
         copy_succeeds w ebpf_path (embedded_path out_dir) = true /\
         effects = [RerunIfChanged (lit "oom-watcher-ebpf/src");
                    RunCommand (build_command workspace_root);
                    CopyFile ebpf_path (embedded_path out_dir)])
  | (_, Panicked _) => builds_probe w
  end.
Proof.
  intros Hout Hslash Hne. unfold build_probe, builds_probe.
  assert (target_path out_dir = embedded_path out_dir) as Htarget.
  { unfold target_path, join_path. destruct (last out_dir) as [c|] eqn:Hlast.
    - simpl. destruct (N.eqb_spec c Chars.slash); [congruence|done].
    - by apply last_None in Hlast. }
  case_decide as Hskip; [left; split; [tauto|done]|].
  destruct (env_var w (lit "CARGO_FEATURE_EBPF")) as [f|] eqn:Ef; [|left; split; [|done]; by intros [_ [? ?]]].
  rewrite Hout. destruct (_ ≫= parent) as [root|] eqn:Eroot; [|by eauto].
  destruct (command_status w _) as [[]|] eqn:Ecmd; [|by eauto..].
  destruct (find_first _ _) as [path|] eqn:Efind; [|by eauto].
  rewrite Htarget. destruct (copy_succeeds w path _) eqn:Ecopy; [|by eauto].
  right. split; [by eauto|]. apply find_first_Some in Efind as (b & a & Hp & Hex & Hb).
  by exists root, path, b, a.
Qed.

(** ** A concrete build *)

Definition sample_build : BuildWorld := {|
  env_var v :=
    if decide (v = lit "OUT_DIR") then Some (lit "/w/target/release/build/oom-watcher/out")
    else if decide (v = lit "CARGO_MANIFEST_DIR") then Some (lit "/w/oom-watcher")
    else if decide (v = lit "CARGO_FEATURE_EBPF") then Some (lit "1") else None;
  command_status _ := Some true;
  path_exists p :=
    bool_decide (p = lit "/w/target/ebpf-subbuild/bpfel-unknown-none/release/oom-watcher-ebpf");
  copy_succeeds _ _ := true;
|}.

Example sample_build_effects :
  build_probe sample_build
  = ([RerunIfChanged (lit "oom-watcher-ebpf/src"); RunCommand (build_command (lit "/w"));
      CopyFile (lit "/w/target/ebpf-subbuild/bpfel-unknown-none/release/oom-watcher-ebpf")
        (lit "/w/target/release/build/oom-watcher/out/oom-watcher-ebpf-object")], Returned).
Proof. by vm_compute. Qed.

(** The path the script asks cargo to watch is relative to its own package, where nothing of
    that name exists; the probe's sources are in the sibling directory. *)
Example watched_path_is_not_the_probe :
  join_path (lit "/w/oom-watcher") (lit "oom-watcher-ebpf/src") = lit "/w/oom-watcher/oom-watcher-ebpf/src"
  /\ (parent (lit "/w/oom-watcher") ≫= fun root => Some (join_path root (lit "oom-watcher-ebpf/src")))
     = Some (lit "/w/oom-watcher-ebpf/src").
Proof. by vm_compute. Qed.

Example parents : parent (lit "/") = None /\ parent [] = None /\ parent (lit "/w") = Some (lit "/")
  /\ parent (lit "w") = Some [].
Proof. by vm_compute. Qed.

Lemma returned_build_embeds_the_probe_witness :
  builds_probe sample_build /\
  exists workspace_root, env_var sample_build (lit "CARGO_MANIFEST_DIR") ≫= parent = Some workspace_root.
Proof.
  assert (builds_probe sample_build) as Hb by (split; [by vm_compute|by eexists; vm_compute]).
  split; [done|].
  pose proof (returned_build_embeds_the_probe sample_build
    (lit "/w/target/release/build/oom-watcher/out") eq_refl) as Hret.
  rewrite sample_build_effects in Hret.
  destruct Hret as [[Hn _]|(_ & root & path & b & a & Hroot & _)];
    [by vm_compute|by vm_compute|done|by exists root].
Defined.
