(* ===== verification/MetricsTests.v ===== *)
(** * MetricsTests: the test suite of the collector, run on the model

    The [#[test]] functions of [oom-watcher/src/metrics.rs], each a boolean the kernel
    evaluates: the same calls on the collector over finite maps, the same assertions, and
    the same text rendered by [get_metrics] with a reference for the library's encoder. *)
From S2P Require Import Prelude Text Float64 Io Common Resolve Seams Prometheus Metrics.

(** ** The text exposition format

    One line per series, [name{label=value,..} value] with the labels sorted by name and
    their values escaped and quoted, which is what the assertions read. *)

Definition escape (value : str) : str :=
  value ≫= fun c => if c =? 92 then lit "\\" else if c =? 34 then lit_q "\'"
                    else if c =? 10 then lit "\n" else [c].

Fixpoint str_le (a b : str) : bool :=
  match a, b with
  | [], _ => true
  | _ :: _, [] => false
  | x :: a, y :: b => (x <? y) || ((x =? y) && str_le a b)
  end.

Fixpoint insert_label (l : str * str) (ls : list (str * str)) : list (str * str) :=
  match ls with
  | [] => [l]
  | m :: ls => if str_le l.1 m.1 then l :: m :: ls else m :: insert_label l ls
  end.

Definition sort_labels : list (str * str) -> list (str * str) := foldr insert_label [].

Definition label_text (l : str * str) : str := l.1 ++ lit_q "='" ++ escape l.2 ++ lit_q "'".

Definition series_line (name : str) (labels : list (str * str)) (value : N) : str :=
  name ++ lit "{" ++ join (lit ",") (label_text <$> sort_labels labels) ++ lit "} "
  ++ show_N value ++ [Chars.newline].

Definition family_lines (family : str * MapVec) : str :=
  map_to_list (vec_map family.2) ≫= fun '(values, x) =>
    series_line family.1 (zip (vec_names family.2) values) x.

(** A reference for [TextEncoder::encode_to_string]. *)
Definition encode_text (families : list (str * MapVec)) : option str :=
  Some (families ≫= family_lines).

(** ** The fixtures of the tests *)

Definition Collector : Type := MetricsCollector MapVec.

Definition collector : Collector := collector_new.

Definition metrics (c : Collector) : str := get_metrics encode_text c.

(** [str::matches(p).count()], for a pattern that cannot overlap itself. *)
Fixpoint matches_count (s p : str) : nat :=
  ((if starts_with s p then 1 else 0) + match s with [] => 0 | _ :: s => matches_count s p end)%nat.

Definition event_for (pod container_id : str) (timestamp : N) : EnrichedOomEvent := {|
  raw_event := {|
    pid := 1234;
    comm := lit "python" ++ replicate 10 0;
    total_vm := 100;
    anon_rss := 50;
    file_rss := 20;
    shmem_rss := 5;
    uid := 1000;
    pgtables := 8;
    oom_score_adj := 0;
  |};
  ev_node_name := Some (lit "node-1");
  ev_namespace := Some (lit "prod");
  ev_pod_name := Some pod;
  ev_container_name := Some (lit "api");
  ev_container_id := Some container_id;
  ev_image_id := Some (lit "repo@sha256:def456");
  ev_timestamp := timestamp;
|}.

Definition event_at (pod : str) (timestamp : N) : EnrichedOomEvent :=
  event_for pod (lit "containerd://abc123") timestamp.

Definition RESOLVED_LABELS : str :=
  lit_q "{container='api',container_id='containerd://abc123',"
  ++ lit_q "image_id='repo@sha256:def456',namespace='prod',node='node-1',pod='api-7d9'}".

Definition T0 : N := 1717000000.
Definition TTL : N := 1800.

(** [record_oom_event] and [note_pod_deleted] in statement position. *)
Definition record (e : EnrichedOomEvent) (c : Collector) : Collector := record_oom_event e c.

(** ** Outcomes and drops *)

Definition counts_failures_by_reason_and_ignores_found : bool :=
  let c := record_resolution_outcome (lit "node-1") NotFoundOutcome collector in
  let c := record_resolution_outcome (lit "node-1") NotFoundOutcome c in
  let c := record_resolution_outcome (lit "node-1") (Failed (anyhow (lit "x"))) c in
  let c := record_resolution_outcome (lit "node-1") (Found {|
             namespace := lit "p"; pod_name := lit "po"; container_name := lit "c";
             container_id := lit "containerd://id"; image_id := lit "repo@sha256:d" |}) c in
  let out := metrics c in
  contains out (lit_q "oom_resolution_failures_total{node='node-1',reason='not_found'} 2")
  && contains out (lit_q "oom_resolution_failures_total{node='node-1',reason='error'} 1").

Definition advances_the_drop_counter_by_the_delta_between_readings : bool :=
  let c := record_dropped_total (lit "node-1") 3 collector in
  let c := record_dropped_total (lit "node-1") 3 c in
  let c := record_dropped_total (lit "node-1") 10 c in
  contains (metrics c) (lit_q "oom_events_dropped_total{node='node-1'} 10").

Definition ignores_a_drop_total_that_moves_backwards : bool :=
  let c := record_dropped_total (lit "node-1") 7 collector in
  let c := record_dropped_total (lit "node-1") 2 c in
  contains (metrics c) (lit_q "oom_events_dropped_total{node='node-1'} 7").

Definition does_not_emit_a_drop_series_until_something_is_dropped : bool :=
  let c := record_dropped_total (lit "node-1") 0 collector in
  negb (contains (metrics c) (lit "oom_events_dropped_total{")).

(** ** Eviction *)

Definition evicts_a_series_untouched_for_at_least_the_ttl : bool :=
  let c := record (event_at (lit "api-7d9") T0) collector in
  let '(n, c) := evict_stale (T0 + TTL) TTL c in
  assert_eq n 1%nat && negb (contains (metrics c) (lit "api-7d9")).

Definition keeps_a_series_touched_within_the_ttl : bool :=
  let c := record (event_at (lit "api-7d9") T0) collector in
  let '(n, c) := evict_stale (T0 + TTL - 1) TTL c in
  assert_eq n 0%nat
  && contains (metrics c) (lit "oom_kills_total" ++ RESOLVED_LABELS ++ lit " 1").

Definition a_deleted_pods_series_goes_on_the_pods_schedule_not_the_ttls : bool :=
  let c := record (event_at (lit "api-7d9") T0) collector in
  let c := note_pod_deleted (lit "prod") (lit "api-7d9") T0 c in
  let '(n, c) := evict_stale (T0 + DELETED_POD_GRACE_SECONDS) TTL c in
  assert_eq n 1%nat && negb (contains (metrics c) (lit "api-7d9")).

Definition a_deleted_pods_series_survives_until_the_grace_has_passed : bool :=
  let c := record (event_at (lit "api-7d9") T0) collector in
  let c := note_pod_deleted (lit "prod") (lit "api-7d9") T0 c in
  let '(n, c) := evict_stale (T0 + DELETED_POD_GRACE_SECONDS - 1) TTL c in
  assert_eq n 0%nat
  && contains (metrics c) (lit "oom_kills_total" ++ RESOLVED_LABELS ++ lit " 1").

Definition deleting_a_pod_takes_every_restart_of_its_containers : bool :=
  let c := record (event_for (lit "api-7d9") (lit "containerd://first") T0) collector in
  let c := record (event_for (lit "api-7d9") (lit "containerd://second") T0) c in
  let c := note_pod_deleted (lit "prod") (lit "api-7d9") T0 c in
  let '(n, c) := evict_stale (T0 + DELETED_POD_GRACE_SECONDS) TTL c in
  assert_eq n 2%nat && negb (contains (metrics c) (lit "oom_memory_usage_bytes{")).

Definition a_deleted_pod_leaves_another_pods_series_alone : bool :=
  let c := record (event_at (lit "api-7d9") T0) collector in
  let c := record (event_at (lit "worker-1") T0) c in
  let c := note_pod_deleted (lit "prod") (lit "api-7d9") T0 c in
  let '(n, c) := evict_stale (T0 + DELETED_POD_GRACE_SECONDS) TTL c in
  assert_eq n 1%nat && contains (metrics c) (lit "worker-1").

Definition forgets_a_deleted_pod_that_never_oomed : bool :=
  let c := note_pod_deleted (lit "prod") (lit "never-oomed") T0 collector in
  let '(n, c) := evict_stale (T0 + DELETED_POD_GRACE_SECONDS) TTL c in
  assert_eq n 0%nat && assert_eq (size (deleted_after c)) 0%nat.

Definition keeps_a_deleted_pods_bookkeeping_until_it_is_due : bool :=
  let c := note_pod_deleted (lit "prod") (lit "never-oomed") T0 collector in
  let '(n, c) := evict_stale (T0 + DELETED_POD_GRACE_SECONDS - 1) TTL c in
  assert_eq n 0%nat && assert_eq (size (deleted_after c)) 1%nat.

Definition distinguishes_pods_of_the_same_name_in_different_namespaces : bool :=
  let c := record (event_at (lit "api-7d9") T0) collector in
  let c := note_pod_deleted (lit "staging") (lit "api-7d9") T0 c in
  let '(n, c) := evict_stale (T0 + DELETED_POD_GRACE_SECONDS) TTL c in
  assert_eq n 0%nat && contains (metrics c) (lit "api-7d9").

Definition evicts_only_the_stale_series_and_leaves_fresh_ones : bool :=
  let c := record (event_at (lit "crashloop-1") T0) collector in
  let c := record (event_at (lit "steady-1") (T0 + TTL)) c in
  let '(n, c) := evict_stale (T0 + TTL) TTL c in
  let out := metrics c in
  assert_eq n 1%nat && negb (contains out (lit "crashloop-1")) && contains out (lit "steady-1").

Definition evicting_removes_every_memory_type_gauge : bool :=
  let c := record (event_at (lit "api-7d9") T0) collector in
  let before := matches_count (metrics c) (lit "oom_memory_usage_bytes{") in
  let '(_, c) := evict_stale (T0 + TTL) TTL c in
  assert_eq before (length MEMORY_TYPES)
  && negb (contains (metrics c) (lit "oom_memory_usage_bytes{")).

Definition a_later_touch_extends_the_lifetime_of_a_series : bool :=
  let c := record (event_at (lit "api-7d9") T0) collector in
  let c := record (event_at (lit "api-7d9") (T0 + TTL)) c in
  assert_eq (evict_stale (T0 + TTL) TTL c).1 0%nat.

Definition forgets_the_evicted_key_so_a_second_sweep_is_a_no_op : bool :=
  let c := record (event_at (lit "api-7d9") T0) collector in
  let '(_, c) := evict_stale (T0 + TTL) TTL c in
  assert_eq (evict_stale (T0 + 2 * TTL) TTL c).1 0%nat.

Definition a_series_recreated_after_eviction_starts_from_zero : bool :=
  let c := record (event_at (lit "api-7d9") T0) collector in
  let c := record (event_at (lit "api-7d9") T0) c in
  let '(_, c) := evict_stale (T0 + TTL) TTL c in
  let c := record (event_at (lit "api-7d9") (T0 + 2 * TTL)) c in
  contains (metrics c) (lit "oom_kills_total" ++ RESOLVED_LABELS ++ lit " 1").

Definition counts_evictions_per_node : bool :=
  let c := record (event_at (lit "api-7d9") T0) collector in
  let c := record (event_at (lit "api-8f2") T0) c in
  let '(_, c) := evict_stale (T0 + TTL) TTL c in
  contains (metrics c) (lit_q "oom_series_evicted_total{node='node-1'} 2").

Definition does_not_emit_an_eviction_series_until_something_is_evicted : bool :=
  let c := record (event_at (lit "api-7d9") T0) collector in
  let '(_, c) := evict_stale T0 TTL c in
  negb (contains (metrics c) (lit "oom_series_evicted_total{")).

Definition leaves_node_scoped_series_alone : bool :=
  let c := record (event_at (lit "api-7d9") T0) collector in
  let '(_, c) := evict_stale (T0 + TTL) TTL c in
  contains (metrics c) (lit_q "oom_kills_per_node_total{node='node-1'} 1").

(** [event_at(..)] with some of the names reset to [None]. *)
Definition unresolved (keep_node keep_ids : bool) (e : EnrichedOomEvent) : EnrichedOomEvent := {|
  raw_event := raw_event e;
  ev_node_name := if keep_node then ev_node_name e else None;
  ev_namespace := None;
  ev_pod_name := None;
  ev_container_name := None;
  ev_container_id := if keep_ids then ev_container_id e else None;
  ev_image_id := if keep_ids then ev_image_id e else None;
  ev_timestamp := ev_timestamp e;
|}.

Definition evicts_the_unknown_label_set_of_an_unresolved_event : bool :=
  let c := record (unresolved false true (event_at (lit "api-7d9") T0)) collector in
  let '(n, c') := evict_stale (T0 + TTL) TTL c in
  contains (metrics c) (lit_q "pod='unknown'") && assert_eq n 1%nat
  && negb (contains (metrics c') (lit_q "pod='unknown'")).

(** ** Labels *)

Definition labels_oom_kills_total_with_the_container_and_image_ids : bool :=
  let c := record (event_at (lit "api-7d9") T0) collector in
  contains (metrics c) (lit "oom_kills_total" ++ RESOLVED_LABELS ++ lit " 1").

Definition labels_oom_last_timestamp_with_the_container_and_image_ids : bool :=
  let c := record (event_at (lit "api-7d9") T0) collector in
  contains (metrics c) (lit "oom_last_timestamp" ++ RESOLVED_LABELS).

Definition leaves_the_memory_gauge_label_set_unchanged : bool :=
  let c := record (event_at (lit "api-7d9") T0) collector in
  let out := metrics c in
  contains out (lit_q "oom_memory_usage_bytes{container='api',memory_type='anon_rss',"
                ++ lit_q "namespace='prod',node='node-1',pod='api-7d9'}")
  && negb (existsb (fun l => starts_with l (lit "oom_memory_usage_bytes")
                             && contains l (lit "container_id=")) (lines out)).

Definition falls_back_to_unknown_for_both_ids_when_resolution_failed : bool :=
  let c := record (unresolved true false (event_at (lit "api-7d9") T0)) collector in
  contains (metrics c)
    (lit_q "oom_kills_total{container='unknown',container_id='unknown',"
     ++ lit_q "image_id='unknown',namespace='unknown',node='node-1',pod='unknown'} 1").

Definition keeps_the_memory_gauge_while_another_restart_of_the_container_is_live : bool :=
  let c := record (event_for (lit "api-7d9") (lit "containerd://restart-1") T0) collector in
  let c := record (event_for (lit "api-7d9") (lit "containerd://restart-2") (T0 + TTL)) c in
  let '(n, c) := evict_stale (T0 + TTL) TTL c in
  let out := metrics c in
  assert_eq n 1%nat && negb (contains out (lit "containerd://restart-1"))
  && contains out (lit "containerd://restart-2")
  && assert_eq (matches_count out (lit "oom_memory_usage_bytes{")) (length MEMORY_TYPES).

Definition removes_the_memory_gauge_once_the_last_restart_goes_stale : bool :=
  let c := record (event_for (lit "api-7d9") (lit "containerd://restart-1") T0) collector in
  let c := record (event_for (lit "api-7d9") (lit "containerd://restart-2") (T0 + TTL)) c in
  let '(_, c) := evict_stale (T0 + TTL) TTL c in
  let '(n, c) := evict_stale (T0 + 2 * TTL) TTL c in
  assert_eq n 1%nat && negb (contains (metrics c) (lit "oom_memory_usage_bytes{")).

(** ** The peak of the memory gauge *)

Definition event_using (pod : str) (timestamp : N) (kilobytes : N * N * N * N)
    : EnrichedOomEvent :=
  let e := event_at pod timestamp in
  let '(total_vm, anon_rss, file_rss, shmem_rss) := kilobytes in
  {| raw_event := {|
       pid := pid (raw_event e);
       comm := comm (raw_event e);
       Common.total_vm := total_vm;
       Common.anon_rss := anon_rss;
       Common.file_rss := file_rss;
       Common.shmem_rss := shmem_rss;
       uid := uid (raw_event e);
       pgtables := pgtables (raw_event e);
       oom_score_adj := oom_score_adj (raw_event e);
     |};
     ev_node_name := ev_node_name e;
     ev_namespace := ev_namespace e;
     ev_pod_name := ev_pod_name e;
     ev_container_name := ev_container_name e;
     ev_container_id := ev_container_id e;
     ev_image_id := ev_image_id e;
     ev_timestamp := ev_timestamp e;
  |}.

(** The bytes rendered for one memory type; [None] where the test helper panics. *)
Definition memory_gauge (c : Collector) (memory_type : str) : option N :=
  let prefix := lit_q "oom_memory_usage_bytes{container='api',memory_type='" ++ memory_type
                ++ lit_q "',namespace='prod',node='node-1',pod='api-7d9'} " in
  value ← find_map (fun line => strip_prefix prefix line) (lines (metrics c));
  parse_u64 (trim value).

Definition KIB : N := 1024.

Definition a_smaller_later_kill_does_not_overwrite_the_peak : bool :=
  let c := record (event_using (lit "api-7d9") T0 (70000, 64260, 0, 0)) collector in
  let c := record (event_using (lit "api-7d9") (T0 + 1) (4000, 0, 828, 0)) c in
  assert_eq (memory_gauge c (lit "anon_rss")) (Some (64260 * KIB))
  && assert_eq (memory_gauge c (lit "total_vm")) (Some (70000 * KIB)).

Definition a_larger_later_kill_raises_the_peak : bool :=
  let c := record (event_using (lit "api-7d9") T0 (4000, 0, 828, 0)) collector in
  let c := record (event_using (lit "api-7d9") (T0 + 1) (70000, 64260, 0, 0)) c in
  assert_eq (memory_gauge c (lit "anon_rss")) (Some (64260 * KIB)).

Definition each_memory_type_peaks_independently : bool :=
  let c := record (event_using (lit "api-7d9") T0 (0, 64260, 0, 0)) collector in
  let c := record (event_using (lit "api-7d9") (T0 + 1) (0, 0, 828, 0)) c in
  assert_eq (memory_gauge c (lit "anon_rss")) (Some (64260 * KIB))
  && assert_eq (memory_gauge c (lit "file_rss")) (Some (828 * KIB)).

Definition eviction_resets_the_peak : bool :=
  let c := record (event_using (lit "api-7d9") T0 (70000, 64260, 0, 0)) collector in
  let '(_, c) := evict_stale (T0 + TTL) TTL c in
  let c := record (event_using (lit "api-7d9") (T0 + TTL) (4000, 1024, 0, 0)) c in
  assert_eq (memory_gauge c (lit "anon_rss")) (Some (1024 * KIB)).

(** ** The suite *)

Definition metrics_suite : list bool :=
  [counts_failures_by_reason_and_ignores_found;
   advances_the_drop_counter_by_the_delta_between_readings;
   ignores_a_drop_total_that_moves_backwards;
   does_not_emit_a_drop_series_until_something_is_dropped;
   evicts_a_series_untouched_for_at_least_the_ttl;
   keeps_a_series_touched_within_the_ttl;
   a_deleted_pods_series_goes_on_the_pods_schedule_not_the_ttls;
   a_deleted_pods_series_survives_until_the_grace_has_passed;
   deleting_a_pod_takes_every_restart_of_its_containers;
   a_deleted_pod_leaves_another_pods_series_alone;
   forgets_a_deleted_pod_that_never_oomed;
   keeps_a_deleted_pods_bookkeeping_until_it_is_due;
   distinguishes_pods_of_the_same_name_in_different_namespaces;
   evicts_only_the_stale_series_and_leaves_fresh_ones;
   evicting_removes_every_memory_type_gauge;
   a_later_touch_extends_the_lifetime_of_a_series;
   forgets_the_evicted_key_so_a_second_sweep_is_a_no_op;
   a_series_recreated_after_eviction_starts_from_zero;
   counts_evictions_per_node;
   does_not_emit_an_eviction_series_until_something_is_evicted;
   leaves_node_scoped_series_alone;
   evicts_the_unknown_label_set_of_an_unresolved_event;
   labels_oom_kills_total_with_the_container_and_image_ids;
   labels_oom_last_timestamp_with_the_container_and_image_ids;
   leaves_the_memory_gauge_label_set_unchanged;
   falls_back_to_unknown_for_both_ids_when_resolution_failed;
   keeps_the_memory_gauge_while_another_restart_of_the_container_is_live;
   removes_the_memory_gauge_once_the_last_restart_goes_stale;
   a_smaller_later_kill_does_not_overwrite_the_peak;
   a_larger_later_kill_raises_the_peak;
   each_memory_type_peaks_independently;
   eviction_resets_the_peak].

(** Every test of the collector passes on the model. *)
Lemma metrics_suite_passes : forallb id metrics_suite = true.
Proof. by vm_compute. Qed.
