(* ===== verification/KubernetesTests.v ===== *)
(** * KubernetesTests: the test suite of the resolver, run on the model

    The [#[test]] functions of [oom-watcher/src/kubernetes.rs], each a boolean the kernel
    evaluates: the patterns run by the reference regex engine, the cache tests drive the
    finite-map reflector with the same sequences of watch events. *)
From S2P Require Import Prelude Text Io Common Resolve Regex Cgroup Kubernetes PodCache Reflector.

(** ** The fixtures *)

Definition ID : str := lit "3b2f1c8e9d4a5b6c7e8f9a0b1c2d3e4f5a6b7c8d9e0f1a2b3c4d5e6f7a8b9c0d".

(** ["containerd://{id}"]. *)
Definition containerd (id : str) : str := lit "containerd://" ++ id.

Definition container_status (name container_id image_id : str) : ContainerStatus := {|
  cs_name := name;
  cs_container_id := Some container_id;
  cs_image_id := image_id;
  last_state := None;
|}.

Definition restarted_container_status (name container_id terminated_container_id : str)
    : ContainerStatus := {|
  cs_name := name;
  cs_container_id := Some container_id;
  cs_image_id := lit "repo@sha256:abc";
  last_state := Some {| terminated := Some {| t_container_id := Some terminated_container_id |} |};
|}.

Definition pod_with_statuses (statuses : list ContainerStatus) : Pod unit := {|
  metadata := {| m_namespace := Some (lit "prod"); m_name := Some (lit "api-7d9");
                 managed_fields := None; annotations := None |};
  spec := None;
  status := Some {| container_statuses := Some statuses |};
|}.

Definition pod_with (container_id image_id : str) : Pod unit :=
  pod_with_statuses [container_status (lit "api") container_id image_id].

(** [Pod::default()], with or without a default status. *)
Definition default_pod (st : option PodStatus) : Pod unit := {|
  metadata := {| m_namespace := None; m_name := None; managed_fields := None; annotations := None |};
  spec := None;
  status := st;
|}.

(** [.expect(..)] on a resolved identity, then the asserted field. *)
Definition expect_field (f : ContainerIdentity -> str) (o : option ContainerIdentity) (v : str)
    : bool := assert_eq (f <$> o) (Some v).

(** ** The container id in a cgroup file *)

Definition extracts_the_container_id_from_every_supported_layout : bool :=
  forallb (fun cgroup => assert_eq (extract_container_id cgroup) (Some ID))
    [lit "0::/kubepods.slice/kubepods-burstable.slice/kubepods-burstable-poda1b2.slice/cri-containerd-"
       ++ ID ++ lit ".scope";
     lit "0::/kubepods.slice/kubepods-besteffort.slice/kubepods-besteffort-poda1b2.slice/crio-"
       ++ ID ++ lit ".scope";
     lit "0::/kubepods.slice/kubepods-burstable.slice/kubepods-burstable-poda1b2.slice/docker-"
       ++ ID ++ lit ".scope";
     lit "11:memory:/docker/" ++ ID;
     lit "11:memory:/kubepods/burstable/poda1b2-c3d4/" ++ ID;
     lit "11:memory:/kubepods/poda1b2-c3d4/" ++ ID].

Definition extracts_from_a_multi_line_cgroup_v1_file : bool :=
  assert_eq (extract_container_id
    (lit "12:pids:/kubepods/burstable/poda1b2/" ++ ID ++ [Chars.newline]
     ++ lit "11:memory:/kubepods/burstable/poda1b2/" ++ ID ++ [Chars.newline]
     ++ lit "0::/" ++ [Chars.newline])) (Some ID).

Definition finds_nothing_for_a_process_outside_a_container : bool :=
  assert_eq (extract_container_id (lit "0::/system.slice/sshd.service" ++ [Chars.newline])) None
  && assert_eq (extract_container_id (lit "0::/" ++ [Chars.newline])) None.

Definition ignores_hex_runs_that_are_not_container_ids : bool :=
  let file n := lit "0::/kubepods.slice/cri-containerd-" ++ replicate n 97 ++ lit ".scope" in
  assert_eq (extract_container_id (file 63%nat)) None
  && assert_eq (extract_container_id (file 65%nat)) None.

(** ** The pod of a container id *)

Definition carries_the_kubelet_prefixed_container_id_not_the_bare_cgroup_id : bool :=
  let pods := [pod_with (containerd ID) (lit "repo@sha256:abc")] in
  expect_field container_id (identity_from_pods pods ID) (containerd ID).

Definition carries_the_image_id_verbatim : bool :=
  forallb (fun image =>
      expect_field image_id (identity_from_pods [pod_with (containerd ID) image] ID) image)
    [lit "repo@sha256:2f1c8e9d4a5b6c7e"; lit "docker-pullable://repo@sha256:2f1c8e9d4a5b6c7e"].

Definition resolves_a_container_whose_image_id_is_empty : bool :=
  let identity := identity_from_pods [pod_with (containerd ID) []] ID in
  expect_field image_id identity [] && expect_field container_name identity (lit "api").

Definition resolves_the_pod_and_container_names_alongside_the_ids : bool :=
  let identity := identity_from_pods [pod_with (containerd ID) (lit "repo@sha256:abc")] ID in
  expect_field namespace identity (lit "prod") && expect_field pod_name identity (lit "api-7d9")
  && expect_field container_name identity (lit "api").

Definition picks_the_matching_container_among_several_in_one_pod : bool :=
  let other := replicate 64 97 in
  let pods := [pod_with_statuses
    [container_status (lit "sidecar") (containerd other) (lit "sidecar@sha256:1");
     container_status (lit "api") (containerd ID) (lit "api@sha256:2")]] in
  let identity := identity_from_pods pods ID in
  expect_field container_name identity (lit "api")
  && expect_field image_id identity (lit "api@sha256:2").

Definition replaced (dead : str) : Pod unit :=
  pod_with_statuses [restarted_container_status (lit "api") (lit "containerd://replacement") dead].

Definition resolves_a_container_the_kubelet_has_already_replaced : bool :=
  let identity := identity_from_pods [replaced (containerd ID)] ID in
  expect_field namespace identity (lit "prod") && expect_field pod_name identity (lit "api-7d9")
  && expect_field container_name identity (lit "api").

Definition carries_the_dead_containers_id_not_its_replacement : bool :=
  expect_field container_id (identity_from_pods [replaced (containerd ID)] ID) (containerd ID).

Definition prefers_a_running_container_over_a_terminated_one : bool :=
  let running := pod_with (containerd ID) (lit "repo@sha256:abc") in
  let restarted := pod_with_statuses
    [restarted_container_status (lit "stale") (lit "containerd://replacement") (containerd ID)] in
  let identity := identity_from_pods [restarted; running] ID in
  expect_field container_name identity (lit "api")
  && expect_field container_id identity (containerd ID).

Definition finds_nothing_when_neither_the_running_nor_the_terminated_container_matches : bool :=
  assert_eq (identity_from_pods [replaced (lit "containerd://someone-else")] ID) None.

Definition finds_nothing_when_no_container_on_the_node_matches : bool :=
  assert_eq (identity_from_pods
    [pod_with (containerd (replicate 64 98)) (lit "x@sha256:1")] ID) None.

Definition finds_nothing_when_a_pod_has_no_container_statuses_yet : bool :=
  let pending := default_pod (Some {| container_statuses := None |}) in
  assert_eq (identity_from_pods [pending; default_pod None] ID) None.

Definition pruning_keeps_everything_resolution_reads : bool :=
  let victim := pod_with (containerd ID) (lit "repo@sha256:abc") in
  let pod : Pod unit := {|
    metadata := {| m_namespace := m_namespace (metadata victim); m_name := m_name (metadata victim);
                   managed_fields := Some tt; annotations := Some tt |};
    spec := Some tt;
    status := status victim |} in
  let full := identity_from_pods [pod] ID in
  let pruned := identity_from_pods [prune_for_cache pod] ID in
  assert_eq full pruned && bool_decide (is_Some full).

(** ** The cache *)

Definition Writer : Type := MapStore unit.

Definition cache_and_writer : Writer := rf_new.

Definition victim_pod : Pod unit := pod_with (containerd ID) (lit "repo@sha256:abc").

(** [writer.apply_watcher_event(..)], event by event. *)
Definition apply_events (evs : list (Event unit)) (writer : Writer) : Writer :=
  foldl (fun w ev => rf_apply ev w) writer evs.

Definition sync (pods : list (Pod unit)) (writer : Writer) : Writer :=
  apply_events (Init :: (InitApply <$> pods) ++ [InitDone]) writer.

Definition lookup (writer : Writer) : result (option ContainerIdentity) Error :=
  identity_of (rf_store writer) ID.

Definition is_err (writer : Writer) : bool :=
  match lookup writer with Err _ => true | Ok _ => false end.

Definition is_miss (writer : Writer) : bool :=
  match lookup writer with Ok None => true | _ => false end.

Definition is_hit (writer : Writer) : bool :=
  match lookup writer with Ok (Some _) => true | _ => false end.

Definition resolves_a_container_from_the_cache : bool :=
  match lookup (sync [victim_pod] cache_and_writer) with
  | Ok identity =>
      expect_field pod_name identity (lit "api-7d9")
      && expect_field container_id identity (containerd ID)
  | Err _ => false
  end.

Definition a_synced_cache_that_does_not_hold_the_container_is_a_miss_not_an_error : bool :=
  is_miss (sync [pod_with (containerd (replicate 64 98)) (lit "x@sha256:1")] cache_and_writer).

Definition an_unsynced_cache_is_an_error_not_a_miss : bool :=
  is_err cache_and_writer && is_err (apply_events [Init; InitApply victim_pod] cache_and_writer).

Definition a_lookup_starts_working_once_a_late_cache_syncs : bool :=
  is_err cache_and_writer && is_hit (sync [victim_pod] cache_and_writer).

Definition a_container_that_starts_after_the_initial_list_resolves : bool :=
  let writer := sync [] cache_and_writer in
  is_miss writer && is_hit (apply_events [Apply victim_pod] writer).

Definition a_deleted_pod_stops_resolving : bool :=
  is_miss (apply_events [Delete victim_pod] (sync [victim_pod] cache_and_writer)).

(** [wait_until_ready], as the bounded wait sees it across the states the store goes
    through before the timeout: the first answer, [None] when it elapses. *)
Definition wait_for (stores : list Writer) : option (result unit str) :=
  find_map (fun w => match latch (rf_store w) with
                     | Synced => Some (Ok tt)
                     | WriterDropped e => Some (Err e)
                     | NotReady => None
                     end) stores.

Definition waiting_returns_at_once_when_the_cache_is_already_synced : bool :=
  let writer := sync [victim_pod] cache_and_writer in
  assert_eq (wait_until_synced 30 (wait_for [writer])) None && is_hit writer.

(** The waiter polls the latch before and after the writer task has run: it is still parked at
    the first poll and returns at the second. *)
Definition waiting_returns_only_after_the_list_lands : bool :=
  let listed := sync [victim_pod] cache_and_writer in
  match wait_for [cache_and_writer], wait_for [cache_and_writer; listed] with
  | None, Some (Ok _) => is_hit listed
  | _, _ => false
  end.

Definition waiting_gives_up_rather_than_blocking_the_watch_loop_forever : bool :=
  bool_decide (is_Some (wait_until_synced 0 (wait_for [cache_and_writer]))) && is_err cache_and_writer.

(** ** The suite *)

Definition kubernetes_suite : list bool :=
  [extracts_the_container_id_from_every_supported_layout;
   extracts_from_a_multi_line_cgroup_v1_file;
   finds_nothing_for_a_process_outside_a_container;
   ignores_hex_runs_that_are_not_container_ids;
   carries_the_kubelet_prefixed_container_id_not_the_bare_cgroup_id;
   carries_the_image_id_verbatim;
   resolves_a_container_whose_image_id_is_empty;
   resolves_the_pod_and_container_names_alongside_the_ids;
   picks_the_matching_container_among_several_in_one_pod;
   resolves_a_container_the_kubelet_has_already_replaced;
   carries_the_dead_containers_id_not_its_replacement;
   prefers_a_running_container_over_a_terminated_one;
   finds_nothing_when_neither_the_running_nor_the_terminated_container_matches;
   finds_nothing_when_no_container_on_the_node_matches;
   finds_nothing_when_a_pod_has_no_container_statuses_yet;
   pruning_keeps_everything_resolution_reads;
   resolves_a_container_from_the_cache;
   a_synced_cache_that_does_not_hold_the_container_is_a_miss_not_an_error;
   an_unsynced_cache_is_an_error_not_a_miss;
   a_lookup_starts_working_once_a_late_cache_syncs;
   a_container_that_starts_after_the_initial_list_resolves;
   a_deleted_pod_stops_resolving;
   waiting_returns_at_once_when_the_cache_is_already_synced;
   waiting_returns_only_after_the_list_lands;
   waiting_gives_up_rather_than_blocking_the_watch_loop_forever].

(** Every test of the resolver passes on the model. *)
Lemma kubernetes_suite_passes : forallb id kubernetes_suite = true.
Proof. by vm_compute. Qed.
