(* ===== verification/Tests.v ===== *)
(** * Tests: the test suites of the other userspace modules, run on the model

    The [#[test]] functions of [watch.rs], [enrich.rs], [health.rs], [http.rs],
    [resolve.rs] and [tracepoint.rs] under [oom-watcher/src], one module each, as booleans
    the kernel evaluates. The suites of [metrics.rs] and [kubernetes.rs] are in MetricsTests
    and KubernetesTests. *)
From S2P Require Import Prelude Text Io Common Resolve Seams Health Tracepoint Watch.

#[export] Instance Liveness_eq_dec : EqDecision Liveness.
Proof. solve_decision. Defined.
#[export] Instance StatusCode_eq_dec : EqDecision StatusCode.
Proof. solve_decision. Defined.
#[export] Instance Mismatch_eq_dec : EqDecision Mismatch.
Proof. solve_decision. Defined.

(** The identity several suites share. *)
Definition test_identity : ContainerIdentity := {|
  namespace := lit "prod";
  pod_name := lit "api-7d9";
  container_name := lit "api";
  container_id := lit "containerd://abc123";
  image_id := lit "repo@sha256:def456";
|}.

(** ** [watch.rs] *)

Module WatchTests.

Definition source (events : list OomKillEvent) : VecSource :=
  {| vec_events := events; vec_drops := None |}.

Definition source_reporting_drops (events : list OomKillEvent) (drops : N) : VecSource :=
  {| vec_events := events; vec_drops := Some drops |}.

Definition raw (p : N) : OomKillEvent := {|
  pid := p;
  comm := lit "target" ++ replicate 10 0;
  total_vm := 100;
  anon_rss := 50;
  file_rss := 10;
  shmem_rss := 5;
  uid := 1000;
  pgtables := 2;
  oom_score_adj := 0;
|}.

Definition CLOCK : N := 1717000000.
Definition clock (reading : nat) : N := CLOCK.

Definition resolver (node : str) (b : Behavior) : option FakeResolver :=
  Some {| fake_node := node; behavior := b |}.

Definition standalone : option FakeResolver := None.

(** [run(source, resolver, &spy, clock, ..).await] on a source that ends: one turn per event
    and one more for the end; [None] if it had not returned. *)
Definition run_to_end (s : VecSource) (r : option FakeResolver)
    : option (LoopState VecSource SpyRecorder) :=
  let '(st, ended) := run clock r (replicate (S (length (vec_events s))) poll_turn)
                        (loop_start s spy_default) in
  if ended then Some st else None.

Definition spy (st : option (LoopState VecSource SpyRecorder)) : SpyRecorder :=
  from_option ls_recorder spy_default st.

Definition first_event (s : SpyRecorder) : option EnrichedOomEvent := head (spy_events s).

Definition enriches_and_records_a_resolved_event : bool :=
  let s := spy (run_to_end (source [raw 1234]) (resolver (lit "node-1") (BFound test_identity))) in
  assert_eq (length (spy_events s)) 1%nat
  && assert_eq (first_event s ≫= ev_node_name) (Some (lit "node-1"))
  && assert_eq (first_event s ≫= ev_namespace) (Some (lit "prod"))
  && assert_eq (first_event s ≫= ev_pod_name) (Some (lit "api-7d9"))
  && assert_eq (first_event s ≫= ev_container_name) (Some (lit "api"))
  && assert_eq (pid ∘ raw_event <$> first_event s) (Some 1234)
  && assert_eq (ev_timestamp <$> first_event s) (Some CLOCK)
  && assert_eq (spy_outcomes s) [(lit "node-1", lit "found")].

Definition keeps_node_but_no_identity_when_not_found : bool :=
  let s := spy (run_to_end (source [raw 1]) (resolver (lit "node-1") BNotFound)) in
  assert_eq (ev_node_name <$> first_event s) (Some (Some (lit "node-1")))
  && assert_eq (ev_namespace <$> first_event s) (Some None)
  && assert_eq (ev_container_id <$> first_event s) (Some None)
  && assert_eq (spy_outcomes s) [(lit "node-1", lit "not_found")].

Definition records_failure_outcome_and_keeps_node : bool :=
  let s := spy (run_to_end (source [raw 1]) (resolver (lit "node-1") BFail)) in
  assert_eq (ev_node_name <$> first_event s) (Some (Some (lit "node-1")))
  && assert_eq (ev_namespace <$> first_event s) (Some None)
  && assert_eq (spy_outcomes s) [(lit "node-1", lit "error")].

Definition standalone_mode_has_no_node_and_records_no_outcome : bool :=
  let s := spy (run_to_end (source [raw 1]) standalone) in
  assert_eq (ev_node_name <$> first_event s) (Some None) && assert_eq (spy_outcomes s) [].

Definition reports_the_sources_drop_total_alongside_each_event : bool :=
  let s := spy (run_to_end (source_reporting_drops [raw 1; raw 2] 4)
                  (resolver (lit "node-1") BNotFound)) in
  assert_eq (spy_drops s) [(lit "node-1", 4); (lit "node-1", 4)].

Definition reports_no_drops_when_the_source_cannot_observe_them : bool :=
  let s := spy (run_to_end (source [raw 1]) (resolver (lit "node-1") BNotFound)) in
  assert_eq (length (spy_events s)) 1%nat && assert_eq (spy_drops s) [].

Definition labels_drops_unknown_in_standalone_mode : bool :=
  let s := spy (run_to_end (source_reporting_drops [raw 1] 2) standalone) in
  assert_eq (spy_drops s) [(lit "unknown", 2)].

Definition stamps_a_heartbeat_after_every_event : bool :=
  let st := run_to_end (source [raw 1; raw 2; raw 3]) (resolver (lit "n") BNotFound) in
  assert_eq (ls_beats <$> st) (Some [CLOCK; CLOCK; CLOCK]).

(** The paused clock advances to each tick within the timeout of
    [3 * HEARTBEAT_INTERVAL_SECONDS + 5] seconds; the source never wakes the loop. *)
Definition stamps_a_heartbeat_while_no_events_arrive : bool :=
  let timeout := 3 * HEARTBEAT_INTERVAL_SECONDS + 5 in
  let ticks := N.to_nat (timeout / HEARTBEAT_INTERVAL_SECONDS) in
  let idle : Turn unit unit :=
    {| polled := Some tt; ticked := true; resolution_world := tt; drops_world := tt |} in
  let '(st, ended) := run clock standalone (replicate ticks idle)
                        (loop_start (tt : NeverSource) spy_default) in
  assert_eq (length (ls_beats st)) 3%nat && assert_eq (length (spy_events (ls_recorder st))) 0%nat
  && negb ended.

Definition drains_every_event_in_order : bool :=
  let s := spy (run_to_end (source [raw 1; raw 2; raw 3]) (resolver (lit "n") BNotFound)) in
  assert_eq (pid ∘ raw_event <$> spy_events s) [1; 2; 3].

Definition watch_suite : list bool :=
  [enriches_and_records_a_resolved_event;
   keeps_node_but_no_identity_when_not_found;
   records_failure_outcome_and_keeps_node;
   standalone_mode_has_no_node_and_records_no_outcome;
   reports_the_sources_drop_total_alongside_each_event;
   reports_no_drops_when_the_source_cannot_observe_them;
   labels_drops_unknown_in_standalone_mode;
   stamps_a_heartbeat_after_every_event;
   stamps_a_heartbeat_while_no_events_arrive;
   drains_every_event_in_order].

Lemma watch_suite_passes : forallb id watch_suite = true.
Proof. by vm_compute. Qed.

End WatchTests.

(** ** [enrich.rs] *)

Module EnrichTests.

Definition raw : OomKillEvent := {|
  pid := 1234;
  comm := lit "python" ++ replicate 10 0;
  total_vm := 100;
  anon_rss := 50;
  file_rss := 20;
  shmem_rss := 5;
  uid := 1000;
  pgtables := 8;
  oom_score_adj := 0;
|}.

Definition fills_all_fields_when_identity_resolved_on_node : bool :=
  let e := enrich raw (Some (lit "node-1")) (Some test_identity) 42 in
  assert_eq (ev_node_name e) (Some (lit "node-1"))
  && assert_eq (ev_namespace e) (Some (lit "prod"))
  && assert_eq (ev_pod_name e) (Some (lit "api-7d9"))
  && assert_eq (ev_container_name e) (Some (lit "api"))
  && assert_eq (ev_container_id e) (Some (lit "containerd://abc123"))
  && assert_eq (ev_image_id e) (Some (lit "repo@sha256:def456")).

(** The five assertions that no container field is set. *)
Definition no_identity (e : EnrichedOomEvent) : bool :=
  assert_eq (ev_namespace e) None && assert_eq (ev_pod_name e) None
  && assert_eq (ev_container_name e) None && assert_eq (ev_container_id e) None
  && assert_eq (ev_image_id e) None.

Definition keeps_node_when_identity_unresolved : bool :=
  let e := enrich raw (Some (lit "node-1")) None 42 in
  assert_eq (ev_node_name e) (Some (lit "node-1")) && no_identity e.

Definition all_none_in_standalone_mode : bool :=
  let e := enrich raw None None 42 in
  assert_eq (ev_node_name e) None && no_identity e.

Definition passes_raw_event_and_timestamp_through : bool :=
  let e := enrich raw None None 99 in
  assert_eq (ev_timestamp e) 99 && assert_eq (pid (raw_event e)) 1234
  && assert_eq (total_vm (raw_event e)) 100.

Lemma enrich_suite_passes :
  forallb id [fills_all_fields_when_identity_resolved_on_node; keeps_node_when_identity_unresolved;
    all_none_in_standalone_mode; passes_raw_event_and_timestamp_through] = true.
Proof. by vm_compute. Qed.

End EnrichTests.

(** ** [health.rs] *)

Module HealthTests.

Definition reports_starting_until_the_watch_loop_starts : bool :=
  assert_eq (liveness 1000 health_new) Starting.

Definition a_started_loop_that_has_not_ticked_yet_is_live : bool :=
  assert_eq (liveness 1000 (mark_started 1000 health_new)) (Live 0).

Definition stays_live_up_to_and_including_the_staleness_limit : bool :=
  assert_eq (liveness (1000 + HEARTBEAT_STALE_AFTER_SECONDS) (mark_started 1000 health_new))
    (Live HEARTBEAT_STALE_AFTER_SECONDS).

Definition goes_stale_one_second_past_the_limit : bool :=
  assert_eq (liveness (1001 + HEARTBEAT_STALE_AFTER_SECONDS) (mark_started 1000 health_new))
    (Stale (HEARTBEAT_STALE_AFTER_SECONDS + 1)).

Definition a_beat_clears_staleness : bool :=
  let health := mark_started 1000 health_new in
  let stale_at := 1001 + HEARTBEAT_STALE_AFTER_SECONDS in
  match liveness stale_at health with Stale _ => true | _ => false end
  && assert_eq (liveness stale_at (beat stale_at health)) (Live 0).

Definition a_clock_that_steps_backwards_reads_as_a_fresh_beat : bool :=
  assert_eq (liveness 900 (mark_started 1000 health_new)) (Live 0).

Lemma health_suite_passes :
  forallb id [reports_starting_until_the_watch_loop_starts;
    a_started_loop_that_has_not_ticked_yet_is_live;
    stays_live_up_to_and_including_the_staleness_limit; goes_stale_one_second_past_the_limit;
    a_beat_clears_staleness; a_clock_that_steps_backwards_reads_as_a_fresh_beat] = true.
Proof. by vm_compute. Qed.

End HealthTests.

(** ** [http.rs] *)

Module HttpTests.

Definition starting_is_not_yet_healthy : bool :=
  let '(status, body) := report Starting in
  assert_eq status SERVICE_UNAVAILABLE && contains body (lit "starting").

Definition a_live_loop_answers_200_with_its_age : bool :=
  let '(status, body) := report (Live 7) in
  assert_eq status OK && contains body (lit "7s ago").

Definition a_stale_loop_fails_the_probe_and_names_the_limit : bool :=
  let '(status, body) := report (Stale 400) in
  assert_eq status SERVICE_UNAVAILABLE && contains body (lit "400s")
  && contains body (show_N HEARTBEAT_STALE_AFTER_SECONDS).

Lemma http_suite_passes :
  forallb id [starting_is_not_yet_healthy; a_live_loop_answers_200_with_its_age;
    a_stale_loop_fails_the_probe_and_names_the_limit] = true.
Proof. by vm_compute. Qed.

End HttpTests.

(** ** [resolve.rs] *)

Module ResolveTests.

Definition identity_is_some_only_when_found : bool :=
  assert_eq (identity (Found test_identity)) (Some test_identity)
  && assert_eq (identity NotFoundOutcome) None
  && assert_eq (identity (Failed (anyhow (lit "boom")))) None.

Definition fake_resolver_yields_each_outcome : bool :=
  let fake b := {| fake_node := lit "node-1"; behavior := b |} in
  assert_eq (node_name (W:=unit) (fake (BFound test_identity))) (lit "node-1")
  && match resolve (fake (BFound test_identity)) tt 1234 with Found _ => true | _ => false end
  && match resolve (fake BNotFound) tt 1234 with NotFoundOutcome => true | _ => false end
  && match resolve (fake BFail) tt 1234 with Failed _ => true | _ => false end.

Lemma resolve_suite_passes :
  forallb id [identity_is_some_only_when_found; fake_resolver_yields_each_outcome] = true.
Proof. by vm_compute. Qed.

End ResolveTests.

(** ** [tracepoint.rs] *)

Module TracepointTests.

Definition parses_every_field_line : bool :=
  let fields := parse_format MODERN in
  assert_eq (length fields) 13%nat
  && bool_decide ((lit "total_vm", 16, 8) ∈ fields)
  && bool_decide ((lit "oom_score_adj", 64, 2) ∈ fields).

Definition reduces_data_loc_declaration_to_the_bare_name : bool :=
  bool_decide ((lit "comm", 12, 4) ∈ parse_format MODERN).

(** A literal with [\t] before every attribute, as the kernel separates them. *)
Definition field_text (decl offset size rest : string) : str :=
  lit decl ++ Chars.tab :: lit offset ++ Chars.tab :: lit size ++ lit rest.

Definition strips_array_suffix_from_field_name : bool :=
  assert_eq (parse_format (Chars.tab ::
      field_text "field:char comm[16];" "offset:12;" "size:16;" "" ++ Chars.tab :: lit "signed:1;"))
    [(lit "comm", 12, 16)].

Definition accepts_the_layout_the_probe_decodes : bool := assert_eq (check_layout MODERN) [].

Definition reports_every_field_the_pre_6_9_tracepoint_lacks : bool :=
  let mismatches := check_layout PRE_6_9 in
  assert_eq (length mismatches) 8%nat && forallb is_missing mismatches
  && bool_decide (Missing (lit "total_vm") ∈ mismatches)
  && negb (bool_decide (Missing (lit "pid") ∈ mismatches)).

(** [str::replace] of a non-empty pattern; [skip] counts the characters of a match still to
    pass over. *)
Fixpoint replace (from to : str) (skip : nat) (s : str) : str :=
  match s, skip with
  | [], _ => []
  | _ :: s', S skip => replace from to skip s'
  | c :: s', O =>
      if starts_with s from then to ++ replace from to (length from - 1) s'
      else c :: replace from to 0 s'
  end.

Definition reports_a_field_that_moved_rather_than_vanished : bool :=
  let shifted := replace (field_text "field:unsigned long pgtables;" "offset:56;" "size:8;" "")
                   (field_text "field:unsigned long pgtables;" "offset:60;" "size:8;" "") 0 MODERN in
  assert_eq (check_layout shifted) [Moved (lit "pgtables") (56, 8) (60, 8)].

Definition ignores_non_field_lines : bool :=
  assert_eq (parse_format (lit "name: mark_victim" ++ Chars.newline :: lit "ID: 1442"
    ++ Chars.newline :: lit "format:" ++ [Chars.newline])) [].

Lemma tracepoint_suite_passes :
  forallb id [parses_every_field_line; reduces_data_loc_declaration_to_the_bare_name;
    strips_array_suffix_from_field_name; accepts_the_layout_the_probe_decodes;
    reports_every_field_the_pre_6_9_tracepoint_lacks;
    reports_a_field_that_moved_rather_than_vanished; ignores_non_field_lines] = true.
Proof. by vm_compute. Qed.

End TracepointTests.
